(** * Live location broadcast and route guidance: a shallow embedding

  The driver client ([LocationScreen.tsx], [AutoDriverTracking.ts]) and the
  viewer client ([CustomerDetailScreen]) of the RouteBudget application,
  embedded function by function, with the properties of the specification
  stated and proved over the embedding. *)

From Stdlib Require Import ZArith QArith Qabs Qround Floats Reals Lia Lra Lqa.
From Stdlib Require Import List String Ascii Bool Qpower.
Import ListNotations.
Close Scope Q_scope.
Close Scope R_scope.

(** ** JavaScript numbers

  The source computes on JavaScript numbers, IEEE 754 binary64 values.  The
  code is embedded once, over the interface [JsNumber] of the operations it
  uses, and read at binary64 ([Binary64], what the program runs on) and,
  where a statement is about the formula rather than its rounding, at an
  exact field. *)

Declare Scope js_scope.
Delimit Scope js_scope with js.

Class JsNumber : Type := {
num : Type;
lit : Z -> num;               (* an integer literal of the program text *)
add : num -> num -> num;
sub : num -> num -> num;
mul : num -> num -> num;
div : num -> num -> num;
leb : num -> num -> bool;     (* [x <= y]; false when an operand is NaN *)
ltb : num -> num -> bool      (* [x < y];  false when an operand is NaN *)
}.

Notation "x + y" := (add x y) : js_scope.
Notation "x - y" := (sub x y) : js_scope.
Notation "x * y" := (mul x y) : js_scope.
Notation "x / y" := (div x y) : js_scope.
Notation "x <=? y" := (leb x y) : js_scope.
Notation "x <? y" := (ltb x y) : js_scope.
Notation "x >=? y" := (leb y x) (at level 70) : js_scope.
Notation "x >? y" := (ltb y x) (at level 70) : js_scope.

(** The functions of the platform's [Math] object the distance code calls.
  ECMAScript leaves their precision to the implementation, so they are a
  parameter of the model. *)
Class JsMath (N : JsNumber) : Type := {
Math_PI : num;
Math_sin : num -> num;
Math_cos : num -> num;
Math_sqrt : num -> num;
Math_atan2 : num -> num -> num
}.

(** ** Coordinates and great-circle distance *)

Section Geometry.
Context {N : JsNumber} {M : JsMath N}.
Local Open Scope js_scope.

(** [interface LatLng] / [interface LocationCoords]. *)
Record LatLng : Type := { latitude : num; longitude : num }.

(** LocationScreen.tsx: [const toRadians = (degrees) => (degrees * Math.PI) / 180]. *)
Definition toRadians (degrees : num) : num := (degrees * Math_PI) / lit 180.

(** LocationScreen.tsx, [haversineDistanceInMeters]. *)
Definition haversineDistanceInMeters (a b : LatLng) : num :=
  let EARTH_RADIUS := lit 6371000 in
  let dLat := toRadians (latitude b - latitude a) in
  let dLon := toRadians (longitude b - longitude a) in
  let lat1 := toRadians (latitude a) in
  let lat2 := toRadians (latitude b) in
  let sinDLat := Math_sin (dLat / lit 2) in
  let sinDLon := Math_sin (dLon / lit 2) in
  let h := sinDLat * sinDLat + Math_cos lat1 * Math_cos lat2 * sinDLon * sinDLon in
  let c := lit 2 * Math_atan2 (Math_sqrt h) (Math_sqrt (lit 1 - h)) in
  EARTH_RADIUS * c.

(** CustomerDetailScreen, [calculateDistance]. *)
Definition calculateDistance (loc1 loc2 : LatLng) : num :=
  let R := lit 6371 in
  let dLat := (latitude loc2 - latitude loc1) * Math_PI / lit 180 in
  let dLon := (longitude loc2 - longitude loc1) * Math_PI / lit 180 in
  let a :=
    Math_sin (dLat / lit 2) * Math_sin (dLat / lit 2) +
    Math_cos (latitude loc1 * Math_PI / lit 180) * Math_cos (latitude loc2 * Math_PI / lit 180) *
    Math_sin (dLon / lit 2) * Math_sin (dLon / lit 2) in
  let c := lit 2 * Math_atan2 (Math_sqrt a) (Math_sqrt (lit 1 - a)) in
  R * c * lit 1000.

(** The angle both functions multiply by the Earth's radius: the [c] of
    [haversineDistanceInMeters]. *)
Definition centralAngle (a b : LatLng) : num :=
  let dLat := toRadians (latitude b - latitude a) in
  let dLon := toRadians (longitude b - longitude a) in
  let lat1 := toRadians (latitude a) in
  let lat2 := toRadians (latitude b) in
  let sinDLat := Math_sin (dLat / lit 2) in
  let sinDLon := Math_sin (dLon / lit 2) in
  let h := sinDLat * sinDLat + Math_cos lat1 * Math_cos lat2 * sinDLon * sinDLon in
  lit 2 * Math_atan2 (Math_sqrt h) (Math_sqrt (lit 1 - h)).
End Geometry.

Arguments LatLng N : clear implicits.

(** ** Rendering numbers as text *)

(** The conversions between numbers and text that [formatDistance] calls. *)
Class JsFormat (N : JsNumber) : Type := {
  Number_isFinite : num -> bool;
  Math_round : num -> num;          (* nearest integer, ties towards +infinity *)
  Math_max : num -> num -> num;
  toFixed : num -> nat -> string;   (* [x.toFixed(digits)] *)
  Number : string -> num;           (* [Number(text)] *)
  toString : num -> string          (* the conversion a template literal applies *)
}.

Section Decimal.
Local Open Scope Z_scope.

Definition digit (d : Z) : ascii := ascii_of_nat (48 + Z.to_nat d).

(** The [k] low decimal digits of [n], most significant first. *)
Fixpoint low_digits (k : nat) (n : Z) (acc : string) : string :=
  match k with
  | O => acc
  | S k' => low_digits k' (n / 10) (String (digit (n mod 10)) acc)
  end.

Fixpoint count_digits (fuel : nat) (n : Z) : nat :=
  match fuel with
  | O => 1
  | S f => if n <? 10 then 1%nat else S (count_digits f (n / 10))
  end.

(** A natural number in decimal, without leading zeros. *)
Definition decimal_nat (n : Z) : string :=
  low_digits (count_digits (Z.to_nat (Z.log2 n)) n) n "".

Definition decimal (z : Z) : string :=
  if z <? 0 then String "-" (decimal_nat (- z)) else decimal_nat z.

(** [m / 10^k] written with exactly [k] digits after the point. *)
Definition fixed_point (neg : bool) (m : Z) (k : nat) : string :=
  let ip := decimal_nat (m / 10 ^ Z.of_nat k) in
  let body := match k with
              | O => ip
              | _ => (ip ++ String "." (low_digits k (m mod 10 ^ Z.of_nat k) ""))%string
              end in
  if neg then String "-" body else body.

Definition digit_value (c : ascii) : option Z :=
  let n := Z.of_nat (nat_of_ascii c) in
  if (48 <=? n) && (n <=? 57) then Some (n - 48) else None.

(** Reads a run of decimal digits: the number read so far, how many digits
    were read, and the text that follows. *)
Fixpoint read_digits (s : string) (acc : Z) (count : nat) : Z * nat * string :=
  match s with
  | EmptyString => (acc, count, s)
  | String c rest =>
      match digit_value c with
      | Some d => read_digits rest (10 * acc + d) (S count)
      | None => (acc, count, s)
      end
  end.

(** A decimal numeral [-ddd.ddd] as a fraction; [None] for any other text. *)
Definition read_decimal (s : string) : option Q :=
  let '(neg, body) := match s with
                      | String "-" rest => (true, rest)
                      | _ => (false, s)
                      end in
  let '(ip, ni, rest) := read_digits body 0 0 in
  let result (m : Z) (k : nat) :=
    Some ((if neg then - m else m) # Pos.pow 10 (Pos.of_nat k))%Q in
  match rest with
  | EmptyString => if Nat.eqb ni 0 then None else Some (inject_Z (if neg then - ip else ip))
  | String "." frac =>
      let '(m, nf, rest') := read_digits frac ip 0 in
      match rest' with
      | EmptyString =>
          if Nat.eqb (ni + nf) 0 then None
          else if Nat.eqb nf 0 then Some (inject_Z (if neg then - ip else ip))
          else result m nf
      | _ => None
      end
  | _ => None
  end.
End Decimal.

Section FormatDistance.
Context {N : JsNumber} {F : JsFormat N}.
Local Open Scope string_scope.
Local Open Scope js_scope.

(** CustomerDetailScreen, [formatDistance]. *)
Definition formatDistance (meters : num) : string :=
  if negb (Number_isFinite meters) || (meters <? lit 0) then "0 m"
  else if meters >=? lit 1000 then
    let km := meters / lit 1000 in
    (if km >=? lit 10 then toString (Math_round km) else toString (Number (toFixed km 1)))
      ++ " km"
  else if meters >=? lit 100 then
    toString (Math_round (meters / lit 10) * lit 10) ++ " m"
  else
    toString (Math_max (lit 5) (Math_round (meters / lit 5) * lit 5)) ++ " m".
End FormatDistance.

(** ** Exact numbers

  The finite doubles read as the fractions they are, with every operation
  exact; [NaN] stands for the values that are no finite number. *)

Module Exact.
Local Open Scope Q_scope.

Inductive exact : Type := Val (q : Q) | NaN.

Definition lift2 (f : Q -> Q -> Q) (x y : exact) : exact :=
  match x, y with
  | Val a, Val b => Val (f a b)
  | _, _ => NaN
  end.

Definition test2 (f : Q -> Q -> bool) (x y : exact) : bool :=
  match x, y with
  | Val a, Val b => f a b
  | _, _ => false
  end.

Definition divide (x y : exact) : exact :=
  match x, y with
  | Val a, Val b => if Qeq_bool b 0 then NaN else Val (a / b)
  | _, _ => NaN
  end.

Definition Qlt_bool (a b : Q) : bool := negb (Qle_bool b a).

#[export] Instance number : JsNumber := {|
  num := exact;
  lit := fun z => Val (inject_Z z);
  add := lift2 Qplus;
  sub := lift2 Qminus;
  mul := lift2 Qmult;
  div := divide;
  leb := test2 Qle_bool;
  ltb := test2 Qlt_bool
|}.

(** [Math.round]: the integer nearest to [q], the larger one on a tie. *)
Definition round (q : Q) : Z := Qfloor (q + (1 # 2)).

(** [x.toFixed(digits)]: "let n be an integer for which n / 10^digits - x is
    as close to zero as possible; if there are two such n, pick the larger",
    applied to the absolute value, with the sign put in front. *)
Definition to_fixed (q : Q) (digits : nat) : string :=
  let neg := Qlt_bool q 0 in
  let n := round (Qabs q * inject_Z (10 ^ Z.of_nat digits)) in
  fixed_point neg n digits.

(** The least [k <= fuel] for which [q * 10^k] is an integer. *)
Fixpoint decimal_places (fuel : nat) (k : nat) (q : Q) : option nat :=
  if (Qnum q mod Z.pos (Qden q) =? 0)%Z then Some k
  else match fuel with
       | O => None
       | S f => decimal_places f (S k) (q * 10)
       end.

(** The decimal numeral of a fraction: digits, and a point when it is no
    integer.  A fraction with no finite decimal expansion is the value of
    no numeral; it is written as a quotient. *)
Definition to_string (q : Q) : string :=
  match decimal_places (Pos.to_nat (Pos.size (Qden q))) 0 q with
  | Some k =>
      let m := Qfloor (Qabs q * inject_Z (10 ^ Z.of_nat k)) in
      fixed_point (Qlt_bool q 0) m k
  | None => (decimal (Qnum q) ++ "/" ++ decimal_nat (Z.pos (Qden q)))%string
  end.

#[export] Instance format : JsFormat number := {|
  Number_isFinite := fun x => match x with Val _ => true | NaN => false end;
  Math_round := fun x => match x with Val q => Val (inject_Z (round q)) | NaN => NaN end;
  Math_max := fun x y => match x, y with
                         | Val a, Val b => if Qle_bool a b then Val b else Val a
                         | _, _ => NaN
                         end;
  toFixed := fun x digits => match x with Val q => to_fixed q digits | NaN => "NaN"%string end;
  Number := fun s => match s with
                     | EmptyString => Val 0
                     | _ => match read_decimal s with Some q => Val q | None => NaN end
                     end;
  toString := fun x => match x with Val q => to_string q | NaN => "NaN"%string end
|}.

End Exact.

(** ** Binary64: the numbers the program runs on *)

Module Binary64.
Local Open Scope Z_scope.

(** The exact value of a finite double, as a fraction. *)
Definition exact_value (x : float) : option Q :=
  match Prim2SF x with
  | S754_zero _ => Some 0%Q
  | S754_finite s m e =>
      let v := if 0 <=? e then inject_Z (Z.pos m * 2 ^ e) else Qmake (Z.pos m) (Pos.pow 2 (Z.to_pos (- e))) in
      Some (if s then Qopp v else v)
  | _ => None
  end.

(** The double nearest to the fraction [n / d], ties to even. *)
Definition of_fraction (n : Z) (d : positive) : float :=
  match n with
  | Z0 => PrimFloat.zero
  | _ =>
      let '(q, e, l) := SFdiv_core_binary prec emax (Z.abs n) 0 (Z.pos d) 0 in
      SF2Prim (binary_round_aux prec emax (n <? 0) q e l)
  end.

Definition of_Q (q : Q) : float := of_fraction (Qnum q) (Qden q).
Definition of_Z (z : Z) : float := of_fraction z 1.

#[export] Instance number : JsNumber := {|
  num := float;
  lit := of_Z;
  add := PrimFloat.add;
  sub := PrimFloat.sub;
  mul := PrimFloat.mul;
  div := PrimFloat.div;
  leb := PrimFloat.leb;
  ltb := PrimFloat.ltb
|}.

(** *** Numbers and text *)

Definition is_nan (x : float) : bool := negb (PrimFloat.eqb x x).

Definition sign_bit (x : float) : bool :=
  match Prim2SF x with
  | S754_zero s | S754_infinity s | S754_finite s _ _ => s
  | S754_nan => false
  end.

(** [Math.round]: the nearest integer, the larger one on a tie; the sign of
    a zero result is the argument's. *)
Definition round (x : float) : float :=
  match exact_value x with
  | None => x
  | Some q =>
      let k := Exact.round q in
      if (k =? 0) && sign_bit x then PrimFloat.neg_zero else of_Z k
  end.

(** [Math.max] of two numbers. *)
Definition max (x y : float) : float :=
  if is_nan x || is_nan y then PrimFloat.nan
  else if PrimFloat.ltb x y then y
  else if PrimFloat.ltb y x then x
  else if sign_bit x then y else x.

(** [10^z] as a fraction. *)
Definition pow10 (z : Z) : Q :=
  if 0 <=? z then inject_Z (10 ^ z) else Qmake 1 (Pos.pow 10 (Z.to_pos (- z))).

(** The [n] with [10^(n-1) <= q < 10^n], from an estimate. *)
Fixpoint magnitude (fuel : nat) (q : Q) (n : Z) : Z :=
  match fuel with
  | O => n
  | S f =>
      if Exact.Qlt_bool q (pow10 (n - 1)) then magnitude f q (n - 1)
      else if Qle_bool (pow10 n) q then magnitude f q (n + 1)
      else n
  end.

(** Number::toString's choice of digits for a positive finite [x] of exact
    value [q]: the least [k] such that some [s] of [k] digits has
    [s * 10^(n-k)] round to [x], and then the [s] closest to [q] (the even
    one on a tie).  The result is [(s, k, n)]. *)
Fixpoint shortest (fuel : nat) (x : float) (q : Q) (n : Z) (k : Z) : Z * Z * Z :=
  let scaled := Qmult q (pow10 (k - n)) in
  let lo := Qfloor scaled in
  let hi := lo + 1 in
  let ok (s : Z) := PrimFloat.eqb (of_Q (Qred (Qmult (inject_Z s) (pow10 (n - k))))) x in
  let twice := Qfloor (Qmult (Qminus scaled (inject_Z lo)) (inject_Z 2 * pow10 30)) in
  let nearer_lo := (twice <? 10 ^ 30) || ((twice =? 10 ^ 30) && Z.even lo) in
  let pick (s : Z) := if s =? 10 ^ k then (1, 1, n + 1) else (s, k, n) in
  match fuel with
  | O => pick lo
  | S f =>
      match ok lo, ok hi with
      | true, true => pick (if nearer_lo then lo else hi)
      | true, false => pick lo
      | false, true => pick hi
      | false, false => shortest f x q n (k + 1)
      end
  end.

Fixpoint zeros (n : nat) : string :=
  match n with
  | O => EmptyString
  | S m => String "0" (zeros m)
  end.

(** Number::toString, given the digits [s] ([k] of them) and the exponent [n]. *)
Definition layout (s k n : Z) : string :=
  let digits := low_digits (Z.to_nat k) s "" in
  if (k <=? n) && (n <=? 21) then (digits ++ zeros (Z.to_nat (n - k)))%string
  else if (0 <? n) && (n <=? 21) then
    (substring 0 (Z.to_nat n) digits ++ "." ++ substring (Z.to_nat n) (Z.to_nat (k - n)) digits)%string
  else if (-6 <? n) && (n <=? 0) then ("0." ++ zeros (Z.to_nat (- n)) ++ digits)%string
  else
    let e := n - 1 in
    let mark := if e <? 0 then "e-"%string else "e+"%string in
    let exponent := (mark ++ decimal_nat (Z.abs e))%string in
    if k =? 1 then (digits ++ exponent)%string
    else (substring 0 1 digits ++ "." ++ substring 1 (Z.to_nat (k - 1)) digits ++ exponent)%string.

(** Number::toString: the conversion of a number to text. *)
Definition to_string (x : float) : string :=
  match exact_value x with
  | None =>
      if is_nan x then "NaN"%string
      else if sign_bit x then "-Infinity"%string else "Infinity"%string
  | Some q =>
      if Qeq_bool q 0 then "0"%string
      else
        let a := Qabs q in
        let estimate := (Z.log2 (Qnum a) - Z.log2 (Z.pos (Qden a))) * 30103 / 100000 in
        let n := magnitude 8 a estimate in
        let '(s, k, n') := shortest 17 (PrimFloat.abs x) a n 1 in
        let body := layout s k n' in
        if sign_bit x then String "-" body else body
  end.

(** [x.toFixed(digits)]: a number that is not finite or is 10^21 or more is
    written as Number::toString writes it. *)
Definition to_fixed (x : float) (digits : nat) : string :=
  match exact_value x with
  | None => to_string x
  | Some q => if Qle_bool (pow10 21) (Qabs q) then to_string x else Exact.to_fixed q digits
  end.

(** [Number(text)] for a decimal numeral, the empty text (which is 0) and
    any other text (NaN). *)
Definition of_string (s : string) : float :=
  match s with
  | EmptyString => PrimFloat.zero
  | _ => match read_decimal s with
         | Some q => of_Q (Qred q)
         | None => PrimFloat.nan
         end
  end.

#[export] Instance format : JsFormat number := {|
  Number_isFinite := fun x => match exact_value x with Some _ => true | None => false end;
  Math_round := round;
  Math_max := max;
  toFixed := to_fixed;
  Number := of_string;
  toString := to_string
|}.

(** *** The platform's [Math]

    [Math.PI] is the double nearest to pi and [Math.sqrt] the IEEE square
    root; the precision of sine, cosine and arc tangent is the platform's. *)
Definition math (sin cos : float -> float) (atan2 : float -> float -> float) : JsMath number := {|
  Math_PI := 0x1.921fb54442d18p+1%float;
  Math_sin := sin;
  Math_cos := cos;
  Math_sqrt := PrimFloat.sqrt;
  Math_atan2 := atan2
|}.

(** *** A reference platform

    Sine, cosine and arc tangent evaluated by their series in fixed point
    with [precision] fractional bits, far beyond a double's 53, and rounded
    to the nearest double.  The integer [X] stands for [X / 2^precision]. *)

Definition precision : Z := 200.
Definition unit : Z := 2 ^ precision.
Definition fixed_mul (a b : Z) : Z := Z.shiftr (a * b) precision.
Definition fixed_of_fraction (n d : Z) : Z := (n * unit) / d.

(** [x - x^3/3 + x^5/5 - ...], summed until the terms vanish. *)
Fixpoint atan_series (fuel : nat) (power x2 k acc : Z) : Z :=
  match fuel with
  | O => acc
  | S f =>
      if power =? 0 then acc
      else atan_series f (- fixed_mul power x2) x2 (k + 2) (acc + power / k)
  end.

(** The arc tangent of a small argument. *)
Definition atan_small (x : Z) : Z := atan_series 400 x (fixed_mul x x) 1 0.

(** Machin's formula. *)
Definition pi : Z := 16 * atan_small (fixed_of_fraction 1 5) - 4 * atan_small (fixed_of_fraction 1 239).

(** The arc tangent of [n / d], for [0 <= n] and [0 < d]: the argument is
    brought below 1/4 by the addition formula around 0, 1/2 or 1. *)
Definition atan_fraction (n d : Z) : Z :=
  let below_one (n d : Z) : Z :=
    if 4 * n <=? d then atan_small (fixed_of_fraction n d)
    else if 4 * n <=? 3 * d
         then atan_small (fixed_of_fraction 1 2) + atan_small (fixed_of_fraction (2 * n - d) (2 * d + n))
         else pi / 4 + atan_small (fixed_of_fraction (n - d) (d + n)) in
  if n <=? d then below_one n d else pi / 2 - below_one d n.

(** [term + term * (-x^2) / ((k+1)(k+2)) + ...]: the sine series from
    [term = x], [k = 1], the cosine series from [term = 1], [k = 0]. *)
Fixpoint sin_series (fuel : nat) (term x2 k acc : Z) : Z :=
  match fuel with
  | O => acc
  | S f =>
      if term =? 0 then acc
      else sin_series f (- fixed_mul term x2 / ((k + 1) * (k + 2))) x2 (k + 2) (acc + term)
  end.

(** The value of a finite double in fixed point. *)
Definition to_fixed_point (x : float) : option Z :=
  match Prim2SF x with
  | S754_zero _ => Some 0
  | S754_finite s m e =>
      let v := Z.shiftl (Z.pos m) (e + precision) in
      Some (if s then - v else v)
  | _ => None
  end.

Definition of_fixed_point (x : Z) : float := of_fraction x (Z.to_pos unit).

(** The argument brought into [-pi, pi]. *)
Definition reduce (x : Z) : Z :=
  let r := x mod (2 * pi) in
  if r <=? pi then r else r - 2 * pi.

(** Below [2^-27] the sine of [x] rounds to [x] and its cosine to 1. *)
Definition tiny (x : float) : bool := PrimFloat.ltb (PrimFloat.abs x) 0x1p-27%float.

Definition reference_sin (x : float) : float :=
  match to_fixed_point x with
  | None => PrimFloat.nan
  | Some v =>
      if tiny x then x
      else let r := reduce v in of_fixed_point (sin_series 200 r (fixed_mul r r) 1 0)
  end.

Definition reference_cos (x : float) : float :=
  match to_fixed_point x with
  | None => PrimFloat.nan
  | Some v =>
      if tiny x then PrimFloat.one
      else let r := reduce v in of_fixed_point (sin_series 200 unit (fixed_mul r r) 0 0)
  end.

(** The sign and the absolute value, as numerator and denominator, of a
    finite double. *)
Definition fraction_of (x : float) : option (bool * Z * Z) :=
  match Prim2SF x with
  | S754_zero s => Some (s, 0, 1)
  | S754_finite s m e =>
      Some (s, if 0 <=? e then Z.pos m * 2 ^ e else Z.pos m, if 0 <=? e then 1 else 2 ^ (- e))
  | _ => None
  end.

(** [Math.atan2(y, x)] for finite arguments (NaN for the others). *)
Definition reference_atan2 (y x : float) : float :=
  match fraction_of y, fraction_of x with
  | Some (sy, ny, dy), Some (sx, nx, dx) =>
      let n := ny * dx in
      let d := dy * nx in
      let signed (v : float) := if sy then PrimFloat.opp v else v in
      if n =? 0 then (if sx then signed (of_fixed_point pi) else y)
      else if d =? 0 then signed (of_fixed_point (pi / 2))
      else
        let a := atan_fraction n d in
        if sx then signed (of_fixed_point (pi - a))
        else if PrimFloat.ltb (PrimFloat.div (PrimFloat.abs y) (PrimFloat.abs x)) 0x1p-27%float
             then PrimFloat.div y x
             else signed (of_fixed_point a)
  | _, _ => PrimFloat.nan
  end.

#[export] Instance reference : JsMath number := math reference_sin reference_cos reference_atan2.

Definition coordinate (lat lng : float) : LatLng number := @Build_LatLng number lat lng.

End Binary64.

(** ** Real numbers: the distance formula in exact arithmetic *)

Module Real.
Local Open Scope R_scope.

#[export] Instance number : JsNumber := {|
  num := R;
  lit := IZR;
  add := Rplus;
  sub := Rminus;
  mul := Rmult;
  div := Rdiv;
  leb := fun x y => if Rle_dec x y then true else false;
  ltb := fun x y => if Rlt_dec x y then true else false
|}.

(** The angle of the point [(x, y)], in [(-pi, pi]]. *)
Definition atan2 (y x : R) : R :=
  if Rlt_dec 0 x then atan (y / x)
  else if Rlt_dec x 0 then (if Rle_dec 0 y then atan (y / x) + PI else atan (y / x) - PI)
  else if Rlt_dec 0 y then PI / 2
  else if Rlt_dec y 0 then - (PI / 2)
  else 0.

#[export] Instance math : JsMath number := {|
  Math_PI := PI;
  Math_sin := sin;
  Math_cos := cos;
  Math_sqrt := sqrt;
  Math_atan2 := atan2
|}.

End Real.

(** ** Instruction text

    JavaScript strings are read as strings of ASCII characters: [\s] is the
    ASCII white space and the case mappings act on the ASCII letters. *)

Section Instructions.
Local Open Scope string_scope.

Definition code (c : ascii) : nat := nat_of_ascii c.

(** The characters a regular expression's [\s] matches. *)
Definition is_space (c : ascii) : bool :=
  let n := code c in
  ((9 <=? n) && (n <=? 13))%nat || (n =? 32)%nat.

(** The characters [[A-Za-z]] matches. *)
Definition is_letter (c : ascii) : bool :=
  let n := code c in
  ((65 <=? n) && (n <=? 90))%nat || ((97 <=? n) && (n <=? 122))%nat.

Definition lower (c : ascii) : ascii :=
  let n := code c in
  if ((65 <=? n) && (n <=? 90))%nat then ascii_of_nat (n + 32) else c.

(** [s.toLowerCase()]. *)
Fixpoint toLowerCase (s : string) : string :=
  match s with
  | EmptyString => EmptyString
  | String c rest => String (lower c) (toLowerCase rest)
  end.

(** [s.replace(/<[^>]*>?/g, "")]: from each ["<"] up to and including the
    next [">"], or up to the end of the text when there is none. *)
Fixpoint strip_tags (inTag : bool) (s : string) : string :=
  match s with
  | EmptyString => EmptyString
  | String c rest =>
      if inTag then strip_tags (negb (Ascii.eqb c ">")) rest
      else if Ascii.eqb c "<" then strip_tags true rest
      else String c (strip_tags false rest)
  end.

(** [s.replace(/pattern/g, replacement)] for a literal, non-empty pattern:
    every occurrence, leftmost first, without overlap.  [skip] counts the
    characters of an occurrence still to be passed over. *)
Fixpoint replace_all (pattern replacement : string) (skip : nat) (s : string) : string :=
  match s with
  | EmptyString => EmptyString
  | String c rest =>
      match skip with
      | S k => replace_all pattern replacement k rest
      | O =>
          if String.prefix pattern s
          then replacement ++ replace_all pattern replacement (String.length pattern - 1) rest
          else String c (replace_all pattern replacement 0 rest)
      end
  end.

(** [const stripHtmlTags = (value) => value.replace(/<[^>]*>?/g, "").replace(/&nbsp;/g, " ")]. *)
Definition stripHtmlTags (value : string) : string :=
  replace_all "&nbsp;" " " 0 (strip_tags false value).

(** [s.replace(/\s+/g, " ")]: every run of white space becomes one blank. *)
Fixpoint collapse_spaces (inRun : bool) (s : string) : string :=
  match s with
  | EmptyString => EmptyString
  | String c rest =>
      if is_space c
      then (if inRun then collapse_spaces true rest else String " " (collapse_spaces true rest))
      else String c (collapse_spaces false rest)
  end.

Fixpoint trimStart (s : string) : string :=
  match s with
  | EmptyString => EmptyString
  | String c rest => if is_space c then trimStart rest else s
  end.

(** Drops trailing white space: a character is kept when it is no white
    space or something is kept after it. *)
Fixpoint trimEnd (s : string) : string :=
  match s with
  | EmptyString => EmptyString
  | String c rest =>
      match trimEnd rest with
      | EmptyString => if is_space c then EmptyString else String c EmptyString
      | kept => String c kept
      end
  end.

(** [s.trim()]. *)
Definition trim (s : string) : string := trimEnd (trimStart s).

(** The longest prefix of characters satisfying [p], and what follows it. *)
Fixpoint span (p : ascii -> bool) (s : string) : string * string :=
  match s with
  | EmptyString => (EmptyString, EmptyString)
  | String c rest =>
      if p c then let '(taken, after) := span p rest in (String c taken, after)
      else (EmptyString, s)
  end.

(** [cleaned.match(headPattern)], where the pattern is [^Head], then [\s+],
    then the group [[A-Za-z]+], then a second group taking any characters up
    to the end: the two groups, when the text is ["Head"], white space, at
    least one letter and then anything.  ([cleaned] holds no line break, so
    the second group takes the rest of the text.) *)
Definition headMatch (cleaned : string) : option (string * string) :=
  if String.prefix "Head" cleaned then
    let '(spaces, after_spaces) := span is_space (substring 4 (String.length cleaned - 4) cleaned) in
    let '(letters, remainder) := span is_letter after_spaces in
    match spaces, letters with
    | EmptyString, _ => None
    | _, EmptyString => None
    | _, _ => Some (letters, remainder)
    end
  else None.

Definition straightWords : list string :=
  ["north"; "south"; "east"; "west"; "northeast"; "northwest"; "southeast"; "southwest"].

(** [remainder.replace(/^on\s+/i, "on ")]. *)
Definition replace_leading_on (remainder : string) : string :=
  if String.prefix "on" (toLowerCase (substring 0 2 remainder)) then
    let '(spaces, after) := span is_space (substring 2 (String.length remainder - 2) remainder) in
    match spaces with
    | EmptyString => remainder
    | _ => "on " ++ after
    end
  else remainder.

(** CustomerDetailScreen, [normalizeInstruction]. *)
Definition normalizeInstruction (value : string) : string :=
  let cleaned := trim (collapse_spaces false (stripHtmlTags value)) in
  match headMatch cleaned with
  | Some (group1, group2) =>
      let direction := toLowerCase group1 in
      let remainder := trim group2 in
      if existsb (String.eqb direction) straightWords then
        let suffix := match remainder with
                      | EmptyString => ""
                      | _ => " " ++ replace_leading_on remainder
                      end in
        trim ("Go straight" ++ suffix)
      else cleaned
  | None => cleaned
  end.

(** [RouteStepInfo["turnType"]]. *)
Inductive TurnType : Type := straight | left | right | slight_left | slight_right | u_turn.

(** [/keyword/.test(text)] for a literal keyword: it occurs somewhere in the text. *)
Fixpoint includes (keyword text : string) : bool :=
  String.prefix keyword text ||
  match text with
  | EmptyString => false
  | String _ rest => includes keyword rest
  end.

(** CustomerDetailScreen, [extractTurnType]. *)
Definition extractTurnType (raw : string) : TurnType :=
  let text := toLowerCase raw in
  if includes "u-turn" text || includes "u turn" text then u_turn
  else if includes "slight left" text then slight_left
  else if includes "slight right" text then slight_right
  else if includes "turn left" text || includes "left onto" text || includes "keep left" text then left
  else if includes "turn right" text || includes "right onto" text || includes "keep right" text then right
  else straight.
End Instructions.


(** ** The realtime channel: sockets, timers and messages *)

Inductive TripPhase : Type := idle | to_pickup | pickup_reached | to_drop | completed.

Definition TripPhase_eqb (a b : TripPhase) : bool :=
  match a, b with
  | idle, idle | to_pickup, to_pickup | pickup_reached, pickup_reached
  | to_drop, to_drop | completed, completed => true
  | _, _ => false
  end.

(** [WebSocket.readyState]. *)
Inductive ReadyState : Type := CONNECTING | OPEN | CLOSING | CLOSED.

(** JavaScript truthiness of a value that is a string or [null]. *)
Definition truthy (v : option string) : bool :=
  match v with
  | Some s => negb (String.eqb s "")
  | None => false
  end.

Section Channel.
Context {N : JsNumber}.

(** The [location] object of a driver snapshot.  Its [timestamp], read from
    the clock when the message is built, is left out. *)
Record Snapshot : Type := {
  snap_driverId : string;
  snap_position : LatLng N;
  snap_phase : TripPhase;
  snap_pickup : option (LatLng N);
  snap_drop : option (LatLng N);
  snap_pickupAddress : option string;
  snap_dropAddress : option string
}.

(** The JSON messages the clients send, by their [type]. *)
Inductive Message : Type :=
| register_driver (driverId cabNumber : option string)
| register_viewer (viewerId trackDriverId : string)
| ping
| location (snapshot : Snapshot)
| DRIVER_DISCONNECT (driverId cabNumber : option string).

Definition is_location (m : Message) : bool :=
  match m with
  | location _ => true
  | _ => false
  end.

(** A socket object: its state, the messages handed to it while open (oldest
    first), the close code the client gave, and what its event handlers close
    over ([None] once the handlers are removed). *)
Record WebSocket (C : Type) : Type := {
  readyState : ReadyState;
  outbox : list Message;
  closeCode : option Z;
  handlers : option C
}.

(** A pending [setTimeout] or a running [setInterval]: its handle, its delay
    in milliseconds, and what it runs. *)
Record Timer (A : Type) : Type := {
  timer_id : nat;
  timer_delay : Z;
  timer_action : A
}.
End Channel.

Arguments Snapshot N : clear implicits.
Arguments Message N : clear implicits.
Arguments WebSocket N C : clear implicits.
Arguments readyState {N C} _.
Arguments outbox {N C} _.
Arguments closeCode {N C} _.
Arguments handlers {N C} _.
Arguments Build_WebSocket {N C} _ _ _ _.
Arguments timer_id {A} _.
Arguments timer_delay {A} _.
Arguments timer_action {A} _.

Section ChannelOperations.
Context {N : JsNumber} {C A : Type}.

Fixpoint update_nth {X : Type} (i : nat) (f : X -> X) (l : list X) : list X :=
  match l, i with
  | [], _ => []
  | x :: rest, O => f x :: rest
  | x :: rest, S j => x :: update_nth j f rest
  end.

Definition is_open (w : WebSocket N C) : bool :=
  match readyState w with
  | OPEN => true
  | _ => false
  end.

(** [socket.send(JSON.stringify(message))]: the message goes out when the
    socket is open; in any other state nothing is transmitted (the call
    throws or the data is discarded). *)
Definition send (message : Message N) (w : WebSocket N C) : WebSocket N C :=
  if is_open w
  then Build_WebSocket (readyState w) (outbox w ++ [message]) (closeCode w) (handlers w)
  else w.

(** [socket.close(code)]: an open or connecting socket starts closing; the
    close event follows later. *)
Definition close (code : option Z) (w : WebSocket N C) : WebSocket N C :=
  match readyState w with
  | CONNECTING | OPEN => Build_WebSocket CLOSING (outbox w) code (handlers w)
  | _ => w
  end.

Definition set_readyState (r : ReadyState) (w : WebSocket N C) : WebSocket N C :=
  Build_WebSocket r (outbox w) (closeCode w) (handlers w).

(** [socket.onopen = socket.onclose = ... = null]. *)
Definition remove_handlers (w : WebSocket N C) : WebSocket N C :=
  Build_WebSocket (readyState w) (outbox w) (closeCode w) None.

(** [new WebSocket(url)] with its handlers assigned. *)
Definition new_socket (closure : C) : WebSocket N C :=
  Build_WebSocket CONNECTING [] None (Some closure).

(** [clearTimeout(id)] and [clearInterval(id)]. *)
Definition clearTimer (id : nat) (timers : list (Timer A)) : list (Timer A) :=
  filter (fun t => negb (Nat.eqb (timer_id t) id)) timers.

Definition findTimer (id : nat) (timers : list (Timer A)) : option (Timer A) :=
  find (fun t => Nat.eqb (timer_id t) id) timers.

(** Every message handed to any socket of the table. *)
Definition all_sent (sockets : list (WebSocket N C)) : list (Message N) :=
  flat_map outbox sockets.

Definition count_locations (sockets : list (WebSocket N C)) : nat :=
  List.length (filter is_location (all_sent sockets)).
End ChannelOperations.

(** ** AutoDriverTracking.ts: the background tracking service *)

Module AutoDriverTracking.
Section Service.
Context {N : JsNumber}.
Local Open Scope Z_scope.

(** What a timer of the service runs. *)
Inductive Action : Type := run_sendPing | run_connectSocket.

(** The module-level variables ([let ws], [let heartbeat], ...), with the
    socket objects the service created and the timers it holds. *)
Record State : Type := {
  ws : option nat;
  heartbeat : option nat;
  watchId : option nat;
  currentPosition : option (LatLng N);
  driverId : option string;
  cabNumber : option string;
  reconnectTimer : option nat;
  reconnectAttempts : Z;
  sockets : list (WebSocket N unit);
  timers : list (Timer Action);
  nextTimer : nat
}.

Definition initial : State := {|
  ws := None; heartbeat := None; watchId := None; currentPosition := None;
  driverId := None; cabNumber := None; reconnectTimer := None; reconnectAttempts := 0;
  sockets := []; timers := []; nextTimer := 1
|}.

Definition WS_RECONNECT_BASE_MS : Z := 2000.

Definition with_sockets (f : list (WebSocket N unit) -> list (WebSocket N unit)) (s : State) : State :=
  {| ws := ws s; heartbeat := heartbeat s; watchId := watchId s;
     currentPosition := currentPosition s; driverId := driverId s; cabNumber := cabNumber s;
     reconnectTimer := reconnectTimer s; reconnectAttempts := reconnectAttempts s;
     sockets := f (sockets s); timers := timers s; nextTimer := nextTimer s |}.

Definition with_timers (f : list (Timer Action) -> list (Timer Action)) (s : State) : State :=
  {| ws := ws s; heartbeat := heartbeat s; watchId := watchId s;
     currentPosition := currentPosition s; driverId := driverId s; cabNumber := cabNumber s;
     reconnectTimer := reconnectTimer s; reconnectAttempts := reconnectAttempts s;
     sockets := sockets s; timers := f (timers s); nextTimer := nextTimer s |}.

(** The socket [ws] refers to, when it refers to one. *)
Definition current (s : State) : option (WebSocket N unit) :=
  match ws s with
  | Some id => nth_error (sockets s) id
  | None => None
  end.

(** [ws && ws.readyState === WebSocket.OPEN]. *)
Definition ws_open (s : State) : bool :=
  match current s with
  | Some w => is_open w
  | None => false
  end.

(** [ws.send(message)] on the socket [ws] refers to. *)
Definition ws_send (message : Message N) (s : State) : State :=
  match ws s with
  | Some id => with_sockets (update_nth id (send message)) s
  | None => s
  end.

(** [sendPing]. *)
Definition sendPing (s : State) : State :=
  if ws_open s then ws_send ping s else s.

(** [sendLocationUpdate]. *)
Definition sendLocationUpdate (s : State) : State :=
  if negb (ws_open s) then s
  else match driverId s, currentPosition s with
       | Some id, Some position =>
           if String.eqb id "" then s
           else ws_send (location {|
                  snap_driverId := id;
                  snap_position := position;
                  snap_phase := idle;
                  snap_pickup := None; snap_drop := None;
                  snap_pickupAddress := None; snap_dropAddress := None |}) s
       | _, _ => s
       end.

(** [stopHeartbeat]. *)
Definition stopHeartbeat (s : State) : State :=
  match heartbeat s with
  | Some h =>
      {| ws := ws s; heartbeat := None; watchId := watchId s;
         currentPosition := currentPosition s; driverId := driverId s; cabNumber := cabNumber s;
         reconnectTimer := reconnectTimer s; reconnectAttempts := reconnectAttempts s;
         sockets := sockets s; timers := clearTimer h (timers s); nextTimer := nextTimer s |}
  | None => s
  end.

(** [startHeartbeat]: [if (heartbeat) clearInterval(heartbeat);
    heartbeat = setInterval(sendPing, 25000)]. *)
Definition startHeartbeat (s : State) : State :=
  let cleared := match heartbeat s with
                 | Some h => clearTimer h (timers s)
                 | None => timers s
                 end in
  {| ws := ws s; heartbeat := Some (nextTimer s); watchId := watchId s;
     currentPosition := currentPosition s; driverId := driverId s; cabNumber := cabNumber s;
     reconnectTimer := reconnectTimer s; reconnectAttempts := reconnectAttempts s;
     sockets := sockets s;
     timers := cleared ++ [{| timer_id := nextTimer s; timer_delay := 25000; timer_action := run_sendPing |}];
     nextTimer := S (nextTimer s) |}.

(** [connectSocket], up to the assignment of the handlers: nothing without
    a driver id or while [ws] is open or connecting; otherwise a new socket. *)
Definition connectSocket (s : State) : State :=
  if negb (truthy (driverId s)) then s
  else match current s with
       | Some {| readyState := OPEN |} | Some {| readyState := CONNECTING |} => s
       | _ =>
           {| ws := Some (List.length (sockets s)); heartbeat := heartbeat s; watchId := watchId s;
              currentPosition := currentPosition s; driverId := driverId s; cabNumber := cabNumber s;
              reconnectTimer := reconnectTimer s; reconnectAttempts := reconnectAttempts s;
              sockets := sockets s ++ [new_socket tt]; timers := timers s; nextTimer := nextTimer s |}
       end.

(** [ws.onopen]. *)
Definition onopen (s : State) : State :=
  let s1 := {| ws := ws s; heartbeat := heartbeat s; watchId := watchId s;
               currentPosition := currentPosition s; driverId := driverId s; cabNumber := cabNumber s;
               reconnectTimer := reconnectTimer s; reconnectAttempts := 0;
               sockets := sockets s; timers := timers s; nextTimer := nextTimer s |} in
  let s2 := startHeartbeat s1 in
  let s3 := ws_send (register_driver (driverId s2) (cabNumber s2)) s2 in
  sendLocationUpdate s3.

(** The delay [ws.onclose] computes:
    [Math.min(WS_RECONNECT_BASE_MS * Math.pow(2, reconnectAttempts), 30000)]. *)
Definition reconnectDelay (attempts : Z) : Z :=
  Z.min (WS_RECONNECT_BASE_MS * 2 ^ attempts) 30000.

(** [ws.onclose]. *)
Definition onclose (s : State) : State :=
  let s1 := stopHeartbeat s in
  let cleared := match reconnectTimer s1 with
                 | Some t => clearTimer t (timers s1)
                 | None => timers s1
                 end in
  let attempts := reconnectAttempts s1 + 1 in
  let delay := reconnectDelay attempts in
  {| ws := ws s1; heartbeat := heartbeat s1; watchId := watchId s1;
     currentPosition := currentPosition s1; driverId := driverId s1; cabNumber := cabNumber s1;
     reconnectTimer := Some (nextTimer s1); reconnectAttempts := attempts;
     sockets := sockets s1;
     timers := cleared ++ [{| timer_id := nextTimer s1; timer_delay := delay; timer_action := run_connectSocket |}];
     nextTimer := S (nextTimer s1) |}.

(** The callback of [Geolocation.getCurrentPosition] and [watchPosition]. *)
Definition onPosition (position : LatLng N) (s : State) : State :=
  sendLocationUpdate
    {| ws := ws s; heartbeat := heartbeat s; watchId := watchId s;
       currentPosition := Some position; driverId := driverId s; cabNumber := cabNumber s;
       reconnectTimer := reconnectTimer s; reconnectAttempts := reconnectAttempts s;
       sockets := sockets s; timers := timers s; nextTimer := nextTimer s |}.

(** [stopAutoTracking]. *)
Definition stopAutoTracking (s : State) : State :=
  let s1 := match ws s with
            | Some id =>
                let s' := if ws_open s
                          then ws_send (DRIVER_DISCONNECT (driverId s) (cabNumber s)) s
                          else s in
                let s'' := with_sockets (update_nth id (close None)) s' in
                {| ws := None; heartbeat := heartbeat s''; watchId := None;
                   currentPosition := currentPosition s''; driverId := driverId s''; cabNumber := cabNumber s'';
                   reconnectTimer := reconnectTimer s''; reconnectAttempts := reconnectAttempts s'';
                   sockets := sockets s''; timers := timers s''; nextTimer := nextTimer s'' |}
            | None =>
                {| ws := None; heartbeat := heartbeat s; watchId := None;
                   currentPosition := currentPosition s; driverId := driverId s; cabNumber := cabNumber s;
                   reconnectTimer := reconnectTimer s; reconnectAttempts := reconnectAttempts s;
                   sockets := sockets s; timers := timers s; nextTimer := nextTimer s |}
            end in
  let s2 := stopHeartbeat s1 in
  match reconnectTimer s2 with
  | Some t =>
      {| ws := ws s2; heartbeat := heartbeat s2; watchId := watchId s2;
         currentPosition := currentPosition s2; driverId := driverId s2; cabNumber := cabNumber s2;
         reconnectTimer := None; reconnectAttempts := reconnectAttempts s2;
         sockets := sockets s2; timers := clearTimer t (timers s2); nextTimer := nextTimer s2 |}
  | None => s2
  end.

(** [startAutoTracking], once [loadDriverMeta] has stored the driver's
    identity and the location permission is settled: the socket is connected
    and, with the permission, a position watch is started. *)
Definition startAutoTracking (uid cab : option string) (permission : bool) (s : State) : State :=
  let s1 := connectSocket
    {| ws := ws s; heartbeat := heartbeat s; watchId := watchId s;
       currentPosition := currentPosition s; driverId := uid; cabNumber := cab;
       reconnectTimer := reconnectTimer s; reconnectAttempts := reconnectAttempts s;
       sockets := sockets s; timers := timers s; nextTimer := nextTimer s |} in
  if permission
  then {| ws := ws s1; heartbeat := heartbeat s1; watchId := Some 0%nat;
          currentPosition := currentPosition s1; driverId := driverId s1; cabNumber := cabNumber s1;
          reconnectTimer := reconnectTimer s1; reconnectAttempts := reconnectAttempts s1;
          sockets := sockets s1; timers := timers s1; nextTimer := nextTimer s1 |}
  else s1.

(** What happens to the service from outside. *)
Inductive Event : Type :=
| socket_opened (id : nat)     (* the connection of socket [id] is established *)
| socket_closed (id : nat)     (* socket [id] is closed, by either side or by a failure *)
| timer_fired (id : nat)       (* the timeout or interval [id] is due *)
| position (p : LatLng N)      (* the position watch reports *)
| stop.                        (* the application calls [stopAutoTracking] *)

(** One event: the socket or timer table is updated as the platform does and
    the handler registered for the event runs. *)
Definition step (s : State) (e : Event) : State :=
  match e with
  | socket_opened id =>
      match nth_error (sockets s) id with
      | Some {| readyState := CONNECTING |} =>
          onopen (with_sockets (update_nth id (set_readyState OPEN)) s)
      | _ => s
      end
  | socket_closed id =>
      match nth_error (sockets s) id with
      | Some {| readyState := CLOSED |} | None => s
      | Some _ => onclose (with_sockets (update_nth id (set_readyState CLOSED)) s)
      end
  | timer_fired id =>
      match findTimer id (timers s) with
      | Some {| timer_action := run_sendPing |} => sendPing s
      | Some {| timer_action := run_connectSocket |} => connectSocket (with_timers (clearTimer id) s)
      | None => s
      end
  | position p => onPosition p s
  | stop => stopAutoTracking s
  end.

Definition run (s : State) (events : list Event) : State := fold_left step events s.

(** The delay of the reconnect timeout that is pending, if one is. *)
Definition pendingReconnect (s : State) : option Z :=
  match find (fun t => match timer_action t with run_connectSocket => true | _ => false end) (timers s) with
  | Some t => Some (timer_delay t)
  | None => None
  end.
(** *** Vocabulary of the statements *)

(** The connection is up: a driver id, [ws] open, the attempt counter at 0
    as [onopen] left it, and no timers but the heartbeat and the reconnect
    timeout the variables refer to. *)
Definition connected (s : State) : Prop :=
  truthy (driverId s) = true /\
  ws_open s = true /\
  reconnectAttempts s = 0 /\
  forall t, In t (timers s) ->
    (timer_id t < nextTimer s)%nat /\
    (heartbeat s = Some (timer_id t) \/ reconnectTimer s = Some (timer_id t)).

(** The service is waiting to reconnect after [k] closes in a row: the
    socket [ws] refers to is closed, and the only timer is the reconnect
    timeout, set to [reconnectDelay k]. *)
Definition retrying (k : Z) (s : State) : Prop :=
  truthy (driverId s) = true /\
  reconnectAttempts s = k /\
  heartbeat s = None /\
  (exists id w, ws s = Some id /\ nth_error (sockets s) id = Some w /\ readyState w = CLOSED) /\
  exists t, reconnectTimer s = Some t /\ (t < nextTimer s)%nat /\
            timers s = [{| timer_id := t; timer_delay := reconnectDelay k;
                           timer_action := run_connectSocket |}].

(** The connection is lost: the socket [ws] refers to closes. *)
Definition connectionLost (s : State) : State :=
  match ws s with
  | Some id => step s (socket_closed id)
  | None => s
  end.

(** A reconnection attempt that fails: the reconnect timeout fires and the
    socket [connectSocket] creates closes before it opens. *)
Definition failedRetry (s : State) : State :=
  match reconnectTimer s with
  | Some t =>
      let s1 := step s (timer_fired t) in
      match ws s1 with
      | Some id => step s1 (socket_closed id)
      | None => s1
      end
  | None => s
  end.

(** The state after the [k]-th close in a row, for [k >= 1]: the connection
    is lost and [k - 1] attempts to reconnect fail. *)
Definition closes (k : nat) (s : State) : State :=
  Nat.iter (k - 1) failedRetry (connectionLost s).

(** Broadcast ticks: [sendLocationUpdate] called [n] times. *)
Definition ticks (n : nat) (s : State) : State := Nat.iter n sendLocationUpdate s.

(** [quiet s s']: going from [s] to [s'] keeps the driver's identity and
    sends no location message. *)
Definition quiet (s s' : State) : Prop :=
  driverId s' = driverId s /\
  count_locations (sockets s') = count_locations (sockets s).

(** The service started for a driver with a cab, its socket open. *)
Definition tracking : State :=
  run (startAutoTracking (Some "driver-7"%string) (Some "MH12AB1234"%string) true initial)
      [socket_opened 0%nat].
End Service.
End AutoDriverTracking.

(** ** LocationScreen.tsx: the driver's trip screen

    The component's state variables ([useState]) form a [Render]: a callback
    or effect created during a render reads the values of that render.  The
    refs ([useRef]) and everything outside the component (sockets, timers,
    dialogs) form the [Store], read and written in place. *)

Module LocationScreen.
Section Screen.
Context {N : JsNumber} {M : JsMath N}.
Local Open Scope Z_scope.
Local Open Scope js_scope.

Record Render : Type := {
  location_from : string;
  location_to : string;
  cabNumber : string;
  driverId : string;
  currentPosition : option (LatLng N);
  pickupCoordinate : option (LatLng N);
  dropCoordinate : option (LatLng N);
  tripPhase : TripPhase;
  isTracking : bool;
  hasPromptedPickup : bool;
  isConnected : bool
}.

(** What a timer of the screen runs; a callback carries the render it was
    created in. *)
Inductive Action : Type :=
| run_heartbeat
| run_sendLocationUpdate (closure : Render)
| run_reconnect (closure : Render).

Record Store : Type := {
  webSocketRef : option nat;
  broadcastIntervalRef : option nat;
  reconnectTimeoutRef : option nat;
  heartbeatRef : option nat;
  sockets : list (WebSocket N Render);
  timers : list (Timer Action);
  nextTimer : nat;
  prompts : list Render     (* the "Reached pickup?" dialogs shown, oldest first *)
}.

Record Component : Type := { render : Render; store : Store }.

Definition BROADCAST_INTERVAL_MS : Z := 10000.
Definition WS_RECONNECT_DELAY_MS : Z := 5000.
Definition ARRIVAL_THRESHOLD_METERS : num := lit 120.

Definition mount : Component := {|
  render := {| location_from := ""; location_to := ""; cabNumber := ""; driverId := "";
               currentPosition := None; pickupCoordinate := None; dropCoordinate := None;
               tripPhase := idle; isTracking := false; hasPromptedPickup := false;
               isConnected := false |};
  store := {| webSocketRef := None; broadcastIntervalRef := None; reconnectTimeoutRef := None;
              heartbeatRef := None; sockets := []; timers := []; nextTimer := 1; prompts := [] |}
|}.

(** *** State setters *)

Definition setCurrentPosition (p : option (LatLng N)) (r : Render) : Render :=
  {| location_from := location_from r; location_to := location_to r; cabNumber := cabNumber r;
     driverId := driverId r; currentPosition := p; pickupCoordinate := pickupCoordinate r;
     dropCoordinate := dropCoordinate r; tripPhase := tripPhase r; isTracking := isTracking r;
     hasPromptedPickup := hasPromptedPickup r; isConnected := isConnected r |}.

Definition setTripPhase (phase : TripPhase) (r : Render) : Render :=
  {| location_from := location_from r; location_to := location_to r; cabNumber := cabNumber r;
     driverId := driverId r; currentPosition := currentPosition r; pickupCoordinate := pickupCoordinate r;
     dropCoordinate := dropCoordinate r; tripPhase := phase; isTracking := isTracking r;
     hasPromptedPickup := hasPromptedPickup r; isConnected := isConnected r |}.

Definition setIsTracking (b : bool) (r : Render) : Render :=
  {| location_from := location_from r; location_to := location_to r; cabNumber := cabNumber r;
     driverId := driverId r; currentPosition := currentPosition r; pickupCoordinate := pickupCoordinate r;
     dropCoordinate := dropCoordinate r; tripPhase := tripPhase r; isTracking := b;
     hasPromptedPickup := hasPromptedPickup r; isConnected := isConnected r |}.

Definition setHasPromptedPickup (b : bool) (r : Render) : Render :=
  {| location_from := location_from r; location_to := location_to r; cabNumber := cabNumber r;
     driverId := driverId r; currentPosition := currentPosition r; pickupCoordinate := pickupCoordinate r;
     dropCoordinate := dropCoordinate r; tripPhase := tripPhase r; isTracking := isTracking r;
     hasPromptedPickup := b; isConnected := isConnected r |}.

Definition setIsConnected (b : bool) (r : Render) : Render :=
  {| location_from := location_from r; location_to := location_to r; cabNumber := cabNumber r;
     driverId := driverId r; currentPosition := currentPosition r; pickupCoordinate := pickupCoordinate r;
     dropCoordinate := dropCoordinate r; tripPhase := tripPhase r; isTracking := isTracking r;
     hasPromptedPickup := hasPromptedPickup r; isConnected := b |}.

(** [setDriverId] and [setCabNumber], as [loadDriverMetadata] calls them. *)
Definition setDriverMetadata (id cab : string) (r : Render) : Render :=
  {| location_from := location_from r; location_to := location_to r; cabNumber := cab;
     driverId := id; currentPosition := currentPosition r; pickupCoordinate := pickupCoordinate r;
     dropCoordinate := dropCoordinate r; tripPhase := tripPhase r; isTracking := isTracking r;
     hasPromptedPickup := hasPromptedPickup r; isConnected := isConnected r |}.

(** The trip form filled in: both addresses and their coordinates. *)
Definition setTrip (from to : string) (pickup drop : option (LatLng N)) (r : Render) : Render :=
  {| location_from := from; location_to := to; cabNumber := cabNumber r;
     driverId := driverId r; currentPosition := currentPosition r; pickupCoordinate := pickup;
     dropCoordinate := drop; tripPhase := tripPhase r; isTracking := isTracking r;
     hasPromptedPickup := hasPromptedPickup r; isConnected := isConnected r |}.

Definition with_sockets (f : list (WebSocket N Render) -> list (WebSocket N Render)) (st : Store) : Store :=
  {| webSocketRef := webSocketRef st; broadcastIntervalRef := broadcastIntervalRef st;
     reconnectTimeoutRef := reconnectTimeoutRef st; heartbeatRef := heartbeatRef st;
     sockets := f (sockets st); timers := timers st; nextTimer := nextTimer st; prompts := prompts st |}.

Definition with_timers (f : list (Timer Action) -> list (Timer Action)) (st : Store) : Store :=
  {| webSocketRef := webSocketRef st; broadcastIntervalRef := broadcastIntervalRef st;
     reconnectTimeoutRef := reconnectTimeoutRef st; heartbeatRef := heartbeatRef st;
     sockets := sockets st; timers := f (timers st); nextTimer := nextTimer st; prompts := prompts st |}.

Definition set_webSocketRef (v : option nat) (st : Store) : Store :=
  {| webSocketRef := v; broadcastIntervalRef := broadcastIntervalRef st;
     reconnectTimeoutRef := reconnectTimeoutRef st; heartbeatRef := heartbeatRef st;
     sockets := sockets st; timers := timers st; nextTimer := nextTimer st; prompts := prompts st |}.

Definition set_broadcastIntervalRef (v : option nat) (st : Store) : Store :=
  {| webSocketRef := webSocketRef st; broadcastIntervalRef := v;
     reconnectTimeoutRef := reconnectTimeoutRef st; heartbeatRef := heartbeatRef st;
     sockets := sockets st; timers := timers st; nextTimer := nextTimer st; prompts := prompts st |}.

Definition set_reconnectTimeoutRef (v : option nat) (st : Store) : Store :=
  {| webSocketRef := webSocketRef st; broadcastIntervalRef := broadcastIntervalRef st;
     reconnectTimeoutRef := v; heartbeatRef := heartbeatRef st;
     sockets := sockets st; timers := timers st; nextTimer := nextTimer st; prompts := prompts st |}.

Definition set_heartbeatRef (v : option nat) (st : Store) : Store :=
  {| webSocketRef := webSocketRef st; broadcastIntervalRef := broadcastIntervalRef st;
     reconnectTimeoutRef := reconnectTimeoutRef st; heartbeatRef := v;
     sockets := sockets st; timers := timers st; nextTimer := nextTimer st; prompts := prompts st |}.

(** [setTimeout(action, delay)] and [setInterval(action, delay)]: the new
    handle and the store with the timer in it. *)
Definition setTimer (delay : Z) (action : Action) (st : Store) : nat * Store :=
  (nextTimer st,
   {| webSocketRef := webSocketRef st; broadcastIntervalRef := broadcastIntervalRef st;
      reconnectTimeoutRef := reconnectTimeoutRef st; heartbeatRef := heartbeatRef st;
      sockets := sockets st;
      timers := timers st ++ [{| timer_id := nextTimer st; timer_delay := delay; timer_action := action |}];
      nextTimer := S (nextTimer st); prompts := prompts st |}).

(** [Alert.alert("Reached pickup?", ...)]: the dialog is shown; its buttons
    belong to the render [r]. *)
Definition showPrompt (r : Render) (st : Store) : Store :=
  {| webSocketRef := webSocketRef st; broadcastIntervalRef := broadcastIntervalRef st;
     reconnectTimeoutRef := reconnectTimeoutRef st; heartbeatRef := heartbeatRef st;
     sockets := sockets st; timers := timers st; nextTimer := nextTimer st;
     prompts := prompts st ++ [r] |}.

(** *** The screen's callbacks *)

(** The socket [webSocketRef.current] refers to. *)
Definition current (st : Store) : option (WebSocket N Render) :=
  match webSocketRef st with
  | Some id => nth_error (sockets st) id
  | None => None
  end.

(** [webSocketRef.current && webSocketRef.current.readyState === WebSocket.OPEN]. *)
Definition socket_open (st : Store) : bool :=
  match current st with
  | Some w => is_open w
  | None => false
  end.

Definition ref_send (message : Message N) (st : Store) : Store :=
  match webSocketRef st with
  | Some id => with_sockets (update_nth id (send message)) st
  | None => st
  end.

(** [stopBroadcasting]. *)
Definition stopBroadcasting (st : Store) : Store :=
  match broadcastIntervalRef st with
  | Some id => set_broadcastIntervalRef None (with_timers (clearTimer id) st)
  | None => st
  end.

(** The payload [sendLocationUpdate] builds in render [r] at position [p]. *)
Definition payload (r : Render) (p : LatLng N) : Message N :=
  location {|
    snap_driverId := driverId r;
    snap_position := p;
    snap_phase := tripPhase r;
    snap_pickup := pickupCoordinate r;
    snap_drop := dropCoordinate r;
    snap_pickupAddress := Some (location_from r);
    snap_dropAddress := Some (location_to r) |}.

(** [sendLocationUpdate], the callback of render [r]. *)
Definition sendLocationUpdate (r : Render) (st : Store) : Store :=
  if negb (socket_open st) then st
  else if String.eqb (driverId r) "" then st
  else match currentPosition r with
       | None => st
       | Some p => ref_send (payload r p) st
       end.

(** [startBroadcasting], the callback of render [r]. *)
Definition startBroadcasting (r : Render) (st : Store) : Store :=
  match broadcastIntervalRef st with
  | Some _ => st
  | None =>
      if negb (isTracking r) then st
      else
        let st1 := sendLocationUpdate r st in
        let '(id, st2) := setTimer BROADCAST_INTERVAL_MS (run_sendLocationUpdate r) st1 in
        set_broadcastIntervalRef (Some id) st2
  end.

Definition clearHeartbeat (st : Store) : Store :=
  match heartbeatRef st with
  | Some id => set_heartbeatRef None (with_timers (clearTimer id) st)
  | None => st
  end.

(** [closeWebSocket], the callback of render [r]. *)
Definition closeWebSocket (r : Render) (c : Component) : Component :=
  let st := store c in
  let st1 := match webSocketRef st with
             | Some id =>
                 let st' := if socket_open st
                            then ref_send (DRIVER_DISCONNECT (Some (driverId r)) (Some (cabNumber r))) st
                            else st in
                 set_webSocketRef None (with_sockets (update_nth id (close None)) st')
             | None => st
             end in
  let st2 := stopBroadcasting (clearHeartbeat st1) in
  let st3 := match reconnectTimeoutRef st2 with
             | Some id => set_reconnectTimeoutRef None (with_timers (clearTimer id) st2)
             | None => st2
             end in
  {| render := setIsConnected false (render c); store := st3 |}.

(** [connectWebSocket], the callback of render [r], up to the assignment of
    the handlers: nothing without a driver id or while the socket of the ref
    is not closed; otherwise a new socket whose handlers belong to [r]. *)
Definition connectWebSocket (r : Render) (c : Component) : Component :=
  if String.eqb (driverId r) "" then c
  else
    let fresh :=
      {| render := render c;
         store := set_webSocketRef (Some (List.length (sockets (store c))))
                    (with_sockets (fun l => l ++ [new_socket r]) (store c)) |} in
    match current (store c) with
    | Some {| readyState := CLOSED |} | None => fresh
    | Some _ => c
    end.

(** [socket.onopen] of the socket [id], created in render [r]. *)
Definition onopen (r : Render) (id : nat) (c : Component) : Component :=
  let st := store c in
  let st1 := match heartbeatRef st with
             | Some h => with_timers (clearTimer h) st
             | None => st
             end in
  let '(h, st2) := setTimer 25000 run_heartbeat st1 in
  let st3 := set_heartbeatRef (Some h) st2 in
  let st4 := with_sockets
               (update_nth id (send (register_driver (Some (driverId r)) (Some (cabNumber r))))) st3 in
  let st5 := match currentPosition r, pickupCoordinate r, dropCoordinate r with
             | None, None, None => st4
             | _, _, _ => sendLocationUpdate r st4
             end in
  let st6 := if isTracking r then startBroadcasting r st5 else st5 in
  {| render := setIsConnected true (render c); store := st6 |}.

(** [socket.onclose] of a socket created in render [r]. *)
Definition onclose (r : Render) (c : Component) : Component :=
  let st1 := stopBroadcasting (clearHeartbeat (store c)) in
  let st2 := match reconnectTimeoutRef st1 with
             | Some id => with_timers (clearTimer id) st1
             | None => st1
             end in
  let '(id, st3) := setTimer WS_RECONNECT_DELAY_MS (run_reconnect r) st2 in
  {| render := setIsConnected false (render c); store := set_reconnectTimeoutRef (Some id) st3 |}.

(** The heartbeat interval's callback. *)
Definition heartbeat (st : Store) : Store :=
  if socket_open st then ref_send ping st else st.

(** *** The effects *)

(** [useEffect(() => { if (driverId) connectWebSocket() }, ...)]. *)
Definition connectEffect (c : Component) : Component :=
  if String.eqb (driverId (render c)) "" then c else connectWebSocket (render c) c.

(** The pickup-arrival effect. *)
Definition pickupArrivalEffect (c : Component) : Component :=
  let r := render c in
  match currentPosition r, pickupCoordinate r with
  | Some position, Some pickup =>
      if negb (TripPhase_eqb (tripPhase r) to_pickup) || hasPromptedPickup r then c
      else
        let distance := haversineDistanceInMeters position pickup in
        if distance <=? ARRIVAL_THRESHOLD_METERS
        then {| render := setHasPromptedPickup true r; store := showPrompt r (store c) |}
        else c
  | _, _ => c
  end.

(** The dialog's "Not yet" button. *)
Definition pressNotYet (c : Component) : Component :=
  {| render := setHasPromptedPickup false (render c); store := store c |}.

(** The dialog's "Start drop navigation" button, of a dialog shown in render [r]. *)
Definition pressStartDropNavigation (r : Render) (c : Component) : Component :=
  {| render := setHasPromptedPickup true (setTripPhase to_drop (render c));
     store := sendLocationUpdate r (store c) |}.

(** The drop-arrival effect. *)
Definition dropArrivalEffect (c : Component) : Component :=
  let r := render c in
  match currentPosition r, dropCoordinate r with
  | Some position, Some drop =>
      if negb (TripPhase_eqb (tripPhase r) to_drop) then c
      else
        let distance := haversineDistanceInMeters position drop in
        if distance <=? ARRIVAL_THRESHOLD_METERS
        then {| render := setTripPhase completed r;
                store := stopBroadcasting (sendLocationUpdate r (store c)) |}
        else c
  | _, _ => c
  end.

(** [useEffect(() => { if (tripPhase !== "idle") sendLocationUpdate() }, ...)]. *)
Definition phaseBroadcastEffect (c : Component) : Component :=
  let r := render c in
  if TripPhase_eqb (tripPhase r) idle then c
  else {| render := r; store := sendLocationUpdate r (store c) |}.

(** The end of a successful [handleSubmit]:
    [setTripPhase("to_pickup"); setIsTracking(true); startBroadcasting()]. *)
Definition submitted (c : Component) : Component :=
  {| render := setIsTracking true (setTripPhase to_pickup (render c));
     store := startBroadcasting (render c) (store c) |}.

(** *** Events *)

Inductive Event : Type :=
| metadata_loaded (id cab : string)   (* [loadDriverMetadata] has set the identity *)
| trip_entered (from to : string) (pickup drop : option (LatLng N))
| submit_succeeded
| position (p : LatLng N)             (* the position watch reports *)
| effect_connect                      (* React runs an effect of the current render *)
| effect_pickup
| effect_drop
| effect_phase
| press_not_yet
| press_start_drop
| socket_opened (id : nat)
| socket_closed (id : nat)
| timer_fired (id : nat)
| unmount.

Definition step (c : Component) (e : Event) : Component :=
  match e with
  | metadata_loaded id cab => {| render := setDriverMetadata id cab (render c); store := store c |}
  | trip_entered from to pickup drop =>
      {| render := setTrip from to pickup drop (render c); store := store c |}
  | submit_succeeded => submitted c
  | position p =>
      (* [setCurrentPosition(pos)], then [sendLocationUpdate()] when the socket
         is open: the callback the watch holds is the one of the first render *)
      {| render := setCurrentPosition (Some p) (render c);
         store := if socket_open (store c)
                  then sendLocationUpdate (render mount) (store c)
                  else store c |}
  | effect_connect => connectEffect c
  | effect_pickup => pickupArrivalEffect c
  | effect_drop => dropArrivalEffect c
  | effect_phase => phaseBroadcastEffect c
  | press_not_yet => pressNotYet c
  | press_start_drop =>
      match last (map Some (prompts (store c))) None with
      | Some r => pressStartDropNavigation r c
      | None => c
      end
  | socket_opened id =>
      match nth_error (sockets (store c)) id with
      | Some {| readyState := CONNECTING; handlers := Some r |} =>
          onopen r id {| render := render c;
                         store := with_sockets (update_nth id (set_readyState OPEN)) (store c) |}
      | _ => c
      end
  | socket_closed id =>
      match nth_error (sockets (store c)) id with
      | Some {| readyState := CLOSED |} | None => c
      | Some {| handlers := Some r |} =>
          onclose r {| render := render c;
                       store := with_sockets (update_nth id (set_readyState CLOSED)) (store c) |}
      | Some _ =>
          {| render := render c;
             store := with_sockets (update_nth id (set_readyState CLOSED)) (store c) |}
      end
  | timer_fired id =>
      match findTimer id (timers (store c)) with
      | Some {| timer_action := run_heartbeat |} =>
          {| render := render c; store := heartbeat (store c) |}
      | Some {| timer_action := run_sendLocationUpdate r |} =>
          {| render := render c; store := sendLocationUpdate r (store c) |}
      | Some {| timer_action := run_reconnect r |} =>
          connectWebSocket r
            {| render := render c;
               store := set_reconnectTimeoutRef None (with_timers (clearTimer id) (store c)) |}
      | None => c
      end
  | unmount => closeWebSocket (render c) c
  end.

Definition run (c : Component) (events : list Event) : Component := fold_left step events c.

(** A position report followed by the effects React runs for the new render. *)
Definition positionUpdate (p : LatLng N) : list Event :=
  [position p; effect_connect; effect_pickup; effect_drop; effect_phase].

(** *** Renders *)








(** The number of location snapshots handed to the sockets so far. *)
Definition locationsSent (c : Component) : nat := count_locations (sockets (store c)).

(** *** Vocabulary of the statements *)

(** Broadcast ticks: the interval calls [sendLocationUpdate], each time the
    callback of some render. *)
Definition ticks (closures : list Render) (st : Store) : Store :=
  fold_left (fun st r => sendLocationUpdate r st) closures st.

(** The events that leave the driver's identity as it is. *)
Definition keeps_identity (e : Event) : bool :=
  match e with
  | metadata_loaded _ _ => false
  | _ => true
  end.

(** A store with no socket and no reconnect timeout: that of a screen which
    never learned the driver's identity. *)
Definition calm (st : Store) : Prop :=
  sockets st = [] /\ forall t r, In t (timers st) -> timer_action t <> run_reconnect r.

(** A screen that does not know the driver's identity and holds no socket. *)
Definition anonymous (c : Component) : Prop :=
  driverId (render c) = ""%string /\ calm (store c).

(** The events other than the driver answering "Not yet". *)
Definition no_reset (e : Event) : bool :=
  match e with
  | press_not_yet => false
  | _ => true
  end.

(** The position [p] is within the arrival threshold of [target]. *)
Definition arrived (p target : LatLng N) : bool :=
  haversineDistanceInMeters p target <=? ARRIVAL_THRESHOLD_METERS.

(** The delay of the reconnection timeout that is pending, if one is. *)
Definition pendingReconnect (c : Component) : option Z :=
  match find (fun t => match timer_action t with run_reconnect _ => true | _ => false end)
             (timers (store c)) with
  | Some t => Some (timer_delay t)
  | None => None
  end.

(** The screen of a driver with a cab, its socket open. *)
Definition sharing : Component :=
  run mount [metadata_loaded "driver-7" "MH12AB1234"; effect_connect; socket_opened 0%nat].
End Screen.
End LocationScreen.

(** ** CustomerDetailScreen: the viewer's screen *)

(** *** Exceptions

    A computation either completes with a value or throws; [try_catch] is
    the [try { ... } catch { ... }] statement. *)

Inductive Completion (A : Type) : Type :=
| Normal (value : A)
| Throw.

Arguments Normal {A} _.
Arguments Throw {A}.

Definition bind {A B : Type} (c : Completion A) (k : A -> Completion B) : Completion B :=
  match c with
  | Normal a => k a
  | Throw => Throw
  end.

Definition try_catch {A : Type} (body : Completion A) (handler : Completion A) : Completion A :=
  match body with
  | Normal a => Normal a
  | Throw => handler
  end.

Notation "x <- c ;; k" := (bind c (fun x => k))
  (at level 61, c at next level, right associativity).

(** [value.property] where [value] may be [null] or [undefined]: reading a
    property of either throws a TypeError. *)
Definition deref {A : Type} (value : option A) : Completion A :=
  match value with
  | Some a => Normal a
  | None => Throw
  end.

(** Runs [f] on each element in order and keeps the results it produces:
    an [array.forEach] whose body pushes onto an array and may throw. *)
Fixpoint forEach {A B : Type} (f : A -> Completion (list B)) (l : list A) : Completion (list B) :=
  match l with
  | [] => Normal []
  | a :: rest =>
      pushed <- f a ;;
      more <- forEach f rest ;;
      Normal (pushed ++ more)
  end.

Module CustomerDetailScreen.
Section Routes.
Context {N : JsNumber} {F : JsFormat N}.
Local Open Scope Z_scope.

Record RouteStepInfo : Type := {
  instruction : string;
  distanceMeters : num;
  endLocation : LatLng N;
  turnType : TurnType
}.

Record RouteResult : Type := {
  coordinates : list (LatLng N);
  steps : list RouteStepInfo
}.

(** **** [decodePolyline] *)

(** [ToInt32]: the bitwise operators work on 32-bit two's complement integers. *)
Definition int32 (z : Z) : Z := (z + 2 ^ 31) mod 2 ^ 32 - 2 ^ 31.

(** [result |= (b & 0x1f) << shift]; a shift count is taken modulo 32. *)
Definition accumulate (result b shift : Z) : Z :=
  int32 (Z.lor result (int32 (Z.shiftl (Z.land b 31) (shift mod 32)))).

(** [(result & 1) ? ~(result >> 1) : (result >> 1)]. *)
Definition delta (result : Z) : Z :=
  if Z.land result 1 =? 0 then Z.shiftr result 1 else Z.lnot (Z.shiftr result 1).

(** Where the decoder stands: before a latitude chunk (the test of the outer
    [while]), inside one, before a longitude chunk, or inside one. *)
Inductive Chunk : Type := lat_start | lat_more | lng_start | lng_more.

Definition point (lat lng : Z) : LatLng N :=
  {| latitude := div (lit lat) (lit 100000); longitude := div (lit lng) (lit 100000) |}.

(** The two nested loops of [decodePolyline], one character code per step.
    Past the end of the text [charCodeAt] is NaN, which ends a chunk with
    nothing added to it. *)
Fixpoint decode (codes : list Z) (at_ : Chunk) (shift result lat lng : Z) : list (LatLng N) :=
  match codes with
  | [] =>
      match at_ with
      | lat_start => []
      | lat_more => [point (lat + delta result) lng]
      | lng_start | lng_more => [point lat (lng + delta result)]
      end
  | c :: rest =>
      let b := c - 63 in
      let result' := accumulate result b shift in
      match at_ with
      | lat_start | lat_more =>
          if b >=? 32 then decode rest lat_more (shift + 5) result' lat lng
          else decode rest lng_start 0 0 (lat + delta result') lng
      | lng_start | lng_more =>
          if b >=? 32 then decode rest lng_more (shift + 5) result' lat lng
          else point lat (lng + delta result') :: decode rest lat_start 0 0 lat (lng + delta result')
      end
  end.

Fixpoint charCodes (s : string) : list Z :=
  match s with
  | EmptyString => []
  | String c rest => Z.of_nat (nat_of_ascii c) :: charCodes rest
  end.

Definition decodePolyline (encoded : string) : list (LatLng N) :=
  decode (charCodes encoded) lat_start 0 0 0 0.

(** **** The directions providers' replies, as far as [getDirections] reads them *)

(** The outcome of an [axios.get]: the call throws, or the reply's [data]. *)
Inductive Reply (A : Type) : Type :=
| request_failed
| replied (data : A).

Arguments request_failed {A}.
Arguments replied {A} _.

(** A step of a leg.  [None] stands for a field that is absent or of another
    type than the stated one. *)
Record GoogleStep : Type := {
  html_instructions : option string;
  distance_value : option num;          (* [step.distance.value] *)
  end_location : option (option num * option num)   (* [lat] and [lng] *)
}.

Record GoogleLeg : Type := { leg_steps : option (list (option GoogleStep)) }.

(** A value of the reply that the code tests for truth or hands to
    [decodePolyline]; what the code does with it depends on these cases
    only. *)
Inductive Geometry : Type :=
| no_geometry                      (* [undefined] or [null] *)
| encoded (text : string)          (* a string *)
| sized_geometry                   (* no string, with a [length] above 0: a non-empty array *)
| other_geometry (truthy : bool).  (* any other value: a number, a boolean, an empty array,
                                      an object without such a [length] *)

(** JavaScript truthiness of such a value: the empty string is falsy. *)
Definition geometry_truthy (value : Geometry) : bool :=
  match value with
  | no_geometry => false
  | encoded EmptyString => false
  | encoded _ => true
  | sized_geometry => true
  | other_geometry truthy => truthy
  end.

(** [decodePolyline(value)] for a value of any type: reading the [length]
    of [undefined] or [null] throws; the loop is not entered unless the
    [length] is above 0; and only a string has [charCodeAt]. *)
Definition decodePolyline_any (value : Geometry) : Completion (list (LatLng N)) :=
  match value with
  | no_geometry => Throw
  | encoded text => Normal (decodePolyline text)
  | sized_geometry => Throw
  | other_geometry _ => Normal []
  end.

Record GoogleRoute : Type := {
  overview_polyline : option Geometry;   (* [route.overview_polyline], then its [points] *)
  legs : option (list (option GoogleLeg))
}.

(** [response.data] of the primary provider; [None] for [null]. *)
Definition GoogleData : Type := option (option (list (option GoogleRoute))).

Record OsrmRoute : Type := { geometry : Geometry }.

(** [resp.data] of the secondary provider. *)
Definition OsrmData : Type := option (option (list (option OsrmRoute))).

(** [Number(value) || 0] for a value that is a number or absent. *)
Definition number_or_zero (value : option num) : num :=
  match value with
  | Some x => if ltb x (lit 0) || ltb (lit 0) x then x else lit 0
  | None => lit 0
  end.

(** The body of the inner [forEach]: one step of a leg. *)
Definition readStep (step : option GoogleStep) : Completion (list RouteStepInfo) :=
  st <- deref step ;;
  let rawInstruction := match html_instructions st with Some text => text | None => ""%string end in
  let instruction := match rawInstruction with
                     | EmptyString => ""%string
                     | _ => normalizeInstruction rawInstruction
                     end in
  let distanceMeters := number_or_zero (distance_value st) in
  match instruction, end_location st with
  | EmptyString, _ => Normal []
  | _, Some (Some lat, Some lng) =>
      if Number_isFinite lat && Number_isFinite lng
      then Normal [{| instruction := instruction;
                      distanceMeters := distanceMeters;
                      endLocation := {| latitude := lat; longitude := lng |};
                      turnType := extractTurnType instruction |}]
      else Normal []
  | _, _ => Normal []
  end.

(** The body of the outer [forEach]: one leg. *)
Definition readLeg (leg : option GoogleLeg) : Completion (list RouteStepInfo) :=
  l <- deref leg ;;
  forEach readStep (match leg_steps l with Some legSteps => legSteps | None => [] end).

(** The first [try] block: [Some route] when it returns one, [None] when it
    falls through to the code after it. *)
Definition tryGoogle (reply : Reply GoogleData) : Completion (option RouteResult) :=
  match reply with
  | request_failed => Throw
  | replied data =>
      d <- deref data ;;
      match d with
      | Some (first :: _) =>
          route <- deref first ;;
          polyline <- deref (overview_polyline route) ;;
          points <- decodePolyline_any polyline ;;
          steps <- forEach readLeg (match legs route with Some l => l | None => [] end) ;;
          Normal (Some {| coordinates := points; steps := steps |})
      | _ => Normal None
      end
  end.

(** The second [try] block. *)
Definition tryOsrm (reply : Reply OsrmData) : Completion (option RouteResult) :=
  match reply with
  | request_failed => Throw
  | replied None => Normal None
  | replied (Some None) | replied (Some (Some [])) => Normal None
  | replied (Some (Some (first :: _))) =>
      route <- deref first ;;
      if geometry_truthy (geometry route)
      then points <- decodePolyline_any (geometry route) ;;
           Normal (Some {| coordinates := points; steps := [] |})
      else Normal None
  end.

(** [getDirections], given what the two providers answer. *)
Definition getDirections (origin destination : LatLng N)
    (google : Reply GoogleData) (osrm : Reply OsrmData) : Completion RouteResult :=
  first <- try_catch (tryGoogle google) (Normal None) ;;
  match first with
  | Some route => Normal route
  | None =>
      second <- try_catch (tryOsrm osrm) (Normal None) ;;
      match second with
      | Some route => Normal route
      | None => Normal {| coordinates := [origin; destination]; steps := [] |}
      end
  end.
End Routes.

Arguments request_failed {A}.
Arguments replied {A} _.

(** **** Guidance *)

Section Guidance.
Context {N : JsNumber} {M : JsMath N} {F : JsFormat N}.
Local Open Scope string_scope.
Local Open Scope js_scope.

Definition STEP_COMPLETION_THRESHOLD_METERS : num := lit 35.

(** What the speech synthesis is asked to say: a phrase of [HINDI_PHRASES],
    by its key and kind, or a text as it is. *)
Inductive Utterance : Type :=
| phrase (key : TurnType) (pre : bool)
| text (instruction : string).

(** The state variables of guidance, and the utterances spoken so far. *)
Record Guidance : Type := {
  guidanceSteps : list RouteStepInfo;
  activeStepIndex : nat;
  activeStepDistance : string;
  activeStepMeters : option num;
  ttsEnabled : bool;
  ttsInitialized : bool;
  spokenSteps : list string;
  spoken : list Utterance
}.

Definition setActiveStep (idx : nat) (distance : string) (meters : option num) (g : Guidance) : Guidance :=
  {| guidanceSteps := guidanceSteps g; activeStepIndex := idx; activeStepDistance := distance;
     activeStepMeters := meters; ttsEnabled := ttsEnabled g; ttsInitialized := ttsInitialized g;
     spokenSteps := spokenSteps g; spoken := spoken g |}.

(** [getHindiInstruction]: [HINDI_PHRASES] has the keys [turn_left],
    [turn_right], [straight], [slight_left], [slight_right] and [u_turn]; a
    turn type that is none of them falls back to the instruction's text. *)
Definition getHindiInstruction (turn : TurnType) (isPreAlert : bool) (originalInstruction : string) : Utterance :=
  match turn with
  | left | right =>
      text (match originalInstruction with
            | EmptyString => "Continue straight"
            | _ => originalInstruction
            end)
  | _ => phrase turn isPreAlert
  end.

(** [speakGuidanceStep], the callback of the render [r], acting on [g]. *)
Definition speakGuidanceStep (r : Guidance) (step : RouteStepInfo) (isPreAlert : bool) (g : Guidance) : Guidance :=
  if negb (ttsEnabled r) || negb (ttsInitialized r) then g
  else
    let stepKey := instruction step ++ "-" ++ (if isPreAlert then "true" else "false") in
    if existsb (String.eqb stepKey) (spokenSteps r) then g
    else
      {| guidanceSteps := guidanceSteps g; activeStepIndex := activeStepIndex g;
         activeStepDistance := activeStepDistance g; activeStepMeters := activeStepMeters g;
         ttsEnabled := ttsEnabled g; ttsInitialized := ttsInitialized g;
         spokenSteps := if existsb (String.eqb stepKey) (spokenSteps g)
                        then spokenSteps g else spokenSteps g ++ [stepKey];
         spoken := spoken g ++ [getHindiInstruction (turnType step) isPreAlert (instruction step)] |}.

(** The [while] loop of [updateGuidanceProgress]: [budget] bounds the
    number of iterations, and [None] is [steps[idx]] being undefined. *)
Fixpoint advance (driverPoint : LatLng N) (steps : list RouteStepInfo) (budget : nat)
    (idx : nat) (remaining : num) : option (nat * num) :=
  if (remaining <=? STEP_COMPLETION_THRESHOLD_METERS) && (idx <? List.length steps - 1)%nat then
    match budget with
    | O => Some (idx, remaining)
    | S budget' =>
        match nth_error steps (idx + 1) with
        | Some step =>
            advance driverPoint steps budget' (idx + 1) (calculateDistance driverPoint (endLocation step))
        | None => None
        end
    end
  else Some (idx, remaining).

(** [updateGuidanceProgress], the callback of the render [r], acting on
    [g]; [None] when it throws. *)
Definition updateGuidanceProgress (r : Guidance) (driverPoint : LatLng N)
    (stepsOverride : option (list RouteStepInfo)) (g : Guidance) : option Guidance :=
  let steps := match stepsOverride with Some l => l | None => guidanceSteps r end in
  match steps with
  | [] =>
      Some (setActiveStep
              (if Nat.eqb (activeStepIndex r) 0 then activeStepIndex g else 0%nat)
              (if String.eqb (activeStepDistance r) "" then activeStepDistance g else "")
              None g)
  | _ =>
      let idx0 := Nat.min (activeStepIndex r) (List.length steps - 1) in
      match nth_error steps idx0 with
      | None => None
      | Some step0 =>
          match advance driverPoint steps (List.length steps) idx0
                  (calculateDistance driverPoint (endLocation step0)) with
          | None => None
          | Some (idx, remaining) =>
              let g1 :=
                if Nat.eqb idx (activeStepIndex r) then g
                else
                  let g' := setActiveStep idx (activeStepDistance g) (activeStepMeters g) g in
                  match nth_error steps idx with
                  | Some step => if ttsEnabled r && ttsInitialized r
                                 then speakGuidanceStep r step false g'
                                 else g'
                  | None => g'
                  end in
              let g2 :=
                if (remaining <=? lit 100) && (remaining >? lit 50) && (idx <? List.length steps - 1)%nat then
                  match nth_error steps (idx + 1) with
                  | Some nextStep =>
                      if existsb (String.eqb (instruction nextStep ++ "-pre")) (spokenSteps r) then g1
                      else speakGuidanceStep r nextStep true g1
                  | None => g1
                  end
                else g1 in
              Some (setActiveStep (activeStepIndex g2)
                      (if remaining >? lit 0 then formatDistance remaining else "")
                      (Some remaining) g2)
          end
      end
  end.

(** [applyRouteResult], as far as guidance goes: a new route replaces the
    steps and the index starts again at 0. *)
Definition newRoute (route : RouteResult) (g : Guidance) : Guidance :=
  {| guidanceSteps := steps route; activeStepIndex := 0;
     activeStepDistance := match steps route with [] => "" | _ => activeStepDistance g end;
     activeStepMeters := match steps route with [] => None | _ => activeStepMeters g end;
     ttsEnabled := ttsEnabled g; ttsInitialized := ttsInitialized g;
     spokenSteps := spokenSteps g; spoken := spoken g |}.

(** A position update: [updateGuidanceProgress(driverPoint)] in the current render. *)
Definition positionUpdate (g : Guidance) (driverPoint : LatLng N) : option Guidance :=
  updateGuidanceProgress g driverPoint None g.



(** ***** Vocabulary of the statements *)

(** The distance from [driverPoint] to the end of step [j], when there is
    such a step. *)
Definition distanceTo (driverPoint : LatLng N) (steps : list RouteStepInfo) (j : nat) : option num :=
  option_map (fun step => calculateDistance driverPoint (endLocation step)) (nth_error steps j).

(** The end of step [j] is within the completion threshold of [driverPoint]. *)
Definition passed (driverPoint : LatLng N) (steps : list RouteStepInfo) (j : nat) : Prop :=
  exists d, distanceTo driverPoint steps j = Some d /\
            (d <=? STEP_COMPLETION_THRESHOLD_METERS) = true.

(** The callback of render [r] reads the steps and the index that [g] holds. *)
Definition fresh (r g : Guidance) : Prop :=
  guidanceSteps r = guidanceSteps g /\ activeStepIndex r = activeStepIndex g.
End Guidance.

(** **** The viewer's socket *)

Section ViewerChannel.
Context {N : JsNumber}.
Local Open Scope Z_scope.

(** The state variables the socket code reads. *)
Record Identity : Type := {
  viewerId : option string;
  driverId : option string;
  isSocketConnected : bool
}.

(** What a timer of the viewer runs: the heartbeat, or the reconnection
    scheduled by an [onclose] that read [retryCount] in render [closure]. *)
Inductive Action : Type :=
| run_heartbeat
| run_reconnect (closure : Identity) (retryCount : Z).

Record Store : Type := {
  websocketRef : option nat;
  reconnect_timeout : option nat;      (* [reconnectTimeoutRef.current.timeout] *)
  reconnect_retryCount : Z;            (* [reconnectTimeoutRef.current.retryCount] *)
  heartbeatRef : option nat;
  sockets : list (WebSocket N Identity);
  timers : list (Timer Action);
  nextTimer : nat
}.

Record Viewer : Type := { identity : Identity; store : Store }.

Definition setIsSocketConnected (b : bool) (i : Identity) : Identity :=
  {| viewerId := viewerId i; driverId := driverId i; isSocketConnected := b |}.

Definition mounted (viewer driver : option string) : Viewer := {|
  identity := {| viewerId := viewer; driverId := driver; isSocketConnected := false |};
  store := {| websocketRef := None; reconnect_timeout := None; reconnect_retryCount := 0;
              heartbeatRef := None; sockets := []; timers := []; nextTimer := 1 |}
|}.

Definition current (st : Store) : option (WebSocket N Identity) :=
  match websocketRef st with
  | Some id => nth_error (sockets st) id
  | None => None
  end.

(** [cleanupSocket]. *)
Definition cleanupSocket (v : Viewer) : Viewer :=
  let st := store v in
  let timers1 := match reconnect_timeout st with
                 | Some t => clearTimer t (timers st)
                 | None => timers st
                 end in
  let timers2 := match heartbeatRef st with
                 | Some h => clearTimer h timers1
                 | None => timers1
                 end in
  let sockets' := match websocketRef st with
                  | Some id => update_nth id (fun w => close (Some 1000) (remove_handlers w)) (sockets st)
                  | None => sockets st
                  end in
  {| identity := setIsSocketConnected false (identity v);
     store := {| websocketRef := None; reconnect_timeout := None;
                 reconnect_retryCount := reconnect_retryCount st; heartbeatRef := None;
                 sockets := sockets'; timers := timers2; nextTimer := nextTimer st |} |}.

(** [connectSocket], the callback of render [r], up to the assignment of the
    handlers. *)
Definition connectSocket (r : Identity) (v : Viewer) : Viewer :=
  if negb (truthy (viewerId r)) || negb (truthy (driverId r)) then v
  else
    let connect (v' : Viewer) : Viewer :=
      let st := store v' in
      {| identity := identity v';
         store := {| websocketRef := Some (List.length (sockets st));
                     reconnect_timeout := reconnect_timeout st;
                     reconnect_retryCount := reconnect_retryCount st;
                     heartbeatRef := heartbeatRef st;
                     sockets := sockets st ++ [new_socket r];
                     timers := timers st; nextTimer := nextTimer st |} |} in
    match current (store v) with
    | Some {| readyState := CONNECTING |} => v
    | Some {| readyState := OPEN |} => if isSocketConnected r then v else connect v
    | Some _ => connect (cleanupSocket v)
    | None => connect v
    end.

(** [ws.onopen] of the socket [id], created in render [r]. *)
Definition onopen (r : Identity) (id : nat) (v : Viewer) : Viewer :=
  let st := store v in
  let cleared := match heartbeatRef st with
                 | Some h => clearTimer h (timers st)
                 | None => timers st
                 end in
  let registered :=
    update_nth id (send (register_viewer
                           (match viewerId r with Some x => x | None => ""%string end)
                           (match driverId r with Some x => x | None => ""%string end)))
               (sockets st) in
  {| identity := setIsSocketConnected true (identity v);
     store := {| websocketRef := websocketRef st; reconnect_timeout := reconnect_timeout st;
                 reconnect_retryCount := 0; heartbeatRef := Some (nextTimer st);
                 sockets := registered;
                 timers := cleared ++ [{| timer_id := nextTimer st; timer_delay := 25000;
                                          timer_action := run_heartbeat |}];
                 nextTimer := S (nextTimer st) |} |}.

(** The delay [ws.onclose] computes:
    [Math.min(1000 * Math.pow(2, retryCount), 30000)]. *)
Definition reconnectDelay (retryCount : Z) : Z := Z.min (1000 * 2 ^ retryCount) 30000.

(** [ws.onclose] of a socket created in render [r], for a close event with
    the code [code]. *)
Definition onclose (r : Identity) (code : Z) (v : Viewer) : Viewer :=
  let st := store v in
  let timers1 := match heartbeatRef st with
                 | Some h => clearTimer h (timers st)
                 | None => timers st
                 end in
  let v1 := {| identity := setIsSocketConnected false (identity v);
               store := {| websocketRef := websocketRef st; reconnect_timeout := reconnect_timeout st;
                           reconnect_retryCount := reconnect_retryCount st; heartbeatRef := None;
                           sockets := sockets st; timers := timers1; nextTimer := nextTimer st |} |} in
  if negb (truthy (viewerId r)) || negb (truthy (driverId r)) || (code =? 1000) then v1
  else
    let retryCount := reconnect_retryCount st in
    let delay := reconnectDelay retryCount in
    {| identity := identity v1;
       store := {| websocketRef := websocketRef st; reconnect_timeout := Some (nextTimer st);
                   reconnect_retryCount := reconnect_retryCount st; heartbeatRef := None;
                   sockets := sockets st;
                   timers := timers1 ++ [{| timer_id := nextTimer st; timer_delay := delay;
                                            timer_action := run_reconnect r retryCount |}];
                   nextTimer := S (nextTimer st) |} |}.

(** The callback of the reconnection timeout. *)
Definition reconnect (r : Identity) (retryCount : Z) (v : Viewer) : Viewer :=
  let st := store v in
  let v1 (count : Z) : Viewer :=
    {| identity := identity v;
       store := {| websocketRef := websocketRef st; reconnect_timeout := None;
                   reconnect_retryCount := count; heartbeatRef := heartbeatRef st;
                   sockets := sockets st; timers := timers st; nextTimer := nextTimer st |} |} in
  if retryCount <? 10 then connectSocket r (v1 (retryCount + 1))
  else v1 (reconnect_retryCount st).

Definition heartbeat (v : Viewer) : Viewer :=
  match websocketRef (store v), current (store v) with
  | Some id, Some w =>
      if is_open w
      then {| identity := identity v;
              store := {| websocketRef := websocketRef (store v);
                          reconnect_timeout := reconnect_timeout (store v);
                          reconnect_retryCount := reconnect_retryCount (store v);
                          heartbeatRef := heartbeatRef (store v);
                          sockets := update_nth id (send ping) (sockets (store v));
                          timers := timers (store v); nextTimer := nextTimer (store v) |} |}
      else v
  | _, _ => v
  end.

Definition with_sockets (f : list (WebSocket N Identity) -> list (WebSocket N Identity)) (v : Viewer) : Viewer :=
  {| identity := identity v;
     store := {| websocketRef := websocketRef (store v);
                 reconnect_timeout := reconnect_timeout (store v);
                 reconnect_retryCount := reconnect_retryCount (store v);
                 heartbeatRef := heartbeatRef (store v);
                 sockets := f (sockets (store v));
                 timers := timers (store v); nextTimer := nextTimer (store v) |} |}.

Definition with_timers (f : list (Timer Action) -> list (Timer Action)) (v : Viewer) : Viewer :=
  {| identity := identity v;
     store := {| websocketRef := websocketRef (store v);
                 reconnect_timeout := reconnect_timeout (store v);
                 reconnect_retryCount := reconnect_retryCount (store v);
                 heartbeatRef := heartbeatRef (store v);
                 sockets := sockets (store v);
                 timers := f (timers (store v)); nextTimer := nextTimer (store v) |} |}.

Inductive Event : Type :=
| effect_connect                     (* the effect that calls [connectSocket] *)
| socket_opened (id : nat)
| socket_closed (id : nat) (code : Z)  (* the close event and its [code] *)
| timer_fired (id : nat)
| cleanup.                           (* the screen goes away: [cleanupSocket] *)

Definition step (v : Viewer) (e : Event) : Viewer :=
  match e with
  | effect_connect =>
      if truthy (viewerId (identity v)) && truthy (driverId (identity v))
      then connectSocket (identity v) v else v
  | socket_opened id =>
      match nth_error (sockets (store v)) id with
      | Some {| readyState := CONNECTING; handlers := Some r |} =>
          onopen r id (with_sockets (update_nth id (set_readyState OPEN)) v)
      | Some {| readyState := CONNECTING; handlers := None |} =>
          with_sockets (update_nth id (set_readyState OPEN)) v
      | _ => v
      end
  | socket_closed id code =>
      match nth_error (sockets (store v)) id with
      | Some {| readyState := CLOSED |} | None => v
      | Some {| handlers := Some r |} =>
          onclose r code (with_sockets (update_nth id (set_readyState CLOSED)) v)
      | Some {| handlers := None |} =>
          with_sockets (update_nth id (set_readyState CLOSED)) v
      end
  | timer_fired id =>
      match findTimer id (timers (store v)) with
      | Some {| timer_action := run_heartbeat |} => heartbeat v
      | Some {| timer_action := run_reconnect r retryCount |} =>
          reconnect r retryCount (with_timers (clearTimer id) v)
      | None => v
      end
  | cleanup => cleanupSocket v
  end.

Definition run (v : Viewer) (events : list Event) : Viewer := fold_left step events v.

(** ***** Vocabulary of the statements *)

(** The delay of the reconnection timeout that is pending, if one is. *)
Definition pendingReconnect (v : Viewer) : option Z :=
  match find (fun t => match timer_action t with run_reconnect _ _ => true | _ => false end)
             (timers (store v)) with
  | Some t => Some (timer_delay t)
  | None => None
  end.

Definition identified (r : Identity) : Prop :=
  truthy (viewerId r) = true /\ truthy (driverId r) = true.

(** The connection is up: the socket of the ref is open, its handlers know
    both identities, the retry counter is 0 as [onopen] left it, and the only
    timers are the heartbeat's. *)
Definition connected (v : Viewer) : Prop :=
  (exists id w r, websocketRef (store v) = Some id /\ nth_error (sockets (store v)) id = Some w /\
                  readyState w = OPEN /\ handlers w = Some r /\ identified r) /\
  reconnect_retryCount (store v) = 0 /\
  forall t, In t (timers (store v)) -> heartbeatRef (store v) = Some (timer_id t).

(** The viewer is waiting to reconnect after [k] closes in a row. *)
Definition retrying (k : Z) (v : Viewer) : Prop :=
  reconnect_retryCount (store v) = k - 1 /\
  heartbeatRef (store v) = None /\
  (exists id w, websocketRef (store v) = Some id /\ nth_error (sockets (store v)) id = Some w /\
                readyState w = CLOSED) /\
  exists t r, reconnect_timeout (store v) = Some t /\ identified r /\
              timers (store v) = [{| timer_id := t; timer_delay := reconnectDelay (k - 1);
                                     timer_action := run_reconnect r (k - 1) |}].

(** ***** Renders *)

(** No state variable differs between two renders. *)
Definition same_identity (a b : Identity) : bool :=
  match viewerId a, viewerId b with
  | Some x, Some y => String.eqb x y
  | None, None => true
  | _, _ => false
  end &&
  match driverId a, driverId b with
  | Some x, Some y => String.eqb x y
  | None, None => true
  | _, _ => false
  end &&
  Bool.eqb (isSocketConnected a) (isSocketConnected b).

(** The renders that follow a change of state. [connectSocket] depends on
    [handleDriverUpdate], which depends on [getDirections], a function made
    anew in every render: the effect that connects runs after every render,
    and calls [connectSocket] when [tracking] holds, the coordinates being
    resolved or the map being shown. [rendered] is the state of the last
    render. *)
Fixpoint commit (renders : nat) (tracking : bool) (rendered : Identity) (v : Viewer) : Viewer :=
  match renders with
  | O => v
  | S n =>
      if same_identity rendered (identity v) then v
      else commit n tracking (identity v) (if tracking then step v effect_connect else v)
  end.

(** An event, and the renders it causes. *)
Definition react (tracking : bool) (v : Viewer) (e : Event) : Viewer :=
  commit 2 tracking (identity v) (step v e).

(** The next close in a row: the reconnection timeout fires if one is
    pending, and the socket of the ref, if there is one, closes with
    [code]. *)
Definition nextClose (tracking : bool) (code : Z) (v : Viewer) : Viewer :=
  let v1 := match reconnect_timeout (store v) with
            | Some t => react tracking v (timer_fired t)
            | None => v
            end in
  match websocketRef (store v1) with
  | Some id => react tracking v1 (socket_closed id code)
  | None => v1
  end.

(** The state after [k] closes in a row. *)
Definition closes (tracking : bool) (k : nat) (code : Z) (v : Viewer) : Viewer :=
  Nat.iter k (nextClose tracking code) v.



(** The viewer is waiting to reconnect, and the screen has rendered the loss. *)
Definition waiting (k : Z) (v : Viewer) : Prop :=
  retrying k v /\ isSocketConnected (identity v) = false.

(** Every timer is the one of a ref, and only the socket of the ref still
    has its handlers. *)
Definition tidy (v : Viewer) : Prop :=
  (forall t, In t (timers (store v)) ->
     reconnect_timeout (store v) = Some (timer_id t) \/ heartbeatRef (store v) = Some (timer_id t)) /\
  (forall j w, nth_error (sockets (store v)) j = Some w ->
     websocketRef (store v) <> Some j -> handlers w = None).

(** Nothing is left that could run: no timer, and no socket with a handler. *)
Definition silent (v : Viewer) : Prop :=
  timers (store v) = [] /\ Forall (fun w => handlers w = None) (sockets (store v)).

(** The events other than the effect that connects. *)
Definition no_connect (e : Event) : bool :=
  match e with
  | effect_connect => false
  | _ => true
  end.

(** A viewer following a driver, its socket open. *)
Definition watching : Viewer :=
  run (mounted (Some "viewer-3"%string) (Some "driver-7"%string)) [effect_connect; socket_opened 0%nat].
End ViewerChannel.
End CustomerDetailScreen.

(** ** Vocabulary of the statements *)

(** The numeral of [n / 10]: one digit after the point, none when it would be 0. *)
Definition tenths (n : Z) : string :=
  if (n mod 10 =? 0)%Z then decimal (n / 10)
  else (decimal (n / 10) ++ String "." (String (digit (n mod 10)) EmptyString))%string.

(** [keyword] occurs in [text]. *)
Definition occurs (keyword text : string) : Prop :=
  exists before after : string, text = (before ++ keyword ++ after)%string.

(** A trip across Bengaluru on the doubles the program runs on, with the
    reference sines and cosines: the pickup on MG Road, the drop in
    Koramangala, and a point some sixty metres from each. *)
Module Trip.
Definition bengaluru : LatLng Binary64.number := Binary64.coordinate 12.9716%float 77.5946%float.
Definition chennai : LatLng Binary64.number := Binary64.coordinate 13.0827%float 80.2707%float.

Definition pickupPoint : LatLng Binary64.number := Binary64.coordinate 12.9716%float 77.5946%float.
Definition dropPoint : LatLng Binary64.number := Binary64.coordinate 12.9352%float 77.6245%float.
Definition nearPickup : LatLng Binary64.number := Binary64.coordinate 12.9720%float 77.5950%float.

Definition run := LocationScreen.run (M := Binary64.reference).

(** The driver has submitted the trip and is on the way to the pickup. *)
Definition toPickup : LocationScreen.Component :=
  run (LocationScreen.sharing (M := Binary64.reference))
      [LocationScreen.trip_entered "MG Road" "Koramangala" (Some pickupPoint) (Some dropPoint);
       LocationScreen.submit_succeeded].



(** The viewer's guidance along a route of three steps, the ends of the
    first two some thirty metres apart. *)
Definition routeStep (text : string) (lat lng : float) : CustomerDetailScreen.RouteStepInfo :=
  @CustomerDetailScreen.Build_RouteStepInfo Binary64.number
    text 100%float (Binary64.coordinate lat lng) (extractTurnType text).

Definition route : CustomerDetailScreen.RouteResult :=
  @CustomerDetailScreen.Build_RouteResult Binary64.number
    [pickupPoint; dropPoint]
    [routeStep "Turn left onto Brigade Road" 12.9720%float 77.5950%float;
     routeStep "Turn right onto Residency Road" 12.9722%float 77.5952%float;
     routeStep "Go straight on Hosur Road" 12.9352%float 77.6245%float].

(** Guidance before any route, the speech synthesis ready. *)
Definition noRoute : CustomerDetailScreen.Guidance :=
  @CustomerDetailScreen.Build_Guidance Binary64.number [] 0 "" None true true [] [].

Definition guidance : CustomerDetailScreen.Guidance :=
  CustomerDetailScreen.newRoute route noRoute.


End Trip.

(** ** LocationScreen.tsx: the address search *)

Module LocationSearch.
Local Open Scope string_scope.

(** [interface LocationSuggestion], as far as the screen reads it. *)
Record LocationSuggestion : Type := {
  display_name : string;
  lat : string;
  lon : string;
  place_id : string
}.

Definition CACHE_KEY_PREFIX : string := "location_suggestions_cache".
Definition CACHE_EXPIRY_MS : Z := 24 * 60 * 60 * 1000.

Definition POPULAR_CITIES : list LocationSuggestion := [
  {| display_name := "Mumbai, Maharashtra, India"; lat := "19.0760"; lon := "72.8777"; place_id := "mumbai" |};
  {| display_name := "Delhi, India"; lat := "28.6139"; lon := "77.2090"; place_id := "delhi" |};
  {| display_name := "Bengaluru, Karnataka, India"; lat := "12.9716"; lon := "77.5946"; place_id := "bengaluru" |};
  {| display_name := "Hyderabad, Telangana, India"; lat := "17.3850"; lon := "78.4867"; place_id := "hyderabad" |};
  {| display_name := "Chennai, Tamil Nadu, India"; lat := "13.0827"; lon := "80.2707"; place_id := "chennai" |};
  {| display_name := "Kolkata, West Bengal, India"; lat := "22.5726"; lon := "88.3639"; place_id := "kolkata" |};
  {| display_name := "Pune, Maharashtra, India"; lat := "18.5204"; lon := "73.8567"; place_id := "pune" |};
  {| display_name := "Ahmedabad, Gujarat, India"; lat := "23.0225"; lon := "72.5714"; place_id := "ahmedabad" |}
].

(** [getCacheKey]: the prefix, an underscore, and the query in lower case
    and trimmed. *)
Definition getCacheKey (query : string) : string :=
  CACHE_KEY_PREFIX ++ "_" ++ trim (toLowerCase query).

(** *** The suggestion cache in [AsyncStorage]

  The text stored under a cache key is the JSON of [{ data, timestamp }];
  it is kept here as the entry it parses to.  The newest binding of a key
  comes first. *)

Record CacheEntry : Type := { data : list LocationSuggestion; timestamp : Z }.

Definition Storage : Type := list (string * CacheEntry).

Definition getItem (key : string) (storage : Storage) : option CacheEntry :=
  option_map snd (find (fun binding => String.eqb (fst binding) key) storage).

Definition removeItem (key : string) (storage : Storage) : Storage :=
  filter (fun binding => negb (String.eqb (fst binding) key)) storage.

Definition setItem (key : string) (entry : CacheEntry) (storage : Storage) : Storage :=
  (key, entry) :: removeItem key storage.

(** [cacheSuggestions(query, data)] at the time [now]; [stored] tells
    whether [AsyncStorage.setItem] succeeds: when it throws, the error is
    logged and nothing is stored. *)
Definition cacheSuggestions (query : string) (suggestions : list LocationSuggestion)
    (now : Z) (stored : bool) (storage : Storage) : Storage :=
  if stored
  then setItem (getCacheKey query) {| data := suggestions; timestamp := now |} storage
  else storage.

(** [readCachedSuggestions(query)] at the time [now]: what it returns, and
    the storage it leaves. *)
Definition readCachedSuggestions (query : string) (now : Z) (storage : Storage)
    : option (list LocationSuggestion) * Storage :=
  match getItem (getCacheKey query) storage with
  | None => (None, storage)
  | Some cache =>
      if (now - timestamp cache >? CACHE_EXPIRY_MS)%Z
      then (None, removeItem (getCacheKey query) storage)
      else (Some (data cache), storage)
  end.

(** *** Suggestions *)

(** [getInstantSuggestions]. *)
Definition getInstantSuggestions (query : string) : list LocationSuggestion :=
  let lowerQuery := trim (toLowerCase query) in
  if (String.length lowerQuery <? 1)%nat then []
  else filter (fun city => includes lowerQuery (toLowerCase (display_name city))) POPULAR_CITIES.

(** The body of [filtered.forEach] in [fetchSearchSuggestions]: a result is
    pushed unless a result with the same name, letter case aside, is there. *)
Definition pushUnlessExists (combined : list LocationSuggestion) (result : LocationSuggestion)
    : list LocationSuggestion :=
  if existsb (fun existing => String.eqb (toLowerCase (display_name existing))
                                         (toLowerCase (display_name result))) combined
  then combined
  else combined ++ [result].

(** [finalResults] of [fetchSearchSuggestions], for the trimmed query and
    the reply [data] of the search service. *)
Definition finalResults (trimmedQuery : string) (reply : list LocationSuggestion)
    : list LocationSuggestion :=
  let instantResults := getInstantSuggestions trimmedQuery in
  let filtered :=
    firstn 6 (filter (fun item => includes (toLowerCase trimmedQuery)
                                           (toLowerCase (display_name item))) reply) in
  let combined := fold_left pushUnlessExists filtered instantResults in
  firstn 8 combined.

(** [text.split(separator)] for a non-empty separator: the parts between
    the occurrences of the separator, leftmost first, without overlap.
    [skip] counts the characters of an occurrence still to be passed over. *)
Fixpoint split (separator : string) (skip : nat) (text : string) : list string :=
  match text with
  | EmptyString => [EmptyString]
  | String c rest =>
      match skip with
      | S k => split separator k rest
      | O =>
          if String.prefix separator text
          then EmptyString :: split separator (String.length separator - 1) rest
          else match split separator 0 rest with
               | part :: parts => String c part :: parts
               | [] => [String c EmptyString]
               end
      end
  end.

(** [parts.join(separator)]. *)
Definition join (separator : string) (parts : list string) : string :=
  String.concat separator parts.

(** [formatSuggestion]: the first four parts of the name. *)
Definition formatSuggestion (displayName : string) : string :=
  join ", " (firstn 4 (split ", " 0 displayName)).

(** **** Vocabulary of the statements *)

(** A text that does not start with white space. *)
Definition starts_clean (s : string) : Prop :=
  match s with
  | EmptyString => True
  | String c _ => is_space c = false
  end.

(** The name of a suggestion in lower case: what results are compared by. *)
Definition name (s : LocationSuggestion) : string := toLowerCase (display_name s).

(** Two queries agree up to letter case and surrounding white space. *)
Definition sameQuery (q1 q2 : string) : Prop :=
  trim (toLowerCase q1) = trim (toLowerCase q2).
End LocationSearch.

(** ** LocationScreen.tsx: the trip form *)

Module LocationForm.
Import LocationSearch.

Section Form.
Context {N : JsNumber}.
Local Open Scope string_scope.

(** [Number.parseFloat], and the outcome of the geocoding request for an
    address: its first result, or nothing when the request fails or finds
    nothing. *)
Variable parseFloat : string -> num.
Variable geocode : string -> option (LatLng N).

(** The argument of [handleLocationChange]: ["from" | "to"]. *)
Inductive Field : Type := field_from | field_to.

(** [type TypingField = "from" | "to" | ""]. *)
Inductive TypingField : Type := typing (field : Field) | not_typing.

(** The state the form's handlers read and write. *)
Record Form : Type := {
  location_from : string;
  location_to : string;
  error_from : string;               (* [validationErrors.from] *)
  error_to : string;
  searchResults : list LocationSuggestion;
  typingField : TypingField;
  showSuggestions : bool;
  isLoadingSuggestions : bool;
  pickupCoordinate : option (LatLng N);
  dropCoordinate : option (LatLng N);
  typingFlag : bool                  (* [typingFlagRef.current] *)
}.

Definition required (field : Field) : string :=
  (match field with field_from => "Pickup" | field_to => "Drop-off" end) ++ " location is required".

(** [handleLocationChange(field, value)], up to the timeout that lowers
    the typing flag again. *)
Definition handleLocationChange (field : Field) (value : string) (f : Form) : Form :=
  let error := match trim value with EmptyString => required field | _ => "" end in
  match field with
  | field_from =>
      {| location_from := value; location_to := location_to f;
         error_from := error; error_to := error_to f;
         searchResults := searchResults f; typingField := typingField f;
         showSuggestions := showSuggestions f; isLoadingSuggestions := isLoadingSuggestions f;
         pickupCoordinate := None; dropCoordinate := dropCoordinate f;
         typingFlag := true |}
  | field_to =>
      {| location_from := location_from f; location_to := value;
         error_from := error_from f; error_to := error;
         searchResults := searchResults f; typingField := typingField f;
         showSuggestions := showSuggestions f; isLoadingSuggestions := isLoadingSuggestions f;
         pickupCoordinate := pickupCoordinate f; dropCoordinate := None;
         typingFlag := true |}
  end.

Definition setCoordinate (field : Field) (coordinate : option (LatLng N)) (f : Form) : Form :=
  {| location_from := location_from f; location_to := location_to f;
     error_from := error_from f; error_to := error_to f;
     searchResults := searchResults f; typingField := typingField f;
     showSuggestions := showSuggestions f; isLoadingSuggestions := isLoadingSuggestions f;
     pickupCoordinate := match field with field_from => coordinate | field_to => pickupCoordinate f end;
     dropCoordinate := match field with field_from => dropCoordinate f | field_to => coordinate end;
     typingFlag := typingFlag f |}.

(** [handleSelectSuggestion(item)]: the state updates of the handler, in
    the order it queues them. *)
Definition handleSelectSuggestion (item : LocationSuggestion) (f : Form) : Form :=
  match typingField f with
  | not_typing => f
  | typing field =>
      if String.eqb (place_id item) "loading" then f
      else
        let address := hd "" (split ", India" 0 (display_name item)) in
        let parsedCoordinate :=
          {| latitude := parseFloat (lat item); longitude := parseFloat (lon item) |} in
        let f1 := setCoordinate field (Some parsedCoordinate) f in
        let f2 := handleLocationChange field address f1 in
        {| location_from := location_from f2; location_to := location_to f2;
           error_from := error_from f2; error_to := error_to f2;
           searchResults := []; typingField := not_typing;
           showSuggestions := false; isLoadingSuggestions := false;
           pickupCoordinate := pickupCoordinate f2; dropCoordinate := dropCoordinate f2;
           typingFlag := typingFlag f2 |}
  end.

(** [validateInputs]: whether the form is valid, and the form with its
    validation errors set. *)
Definition validateInputs (f : Form) : bool * Form :=
  let blank (text : string) := match trim text with EmptyString => true | _ => false end in
  (negb (blank (location_from f)) && negb (blank (location_to f)),
   {| location_from := location_from f; location_to := location_to f;
      error_from := if blank (location_from f) then "Pickup location is required" else "";
      error_to := if blank (location_to f) then "Drop-off location is required" else "";
      searchResults := searchResults f; typingField := typingField f;
      showSuggestions := showSuggestions f; isLoadingSuggestions := isLoadingSuggestions f;
      pickupCoordinate := pickupCoordinate f; dropCoordinate := dropCoordinate f;
      typingFlag := typingFlag f |}).

(** [resolveAddressCoordinate]. *)
Definition resolveAddressCoordinate (address : string) : option (LatLng N) :=
  match trim address with
  | EmptyString => None
  | _ => geocode address
  end.

(** [ensureCoordinates]: the pair it returns, [None] with the error alert,
    and the form with the coordinates it resolved. *)
Definition ensureCoordinates (f : Form) : option (LatLng N * LatLng N) * Form :=
  let pickup := match pickupCoordinate f with
                | Some p => Some p
                | None => resolveAddressCoordinate (location_from f)
                end in
  let drop := match dropCoordinate f with
              | Some d => Some d
              | None => resolveAddressCoordinate (location_to f)
              end in
  let f' := {| location_from := location_from f; location_to := location_to f;
               error_from := error_from f; error_to := error_to f;
               searchResults := searchResults f; typingField := typingField f;
               showSuggestions := showSuggestions f; isLoadingSuggestions := isLoadingSuggestions f;
               pickupCoordinate := pickup; dropCoordinate := drop;
               typingFlag := typingFlag f |} in
  match pickup, drop with
  | Some p, Some d => (Some (p, d), f')
  | _, _ => (None, f')
  end.
End Form.

(** The empty form, the pickup field being typed in. *)
Definition typingPickup : @Form Binary64.number :=
  @Build_Form Binary64.number "" "" "" "" [] (typing field_from) true false None None false.
End LocationForm.

(** ** CustomerDetailScreen: the map region and the car's rotation *)

(** [Math.abs]. *)
Class JsAbs (N : JsNumber) : Type := { Math_abs : num -> num }.

Definition exact_abs (x : Exact.exact) : Exact.exact :=
  match x with
  | Exact.Val q => Exact.Val (Qabs q)
  | Exact.NaN => Exact.NaN
  end.

#[export] Instance Exact_abs : JsAbs Exact.number := @Build_JsAbs Exact.number exact_abs.

#[export] Instance Binary64_abs : JsAbs Binary64.number :=
  @Build_JsAbs Binary64.number PrimFloat.abs.

Module CustomerMap.
Section Map.
Context {N : JsNumber} {M : JsMath N} {F : JsFormat N} {A : JsAbs N}.
Local Open Scope js_scope.

(** A decimal literal of the program text, [digits / 10^places]: the
    number nearest to it, as the quotient of two integers is. *)
Definition decimalLiteral (digits : Z) (places : nat) : num :=
  lit digits / lit (10 ^ Z.of_nat places).

(** [type MapMode = "full" | "toPickup" | "pickupToDrop"]. *)
Inductive MapMode : Type := full | toPickup | pickupToDrop.

Record Region : Type := {
  region_latitude : num;
  region_longitude : num;
  latitudeDelta : num;
  longitudeDelta : num
}.

(** [getMapRegion]. *)
Definition getMapRegion (mapMode : MapMode)
    (currentLocation pickupCoords dropCoords : option (LatLng N)) : Region :=
  let between (p q : LatLng N) (factor least : num) : Region :=
    let midLat := (latitude p + latitude q) / lit 2 in
    let midLng := (longitude p + longitude q) / lit 2 in
    let latDelta := Math_abs (latitude p - latitude q) * factor in
    let lngDelta := Math_abs (longitude p - longitude q) * factor in
    {| region_latitude := midLat; region_longitude := midLng;
       latitudeDelta := Math_max latDelta least;
       longitudeDelta := Math_max lngDelta least |} in
  let around (p : LatLng N) (delta : num) : Region :=
    {| region_latitude := latitude p; region_longitude := longitude p;
       latitudeDelta := delta; longitudeDelta := delta |} in
  match mapMode, currentLocation, pickupCoords, dropCoords with
  | toPickup, Some current, Some pickup, _ =>
      between current pickup (decimalLiteral 15 1) (decimalLiteral 1 2)
  | toPickup, Some current, None, _ => around current (decimalLiteral 4 3)
  | _, _, Some pickup, Some drop =>
      between pickup drop (decimalLiteral 13 1) (decimalLiteral 5 2)
  | _, _, Some pickup, None => around pickup (decimalLiteral 2 2)
  | _, Some current, None, _ => around current (decimalLiteral 5 2)
  | _, None, None, _ =>
      {| region_latitude := decimalLiteral 19076 3; region_longitude := decimalLiteral 728777 4;
         latitudeDelta := decimalLiteral 1 1; longitudeDelta := decimalLiteral 1 1 |}
  end.

(** [calculateCarRotation]. *)
Definition calculateCarRotation (prevLoc newLoc : LatLng N) : num :=
  let deltaLat := latitude newLoc - latitude prevLoc in
  let deltaLng := longitude newLoc - longitude prevLoc in
  let angle := Math_atan2 deltaLng deltaLat * (lit 180 / Math_PI) in
  angle.
End Map.

(** **** Vocabulary of the statements *)

(** A point with exact coordinates. *)
Definition exactPoint (lat lng : Q) : LatLng Exact.number :=
  @Build_LatLng Exact.number (Exact.Val lat) (Exact.Val lng).

(** The point [(lat, lng)] is on the map that shows [region]: within half
    the span of the centre, in both directions. *)
Definition shows (lat lng dLat dLng cLat cLng : Q) : Prop :=
  (Qabs (lat - cLat) <= dLat / 2 /\ Qabs (lng - cLng) <= dLng / 2)%Q.
End CustomerMap.

(** ** AutoDriverTracking.ts: a session of the service *)

Module TrackingSession.
Import AutoDriverTracking.

Section Session.
Context {N : JsNumber}.

(** What the application and the platform do to the service: the
    application calls [startAutoTracking] or [stopAutoTracking] (the event
    [stop]), a socket opens or closes, a timer is due, a position arrives. *)
Inductive Command : Type :=
| event (e : Event)
| start (uid cab : option string) (permission : bool).

Definition exec (s : State) (c : Command) : State :=
  match c with
  | event e => step s e
  | start uid cab permission => startAutoTracking uid cab permission s
  end.

(** The service after a sequence of commands, from the module's initial values. *)
Definition session (commands : list Command) : State := fold_left exec commands initial.

(** **** Vocabulary of the statements *)

(** A socket that is open or being opened. *)
Definition is_live {C : Type} (w : WebSocket N C) : bool :=
  match readyState w with
  | OPEN | CONNECTING => true
  | _ => false
  end.

Definition is_ping (t : Timer Action) : bool :=
  match timer_action t with run_sendPing => true | _ => false end.

Definition is_reconnect (t : Timer Action) : bool :=
  match timer_action t with run_connectSocket => true | _ => false end.

(** The state is orderly: only the socket [ws] refers to may be live, the
    timers have distinct handles below the next one, the only heartbeat
    interval is the one [heartbeat] holds and the only reconnection timeout
    the one [reconnectTimer] holds. *)
Definition orderly (s : State) : Prop :=
  (forall i w, nth_error (sockets s) i = Some w -> is_live w = true -> ws s = Some i) /\
  (forall t, In t (timers s) -> (timer_id t < nextTimer s)%nat) /\
  NoDup (map timer_id (timers s)) /\
  (forall t, In t (timers s) -> is_ping t = true -> heartbeat s = Some (timer_id t)) /\
  (forall t, In t (timers s) -> is_reconnect t = true -> reconnectTimer s = Some (timer_id t)).
End Session.
End TrackingSession.

(** ** CustomerDetailScreen: following the driver *)

Module DriverUpdates.
Import CustomerDetailScreen CustomerMap.

Section Updates.
Context {N : JsNumber} {M : JsMath N} {F : JsFormat N}.
Local Open Scope string_scope.
Local Open Scope js_scope.

(** The [location] of a [location_update] message, as the handlers read
    it: the coordinates after [Number(...)], the pickup and the drop when
    they are objects, the phase when it is not empty. *)
Record LiveLocation : Type := {
  live_latitude : num;
  live_longitude : num;
  live_pickup : option (LatLng N);
  live_drop : option (LatLng N);
  live_phase : option TripPhase
}.

(** The state variables and refs that following the driver reads and writes. *)
Record Tracking : Type := {
  currentLocation : option (LatLng N);
  pickupCoords : option (LatLng N);
  dropCoords : option (LatLng N);
  tripPhase : TripPhase;
  mapMode : MapMode;
  showStartTripButton : bool;
  showEndTripButton : bool;
  carRotation : num;
  prevLocation : option (LatLng N);                  (* [prevLocationRef.current] *)
  pendingRoute : option (LatLng N * LatLng N);       (* [pendingRouteRef.current]: origin, destination *)
  lastRoute : option RouteResult;                    (* [lastRouteRef.current] *)
  polylineCoords : list (LatLng N);
  guidance : Guidance
}.

Definition driverPoint (live : LiveLocation) : LatLng N :=
  {| latitude := live_latitude live; longitude := live_longitude live |}.

(** A number is truthy when it is neither 0 nor NaN. *)
Definition truthyNumber (x : num) : bool := (x <? lit 0) || (lit 0 <? x).

(** [point?.latitude && point?.longitude]. *)
Definition hasCoordinates (point : option (LatLng N)) : bool :=
  match point with
  | Some p => truthyNumber (latitude p) && truthyNumber (longitude p)
  | None => false
  end.

Definition isSome {A : Type} (value : option A) : bool :=
  match value with Some _ => true | None => false end.

Definition with_guidance (g : Guidance) (v : Tracking) : Tracking :=
  {| currentLocation := currentLocation v; pickupCoords := pickupCoords v;
     dropCoords := dropCoords v; tripPhase := tripPhase v; mapMode := mapMode v;
     showStartTripButton := showStartTripButton v; showEndTripButton := showEndTripButton v;
     carRotation := carRotation v; prevLocation := prevLocation v;
     pendingRoute := pendingRoute v; lastRoute := lastRoute v;
     polylineCoords := polylineCoords v; guidance := g |}.

Definition with_pendingRoute (pending : option (LatLng N * LatLng N)) (v : Tracking) : Tracking :=
  {| currentLocation := currentLocation v; pickupCoords := pickupCoords v;
     dropCoords := dropCoords v; tripPhase := tripPhase v; mapMode := mapMode v;
     showStartTripButton := showStartTripButton v; showEndTripButton := showEndTripButton v;
     carRotation := carRotation v; prevLocation := prevLocation v;
     pendingRoute := pending; lastRoute := lastRoute v;
     polylineCoords := polylineCoords v; guidance := guidance v |}.

Definition with_polylineCoords (line : list (LatLng N)) (v : Tracking) : Tracking :=
  {| currentLocation := currentLocation v; pickupCoords := pickupCoords v;
     dropCoords := dropCoords v; tripPhase := tripPhase v; mapMode := mapMode v;
     showStartTripButton := showStartTripButton v; showEndTripButton := showEndTripButton v;
     carRotation := carRotation v; prevLocation := prevLocation v;
     pendingRoute := pendingRoute v; lastRoute := lastRoute v;
     polylineCoords := line; guidance := guidance v |}.

(** [applyRouteResult(route, options)], the callback of render [r], as far
    as the route and guidance go (the map's camera is left out).  The
    boolean is [false] when the [updateGuidanceProgress] it calls throws:
    what was set before stays. *)
Definition applyRouteResult (r : Tracking) (route : RouteResult) (v : Tracking) : Tracking * bool :=
  let v1 :=
    {| currentLocation := currentLocation v; pickupCoords := pickupCoords v;
       dropCoords := dropCoords v; tripPhase := tripPhase v; mapMode := mapMode v;
       showStartTripButton := showStartTripButton v; showEndTripButton := showEndTripButton v;
       carRotation := carRotation v; prevLocation := prevLocation v;
       pendingRoute := pendingRoute v; lastRoute := Some route;
       polylineCoords := coordinates route; guidance := newRoute route (guidance v) |} in
  match steps route with
  | [] => (v1, true)
  | first :: _ =>
      let basePoint := match currentLocation r with
                       | Some p => Some p
                       | None => hd_error (coordinates route)
                       end in
      match basePoint with
      | Some p =>
          match updateGuidanceProgress (guidance r) p (Some (steps route)) (guidance v1) with
          | Some g => (with_guidance g v1, true)
          | None => (v1, false)
          end
      | None =>
          let meters := distanceMeters first in
          (with_guidance
             (setActiveStep (activeStepIndex (guidance v1)) (formatDistance meters)
                            (Some meters) (guidance v1)) v1, true)
      end
  end.

(** The part of [handleDriverUpdate] before it looks at the route: the
    car's rotation, the location, guidance, the two arrival checks, and the
    pickup, drop and phase the message carries.  The boolean is [false]
    when [updateGuidanceProgress] throws, which the handler catches: what
    was set before stays and the rest is skipped. *)
Definition noteDriver (r : Tracking) (live : LiveLocation) (v : Tracking) : Tracking * bool :=
  let rotation := match prevLocation v with
                  | Some prev => calculateCarRotation prev (driverPoint live)
                  | None => carRotation v
                  end in
  let located (g : Guidance) (start finish : bool) (pickup drop : option (LatLng N))
              (phase : TripPhase) : Tracking :=
    {| currentLocation := Some (driverPoint live); pickupCoords := pickup; dropCoords := drop;
       tripPhase := phase; mapMode := mapMode v;
       showStartTripButton := start; showEndTripButton := finish;
       carRotation := rotation; prevLocation := Some (driverPoint live);
       pendingRoute := pendingRoute v; lastRoute := lastRoute v;
       polylineCoords := polylineCoords v; guidance := g |} in
  match updateGuidanceProgress (guidance r) (driverPoint live) None (guidance v) with
  | None =>
      (located (guidance v) (showStartTripButton v) (showEndTripButton v)
               (pickupCoords v) (dropCoords v) (tripPhase v), false)
  | Some g =>
      let atPickup :=
        match pickupCoords r with
        | Some pickup =>
            TripPhase_eqb (tripPhase r) to_pickup && negb (showStartTripButton r) &&
            (calculateDistance (driverPoint live) pickup <=? lit 100)
        | None => false
        end in
      let atDrop :=
        match dropCoords r with
        | Some drop =>
            TripPhase_eqb (tripPhase r) to_drop && negb (showEndTripButton r) &&
            (calculateDistance (driverPoint live) drop <=? lit 50)
        | None => false
        end in
      let phase1 := if atPickup then pickup_reached else tripPhase v in
      let phase2 := if atDrop then completed else phase1 in
      let phase3 := match live_phase live with Some p => p | None => phase2 end in
      (located g
         (if atPickup then true else showStartTripButton v)
         (if atDrop then true else showEndTripButton v)
         (if hasCoordinates (live_pickup live) then live_pickup live else pickupCoords v)
         (if hasCoordinates (live_drop live) then live_drop live else dropCoords v)
         phase3, true)
  end.

(** The route [handleDriverUpdate] asks for next: a pending route keeps
    its destination and starts from the driver; without one, the message's
    phase chooses the pickup or the drop it carries. *)
Definition nextRoute (live : LiveLocation) (pending : option (LatLng N * LatLng N)) :
    option (LatLng N * LatLng N) :=
  match pending with
  | Some (_, destination) => Some (driverPoint live, destination)
  | None =>
      match live_phase live, live_pickup live, live_drop live with
      | Some to_pickup, Some pickup, _ => Some (driverPoint live, pickup)
      | Some to_drop, _, Some drop => Some (driverPoint live, drop)
      | _, _, _ => None
      end
  end.

(** [handleDriverUpdate(payload)], the callback of render [r], up to its
    [await]: the state it leaves and the route it has asked for, if any. *)
Definition handleDriverUpdate (r : Tracking) (live : LiveLocation) (v : Tracking) :
    Tracking * option (LatLng N * LatLng N) :=
  match noteDriver r live v with
  | (v1, false) => (v1, None)
  | (v1, true) =>
      let v2 := with_pendingRoute (nextRoute live (pendingRoute v1)) v1 in
      (v2, pendingRoute v2)
  end.

(** [handleDriverUpdate] after its [await], when [getDirections] has
    completed with [directions]. *)
Definition handleDriverUpdate_resumed (r : Tracking) (live : LiveLocation)
    (directions : Completion RouteResult) (v : Tracking) : Tracking :=
  match directions with
  | Throw => v
  | Normal routeResult =>
      match applyRouteResult r routeResult v with
      | (v1, false) => v1
      | (v1, true) =>
          match updateGuidanceProgress (guidance r) (driverPoint live)
                  (Some (steps routeResult)) (guidance v1) with
          | None => v1
          | Some g =>
              let v2 := with_guidance g v1 in
              match pendingRoute v2 with
              | Some (_, destination) =>
                  with_pendingRoute (Some (driverPoint live, destination)) v2
              | None => v2
              end
          end
      end
  end.

(** [updateRouteFromLive(live)], the function of render [r], up to its
    first [await]: the state it leaves and the destination it has found,
    if any. *)
Definition updateRouteFromLive (r : Tracking) (live : LiveLocation) (v : Tracking) :
    Tracking * option (LatLng N) :=
  let hasPickup := hasCoordinates (live_pickup live) || isSome (pickupCoords r) in
  let effectivePhase :=
    match live_phase live with
    | Some to_pickup => Some to_pickup
    | Some to_drop => Some to_drop
    | _ => if hasPickup then Some to_pickup else None
    end in
  let v1 :=
    match effectivePhase with
    | Some phase =>
        {| currentLocation := currentLocation v; pickupCoords := pickupCoords v;
           dropCoords := dropCoords v; tripPhase := phase;
           mapMode := match phase with
                      | to_drop => pickupToDrop
                      | to_pickup => toPickup
                      | _ => mapMode v
                      end;
           showStartTripButton := match phase with
                                  | to_drop => false
                                  | _ => showStartTripButton v
                                  end;
           showEndTripButton := showEndTripButton v;
           carRotation := carRotation v; prevLocation := prevLocation v;
           pendingRoute := pendingRoute v; lastRoute := lastRoute v;
           polylineCoords := polylineCoords v; guidance := guidance v |}
    | None => v
    end in
  let destination :=
    match effectivePhase with
    | Some to_drop =>
        match live_drop live with
        | Some drop => Some drop
        | None => dropCoords r
        end
    | Some to_pickup =>
        match live_pickup live with
        | Some pickup => Some pickup
        | None => pickupCoords r
        end
    | _ => None
    end in
  (v1, destination).

(** [updateRouteFromLive] after [getDirections] has completed, for a
    destination it has found. *)
Definition updateRouteFromLive_resumed (live : LiveLocation) (destination : LatLng N)
    (directions : Completion RouteResult) (v : Tracking) : Tracking :=
  match directions with
  | Throw => v
  | Normal route =>
      match coordinates route with
      | [] => with_polylineCoords [driverPoint live; destination] v
      | line => with_polylineCoords line v
      end
  end.

(** What happens while the driver is followed: [onmessage] receives a
    [location_update] and runs both handlers up to their [await]s, or the
    directions one of them waits for arrive.  The timer that [onmessage]
    arms to draw a straight line when the map has none, and the geocoding
    that [updateRouteFromLive] falls back on without a destination, are
    left out: they write the line and the coordinates only. *)
Inductive Happening : Type :=
| received (r : Tracking) (live : LiveLocation)
| directionsForGuidance (r : Tracking) (live : LiveLocation) (origin destination : LatLng N)
    (google : Reply GoogleData) (osrm : Reply OsrmData)
| directionsForLine (live : LiveLocation) (destination : LatLng N)
    (google : Reply GoogleData) (osrm : Reply OsrmData).

Definition onLocationUpdate (r : Tracking) (live : LiveLocation) (v : Tracking) : Tracking :=
  fst (updateRouteFromLive r live (fst (handleDriverUpdate r live v))).

Definition happen (v : Tracking) (h : Happening) : Tracking :=
  match h with
  | received r live => onLocationUpdate r live v
  | directionsForGuidance r live origin destination google osrm =>
      handleDriverUpdate_resumed r live (getDirections origin destination google osrm) v
  | directionsForLine live destination google osrm =>
      updateRouteFromLive_resumed live destination
        (getDirections (driverPoint live) destination google osrm) v
  end.

Definition follow (happenings : list Happening) (v : Tracking) : Tracking :=
  fold_left happen happenings v.

(** ***** Vocabulary of the statements *)

(** The destination of the pending route, if there is one. *)
Definition pendingDestination (v : Tracking) : option (LatLng N) :=
  option_map snd (pendingRoute v).

(** The viewer of render [r] knows a pickup, or the message names one. *)
Definition pickupKnown (r : Tracking) (live : LiveLocation) : Prop :=
  hasCoordinates (live_pickup live) = true \/ pickupCoords r <> None.

(** The driver of [live] is within 100 m of the pickup that render [r]
    heads for, and the start button is not shown in [r]. *)
Definition reachesPickup (r : Tracking) (live : LiveLocation) : Prop :=
  exists pickup, pickupCoords r = Some pickup /\ tripPhase r = to_pickup /\
    showStartTripButton r = false /\
    (calculateDistance (driverPoint live) pickup <=? lit 100) = true.
End Updates.
End DriverUpdates.

(** ** CustomerDetailScreen: the guidance banner *)

Module GuidanceBanner.
Import CustomerDetailScreen.

Section Banner.
Context {N : JsNumber}.
Local Open Scope string_scope.
Local Open Scope js_scope.

(** [activeGuidanceStep]: the step the clamped index points to, [null]
    without steps. *)
Definition activeGuidanceStep (g : Guidance) : option RouteStepInfo :=
  match guidanceSteps g with
  | [] => None
  | _ => nth_error (guidanceSteps g)
           (Nat.min (activeStepIndex g) (List.length (guidanceSteps g) - 1))
  end.

Definition activeTurnIcon (g : Guidance) : string :=
  match activeGuidanceStep g with
  | None => "navigation"
  | Some step =>
      match turnType step with
      | left => "turn-left"
      | right => "turn-right"
      | slight_left => "turn-slight-left"
      | slight_right => "turn-slight-right"
      | u_turn => "u-turn-left"
      | straight => "arrow-upward"
      end
  end.

Definition shouldShowGuidance (g : Guidance) : bool :=
  match activeGuidanceStep g with
  | None => false
  | Some _ =>
      match activeStepMeters g with
      | None => false
      | Some meters => meters <=? lit 100
      end
  end.

Definition guidanceTitle (g : Guidance) : string :=
  match activeGuidanceStep g with
  | None => ""
  | Some step =>
      match turnType step with
      | left => "Turn left"
      | right => "Turn right"
      | slight_left => "Keep left"
      | slight_right => "Keep right"
      | u_turn => "Make a U-turn"
      | straight => "Go straight"
      end
  end.
End Banner.
End GuidanceBanner.

(** A viewer and a driver for the examples. *)
Module Viewer.
Import DriverUpdates.

(** The viewer heads for the pickup and follows no route yet. *)
Definition waiting : Tracking :=
  @Build_Tracking Binary64.number None (Some Trip.pickupPoint) (Some Trip.dropPoint)
    to_pickup CustomerMap.toPickup false false 0%float None None None [] Trip.guidance.

(** The same viewer with a route to the drop pending. *)
Definition routed : Tracking :=
  with_pendingRoute (Some (Trip.pickupPoint, Trip.dropPoint)) waiting.

(** The driver, some sixty metres from the pickup, reports it as reached. *)
Definition arriving : LiveLocation :=
  @Build_LiveLocation Binary64.number
    (latitude Trip.nearPickup) (longitude Trip.nearPickup)
    (Some Trip.pickupPoint) None (Some pickup_reached).

(** The driver reports being on the way to the pickup. *)
Definition approaching : LiveLocation :=
  @Build_LiveLocation Binary64.number
    (latitude Trip.bengaluru) (longitude Trip.bengaluru)
    (Some Trip.pickupPoint) (Some Trip.dropPoint) (Some to_pickup).

Definition onLocationUpdate := DriverUpdates.onLocationUpdate (M := Binary64.reference) (F := Binary64.format).
Definition follow := DriverUpdates.follow (M := Binary64.reference) (F := Binary64.format).
End Viewer.

(** ** LocationScreen.tsx: submitting the trip *)

Module TripSubmission.
Import LocationSearch LocationForm.

Section Submit.
Context {N : JsNumber}.
Local Open Scope string_scope.

Variable parseFloat : string -> num.
Variable geocode : string -> option (LatLng N).

(** What [AsyncStorage.getItem] gives: a string, [null], or a rejection. *)
Inductive Stored : Type := stored (value : string) | missing | storage_failed.

(** The alerts of [handleSubmit] and of the [ensureCoordinates] it calls. *)
Inductive Alert : Type :=
| no_cab_assigned
| coordinates_unknown
| session_expired
| sharing_started
| submit_failed.

(** The fields of the [PATCH /update-trip] request; the coordinates go out
    as their [toString()]. *)
Record TripUpdate : Type := {
  pickupLocation : string;
  dropLocation : string;
  pickup : LatLng N;
  drop : LatLng N
}.

(** What a press on the submit button leaves: the form, the alerts shown,
    the request made, and whether sharing was started
    ([setTripPhase("to_pickup")], [setIsTracking(true)], [startBroadcasting()]). *)
Record Submitted : Type := {
  form : Form;
  alerts : list Alert;
  request : option TripUpdate;
  sharing : bool
}.

(** [handleInputFocus(field)]. *)
Definition handleInputFocus (field : Field) (f : Form) : Form :=
  let query := match field with field_from => location_from f | field_to => location_to f end in
  {| location_from := location_from f; location_to := location_to f;
     error_from := error_from f; error_to := error_to f;
     searchResults := searchResults f; typingField := typing field;
     showSuggestions := match trim query with
                        | EmptyString => showSuggestions f
                        | _ => true
                        end;
     isLoadingSuggestions := isLoadingSuggestions f;
     pickupCoordinate := pickupCoordinate f; dropCoordinate := dropCoordinate f;
     typingFlag := typingFlag f |}.

(** [handleSubmit], given the cab number of the render, the stored token
    and whether the server accepts the request. *)
Definition handleSubmit (cabNumber : string) (token : Stored) (accepted : bool) (f : Form) :
    Submitted :=
  let (valid, f1) := validateInputs f in
  if negb valid then {| form := f1; alerts := []; request := None; sharing := false |}
  else
    match cabNumber with
    | EmptyString => {| form := f1; alerts := [no_cab_assigned]; request := None; sharing := false |}
    | _ =>
        let (coordinates, f2) := ensureCoordinates geocode f1 in
        match coordinates with
        | None => {| form := f2; alerts := [coordinates_unknown]; request := None; sharing := false |}
        | Some (pickupPoint, dropPoint) =>
            match token with
            | storage_failed =>
                {| form := f2; alerts := [submit_failed]; request := None; sharing := false |}
            | missing | stored EmptyString =>
                {| form := f2; alerts := [session_expired]; request := None; sharing := false |}
            | stored _ =>
                let update := {| pickupLocation := location_from f; dropLocation := location_to f;
                                 pickup := pickupPoint; drop := dropPoint |} in
                if accepted
                then {| form := f2; alerts := [sharing_started]; request := Some update;
                        sharing := true |}
                else {| form := f2; alerts := [submit_failed]; request := Some update;
                        sharing := false |}
            end
        end
    end.

(** ***** Vocabulary of the statements *)

(** The address [handleSelectSuggestion] puts in the field for [item]. *)
Definition addressOf (item : LocationSuggestion) : string :=
  hd "" (split ", India" 0 (display_name item)).

(** The user focuses [field] and picks [item] from the suggestions. *)
Definition pick (field : Field) (item : LocationSuggestion) (f : Form) : Form :=
  handleSelectSuggestion parseFloat item (handleInputFocus field f).
End Submit.

(** Two suggestions and a geocoder for the examples: the geocoder knows
    the two addresses, and no text parses to a coordinate of them. *)
Definition mgRoad : LocationSuggestion :=
  {| display_name := "MG Road, Bengaluru, Karnataka, India";
     lat := "12.9756"; lon := "77.6050"; place_id := "101" |}.

Definition koramangala : LocationSuggestion :=
  {| display_name := "Koramangala, Bengaluru, Karnataka, India";
     lat := "12.9279"; lon := "77.6271"; place_id := "102" |}.

Definition geocoder (address : string) : option (LatLng Binary64.number) :=
  if String.eqb address "MG Road, Bengaluru, Karnataka" then Some Trip.pickupPoint
  else if String.eqb address "Koramangala, Bengaluru, Karnataka" then Some Trip.dropPoint
  else None.

Definition unparsed (text : string) : @num Binary64.number := 0%float.
End TripSubmission.

(** ** CustomerDetailScreen: the steps of a route *)

Module RouteSteps.
Import CustomerDetailScreen.

(** The character occurs in the text. *)
Fixpoint hasChar (c : ascii) (s : string) : bool :=
  match s with
  | EmptyString => false
  | String d rest => Ascii.eqb d c || hasChar c rest
  end.

Section Steps.
Context {N : JsNumber} {F : JsFormat N}.
Local Open Scope string_scope.

(** A step as guidance shows and measures it: an instruction that is not
    empty, holds no ["<"] and has no white space at either end, the turn
    type read off that instruction, and an end with two finite coordinates. *)
Definition presentable (step : RouteStepInfo) : Prop :=
  instruction step <> "" /\
  hasChar "<" (instruction step) = false /\
  trim (instruction step) = instruction step /\
  turnType step = extractTurnType (instruction step) /\
  Number_isFinite (latitude (endLocation step)) = true /\
  Number_isFinite (longitude (endLocation step)) = true.
End Steps.

Local Open Scope string_scope.

(** A reply of the primary provider with one leg of two steps, the second
    without an end location. *)
Definition tagged : Reply (@GoogleData Binary64.number) :=
  replied (Some (Some [Some
    (@Build_GoogleRoute Binary64.number (Some (encoded "_p~iF~ps|U_ulLnnqC"))
       (Some [Some (@Build_GoogleLeg Binary64.number (Some
         [Some (@Build_GoogleStep Binary64.number
                  (Some "Turn <b>left</b> onto&nbsp;<div style=1>Brigade  Road</div> ")
                  (Some 120%float)
                  (Some (Some (latitude Trip.nearPickup), Some (longitude Trip.nearPickup))));
          Some (@Build_GoogleStep Binary64.number (Some "Head <b>north</b>") None None)]))]))])).
End RouteSteps.

(** ** LocationScreen.tsx: the life of the screen *)

Module ScreenSession.
Import LocationScreen.

Section Session.
Context {N : JsNumber} {M : JsMath N}.

(** The screen after a sequence of events, from its first render. *)
Definition screen (events : list Event) : Component := run mount events.

(** **** Vocabulary of the statements *)

(** What a timer of the screen is for, and the ref that holds timers of
    that kind. *)
Inductive TimerKind : Type := heartbeat_interval | broadcast_interval | reconnect_timeout.

Definition kindOf (t : Timer Action) : TimerKind :=
  match timer_action t with
  | run_heartbeat => heartbeat_interval
  | run_sendLocationUpdate _ => broadcast_interval
  | run_reconnect _ => reconnect_timeout
  end.

Definition refOf (kind : TimerKind) (st : Store) : option nat :=
  match kind with
  | heartbeat_interval => heartbeatRef st
  | broadcast_interval => broadcastIntervalRef st
  | reconnect_timeout => reconnectTimeoutRef st
  end.

(** The store is orderly: only the socket [webSocketRef] refers to may be
    open or connecting, the timers have distinct handles below the next
    one, and every timer is the one the ref of its kind holds. *)
Definition orderly (st : Store) : Prop :=
  (forall i w, nth_error (sockets st) i = Some w -> TrackingSession.is_live w = true ->
     webSocketRef st = Some i) /\
  (forall t, In t (timers st) -> (timer_id t < nextTimer st)%nat) /\
  NoDup (map timer_id (timers st)) /\
  (forall t, In t (timers st) -> refOf (kindOf t) st = Some (timer_id t)).
End Session.
End ScreenSession.

(** ** CustomerDetailScreen: geocoding with a cache *)

Module Geocoding.
Section Geocode.
Context {N : JsNumber} {F : JsFormat N}.
Local Open Scope string_scope.

Variable parseFloat : string -> num.

(** [geocodeCacheRef.current], a [Map] from keys to coordinates, in
    insertion order. *)
Definition Cache : Type := list (string * LatLng N).

(** [map.get(key)]. *)
Definition get (key : string) (cache : Cache) : option (LatLng N) :=
  option_map snd (find (fun entry => String.eqb (fst entry) key) cache).

(** [map.set(key, value)]: the value of a key that is present is replaced
    in place, a new key goes to the end. *)
Definition set (key : string) (value : LatLng N) (cache : Cache) : Cache :=
  if existsb (fun entry => String.eqb (fst entry) key) cache
  then List.map (fun entry => if String.eqb (fst entry) key then (key, value) else entry) cache
  else (cache ++ [(key, value)])%list.

(** The answer of the first geocoder: the request or the reading of its
    reply throws, or the locations of its results (none when there is no
    list of results). *)
Inductive GoogleGeocode : Type :=
| google_failed
| google_results (locations : list (LatLng N)).

(** The answer of the second geocoder: the request or the reading of its
    reply throws, or the [lat] and [lon] texts of its entries (none when
    the reply is no array). *)
Inductive OsmGeocode : Type :=
| osm_failed
| osm_entries (entries : list (string * string)).

(** Where a call of [geocodeAddress] stands: it has returned, or it awaits
    the answer of a geocoder, holding its cache key. *)
Inductive Stage : Type := awaits_google | awaits_osm.

Inductive Progress : Type :=
| returned (result : option (LatLng N))
| awaiting (stage : Stage) (cacheKey : string).

(** [geocodeAddress(address)] from the call to its first [await]: the cache
    is read, and on a miss the first geocoder is asked. *)
Definition geocodeAddress (address : string) (cache : Cache) : Progress :=
  let cacheKey := "geocode_" ++ toLowerCase address in
  match get cacheKey cache with
  | Some cached => returned (Some cached)
  | None => awaiting awaits_google cacheKey
  end.

(** The call goes on when the first geocoder has answered: the first
    result is written to the cache as it is then and returned, or the
    second geocoder is asked. *)
Definition afterGoogle (cacheKey : string) (reply : GoogleGeocode) (cache : Cache) :
    Progress * Cache :=
  match reply with
  | google_results (first :: _) => (returned (Some first), set cacheKey first cache)
  | _ => (awaiting awaits_osm cacheKey, cache)
  end.

(** The call ends when the second geocoder has answered. *)
Definition afterOsm (cacheKey : string) (reply : OsmGeocode) (cache : Cache) :
    Progress * Cache :=
  match reply with
  | osm_entries ((lat, lon) :: _) =>
      let result := {| latitude := parseFloat lat; longitude := parseFloat lon |} in
      if Number_isFinite (latitude result) && Number_isFinite (longitude result)
      then (returned (Some result), set cacheKey result cache)
      else (returned None, cache)
  | _ => (returned None, cache)
  end.

(** The cache and the calls made so far, in the order they were made. Calls
    are not awaited by [updateRouteFromLive], so several can be under way
    at once. *)
Record Session : Type := { cache : Cache; calls : list Progress }.

Inductive Event : Type :=
| called (address : string)
| google_answered (call : nat) (reply : GoogleGeocode)
| osm_answered (call : nat) (reply : OsmGeocode).

Definition resume (call : nat) (outcome : Progress * Cache) (s : Session) : Session :=
  {| cache := snd outcome; calls := update_nth call (fun _ => fst outcome) (calls s) |}.

Definition step (s : Session) (e : Event) : Session :=
  match e with
  | called address =>
      {| cache := cache s; calls := (calls s ++ [geocodeAddress address (cache s)])%list |}
  | google_answered call reply =>
      match nth_error (calls s) call with
      | Some (awaiting awaits_google cacheKey) => resume call (afterGoogle cacheKey reply (cache s)) s
      | _ => s
      end
  | osm_answered call reply =>
      match nth_error (calls s) call with
      | Some (awaiting awaits_osm cacheKey) => resume call (afterOsm cacheKey reply (cache s)) s
      | _ => s
      end
  end.

Definition run (s : Session) (events : list Event) : Session := fold_left step events s.

(** ***** Vocabulary of the statements *)

(** No call that is under way holds the key [key]. *)
Definition settled (key : string) (s : Session) : Prop :=
  forall call stage cacheKey,
    nth_error (calls s) call = Some (awaiting stage cacheKey) -> cacheKey <> key.
End Geocode.
End Geocoding.

(** ** Rounding of a quotient of doubles

  What the statements about [formatDistance] say of the division the
  processor performs. *)

Section QuotientRounding.
Local Open Scope Z_scope.

(** The integer nearest to [N / D], the even one on a tie. *)
Definition nearest_even (N D : Z) : Z :=
  let q := N / D in
  let r := N mod D in
  if 2 * r <? D then q
  else if D <? 2 * r then q + 1
  else if Z.even q then q else q + 1.

(** The record [mrs] holds [N / D]: its integer part, whether the rest is
    at least one half, and whether something is left beyond that. *)
Definition located (N D : Z) (mrs : shr_record) : Prop :=
  0 < D /\ 0 <= N /\
  shr_m mrs = N / D /\
  shr_r mrs = (D <=? 2 * (N mod D)) /\
  shr_s mrs = negb (N mod D =? 0) && negb (2 * (N mod D) =? D).

(** The value of a double in units of 2^-1074. *)
Definition units (m : positive) (e : Z) : Z := Z.pos m * 2 ^ (e + 1074).

Local Open Scope Q_scope.
(** [v] is as near to [t] as the nearest double is: within half a unit in
    the last place of [t], or within half the least positive double. *)
Definition near (v t : Q) : Prop :=
  Qabs (v - t) <= t * 2 ^ (-53) + 2 ^ (-1075).
End QuotientRounding.

(** * Properties *)

(** ** [formatDistance] *)

Section FormatDistanceFacts.
Import Exact.
Local Open Scope Q_scope.

Lemma Qlt_bool_iff (a b : Q) : Qlt_bool a b = true <-> a < b.
Proof.
  unfold Qlt_bool. rewrite negb_true_iff. split; intro H.
  - apply Qnot_le_lt. intro L. apply Qle_bool_iff in L. congruence.
  - destruct (Qle_bool b a) eqn:E; [|reflexivity].
    apply Qle_bool_iff in E. exfalso. apply (Qlt_not_le _ _ H E).
Qed.

Lemma Qle_bool_false (a b : Q) : Qle_bool a b = false <-> b < a.
Proof.
  rewrite <- Qlt_bool_iff. unfold Qlt_bool. rewrite negb_true_iff. reflexivity.
Qed.

(** [Math.round]: within one half of its argument. *)
Lemma round_nearest (q : Q) : q - (1 # 2) < inject_Z (round q) /\ inject_Z (round q) <= q + (1 # 2).
Proof.
  unfold round. pose proof (Qfloor_le (q + (1 # 2))) as L.
  pose proof (Qlt_floor (q + (1 # 2))) as U.
  rewrite inject_Z_plus in U. change (inject_Z 1) with 1 in U. split; [|exact L].
  set (f := inject_Z (Qfloor (q + (1 # 2)))) in *. Lqa.lra.
Qed.

Lemma round_comp (p q : Q) : p == q -> round p = round q.
Proof. intro E. unfold round. apply Qfloor_comp. rewrite E. reflexivity. Qed.

Lemma round_monotone (p q : Q) : p <= q -> (round p <= round q)%Z.
Proof. intro L. unfold round. apply Qfloor_resp_le. Lqa.lra. Qed.

End FormatDistanceFacts.

Section ShiftFacts.
Local Open Scope Z_scope.

Lemma digits2_pos_size (p : positive) : digits2_pos p = Pos.size p.
Proof. induction p as [p IH|p IH|]; cbn; [rewrite IH|rewrite IH|]; reflexivity. Qed.

Lemma digits2_bounds (p : positive) :
  2 ^ (Z.pos (digits2_pos p) - 1) <= Z.pos p < 2 ^ Z.pos (digits2_pos p).
Proof.
  rewrite digits2_pos_size. split.
  - pose proof (Pos.size_le p) as H.
    assert (2 ^ Z.pos (Pos.size p) <= Z.pos p~0) as H'.
    { rewrite <- (Pos2Z.inj_pow 2). apply Pos2Z.pos_le_pos. exact H. }
    replace (Z.pos (Pos.size p)) with (Z.succ (Z.pos (Pos.size p) - 1)) in H' by lia.
    rewrite Z.pow_succ_r in H' by lia. lia.
  - pose proof (Pos.size_gt p) as H.
    rewrite <- (Pos2Z.inj_pow 2). apply Pos2Z.pos_lt_pos. exact H.
Qed.

Lemma shr_1_located (N D : Z) (mrs : shr_record) :
  located N D mrs -> located N (2 * D) (shr_1 mrs).
Proof.
  intros (HD & HN & Hm & Hr & Hs).
  destruct mrs as [m r s]. cbn [shr_m shr_r shr_s] in *.
  assert (Hq : 0 <= N / D) by (apply Z.div_pos; lia).
  assert (Hrem : 0 <= N mod D < D) by (apply Z.mod_pos_bound; lia).
  assert (Hdiv : N / (2 * D) = (N / D) / 2).
  { rewrite (Z.mul_comm 2 D). rewrite <- Z.div_div by lia. reflexivity. }
  assert (Hmod : N mod (2 * D) = N mod D + D * ((N / D) mod 2)).
  { rewrite (Z.mul_comm 2 D). apply Z.rem_mul_r; lia. }
  assert (Hbit : 0 <= (N / D) mod 2 < 2) by (apply Z.mod_pos_bound; lia).
  assert (Hrs : (r || s)%bool = negb (N mod D =? 0)).
  { rewrite Hr, Hs.
    destruct (Z.leb_spec D (2 * (N mod D))), (Z.eqb_spec (N mod D) 0),
      (Z.eqb_spec (2 * (N mod D)) D); cbn; try reflexivity; lia. }
  assert (Hshape : shr_1 {| shr_m := m; shr_r := r; shr_s := s |} =
                   {| shr_m := m / 2; shr_r := Z.odd m; shr_s := (r || s)%bool |}).
  { rewrite Hm in *. destruct (N / D) as [|[p|p|]|p]; try reflexivity; try lia.
    - cbn [shr_1]. f_equal. rewrite Pos2Z.inj_xI.
      rewrite Z.mul_comm, Z.div_add_l by lia. reflexivity.
    - cbn [shr_1]. f_equal. rewrite Pos2Z.inj_xO.
      rewrite Z.mul_comm, Z.div_mul by lia. reflexivity. }
  rewrite Hshape. unfold located. cbn [shr_m shr_r shr_s].
  split; [lia|]. split; [lia|]. rewrite Hdiv, Hmod, Hrs, Hm.
  rewrite (Zmod_odd (N / D)) in *.
  split; [reflexivity|].
  destruct (Z.odd (N / D)).
  - split.
    + symmetry. apply Z.leb_le. lia.
    + destruct (Z.eqb_spec (N mod D) 0), (Z.eqb_spec (N mod D + D * 1) 0),
        (Z.eqb_spec (2 * (N mod D + D * 1)) (2 * D)); cbn; try reflexivity; lia.
  - split.
    + symmetry. apply Z.leb_gt. lia.
    + destruct (Z.eqb_spec (N mod D) 0), (Z.eqb_spec (N mod D + D * 0) 0),
        (Z.eqb_spec (2 * (N mod D + D * 0)) (2 * D)); cbn; try reflexivity; lia.
Qed.

Lemma pow2_double (p : positive) : 2 ^ Z.pos p~0 = 2 ^ Z.pos p * 2 ^ Z.pos p.
Proof.
  rewrite <- Z.pow_add_r by lia. f_equal. lia.
Qed.

Lemma iter_shr_1_located (p : positive) (N D : Z) (mrs : shr_record) :
  located N D mrs -> located N (2 ^ Z.pos p * D) (SpecFloat.iter_pos shr_1 p mrs).
Proof.
  revert N D mrs. induction p as [p IH|p IH|]; intros N D mrs H.
  - cbn [SpecFloat.iter_pos]. apply shr_1_located in H. apply IH in H. apply IH in H.
    replace (2 ^ Z.pos p~1 * D) with (2 ^ Z.pos p * (2 ^ Z.pos p * (2 * D))); [exact H|].
    replace (Z.pos p~1) with (Z.succ (Z.pos p~0)) by lia.
    rewrite Z.pow_succ_r, pow2_double by lia. ring.
  - cbn [SpecFloat.iter_pos]. apply IH in H. apply IH in H.
    replace (2 ^ Z.pos p~0 * D) with (2 ^ Z.pos p * (2 ^ Z.pos p * D)); [exact H|].
    rewrite pow2_double. ring.
  - cbn [SpecFloat.iter_pos]. apply shr_1_located in H. exact H.
Qed.

Lemma Zdigits2_bounds (m : Z) :
  0 < m -> 2 ^ (Zdigits2 m - 1) <= m < 2 ^ Zdigits2 m.
Proof.
  destruct m as [|p|p]; try lia. intros _. cbn [Zdigits2]. apply digits2_bounds.
Qed.

Lemma Zdigits2_nonneg (m : Z) : 0 <= Zdigits2 m.
Proof. destruct m; cbn; lia. Qed.

Lemma Zdigits2_unique (m d : Z) : 2 ^ (d - 1) <= m < 2 ^ d -> 0 < m -> Zdigits2 m = d.
Proof.
  intros H Hm. pose proof (Zdigits2_bounds m Hm) as B.
  pose proof (Zdigits2_nonneg m) as P.
  assert (0 < d).
  { destruct (Z.lt_ge_cases 0 d) as [L|L]; [exact L|].
    assert (2 ^ d <= 2 ^ 0) by (destruct (Z.eq_dec d 0) as [->|]; [lia|rewrite Z.pow_neg_r; lia]).
    change (2 ^ 0) with 1 in *. lia. }
  destruct (Z.lt_trichotomy (Zdigits2 m) d) as [L|[L|L]]; [|exact L|].
  - assert (2 ^ Zdigits2 m <= 2 ^ (d - 1)) by (apply Z.pow_le_mono_r; lia). lia.
  - assert (2 ^ d <= 2 ^ (Zdigits2 m - 1)) by (apply Z.pow_le_mono_r; lia). lia.
Qed.

Lemma Zdigits2_monotone (a b : Z) : 0 <= a <= b -> Zdigits2 a <= Zdigits2 b.
Proof.
  intros H. destruct (Z.eq_dec a 0) as [->|Ha]; [apply Zdigits2_nonneg|].
  pose proof (Zdigits2_bounds a ltac:(lia)) as A.
  pose proof (Zdigits2_bounds b ltac:(lia)) as B.
  destruct (Z.le_gt_cases (Zdigits2 a) (Zdigits2 b)) as [L|L]; [exact L|].
  assert (2 ^ Zdigits2 b <= 2 ^ (Zdigits2 a - 1))
    by (apply Z.pow_le_mono_r; [lia|]; pose proof (Zdigits2_nonneg b); lia).
  lia.
Qed.

Lemma Zdigits2_succ (m : Z) :
  0 <= m -> Zdigits2 (m + 1) = Zdigits2 m \/
            (Zdigits2 (m + 1) = Zdigits2 m + 1 /\ m + 1 = 2 ^ Zdigits2 m).
Proof.
  intro Hm. destruct (Z.eq_dec m 0) as [->|Hne]; [right; split; reflexivity|].
  pose proof (Zdigits2_bounds m ltac:(lia)) as A.
  destruct (Z.eq_dec (m + 1) (2 ^ Zdigits2 m)) as [E|E].
  - right. split; [|exact E]. apply Zdigits2_unique; [|lia].
    replace (Zdigits2 m + 1 - 1) with (Zdigits2 m) by lia.
    split; [lia|]. rewrite Z.pow_add_r by (pose proof (Zdigits2_nonneg m); lia).
    change (2 ^ 1) with 2. lia.
  - left. apply Zdigits2_unique; lia.
Qed.

Lemma Zdigits2_shift (m n : Z) :
  0 <= m -> 0 <= n -> Zdigits2 (m / 2 ^ n) <= Z.max (Zdigits2 m - n) 0.
Proof.
  intros Hm Hn. assert (P : 0 < 2 ^ n) by (apply Z.pow_pos_nonneg; lia).
  destruct (Z.lt_ge_cases m (2 ^ n)) as [L|L].
  - rewrite Z.div_small by lia. cbn. lia.
  - assert (Q : 0 < m / 2 ^ n) by (apply Z.div_str_pos; lia).
    pose proof (Zdigits2_bounds m ltac:(lia)) as A.
    assert (D : Zdigits2 (m / 2 ^ n) = Zdigits2 m - n).
    { apply Zdigits2_unique; [|exact Q].
      assert (n < Zdigits2 m).
      { destruct (Z.lt_ge_cases n (Zdigits2 m)) as [X|X]; [exact X|].
        assert (2 ^ Zdigits2 m <= 2 ^ n)
          by (apply Z.pow_le_mono_r; [lia|]; lia). lia. }
      split.
      - apply Z.div_le_lower_bound; [lia|].
        rewrite <- Z.pow_add_r by lia. replace (n + (Zdigits2 m - n - 1)) with (Zdigits2 m - 1) by lia.
        lia.
      - apply Z.div_lt_upper_bound; [lia|].
        rewrite <- Z.pow_add_r by lia. replace (n + (Zdigits2 m - n)) with (Zdigits2 m) by lia.
        lia. }
    lia.
Qed.
End ShiftFacts.

Section RoundFacts.
Local Open Scope Z_scope.

Lemma fexp_eq (e : Z) : fexp prec emax e = Z.max (e - 53) (-1074).
Proof. reflexivity. Qed.

Lemma shr_fexp_located (mx ex : Z) (lx : SpecFloat.location) (N D : Z) :
  located N D (shr_record_of_loc mx lx) ->
  let E := Z.max ex (fexp prec emax (Zdigits2 mx + ex)) in
  exists mrs', shr_fexp prec emax mx ex lx = (mrs', E) /\
               located N (2 ^ (E - ex) * D) mrs'.
Proof.
  intros H. cbv zeta. unfold shr_fexp, shr.
  destruct (fexp prec emax (Zdigits2 mx + ex) - ex) as [|p|p] eqn:En.
  - exists (shr_record_of_loc mx lx). rewrite Z.max_l by lia.
    rewrite Z.sub_diag. change (2 ^ 0) with 1. rewrite Z.mul_1_l. split; [reflexivity|exact H].
  - exists (SpecFloat.iter_pos shr_1 p (shr_record_of_loc mx lx)).
    rewrite Z.max_r by lia.
    replace (fexp prec emax (Zdigits2 mx + ex)) with (ex + Z.pos p) by lia.
    split; [reflexivity|]. replace (ex + Z.pos p - ex) with (Z.pos p) by lia.
    apply iter_shr_1_located, H.
  - exists (shr_record_of_loc mx lx). rewrite Z.max_l by lia.
    rewrite Z.sub_diag. change (2 ^ 0) with 1. rewrite Z.mul_1_l. split; [reflexivity|exact H].
Qed.

Lemma round_located (N D : Z) (mrs : shr_record) :
  located N D mrs ->
  round_nearest_even (shr_m mrs) (loc_of_shr_record mrs) = nearest_even N D.
Proof.
  intros (HD & HN & Hm & Hr & Hs). unfold nearest_even. cbv zeta.
  destruct mrs as [m r s]. cbn [shr_m shr_r shr_s loc_of_shr_record] in *.
  rewrite <- Hm.
  assert (Hrem : 0 <= N mod D < D) by (apply Z.mod_pos_bound; lia).
  destruct (Z.ltb_spec (2 * (N mod D)) D) as [A|A].
  - assert (r = false) as -> by (rewrite Hr; apply Z.leb_gt; lia).
    destruct s; reflexivity.
  - assert (r = true) as -> by (rewrite Hr; apply Z.leb_le; lia).
    destruct (Z.ltb_spec D (2 * (N mod D))) as [B|B].
    + assert (s = true) as ->.
      { rewrite Hs. destruct (Z.eqb_spec (N mod D) 0), (Z.eqb_spec (2 * (N mod D)) D);
          cbn; try reflexivity; lia. }
      reflexivity.
    + assert (s = false) as ->.
      { rewrite Hs. destruct (Z.eqb_spec (N mod D) 0), (Z.eqb_spec (2 * (N mod D)) D);
          cbn; try reflexivity; lia. }
      reflexivity.
Qed.

Lemma located_exact (m : Z) : 0 <= m -> located m 1 (shr_record_of_loc m loc_Exact).
Proof.
  intro H. unfold located. cbn [shr_record_of_loc shr_m shr_r shr_s].
  rewrite Z.div_1_r, Z.mod_1_r. repeat split; try lia.
Qed.

(** The second shift of [binary_round_aux] loses nothing. *)
Lemma shr_fexp_carry (m1 m2 E : Z) :
  0 <= m1 -> (m2 = m1 \/ m2 = m1 + 1) ->
  -1074 <= E -> fexp prec emax (Zdigits2 m1 + E) <= E ->
  exists mrs'' e'',
    shr_fexp prec emax m2 E loc_Exact = (mrs'', e'') /\
    E <= e'' <= E + 1 /\ 0 <= shr_m mrs'' /\ shr_m mrs'' * 2 ^ (e'' - E) = m2.
Proof.
  intros H1 H2 HE Hf.
  assert (Hm2 : 0 <= m2) by lia.
  destruct (shr_fexp_located m2 E loc_Exact m2 1 (located_exact m2 Hm2)) as (mrs'' & Hs & Hl).
  cbv zeta in Hs, Hl. rewrite Z.mul_1_r in Hl.
  exists mrs'', (Z.max E (fexp prec emax (Zdigits2 m2 + E))). split; [exact Hs|].
  destruct Hl as (_ & _ & Hm & _).
  rewrite fexp_eq in *.
  assert (Hd : Zdigits2 m2 = Zdigits2 m1 \/ (Zdigits2 m2 = Zdigits2 m1 + 1 /\ m2 = 2 ^ Zdigits2 m1)).
  { destruct H2 as [->| ->]; [left; reflexivity|]. apply Zdigits2_succ, H1. }
  pose proof (Zdigits2_nonneg m1) as P1.
  destruct Hd as [Hd|[Hd Hp]].
  - rewrite Hd. rewrite Z.max_l by lia. rewrite Z.max_l in Hm by lia.
    rewrite Z.sub_diag in *. change (2 ^ 0) with 1 in *. rewrite Z.div_1_r in Hm.
    rewrite Hm. repeat split; lia.
  - rewrite Hd in *.
    destruct (Z.le_gt_cases (Z.max (Zdigits2 m1 + 1 + E - 53) (-1074)) E) as [L|L].
    + rewrite Z.max_l by lia. rewrite Z.max_l in Hm by lia.
      rewrite Z.sub_diag in *. change (2 ^ 0) with 1 in *. rewrite Z.div_1_r in Hm.
      rewrite Hm. repeat split; lia.
    + assert (Z.max (Zdigits2 m1 + 1 + E - 53) (-1074) = E + 1) as X by lia.
      rewrite Z.max_r by lia. rewrite Z.max_r in Hm by lia. rewrite X in *.
      replace (E + 1 - E) with 1 in * by lia. change (2 ^ 1) with 2 in *.
      assert (0 < Zdigits2 m1) by lia.
      assert (m2 = 2 * 2 ^ (Zdigits2 m1 - 1)) as Y.
      { rewrite Hp. rewrite <- Z.pow_succ_r by lia. f_equal. lia. }
      assert (0 <= 2 ^ (Zdigits2 m1 - 1)) by (apply Z.pow_nonneg; lia).
      rewrite Hm, Y. rewrite Z.mul_comm, Z.div_mul by lia. repeat split; lia.
Qed.

(** What [binary_round_aux] returns for a quotient [N / D] times 2^[ex]:
    the nearest multiple of 2^[E], for the exponent [E] of the format. *)
Lemma binary_round_aux_value (sx : bool) (mx ex : Z) (lx : SpecFloat.location) (N D : Z) :
  located N D (shr_record_of_loc mx lx) -> -1074 <= ex ->
  let E := Z.max ex (fexp prec emax (Zdigits2 mx + ex)) in
  let m2 := nearest_even N (2 ^ (E - ex) * D) in
  exists m'' e'',
    E <= e'' <= E + 1 /\ 0 <= m'' /\ m'' * 2 ^ (e'' - E) = m2 /\
    binary_round_aux prec emax sx mx ex lx =
      match m'' with
      | Z0 => S754_zero sx
      | Zpos p => if e'' <=? emax - prec then S754_finite sx p e'' else S754_infinity sx
      | Zneg _ => S754_nan
      end.
Proof.
  intros Hl Hex. cbv zeta. unfold binary_round_aux.
  destruct (shr_fexp_located mx ex lx N D Hl) as (mrs' & Hs & Hl').
  cbv zeta in Hs, Hl'. rewrite Hs.
  set (E := Z.max ex (fexp prec emax (Zdigits2 mx + ex))) in *.
  rewrite (round_located _ _ _ Hl').
  set (m2 := nearest_even N (2 ^ (E - ex) * D)).
  pose proof Hl as (HD & HN & Hmx & _). cbn in Hmx.
  assert (Hmx' : shr_m (shr_record_of_loc mx lx) = mx) by (destruct lx as [|[]]; reflexivity).
  rewrite Hmx' in Hmx.
  assert (Hmx0 : 0 <= mx) by (rewrite Hmx; apply Z.div_pos; lia).
  pose proof Hl' as (HD' & _ & Hm1 & _).
  set (m1 := shr_m mrs') in *.
  assert (Hm1' : m1 = mx / 2 ^ (E - ex)).
  { rewrite Hm1, Hmx. rewrite (Z.mul_comm (2 ^ (E - ex)) D), <- Z.div_div; [reflexivity|lia|].
    apply Z.pow_pos_nonneg; subst E; lia. }
  assert (H1 : 0 <= m1) by (rewrite Hm1; apply Z.div_pos; lia).
  assert (H2 : m2 = m1 \/ m2 = m1 + 1).
  { subst m2 m1. rewrite Hm1. unfold nearest_even. cbv zeta.
    repeat match goal with |- context [if ?b then _ else _] => destruct b end; auto. }
  assert (HE : -1074 <= E) by (subst E; lia).
  assert (Hf : fexp prec emax (Zdigits2 m1 + E) <= E).
  { pose proof (Zdigits2_shift mx (E - ex) Hmx0 ltac:(subst E; lia)) as S.
    rewrite <- Hm1' in S. rewrite fexp_eq in *. subst E. rewrite fexp_eq in *. lia. }
  destruct (shr_fexp_carry m1 m2 E H1 H2 HE Hf) as (mrs'' & e'' & Hs2 & He & Hp & Hv).
  rewrite Hs2. exists (shr_m mrs''), e''. repeat split; try lia; try assumption.
Qed.
End RoundFacts.

Section DivisionFacts.
Local Open Scope Z_scope.

Lemma new_location_located (N D : Z) :
  0 < D -> 0 <= N ->
  located N D (shr_record_of_loc (N / D) (new_location D (N mod D))).
Proof.
  intros HD HN. assert (Hrem : 0 <= N mod D < D) by (apply Z.mod_pos_bound; lia).
  unfold located. split; [exact HD|]. split; [exact HN|].
  assert (Hm : forall l, shr_m (shr_record_of_loc (N / D) l) = N / D)
    by (intros [|[]]; reflexivity).
  split; [apply Hm|].
  unfold new_location, new_location_even, new_location_odd.
  destruct (Z.even D) eqn:Ev.
  - destruct (Z.eqb_spec (N mod D) 0) as [Z0'|NZ].
    + cbn [shr_record_of_loc shr_r shr_s negb andb]. split; [|reflexivity].
      symmetry. apply Z.leb_gt. lia.
    + destruct (Z.compare_spec (2 * (N mod D)) D) as [C|C|C];
        cbn [shr_record_of_loc shr_r shr_s negb andb]; split;
        try (symmetry; apply Z.leb_le; lia); try (symmetry; apply Z.leb_gt; lia);
        destruct (Z.eqb_spec (2 * (N mod D)) D); cbn; try reflexivity; lia.
  - assert (Hodd : D mod 2 = 1).
    { rewrite Zmod_odd. rewrite <- Z.negb_even, Ev. reflexivity. }
    assert (Hne : 2 * (N mod D) <> D) by (intro X; rewrite <- X in Hodd;
      rewrite Z.mul_comm, Z.mod_mul in Hodd by lia; discriminate).
    destruct (Z.eqb_spec (N mod D) 0) as [Z0'|NZ].
    + cbn [shr_record_of_loc shr_r shr_s negb andb]. split; [|reflexivity].
      symmetry. apply Z.leb_gt. lia.
    + destruct (Z.compare_spec (2 * (N mod D) + 1) D) as [C|C|C];
        cbn [shr_record_of_loc shr_r shr_s negb andb]; split;
        try (symmetry; apply Z.leb_le; lia); try (symmetry; apply Z.leb_gt; lia);
        destruct (Z.eqb_spec (2 * (N mod D)) D); cbn; try reflexivity; lia.
Qed.

Lemma nearest_even_error (N D : Z) :
  0 < D -> 0 <= N ->
  0 <= nearest_even N D /\
  2 * Z.abs (nearest_even N D * D - N) <= D.
Proof.
  intros HD HN. assert (Hrem : 0 <= N mod D < D) by (apply Z.mod_pos_bound; lia).
  assert (Hq : 0 <= N / D) by (apply Z.div_pos; lia).
  pose proof (Z.div_mod N D ltac:(lia)) as E.
  unfold nearest_even. cbv zeta.
  destruct (Z.ltb_spec (2 * (N mod D)) D); [split; [lia|nia]|].
  destruct (Z.ltb_spec D (2 * (N mod D))); [split; [lia|nia]|].
  destruct (Z.even (N / D)); split; try lia; nia.
Qed.

(** Rounding keeps what is above or below an integer on its side. *)
Lemma nearest_even_bracket (N D z : Z) :
  0 < D -> 0 <= N ->
  (z * D <= N -> z <= nearest_even N D) /\ (N <= z * D -> nearest_even N D <= z).
Proof.
  intros HD HN. assert (Hrem : 0 <= N mod D < D) by (apply Z.mod_pos_bound; lia).
  pose proof (Z.div_mod N D ltac:(lia)) as E.
  assert (L : z * D <= N -> z <= N / D) by (intro X; apply Z.div_le_lower_bound; lia).
  assert (U : N <= z * D -> N / D < z \/ (N / D = z /\ N mod D = 0)) by (intro X; nia).
  unfold nearest_even. cbv zeta.
  destruct (Z.ltb_spec (2 * (N mod D)) D); [split; intro X; [lia|nia]|].
  destruct (Z.ltb_spec D (2 * (N mod D))); [split; intro X; [specialize (L X); lia|nia]|].
  destruct (Z.even (N / D)); split; intro X; try (specialize (L X); lia); nia.
Qed.
End DivisionFacts.

Section DivisionValue.
Local Open Scope Z_scope.

Lemma bounded_canonical (m : positive) (e : Z) :
  SpecFloat.bounded prec emax m e = true ->
  -1074 <= e <= 971 /\ Z.pos (digits2_pos m) <= 53 /\
  (-1074 < e -> Z.pos (digits2_pos m) = 53).
Proof.
  unfold SpecFloat.bounded, canonical_mantissa. rewrite fexp_eq. intro H.
  apply andb_prop in H as [C B]. apply Z.eqb_eq in C. apply Z.leb_le in B.
  change (emax - prec) with 971 in B. lia.
Qed.

Lemma div_eucl_eq (a b : Z) : Z.div_eucl a b = (a / b, a mod b).
Proof. unfold Z.div, Z.modulo. destruct (Z.div_eucl a b). reflexivity. Qed.

(** The quotient of two positive doubles, the divisor at least 4 and with
    an exponent of at most 0: the multiple [m2 * 2^E] nearest to it. *)
Lemma SF64div_finite (mx my : positive) (e1 e2 : Z) :
  SpecFloat.bounded prec emax mx e1 = true -> e2 <= 0 -> 3 <= Z.pos (digits2_pos my) + e2 ->
  exists m2 E s k : Z,
    0 <= s /\ 0 <= k /\ e1 - e2 = E + s - k /\ -1074 <= E <= 969 /\
    m2 = nearest_even (Z.pos mx * 2 ^ s) (2 ^ k * Z.pos my) /\
    (E = -1074 \/ 2 ^ 52 * (2 ^ k * Z.pos my) <= Z.pos mx * 2 ^ s) /\
    exists m'' e'', E <= e'' <= E + 1 /\ 0 <= m'' /\ m'' * 2 ^ (e'' - E) = m2 /\
      SF64div (S754_finite false mx e1) (S754_finite false my e2) =
        match m'' with
        | Z0 => S754_zero false
        | Zpos p => S754_finite false p e''
        | Zneg _ => S754_nan
        end.
Proof.
  intros Hb He2 Hy.
  destruct (bounded_canonical mx e1 Hb) as (He1 & Hd1 & _).
  pose proof (digits2_bounds mx) as Bx. pose proof (digits2_bounds my) as By.
  set (d1 := Z.pos (digits2_pos mx)) in *. set (d2 := Z.pos (digits2_pos my)) in *.
  assert (Hd1' : 0 < d1) by (subst d1; lia). assert (Hd2' : 0 < d2) by (subst d2; lia).
  unfold SF64div, SFdiv, SFdiv_core_binary. cbn [Zdigits2 xorb]. fold d1 d2.
  rewrite fexp_eq.
  set (e' := Z.min (Z.max (d1 + e1 - (d2 + e2) - 53) (-1074)) (e1 - e2)).
  set (s := e1 - e2 - e').
  assert (Hs : 0 <= s) by (subst s e'; lia).
  assert (He' : -1074 <= e') by (subst e'; lia).
  set (m' := match s with Z.pos _ => Z.shiftl (Z.pos mx) s | 0 => Z.pos mx | Z.neg _ => 0 end).
  assert (Hm' : m' = Z.pos mx * 2 ^ s).
  { subst m'. destruct s as [|p|p] eqn:Es; [change (2 ^ 0) with 1; lia| |lia].
    rewrite Z.shiftl_mul_pow2 by lia. reflexivity. }
  rewrite div_eucl_eq.
  assert (P2s : 0 < 2 ^ s) by (apply Z.pow_pos_nonneg; lia).
  assert (Hm'0 : 0 <= m') by (rewrite Hm'; lia).
  pose proof (new_location_located m' (Z.pos my) ltac:(lia) Hm'0) as Hl.
  destruct (binary_round_aux_value false _ e' _ _ _ Hl He') as (m'' & e'' & Hee & Hm''0 & Hv & Hr).
  cbv zeta in Hee, Hv, Hr.
  set (q := m' / Z.pos my) in *.
  assert (Hq0 : 0 <= q) by (subst q; apply Z.div_pos; lia).
  set (E := Z.max e' (fexp prec emax (Zdigits2 q + e'))) in *.
  assert (HEdef : E = Z.max e' (Z.max (Zdigits2 q + e' - 53) (-1074)))
    by (subst E; rewrite fexp_eq; reflexivity).
  clearbody E.
  (* the size of the quotient *)
  assert (Hqd : Zdigits2 q + e' <= 1022).
  { destruct (Z.eq_dec q 0) as [Hq|Hq]; [rewrite Hq; cbn [Zdigits2]; subst e'; lia|].
    pose proof (Zdigits2_bounds q ltac:(lia)) as Bq.
    assert (q * Z.pos my <= m') by (subst q; rewrite Z.mul_comm; apply Z.mul_div_le; lia).
    assert (m' < 2 ^ (d1 + s)) by (rewrite Hm', Z.pow_add_r by lia; nia).
    assert (Dq : 0 < Zdigits2 q).
    { destruct (Z.lt_ge_cases 0 (Zdigits2 q)) as [X|X]; [exact X|].
      assert (Zdigits2 q = 0) as Y by (pose proof (Zdigits2_nonneg q); lia).
      rewrite Y in Bq. change (2 ^ 0) with 1 in Bq. lia. }
    assert (Pq : 0 < 2 ^ (Zdigits2 q - 1)) by (apply Z.pow_pos_nonneg; lia).
    assert (Pd : 0 < 2 ^ (d2 - 1)) by (apply Z.pow_pos_nonneg; lia).
    assert (Lt : 2 ^ (Zdigits2 q - 1) * 2 ^ (d2 - 1) < 2 ^ (d1 + s)) by nia.
    rewrite <- Z.pow_add_r in Lt by lia.
    apply Z.pow_lt_mono_r_iff in Lt; [|lia|lia]. subst s. lia. }
  assert (HE : -1074 <= E <= 969) by (subst e'; lia).
  exists (nearest_even m' (2 ^ (E - e') * Z.pos my)), E, s, (E - e').
  split; [exact Hs|]. split; [lia|]. split; [subst s; lia|]. split; [exact HE|].
  split; [rewrite Hm'; reflexivity|]. split.
  - destruct (Z.eq_dec E (-1074)) as [X|X]; [left; exact X|right].
    rewrite <- Hm'.
    destruct (Z.le_gt_cases (Z.max (Zdigits2 q + e' - 53) (-1074)) e') as [L|L].
    + (* no shift: the estimate of the exponent decides *)
      assert (E = e') as Ee by lia. rewrite Ee, Z.sub_diag.
      change (2 ^ 0) with 1. rewrite Z.mul_1_l.
      assert (e' <= d1 + e1 - (d2 + e2) - 53) by (subst e'; lia).
      assert (52 + d2 <= d1 - 1 + s) by (subst s; lia).
      assert (2 ^ (52 + d2) <= 2 ^ (d1 - 1 + s)) by (apply Z.pow_le_mono_r; lia).
      rewrite Z.pow_add_r in H1 by lia. rewrite Z.pow_add_r in H1 by lia.
      rewrite Hm'. nia.
    + assert (E = Zdigits2 q + e' - 53) as Ee by lia.
      assert (Hq : 0 < q) by (destruct (Z.eq_dec q 0) as [Q|Q]; [rewrite Q in *; cbn in *; lia|lia]).
      pose proof (Zdigits2_bounds q Hq) as Bq.
      assert (q * Z.pos my <= m') by (subst q; rewrite Z.mul_comm; apply Z.mul_div_le; lia).
      replace (E - e') with (Zdigits2 q - 53) by lia.
      assert (2 ^ 52 * 2 ^ (Zdigits2 q - 53) = 2 ^ (Zdigits2 q - 1)).
      { rewrite <- Z.pow_add_r by lia. f_equal. lia. }
      nia.
  - exists m'', e''. split; [exact Hee|]. split; [exact Hm''0|]. split; [exact Hv|].
    rewrite Hr. destruct m'' as [|p|p]; try reflexivity.
    assert ((e'' <=? emax - prec) = true) as -> by (apply Z.leb_le; change (emax - prec) with 971; lia).
    reflexivity.
Qed.
End DivisionValue.

Section QuotientValue.
Local Open Scope Q_scope.

Lemma two_nonzero : ~ 2 == 0.
Proof. discriminate. Qed.

Lemma pow2_positive (e : Z) : 0 < 2 ^ e.
Proof. apply Qpower_0_lt. reflexivity. Qed.

Lemma pow2_inject (s : Z) : (0 <= s)%Z -> inject_Z (2 ^ s) == 2 ^ s.
Proof. intro H. apply (Zpower_Qpower 2 s H). Qed.

(** The value of a finite double with mantissa [m] and exponent [e]. *)
Lemma finite_value (m : positive) (e : Z) :
  (if (0 <=? e)%Z then inject_Z (Z.pos m * 2 ^ e)
   else Qmake (Z.pos m) (Pos.pow 2 (Z.to_pos (- e)))) == inject_Z (Z.pos m) * 2 ^ e.
Proof.
  destruct (Z.leb_spec 0 e) as [H|H].
  - rewrite inject_Z_mult, pow2_inject by exact H. reflexivity.
  - destruct e as [|p|p]; try lia. cbn [Z.opp Z.to_pos].
    rewrite Qmake_Qdiv. unfold Qdiv. apply Qmult_comp; [reflexivity|].
    change (2 ^ Z.neg p) with (/ (2 ^ Z.pos p)). apply Qinv_comp.
    rewrite <- (pow2_inject (Z.pos p)) by lia. rewrite <- Pos2Z.inj_pow. reflexivity.
Qed.

Lemma exact_value_finite (x : float) (m : positive) (e : Z) :
  Prim2SF x = S754_finite false m e ->
  exists v, Binary64.exact_value x = Some v /\ v == inject_Z (Z.pos m) * 2 ^ e.
Proof.
  intro H. unfold Binary64.exact_value. rewrite H. cbv zeta.
  eexists. split; [reflexivity|]. apply finite_value.
Qed.

Lemma exact_value_sign (x : float) (q : Q) :
  Binary64.exact_value x = Some q -> 0 <= q ->
  (exists s, Prim2SF x = S754_zero s /\ q = 0) \/
  (exists m e, Prim2SF x = S754_finite false m e /\ q == inject_Z (Z.pos m) * 2 ^ e).
Proof.
  unfold Binary64.exact_value. destruct (Prim2SF x) as [s|s| |s m e] eqn:E; try discriminate.
  - intros [= <-] _. left. exists s. split; reflexivity.
  - cbv zeta. intros [= <-] H. right. exists m, e.
    pose proof (finite_value m e) as V.
    assert (0 < inject_Z (Z.pos m) * 2 ^ e).
    { apply Qmult_lt_0_compat; [reflexivity|apply pow2_positive]. }
    destruct s.
    + exfalso. rewrite V in H. Lqa.lra.
    + split; [reflexivity|exact V].
Qed.
End QuotientValue.

Section QuotientClose.
Local Open Scope Q_scope.


(** The double quotient of a finite double that is not negative by a
    double that is at least 4 and has an exponent of at most 0. *)
Lemma div_near (x y : float) (q : Q) (my : positive) (e2 : Z) :
  Binary64.exact_value x = Some q -> 0 <= q ->
  Prim2SF y = S754_finite false my e2 ->
  (e2 <= 0)%Z -> (3 <= Z.pos (digits2_pos my) + e2)%Z ->
  exists v, Binary64.exact_value (x / y)%float = Some v /\ 0 <= v /\
            near v (q / (inject_Z (Z.pos my) * 2 ^ e2)).
Proof.
  intros Hx Hq Hy He2 Hd2.
  pose proof (div_spec x y) as Hdiv. rewrite Hy in Hdiv.
  destruct (exact_value_sign x q Hx Hq) as [(s & Hs & ->)|(mx & e1 & Hs & Hv)].
  - rewrite Hs in Hdiv. cbn in Hdiv. exists 0. unfold Binary64.exact_value. rewrite Hdiv.
    split; [reflexivity|]. split; [Lqa.lra|]. unfold near.
    assert (0 / (inject_Z (Z.pos my) * 2 ^ e2) == 0) as -> by (unfold Qdiv; ring).
    cbn. discriminate.
  - rewrite Hs in Hdiv.
    assert (Hb : SpecFloat.bounded prec emax mx e1 = true).
    { pose proof (Prim2SF_valid x) as V. rewrite Hs in V. exact V. }
    destruct (SF64div_finite mx my e1 e2 Hb He2 Hd2)
      as (m2 & E & s & k & Hs0 & Hk0 & Hee & HE & Hm2 & Hbig & m'' & e'' & He'' & Hm''0 & Hval & Hres).
    rewrite Hres in Hdiv.
    set (N := (Z.pos mx * 2 ^ s)%Z) in *. set (D := (2 ^ k * Z.pos my)%Z) in *.
    assert (HD : (0 < D)%Z) by (subst D; apply Z.mul_pos_pos; [apply Z.pow_pos_nonneg|]; lia).
    assert (HN : (0 <= N)%Z) by (subst N; apply Z.mul_nonneg_nonneg; [|apply Z.pow_nonneg]; lia).
    destruct (nearest_even_error N D HD HN) as [Hm2pos Herr]. rewrite <- Hm2 in Hm2pos, Herr.
    (* the value of the result *)
    assert (Hv' : exists v, Binary64.exact_value (x / y)%float = Some v /\ v == inject_Z m2 * 2 ^ E).
    { destruct m'' as [|p|p]; [| |lia].
      - exists 0. unfold Binary64.exact_value. rewrite Hdiv. split; [reflexivity|].
        rewrite <- Hval. cbn [Z.mul]. change (inject_Z 0) with 0. ring.
      - destruct (exact_value_finite _ p e'' Hdiv) as (v & Ev & Vv). exists v. split; [exact Ev|].
        rewrite Vv, <- Hval, inject_Z_mult, pow2_inject by lia.
        replace e'' with (e'' - E + E)%Z at 1 by lia.
        rewrite Qpower_plus by exact two_nonzero. ring. }
    destruct Hv' as (v & Ev & Vv). exists v. split; [exact Ev|].
    pose proof (pow2_positive E) as PE. pose proof (pow2_positive e2) as Pe2.
    pose proof (pow2_positive s) as Ps. pose proof (pow2_positive k) as Pk.
    split.
    { rewrite Vv. apply Qmult_le_0_compat; [|Lqa.lra].
      change 0 with (inject_Z 0). rewrite <- Zle_Qle. exact Hm2pos. }
    (* the exact quotient *)
    assert (Ht : q / (inject_Z (Z.pos my) * 2 ^ e2) == inject_Z N / inject_Z D * 2 ^ E).
    { rewrite Hv. subst N D. rewrite !inject_Z_mult, !pow2_inject by lia.
      replace e1 with (e2 + (E + (s + - k)))%Z by lia.
      rewrite !Qpower_plus by exact two_nonzero. rewrite Qpower_opp.
      field. repeat split; try (apply Qnot_eq_sym, Qlt_not_eq; assumption). discriminate. }
    unfold near. rewrite Ht, Vv.
    assert (PD : 0 < inject_Z D) by (change 0 with (inject_Z 0); rewrite <- Zlt_Qlt; exact HD).
    assert (Hdiff : inject_Z m2 * 2 ^ E - inject_Z N / inject_Z D * 2 ^ E ==
                    (inject_Z (m2 * D - N) / inject_Z D) * 2 ^ E).
    { unfold Z.sub. rewrite inject_Z_plus, inject_Z_mult, inject_Z_opp. field.
      apply Qnot_eq_sym, Qlt_not_eq, PD. }
    rewrite Hdiff, Qabs_Qmult, (Qabs_pos (2 ^ E)) by Lqa.lra.
    assert (Habs : Qabs (inject_Z (m2 * D - N) / inject_Z D) <= 1 # 2).
    { unfold Qdiv. rewrite Qabs_Qmult, (Qabs_pos (/ inject_Z D))
        by (apply Qlt_le_weak, Qinv_lt_0_compat, PD).
      change (Qabs (inject_Z (m2 * D - N))) with (inject_Z (Z.abs (m2 * D - N))).
      apply Qle_shift_div_r; [exact PD|].
      assert (inject_Z (2 * Z.abs (m2 * D - N)) <= inject_Z D) as L by (rewrite <- Zle_Qle; exact Herr).
      rewrite inject_Z_mult in L. change (inject_Z 2) with 2 in L. Lqa.lra. }
    assert (Hnn : 0 <= inject_Z N / inject_Z D).
    { apply Qle_shift_div_l; [exact PD|]. rewrite Qmult_0_l.
      change 0 with (inject_Z 0). rewrite <- Zle_Qle. exact HN. }
    destruct Hbig as [Hmin|Hbig].
    + subst E. assert (2 ^ (-1074) * (1 # 2) == 2 ^ (-1075)) as X by reflexivity.
      set (a := Qabs (inject_Z (m2 * D - N) / inject_Z D)) in *.
      set (b := inject_Z N / inject_Z D) in *.
      assert (0 <= b * 2 ^ (-1074) * 2 ^ (-53))
        by (apply Qmult_le_0_compat; [apply Qmult_le_0_compat; [exact Hnn|discriminate]|discriminate]).
      assert (a * 2 ^ (-1074) <= (1 # 2) * 2 ^ (-1074))
        by (apply Qmult_le_compat_r; [exact Habs|discriminate]).
      rewrite <- X. Lqa.lra.
    + assert (B : 2 ^ 52 <= inject_Z N / inject_Z D).
      { apply Qle_shift_div_l; [exact PD|].
        assert (inject_Z (2 ^ 52 * D) <= inject_Z N) as L by (rewrite <- Zle_Qle; exact Hbig).
        rewrite inject_Z_mult in L. exact L. }
      set (a := Qabs (inject_Z (m2 * D - N) / inject_Z D)) in *.
      set (b := inject_Z N / inject_Z D) in *.
      assert (a * 2 ^ E <= (1 # 2) * 2 ^ E) by (apply Qmult_le_compat_r; [exact Habs|Lqa.lra]).
      assert ((1 # 2) * 2 ^ E <= b * 2 ^ E * 2 ^ (-53)).
      { assert (2 ^ 52 * 2 ^ (-53) == 1 # 2) as X by reflexivity.
        assert ((1 # 2) * 2 ^ E == 2 ^ 52 * 2 ^ E * 2 ^ (-53)) as -> by (rewrite <- X; ring).
        apply Qmult_le_compat_r; [|discriminate].
        apply Qmult_le_compat_r; [exact B|Lqa.lra]. }
      assert (0 <= 2 ^ (-1075)) by discriminate.
      Lqa.lra.
Qed.
End QuotientClose.

Section Comparison.
Local Open Scope Z_scope.


Lemma units_positive (m : positive) (e : Z) : -1074 <= e -> 0 < units m e.
Proof. intro H. unfold units. apply Z.mul_pos_pos; [lia|apply Z.pow_pos_nonneg; lia]. Qed.

Lemma units_exponent (m1 m2 : positive) (e1 e2 : Z) :
  SpecFloat.bounded prec emax m1 e1 = true -> SpecFloat.bounded prec emax m2 e2 = true ->
  e1 < e2 -> units m1 e1 < units m2 e2.
Proof.
  intros B1 B2 L.
  destruct (bounded_canonical m1 e1 B1) as (E1 & D1 & _).
  destruct (bounded_canonical m2 e2 B2) as (E2 & _ & N2).
  specialize (N2 ltac:(lia)).
  pose proof (digits2_bounds m1) as X1. pose proof (digits2_bounds m2) as X2.
  rewrite N2 in X2. change (2 ^ (53 - 1)) with (2 ^ 52) in X2.
  assert (Z.pos m1 < 2 ^ 53).
  { assert (2 ^ Z.pos (digits2_pos m1) <= 2 ^ 53) by (apply Z.pow_le_mono_r; lia). lia. }
  unfold units.
  assert (P1 : 0 < 2 ^ (e1 + 1074)) by (apply Z.pow_pos_nonneg; lia).
  assert (2 ^ (e2 + 1074) = 2 ^ (e2 - e1 - 1) * 2 * 2 ^ (e1 + 1074)) as ->.
  { rewrite <- (Z.pow_1_r 2) at 3. rewrite <- !Z.pow_add_r by lia. f_equal. lia. }
  assert (1 <= 2 ^ (e2 - e1 - 1)) by (apply (Z.pow_le_mono_r 2 0); lia).
  change (2 ^ 53) with (2 ^ 52 * 2) in H.
  assert (K : 0 < 2 ^ 52) by reflexivity.
  revert X2 H K. generalize (2 ^ 52). intros K X2 H HK.
  revert H0 P1. generalize (2 ^ (e2 - e1 - 1)) (2 ^ (e1 + 1074)). intros a P Ha HP.
  assert (Z.pos m1 * P < 2 * K * P) by nia.
  assert (2 * K * P <= 2 * Z.pos m2 * P) by nia.
  assert (2 * Z.pos m2 * P <= Z.pos m2 * (a * 2 * P)) by nia.
  lia.
Qed.

Lemma SFcompare_units (m1 m2 : positive) (e1 e2 : Z) :
  SpecFloat.bounded prec emax m1 e1 = true -> SpecFloat.bounded prec emax m2 e2 = true ->
  SFcompare (S754_finite false m1 e1) (S754_finite false m2 e2) =
    Some (units m1 e1 ?= units m2 e2).
Proof.
  intros B1 B2. cbn [SFcompare]. f_equal.
  destruct (Z.compare_spec e1 e2) as [E|L|G].
  - subst e2. rewrite Pos.compare_cont_spec. cbn [Pos.switch_Eq].
    destruct (bounded_canonical m1 e1 B1) as (E1 & _).
    unfold units. assert (P : 0 < 2 ^ (e1 + 1074)) by (apply Z.pow_pos_nonneg; lia).
    destruct (Pos.compare_spec m1 m2) as [->|X|X]; symmetry.
    + apply Z.compare_refl.
    + apply Z.compare_lt_iff. apply Pos2Z.pos_lt_pos in X. nia.
    + apply Z.compare_gt_iff. apply Pos2Z.pos_lt_pos in X. nia.
  - symmetry. apply Z.compare_lt_iff. apply units_exponent; assumption.
  - symmetry. apply Z.compare_gt_iff. apply units_exponent; assumption.
Qed.
End Comparison.

Section ComparisonValue.
Local Open Scope Q_scope.

Lemma units_value (m : positive) (e : Z) :
  (-1074 <= e)%Z -> inject_Z (Z.pos m) * 2 ^ e == inject_Z (units m e) * 2 ^ (-1074).
Proof.
  intro H. unfold units. rewrite inject_Z_mult, pow2_inject by lia.
  rewrite Qpower_plus by exact two_nonzero.
  assert (2 ^ 1074 * 2 ^ (-1074) == 1) as X by reflexivity.
  rewrite <- Qmult_assoc, <- Qmult_assoc, X. ring.
Qed.

(** The value of a finite double that is not negative, in units of
    2^-1074, with what [Prim2SF] gives for it. *)
Lemma exact_value_units (x : float) (q : Q) :
  Binary64.exact_value x = Some q -> 0 <= q ->
  exists u : Z, (0 <= u)%Z /\ q == inject_Z u * 2 ^ (-1074) /\
    ((u = 0%Z /\ exists s, Prim2SF x = S754_zero s) \/
     (exists m e, Prim2SF x = S754_finite false m e /\ u = units m e /\
                  SpecFloat.bounded prec emax m e = true)).
Proof.
  intros Hx Hq. destruct (exact_value_sign x q Hx Hq) as [(s & Hs & ->)|(m & e & Hs & Hv)].
  - exists 0%Z. split; [lia|]. split; [reflexivity|]. left. split; [reflexivity|]. exists s. exact Hs.
  - assert (Hb : SpecFloat.bounded prec emax m e = true).
    { pose proof (Prim2SF_valid x) as V. rewrite Hs in V. exact V. }
    destruct (bounded_canonical m e Hb) as (He & _).
    exists (units m e). split; [pose proof (units_positive m e ltac:(lia)); lia|].
    split; [rewrite Hv; apply units_value; lia|].
    right. exists m, e. repeat split; assumption.
Qed.

Lemma compare_values (x y : float) (qx qy : Q) :
  Binary64.exact_value x = Some qx -> Binary64.exact_value y = Some qy ->
  0 <= qx -> 0 <= qy ->
  PrimFloat.leb x y = Qle_bool qx qy /\ PrimFloat.ltb x y = negb (Qle_bool qy qx).
Proof.
  intros Hx Hy Px Py.
  destruct (exact_value_units x qx Hx Px) as (ux & Ux & Vx & Cx).
  destruct (exact_value_units y qy Hy Py) as (uy & Uy & Vy & Cy).
  rewrite leb_spec, ltb_spec. unfold SFleb, SFltb.
  assert (Hc : SFcompare (Prim2SF x) (Prim2SF y) = Some (ux ?= uy)%Z).
  { destruct Cx as [(-> & sx & Sx)|(mx & ex & Sx & -> & Bx)];
      destruct Cy as [(-> & sy & Sy)|(my & ey & Sy & -> & By)]; rewrite Sx, Sy.
    - reflexivity.
    - cbn [SFcompare]. f_equal. symmetry. apply Z.compare_lt_iff.
      destruct (bounded_canonical my ey By) as (E & _). apply units_positive. lia.
    - cbn [SFcompare]. f_equal. symmetry. apply Z.compare_gt_iff.
      destruct (bounded_canonical mx ex Bx) as (E & _). apply units_positive. lia.
    - apply SFcompare_units; assumption. }
  rewrite Hc.
  assert (P : 0 < 2 ^ (-1074)) by reflexivity.
  assert (Le : forall a b : Z, (a <= b)%Z <-> inject_Z a * 2 ^ (-1074) <= inject_Z b * 2 ^ (-1074)).
  { intros a b. rewrite Zle_Qle. split; intro H.
    - apply Qmult_le_compat_r; [exact H|discriminate].
    - apply Qmult_le_r in H; [exact H|exact P]. }
  assert (Le1 : (ux <= uy)%Z -> qx <= qy) by (intro H; rewrite Vx, Vy; apply (proj1 (Le ux uy)), H).
  assert (Le2 : qx <= qy -> (ux <= uy)%Z) by (intro H; rewrite Vx, Vy in H; apply (proj2 (Le ux uy)), H).
  assert (Le3 : (uy <= ux)%Z -> qy <= qx) by (intro H; rewrite Vx, Vy; apply (proj1 (Le uy ux)), H).
  assert (Le4 : qy <= qx -> (uy <= ux)%Z) by (intro H; rewrite Vx, Vy in H; apply (proj2 (Le uy ux)), H).
  split.
  - destruct (Z.compare_spec ux uy) as [E|L|G]; symmetry.
    + apply Qle_bool_iff, Le1. lia.
    + apply Qle_bool_iff, Le1. lia.
    + destruct (Qle_bool qx qy) eqn:B; [|reflexivity].
      apply Qle_bool_iff, Le2 in B. lia.
  - destruct (Z.compare_spec ux uy) as [E|L|G]; symmetry.
    + apply negb_false_iff, Qle_bool_iff, Le3. lia.
    + apply negb_true_iff. destruct (Qle_bool qy qx) eqn:B; [|reflexivity].
      apply Qle_bool_iff, Le4 in B. lia.
    + apply negb_false_iff, Qle_bool_iff, Le3. lia.
Qed.
End ComparisonValue.

Section BandChecks.
Local Open Scope Z_scope.

(** What the conversions to text give on the values of each band. *)
Lemma tens_checked :
  forallb (fun k => String.eqb
                      (Binary64.to_string (PrimFloat.mul (Binary64.of_Z k) (Binary64.of_Z 10)))
                      (decimal (k * 10)))
          (map Z.of_nat (seq 10 91)) = true.
Proof. vm_compute. reflexivity. Qed.

Lemma fives_checked :
  forallb (fun k => String.eqb
                      (Binary64.to_string
                         (Binary64.max (Binary64.of_Z 5)
                            (PrimFloat.mul (Binary64.of_Z k) (Binary64.of_Z 5))))
                      (decimal (Z.max 5 (k * 5))))
          (map Z.of_nat (seq 0 21)) = true.
Proof. vm_compute. reflexivity. Qed.

Lemma fives_negative_zero :
  Binary64.to_string
    (Binary64.max (Binary64.of_Z 5) (PrimFloat.mul PrimFloat.neg_zero (Binary64.of_Z 5)))
  = decimal (Z.max 5 (0 * 5)).
Proof. vm_compute. reflexivity. Qed.

Lemma tenths_checked :
  forallb (fun n => String.eqb
                      (Binary64.to_string (Binary64.of_string (fixed_point false n 1)))
                      (tenths n))
          (map Z.of_nat (seq 10 91)) = true.
Proof. vm_compute. reflexivity. Qed.

Lemma whole_checked :
  forallb (fun k => String.eqb (Binary64.to_string (Binary64.of_Z k)) (decimal k))
          (map Z.of_nat (seq 10 4991)) = true.
Proof. vm_compute. reflexivity. Qed.

Lemma checked_in (f : Z -> bool) (first count : nat) (k : Z) :
  forallb f (map Z.of_nat (seq first count)) = true ->
  Z.of_nat first <= k < Z.of_nat (first + count) -> f k = true.
Proof.
  intros C H. rewrite forallb_forall in C. apply C.
  apply in_map_iff. exists (Z.to_nat k). split; [lia|]. apply in_seq. lia.
Qed.
End BandChecks.

Section Bands.
Local Open Scope Q_scope.
Local Open Scope string_scope.

Lemma constant_1000 :
  Prim2SF (Binary64.of_Z 1000) = S754_finite false 8796093022208000 (-43) /\
  exists c, Binary64.exact_value (Binary64.of_Z 1000) = Some c /\ c == 1000.
Proof. split; [reflexivity|]. eexists. split; reflexivity. Qed.

Lemma constant_100 :
  exists c, Binary64.exact_value (Binary64.of_Z 100) = Some c /\ c == 100.
Proof. eexists. split; reflexivity. Qed.

Lemma constant_10 :
  Prim2SF (Binary64.of_Z 10) = S754_finite false 5629499534213120 (-49) /\
  exists c, Binary64.exact_value (Binary64.of_Z 10) = Some c /\ c == 10.
Proof. split; [reflexivity|]. eexists. split; reflexivity. Qed.

Lemma constant_5 :
  Prim2SF (Binary64.of_Z 5) = S754_finite false 5629499534213120 (-50).
Proof. reflexivity. Qed.

Lemma constant_0 :
  exists c, Binary64.exact_value (Binary64.of_Z 0) = Some c /\ c == 0.
Proof. eexists. split; reflexivity. Qed.

(** A comparison of the program with an integer constant, by values. *)
Lemma leb_constant (y m : float) (c q : Q) (z : Q) :
  Binary64.exact_value y = Some c -> c == z -> 0 <= z ->
  Binary64.exact_value m = Some q -> 0 <= q ->
  (z <= q -> PrimFloat.leb y m = true) /\ (q < z -> PrimFloat.leb y m = false) /\
  (z <= q -> PrimFloat.ltb m y = false).
Proof.
  intros Hy Hc Hz Hm Hq.
  destruct (compare_values y m c q Hy Hm ltac:(rewrite Hc; exact Hz) Hq) as [L _].
  destruct (compare_values m y q c Hm Hy Hq ltac:(rewrite Hc; exact Hz)) as [_ T].
  rewrite L, T. repeat split; intro H.
  - apply Qle_bool_iff. rewrite Hc. exact H.
  - destruct (Qle_bool c q) eqn:B; [|reflexivity]. apply Qle_bool_iff in B. rewrite Hc in B. Lqa.lra.
  - apply negb_false_iff, Qle_bool_iff. rewrite Hc. exact H.
Qed.

Lemma quotient_1000 (m : float) (q : Q) :
  Binary64.exact_value m = Some q -> 0 <= q ->
  exists v, Binary64.exact_value (PrimFloat.div m (Binary64.of_Z 1000)) = Some v /\ 0 <= v /\
            near v (q / 1000).
Proof.
  intros Hm Hq. destruct constant_1000 as [P _].
  destruct (div_near m _ q _ _ Hm Hq P ltac:(lia) ltac:(cbn; lia)) as (v & Ev & Pv & Cv).
  exists v. split; [exact Ev|]. split; [exact Pv|]. unfold near in *.
  assert (inject_Z 8796093022208000 * 2 ^ (-43) == 1000) as X by reflexivity.
  rewrite X in Cv. exact Cv.
Qed.

Lemma quotient_10 (m : float) (q : Q) :
  Binary64.exact_value m = Some q -> 0 <= q ->
  exists v, Binary64.exact_value (PrimFloat.div m (Binary64.of_Z 10)) = Some v /\ 0 <= v /\
            near v (q / 10).
Proof.
  intros Hm Hq. destruct constant_10 as [P _].
  destruct (div_near m _ q _ _ Hm Hq P ltac:(lia) ltac:(cbn; lia)) as (v & Ev & Pv & Cv).
  exists v. split; [exact Ev|]. split; [exact Pv|]. unfold near in *.
  assert (inject_Z 5629499534213120 * 2 ^ (-49) == 10) as X by reflexivity.
  rewrite X in Cv. exact Cv.
Qed.

Lemma quotient_5 (m : float) (q : Q) :
  Binary64.exact_value m = Some q -> 0 <= q ->
  exists v, Binary64.exact_value (PrimFloat.div m (Binary64.of_Z 5)) = Some v /\ 0 <= v /\
            near v (q / 5).
Proof.
  intros Hm Hq. pose proof constant_5 as P.
  destruct (div_near m _ q _ _ Hm Hq P ltac:(lia) ltac:(cbn; lia)) as (v & Ev & Pv & Cv).
  exists v. split; [exact Ev|]. split; [exact Pv|]. unfold near in *.
  assert (inject_Z 5629499534213120 * 2 ^ (-50) == 5) as X by reflexivity.
  rewrite X in Cv. exact Cv.
Qed.

Lemma tiny_small : 0 <= 2 ^ (-1075) /\ 2 ^ (-1075) <= 1 # 1152921504606846976.
Proof. split; apply Qle_bool_iff; vm_compute; reflexivity. Qed.

Lemma near_bounds (v t : Q) :
  near v t -> 0 <= t ->
  exists d, 0 <= d /\ d <= 1 # 1152921504606846976 /\
            t - t * (1 # 9007199254740992) - d <= v /\
            v <= t + t * (1 # 9007199254740992) + d.
Proof.
  intros C Ht. unfold near in C. apply Qabs_Qle_condition in C.
  destruct tiny_small as [T0 T1].
  assert (2 ^ (-53) == 1 # 9007199254740992) as X by reflexivity.
  rewrite X in C. exists (2 ^ (-1075)). split; [exact T0|]. split; [exact T1|].
  set (d := 2 ^ (-1075)) in *. clearbody d. destruct C as [C1 C2]. split; Lqa.lra.
Qed.

Lemma round_between (v : Q) (a b : Z) :
  inject_Z a - (1 # 2) <= v -> v < inject_Z b + (1 # 2) ->
  (a <= Exact.round v <= b)%Z.
Proof.
  intros L U. destruct (round_nearest v) as [A B].
  assert (inject_Z (a - 1) < inject_Z (Exact.round v)) as X.
  { unfold Z.sub. rewrite inject_Z_plus. change (inject_Z (- (1))) with (- (1)).
    set (r := inject_Z (Exact.round v)) in *. set (ia := inject_Z a) in *. Lqa.lra. }
  assert (inject_Z (Exact.round v) < inject_Z (b + 1)) as Y.
  { rewrite inject_Z_plus. change (inject_Z 1) with 1.
    set (r := inject_Z (Exact.round v)) in *. set (ib := inject_Z b) in *. Lqa.lra. }
  rewrite <- Zlt_Qlt in X, Y. lia.
Qed.

Ltac expose64 :=
  unfold formatDistance;
  cbn [Number_isFinite Math_round Math_max toFixed Number toString leb ltb div mul lit
       Binary64.number Binary64.format num].

(** The tests of [formatDistance] on a finite double that is not negative. *)
Lemma tests64 (m : float) (q : Q) :
  Binary64.exact_value m = Some q -> 0 <= q ->
  PrimFloat.ltb m (Binary64.of_Z 0) = false /\
  (1000 <= q -> PrimFloat.leb (Binary64.of_Z 1000) m = true) /\
  (q < 1000 -> PrimFloat.leb (Binary64.of_Z 1000) m = false) /\
  (100 <= q -> PrimFloat.leb (Binary64.of_Z 100) m = true) /\
  (q < 100 -> PrimFloat.leb (Binary64.of_Z 100) m = false).
Proof.
  intros Hm Hq.
  destruct constant_0 as (c0 & E0 & V0).
  destruct constant_1000 as (_ & c1 & E1 & V1).
  destruct constant_100 as (c2 & E2 & V2).
  destruct (leb_constant _ m c0 q 0 E0 V0 ltac:(Lqa.lra) Hm Hq) as (_ & _ & A).
  destruct (leb_constant _ m c1 q 1000 E1 V1 ltac:(Lqa.lra) Hm Hq) as (B1 & B2 & _).
  destruct (leb_constant _ m c2 q 100 E2 V2 ltac:(Lqa.lra) Hm Hq) as (C1 & C2 & _).
  split; [apply A, Hq|]. repeat split; assumption.
Qed.

Lemma band_below_1000 (m : float) (q : Q) :
  Binary64.exact_value m = Some q -> 100 <= q -> q < 1000 ->
  exists tens, Binary64.exact_value (PrimFloat.div m (Binary64.of_Z 10)) = Some tens /\
    near tens (q / 10) /\ (10 <= Exact.round tens <= 100)%Z /\
    formatDistance (F := Binary64.format) m = decimal (Exact.round tens * 10) ++ " m".
Proof.
  intros Hm H1 H2. assert (Hq : 0 <= q) by Lqa.lra.
  destruct (quotient_10 m q Hm Hq) as (v & Ev & Pv & Cv).
  exists v. split; [exact Ev|]. split; [exact Cv|].
  assert (Hk : (10 <= Exact.round v <= 100)%Z).
  { destruct (near_bounds v (q / 10) Cv) as (d & D0 & D1 & L & U).
    { apply Qle_shift_div_l; Lqa.lra. }
    assert (10 <= q / 10) by (apply Qle_shift_div_l; Lqa.lra).
    assert (q / 10 < 100) by (apply Qlt_shift_div_r; Lqa.lra).
    apply round_between.
    - change (inject_Z 10) with 10. set (t := q / 10) in *. Lqa.lra.
    - change (inject_Z 100) with 100. set (t := q / 10) in *. Lqa.lra. }
  split; [exact Hk|].
  destruct (tests64 m q Hm Hq) as (T0 & _ & T1 & T2 & _).
  expose64. rewrite Hm, T0, (T1 H2), (T2 H1). cbn [negb orb].
  unfold Binary64.round. rewrite Ev. cbv zeta.
  assert ((Exact.round v =? 0)%Z = false) as -> by (apply Z.eqb_neq; lia).
  cbn [andb]. f_equal.
  pose proof (checked_in _ 10 91 (Exact.round v) tens_checked ltac:(lia)) as C.
  apply String.eqb_eq in C. exact C.
Qed.

Lemma band_below_100 (m : float) (q : Q) :
  Binary64.exact_value m = Some q -> 0 <= q -> q < 100 ->
  exists fives, Binary64.exact_value (PrimFloat.div m (Binary64.of_Z 5)) = Some fives /\
    near fives (q / 5) /\ (0 <= Exact.round fives <= 20)%Z /\
    formatDistance (F := Binary64.format) m = decimal (Z.max 5 (Exact.round fives * 5)) ++ " m".
Proof.
  intros Hm Hq H2.
  destruct (quotient_5 m q Hm Hq) as (v & Ev & Pv & Cv).
  exists v. split; [exact Ev|]. split; [exact Cv|].
  assert (Hk : (0 <= Exact.round v <= 20)%Z).
  { destruct (near_bounds v (q / 5) Cv) as (d & D0 & D1 & L & U).
    { apply Qle_shift_div_l; Lqa.lra. }
    assert (0 <= q / 5) by (apply Qle_shift_div_l; Lqa.lra).
    assert (q / 5 < 20) by (apply Qlt_shift_div_r; Lqa.lra).
    apply round_between.
    - change (inject_Z 0) with 0. Lqa.lra.
    - change (inject_Z 20) with 20. set (t := q / 5) in *. Lqa.lra. }
  split; [exact Hk|].
  destruct (tests64 m q Hm Hq) as (T0 & _ & T1 & _ & T2).
  expose64. rewrite Hm, T0, (T1 ltac:(Lqa.lra)), (T2 H2). cbn [negb orb].
  unfold Binary64.round. rewrite Ev. cbv zeta. f_equal.
  destruct ((Exact.round v =? 0)%Z && Binary64.sign_bit (PrimFloat.div m (Binary64.of_Z 5))) eqn:Z0.
  - apply andb_prop in Z0 as [Z0 _]. apply Z.eqb_eq in Z0. rewrite Z0.
    exact fives_negative_zero.
  - pose proof (checked_in _ 0 21 (Exact.round v) fives_checked ltac:(lia)) as C.
    apply String.eqb_eq in C. exact C.
Qed.

(** The text of the kilometres, in either branch of the test on [km]. *)
Lemma kilometres_text (m : float) (q v : Q) :
  Binary64.exact_value m = Some q -> 1000 <= q ->
  Binary64.exact_value (PrimFloat.div m (Binary64.of_Z 1000)) = Some v -> 0 <= v ->
  formatDistance (F := Binary64.format) m =
    (if Qle_bool 10 v
     then Binary64.to_string (Binary64.of_Z (Exact.round v))
     else Binary64.to_string
            (Binary64.of_string (fixed_point false (Exact.round (v * 10)) 1))) ++ " km".
Proof.
  intros Hm H1 Ev Pv. assert (Hq : 0 <= q) by Lqa.lra.
  destruct (tests64 m q Hm Hq) as (T0 & T1 & _).
  destruct constant_10 as (_ & c & Ec & Vc).
  destruct (leb_constant _ _ c v 10 Ec Vc ltac:(Lqa.lra) Ev Pv) as (A & B & _).
  expose64. rewrite Hm, T0, (T1 H1). cbn [negb orb]. f_equal.
  destruct (Qle_bool 10 v) eqn:L.
  - apply Qle_bool_iff in L. rewrite (A L).
    unfold Binary64.round. rewrite Ev. cbv zeta.
    assert ((10 <= Exact.round v)%Z).
    { assert (Exact.round 10 <= Exact.round v)%Z by (apply round_monotone; exact L).
      change (Exact.round 10) with 10%Z in H. exact H. }
    assert ((Exact.round v =? 0)%Z = false) as -> by (apply Z.eqb_neq; lia).
    reflexivity.
  - apply Qle_bool_false in L. rewrite (B L).
    unfold Binary64.to_fixed. rewrite Ev.
    assert (Qle_bool (Binary64.pow10 21) (Qabs v) = false) as ->.
    { apply Qle_bool_false. rewrite Qabs_pos by exact Pv.
      assert (10 < Binary64.pow10 21) by reflexivity. Lqa.lra. }
    unfold Exact.to_fixed.
    assert (Exact.Qlt_bool v 0 = false) as ->.
    { destruct (Exact.Qlt_bool v 0) eqn:S; [|reflexivity]. apply Qlt_bool_iff in S. Lqa.lra. }
    assert (Exact.round (Qabs v * inject_Z (10 ^ Z.of_nat 1)) = Exact.round (v * 10)) as ->.
    { apply round_comp. rewrite Qabs_pos by exact Pv. reflexivity. }
    reflexivity.
Qed.

Lemma band_tenths (m : float) (q : Q) :
  Binary64.exact_value m = Some q -> 1000 <= q -> q < 10000 ->
  exists km, Binary64.exact_value (PrimFloat.div m (Binary64.of_Z 1000)) = Some km /\
    near km (q / 1000) /\ (10 <= Exact.round (km * 10) <= 100)%Z /\
    formatDistance (F := Binary64.format) m = tenths (Exact.round (km * 10)) ++ " km".
Proof.
  intros Hm H1 H2. assert (Hq : 0 <= q) by Lqa.lra.
  destruct (quotient_1000 m q Hm Hq) as (v & Ev & Pv & Cv).
  exists v. split; [exact Ev|]. split; [exact Cv|].
  destruct (near_bounds v (q / 1000) Cv) as (d & D0 & D1 & L & U).
  { apply Qle_shift_div_l; Lqa.lra. }
  assert (T1 : 1 <= q / 1000) by (apply Qle_shift_div_l; Lqa.lra).
  assert (T2 : q / 1000 < 10) by (apply Qlt_shift_div_r; Lqa.lra).
  set (t := q / 1000) in *.
  rewrite (kilometres_text m q v Hm H1 Ev Pv).
  destruct (Qle_bool 10 v) eqn:B.
  - apply Qle_bool_iff in B.
    assert (Hk : (10 <= Exact.round v <= 10)%Z).
    { apply round_between; change (inject_Z 10) with 10; Lqa.lra. }
    assert (Hn : (100 <= Exact.round (v * 10) <= 100)%Z).
    { apply round_between; change (inject_Z 100) with 100; Lqa.lra. }
    assert (Exact.round v = 10%Z) as -> by lia.
    assert (Exact.round (v * 10) = 100%Z) as -> by lia.
    split; [lia|]. reflexivity.
  - apply Qle_bool_false in B.
    assert (Hn : (10 <= Exact.round (v * 10) <= 100)%Z).
    { apply round_between.
      - change (inject_Z 10) with 10. Lqa.lra.
      - change (inject_Z 100) with 100. Lqa.lra. }
    split; [exact Hn|]. f_equal.
    pose proof (checked_in _ 10 91 (Exact.round (v * 10)) tenths_checked ltac:(lia)) as C.
    apply String.eqb_eq in C. exact C.
Qed.

Lemma band_whole (m : float) (q : Q) :
  Binary64.exact_value m = Some q -> 10000 <= q ->
  exists km, Binary64.exact_value (PrimFloat.div m (Binary64.of_Z 1000)) = Some km /\
    near km (q / 1000) /\ (10 <= Exact.round km)%Z /\
    formatDistance (F := Binary64.format) m =
      Binary64.to_string (Binary64.of_Z (Exact.round km)) ++ " km" /\
    ((Exact.round km <= 5000)%Z ->
     formatDistance (F := Binary64.format) m = decimal (Exact.round km) ++ " km").
Proof.
  intros Hm H1. assert (Hq : 0 <= q) by Lqa.lra.
  destruct (quotient_1000 m q Hm Hq) as (v & Ev & Pv & Cv).
  exists v. split; [exact Ev|]. split; [exact Cv|].
  destruct (near_bounds v (q / 1000) Cv) as (d & D0 & D1 & L & U).
  { apply Qle_shift_div_l; Lqa.lra. }
  assert (T1 : 10 <= q / 1000) by (apply Qle_shift_div_l; Lqa.lra).
  set (t := q / 1000) in *.
  rewrite (kilometres_text m q v Hm ltac:(Lqa.lra) Ev Pv).
  assert (Hk : (10 <= Exact.round v)%Z).
  { assert (Exact.round (995 # 100) <= Exact.round v)%Z by (apply round_monotone; Lqa.lra).
    change (Exact.round (995 # 100)) with 10%Z in H. exact H. }
  split; [exact Hk|].
  assert (Htext : (if Qle_bool 10 v
                   then Binary64.to_string (Binary64.of_Z (Exact.round v))
                   else Binary64.to_string
                          (Binary64.of_string (fixed_point false (Exact.round (v * 10)) 1)))
                  = Binary64.to_string (Binary64.of_Z (Exact.round v))).
  { destruct (Qle_bool 10 v) eqn:B; [reflexivity|].
    apply Qle_bool_false in B.
    assert (Hk' : (10 <= Exact.round v <= 10)%Z).
    { apply round_between; change (inject_Z 10) with 10; Lqa.lra. }
    assert (Hn : (100 <= Exact.round (v * 10) <= 100)%Z).
    { apply round_between; change (inject_Z 100) with 100; Lqa.lra. }
    assert (Exact.round v = 10%Z) as -> by lia.
    assert (Exact.round (v * 10) = 100%Z) as -> by lia.
    reflexivity. }
  rewrite Htext. split; [reflexivity|].
  intro K. f_equal.
  pose proof (checked_in _ 10 4991 (Exact.round v) whole_checked ltac:(lia)) as C.
  apply String.eqb_eq in C. exact C.
Qed.
End Bands.

Section FormatDistanceClaim.
Local Open Scope Q_scope.
Local Open Scope string_scope.

Lemma round_error (q : Q) :
  inject_Z (Exact.round q) - q <= 1 # 2 /\ - (1 # 2) <= inject_Z (Exact.round q) - q.
Proof. destruct (round_nearest q) as [L U]. split; Lqa.lra. Qed.

(** Claim C8. [formatDistance] rounds in bands, on the doubles the program
    computes with. For every finite double [m] of value [q] at least 0: the
    quotient the code forms ([m / 1000], [m / 10] or [m / 5]) is a finite
    double within half a unit in the last place of the exact quotient. From
    10000 on the text is the writing of that quotient rounded to the nearest
    whole number, followed by " km" (in plain decimal digits up to 5000 km at
    least); from 1000 up to 10000 it is the quotient rounded to one decimal
    place, without the decimal when it is 0, followed by " km"; from 100 up to
    1000 it is ten times the rounded quotient, followed by " m"; below 100 it
    is five times the rounded quotient, at least 5, followed by " m". The
    number printed differs from the exact distance by at most half a unit of
    the band plus the rounding of the quotient. 1500 gives "1.5 km", 15000
    gives "15 km", 240 gives "240 m", 8 gives "10 m", and 1150 gives
    "1.1 km", the double nearest to 1.15 being below 1.15. *)
Theorem formatDistance_graduated :
  (forall (m : float) (q : Q),
     Binary64.exact_value m = Some q -> 0 <= q ->
     (10000 <= q ->
        exists km,
          Binary64.exact_value (m / Binary64.of_Z 1000)%float = Some km /\
          near km (q / 1000) /\
          formatDistance (F := Binary64.format) m =
            Binary64.to_string (Binary64.of_Z (Exact.round km)) ++ " km" /\
          ((Exact.round km <= 5000)%Z ->
           formatDistance (F := Binary64.format) m = decimal (Exact.round km) ++ " km") /\
          Qabs (inject_Z (Exact.round km) - q / 1000)
            <= (1 # 2) + (q / 1000) * 2 ^ (-53) + 2 ^ (-1075)) /\
     (1000 <= q -> q < 10000 ->
        exists km,
          Binary64.exact_value (m / Binary64.of_Z 1000)%float = Some km /\
          near km (q / 1000) /\
          formatDistance (F := Binary64.format) m = tenths (Exact.round (km * 10)) ++ " km" /\
          Qabs (inject_Z (Exact.round (km * 10)) / 10 - q / 1000) <= (1 # 20) + 2 ^ (-49)) /\
     (100 <= q -> q < 1000 ->
        exists tens,
          Binary64.exact_value (m / Binary64.of_Z 10)%float = Some tens /\
          near tens (q / 10) /\
          formatDistance (F := Binary64.format) m = decimal (Exact.round tens * 10) ++ " m" /\
          Qabs (inject_Z (Exact.round tens * 10) - q) <= 5 + 2 ^ (-42)) /\
     (q < 100 ->
        exists fives,
          Binary64.exact_value (m / Binary64.of_Z 5)%float = Some fives /\
          near fives (q / 5) /\
          formatDistance (F := Binary64.format) m =
            decimal (Z.max 5 (Exact.round fives * 5)) ++ " m" /\
          Qabs (inject_Z (Exact.round fives * 5) - q) <= (5 # 2) + 2 ^ (-46))) /\
  (formatDistance (F := Binary64.format) 1500%float = "1.5 km" /\
   formatDistance (F := Binary64.format) 15000%float = "15 km" /\
   formatDistance (F := Binary64.format) 240%float = "240 m" /\
   formatDistance (F := Binary64.format) 8%float = "10 m") /\
  formatDistance (F := Binary64.format) 1150%float = "1.1 km".
Proof.
  split; [|split; [repeat split; vm_compute; reflexivity|vm_compute; reflexivity]].
  intros m q Hm Hq. split; [|split; [|split]].
  - intro H1. destruct (band_whole m q Hm H1) as (km & E & C & K & T & D).
    exists km. split; [exact E|]. split; [exact C|]. split; [exact T|]. split; [exact D|].
    unfold near in C. apply Qabs_Qle_condition in C. destruct C as [C1 C2].
    destruct (round_error km) as [R1 R2].
    apply Qabs_Qle_condition.
    set (k := inject_Z (Exact.round km)) in *. set (t := q / 1000) in *.
    set (p := t * 2 ^ (-53)) in *. set (d := 2 ^ (-1075)) in *.
    split; Lqa.lra.
  - intros H1 H2. destruct (band_tenths m q Hm H1 H2) as (km & E & C & K & T).
    exists km. split; [exact E|]. split; [exact C|]. split; [exact T|].
    destruct (near_bounds km (q / 1000) C) as (d & D0 & D1 & L & U).
    { apply Qle_shift_div_l; Lqa.lra. }
    assert (T1 : 1 <= q / 1000) by (apply Qle_shift_div_l; Lqa.lra).
    assert (T2 : q / 1000 < 10) by (apply Qlt_shift_div_r; Lqa.lra).
    destruct (round_error (km * 10)) as [R1 R2].
    assert (2 ^ (-49) == 1 # 562949953421312) as -> by reflexivity.
    apply Qabs_Qle_condition.
    set (n := inject_Z (Exact.round (km * 10))) in *. set (t := q / 1000) in *.
    assert (n / 10 == n * (1 # 10)) as -> by (unfold Qdiv; reflexivity).
    split; Lqa.lra.
  - intros H1 H2. destruct (band_below_1000 m q Hm H1 H2) as (tens & E & C & K & T).
    exists tens. split; [exact E|]. split; [exact C|]. split; [exact T|].
    destruct (near_bounds tens (q / 10) C) as (d & D0 & D1 & L & U).
    { apply Qle_shift_div_l; Lqa.lra. }
    assert (T1 : 10 <= q / 10) by (apply Qle_shift_div_l; Lqa.lra).
    assert (T2 : q / 10 < 100) by (apply Qlt_shift_div_r; Lqa.lra).
    assert (T3 : q == 10 * (q / 10)) by (field).
    destruct (round_error tens) as [R1 R2].
    assert (2 ^ (-42) == 1 # 4398046511104) as -> by reflexivity.
    rewrite inject_Z_mult. change (inject_Z 10) with 10.
    apply Qabs_Qle_condition.
    set (k := inject_Z (Exact.round tens)) in *. set (t := q / 10) in *.
    split; Lqa.lra.
  - intros H2. destruct (band_below_100 m q Hm Hq H2) as (fives & E & C & K & T).
    exists fives. split; [exact E|]. split; [exact C|]. split; [exact T|].
    destruct (near_bounds fives (q / 5) C) as (d & D0 & D1 & L & U).
    { apply Qle_shift_div_l; Lqa.lra. }
    assert (T1 : 0 <= q / 5) by (apply Qle_shift_div_l; Lqa.lra).
    assert (T2 : q / 5 < 20) by (apply Qlt_shift_div_r; Lqa.lra).
    assert (T3 : q == 5 * (q / 5)) by (field).
    destruct (round_error fives) as [R1 R2].
    assert (2 ^ (-46) == 1 # 70368744177664) as -> by reflexivity.
    rewrite inject_Z_mult. change (inject_Z 5) with 5.
    apply Qabs_Qle_condition.
    set (k := inject_Z (Exact.round fives)) in *. set (t := q / 5) in *.
    split; Lqa.lra.
Qed.

Lemma formatDistance_graduated_witness :
  exists q tens,
    Binary64.exact_value 240%float = Some q /\ 0 <= q /\ 100 <= q /\ q < 1000 /\
    Binary64.exact_value (240 / Binary64.of_Z 10)%float = Some tens /\
    formatDistance (F := Binary64.format) 240%float = decimal (Exact.round tens * 10) ++ " m".
Proof.
  destruct (Binary64.exact_value 240%float) as [q|] eqn:Q; [|discriminate Q].
  assert (A : 0 <= q) by (injection Q as <-; apply Qle_bool_iff; reflexivity).
  assert (B : 100 <= q) by (injection Q as <-; apply Qle_bool_iff; reflexivity).
  assert (C : q < 1000) by (injection Q as <-; reflexivity).
  destruct (proj1 formatDistance_graduated 240%float q Q A) as (_ & _ & H & _).
  destruct (H B C) as (tens & E & _ & T & _).
  exists q, tens. repeat split; assumption.
Defined.
End FormatDistanceClaim.

(** ** Instruction text *)

Section InstructionFacts.
Local Open Scope string_scope.

Lemma prefix_spec (p s : string) : String.prefix p s = true <-> exists after, s = p ++ after.
Proof.
  revert s. induction p as [|c p IH]; intro s.
  - split; [intros _; exists s; reflexivity | intros _; destruct s; reflexivity].
  - destruct s as [|d s]; simpl.
    + split; [discriminate | intros [a H]; discriminate].
    + destruct (ascii_dec c d) as [->|Hn].
      * rewrite IH. split; intros [a H]; exists a; [rewrite H; reflexivity | congruence].
      * split; [discriminate | intros [a H]; congruence].
Qed.

Lemma includes_spec (keyword text : string) : includes keyword text = true <-> occurs keyword text.
Proof.
  unfold occurs. induction text as [|c text IH].
  - cbn [includes]. rewrite orb_false_r, prefix_spec. split.
    + intros [a H]. exists "", a. exact H.
    + intros [[|b before] [a H]]; [exists a; exact H | discriminate].
  - cbn [includes]. rewrite orb_true_iff, prefix_spec, IH. split.
    + intros [[a H] | [before [a H]]].
      * exists "", a. exact H.
      * exists (String c before), a. rewrite H. reflexivity.
    + intros [[|b before] [a H]].
      * left. exists a. exact H.
      * right. exists before, a. simpl in H. congruence.
Qed.

Lemma includes_false (keyword text : string) : includes keyword text = false <-> ~ occurs keyword text.
Proof.
  rewrite <- includes_spec. destruct (includes keyword text); split; congruence.
Qed.

(** Claim C9. [normalizeInstruction] turns "Head north on Main St" into
    "Go straight on Main St", and does so for every compass direction, with
    or without a road after it. [extractTurnType] gives slight_left for
    "Turn slight left onto Oak Ave" and, on the lower-cased text, tests its
    keywords in this order: "u-turn" or "u turn" gives u_turn, "slight left"
    gives slight_left, "slight right" gives slight_right, "turn left",
    "left onto" or "keep left" gives left, "turn right", "right onto" or
    "keep right" gives right, and a text with none of them gives straight. *)
Theorem instruction_normalisation_and_turn_type :
  normalizeInstruction "Head north on Main St" = "Go straight on Main St" /\
  (forall direction, In direction straightWords ->
     normalizeInstruction ("Head " ++ direction) = "Go straight" /\
     normalizeInstruction ("Head " ++ direction ++ " on Main St") = "Go straight on Main St") /\
  extractTurnType "Turn slight left onto Oak Ave" = slight_left /\
  (forall raw : string,
     let text := toLowerCase raw in
     (occurs "u-turn" text \/ occurs "u turn" text -> extractTurnType raw = u_turn) /\
     (~ occurs "u-turn" text -> ~ occurs "u turn" text ->
        (occurs "slight left" text -> extractTurnType raw = slight_left) /\
        (~ occurs "slight left" text ->
           (occurs "slight right" text -> extractTurnType raw = slight_right) /\
           (~ occurs "slight right" text ->
              (occurs "turn left" text \/ occurs "left onto" text \/ occurs "keep left" text ->
                 extractTurnType raw = left) /\
              (~ occurs "turn left" text -> ~ occurs "left onto" text -> ~ occurs "keep left" text ->
                 (occurs "turn right" text \/ occurs "right onto" text \/ occurs "keep right" text ->
                    extractTurnType raw = right) /\
                 (~ occurs "turn right" text -> ~ occurs "right onto" text ->
                  ~ occurs "keep right" text -> extractTurnType raw = straight)))))).
Proof.
  split; [vm_compute; reflexivity|].
  split.
  { intros d H. simpl in H.
    repeat (destruct H as [<-|H]; [split; vm_compute; reflexivity|]). destruct H. }
  split; [vm_compute; reflexivity|].
  intros raw text. unfold extractTurnType. fold text.
  repeat match goal with
         | |- context [includes ?k text] =>
             let E := fresh "E" in
             destruct (includes k text) eqn:E;
             [apply includes_spec in E | apply includes_false in E]
         end;
  cbn [orb];
  repeat match goal with
         | |- _ /\ _ => split
         | |- _ -> _ => intro
         | H : _ \/ _ |- _ => destruct H
         end;
  try reflexivity; try contradiction.
Qed.

Lemma instruction_normalisation_and_turn_type_witness :
  occurs "keep left" (toLowerCase "Keep left at the fork") /\
  extractTurnType "Keep left at the fork" = left.
Proof.
  assert (occurs "keep left" (toLowerCase "Keep left at the fork")) as O.
  { exists "", " at the fork". reflexivity. }
  split; [exact O|].
  destruct instruction_normalisation_and_turn_type as (_ & _ & _ & H).
  destruct (H "Keep left at the fork") as (_ & H1).
  destruct H1 as (_ & H2);
    [apply includes_false; vm_compute; reflexivity
    |apply includes_false; vm_compute; reflexivity|].
  destruct H2 as (_ & H3); [apply includes_false; vm_compute; reflexivity|].
  destruct H3 as (H4 & _); [apply includes_false; vm_compute; reflexivity|].
  apply H4. right. right. exact O.
Defined.
End InstructionFacts.

(** ** Lists of sockets and timers *)

Section TableFacts.
Context {X : Type}.

Lemma update_nth_length (i : nat) (f : X -> X) (l : list X) :
  List.length (update_nth i f l) = List.length l.
Proof.
  revert i. induction l as [|x l IH]; intros [|i]; simpl; auto.
Qed.

Lemma nth_error_update_nth (i j : nat) (f : X -> X) (l : list X) :
  nth_error (update_nth i f l) j =
  if Nat.eqb i j then option_map f (nth_error l j) else nth_error l j.
Proof.
  revert i j. induction l as [|x l IH]; intros i j.
  - destruct i, j; simpl; try reflexivity. destruct (Nat.eqb i j); reflexivity.
  - destruct i, j; simpl; try reflexivity. apply IH.
Qed.

End TableFacts.

Section TimerFacts.
Context {A : Type}.

Lemma clearTimer_In (id : nat) (timers : list (Timer A)) (t : Timer A) :
  In t (clearTimer id timers) <-> In t timers /\ timer_id t <> id.
Proof.
  unfold clearTimer. rewrite filter_In, negb_true_iff, Nat.eqb_neq. reflexivity.
Qed.

End TimerFacts.

Section ServiceFacts.
Context {N : JsNumber}.
Import AutoDriverTracking.
Local Open Scope Z_scope.

Lemma reconnectDelay_values :
  map reconnectDelay [1; 2; 3; 4; 5] = [4000; 8000; 16000; 30000; 30000].
Proof. reflexivity. Qed.

Lemma reconnectDelay_cap (k : Z) : reconnectDelay k <= 30000.
Proof. unfold reconnectDelay. lia. Qed.









End ServiceFacts.

Section ViewerFacts.
Context {N : JsNumber}.
Import CustomerDetailScreen.
Local Open Scope Z_scope.




Lemma viewer_onopen_resets (r : Identity) (id : nat) (v : Viewer) :
  reconnect_retryCount (store (onopen r id v)) = 0.
Proof. reflexivity. Qed.





















End ViewerFacts.

Section BackoffClaim.
Context {N : JsNumber}.
Local Open Scope Z_scope.



End BackoffClaim.




(** ** Snapshots are sent only with an identity and a position *)

Section CountFacts.
Context {N : JsNumber} {C : Type}.

Lemma count_locations_app (l1 l2 : list (WebSocket N C)) :
  count_locations (l1 ++ l2) = (count_locations l1 + count_locations l2)%nat.
Proof.
  unfold count_locations, all_sent.
  rewrite flat_map_app, filter_app, length_app. reflexivity.
Qed.

Lemma count_locations_cons (w : WebSocket N C) (l : list (WebSocket N C)) :
  count_locations (w :: l) =
  (List.length (filter is_location (outbox w)) + count_locations l)%nat.
Proof.
  unfold count_locations, all_sent. simpl.
  rewrite filter_app, length_app. reflexivity.
Qed.

(** Changing a socket without adding a location message to its outbox
    leaves the count as it is. *)
Lemma count_locations_update (i : nat) (f : WebSocket N C -> WebSocket N C)
    (l : list (WebSocket N C)) :
  (forall w, filter is_location (outbox (f w)) = filter is_location (outbox w)) ->
  count_locations (update_nth i f l) = count_locations l.
Proof.
  intro H. revert i. induction l as [|w l IH]; intros [|i]; simpl; try reflexivity.
  - rewrite !count_locations_cons, H. reflexivity.
  - rewrite !count_locations_cons, IH. reflexivity.
Qed.

Lemma send_other (m : Message N) (w : WebSocket N C) :
  is_location m = false ->
  filter is_location (outbox (send m w)) = filter is_location (outbox w).
Proof.
  intro H. unfold send. destruct (is_open w); [|reflexivity].
  cbn [outbox]. rewrite filter_app. simpl. rewrite H. apply app_nil_r.
Qed.

Lemma close_outbox (code : option Z) (w : WebSocket N C) : outbox (close code w) = outbox w.
Proof. unfold close. destruct (readyState w); reflexivity. Qed.

Lemma count_locations_new (l : list (WebSocket N C)) (c : C) :
  count_locations (l ++ [new_socket c]) = count_locations l.
Proof.
  rewrite count_locations_app. unfold count_locations at 2. simpl. lia.
Qed.
End CountFacts.

Section ServiceSnapshots.
Context {N : JsNumber}.
Import AutoDriverTracking.

Lemma service_sendLocationUpdate_guard (s : State) :
  ws_open s = false \/ truthy (driverId s) = false \/ currentPosition s = None ->
  sendLocationUpdate s = s.
Proof.
  unfold sendLocationUpdate, truthy. intros [H|[H|H]].
  - rewrite H. reflexivity.
  - destruct (ws_open s); [|reflexivity]. cbn [negb].
    destruct (driverId s) as [id|]; [|reflexivity].
    apply negb_false_iff in H. rewrite H. destruct (currentPosition s); reflexivity.
  - destruct (ws_open s); [|reflexivity]. cbn [negb]. rewrite H.
    destruct (driverId s); reflexivity.
Qed.

Lemma service_sendLocationUpdate_sends (s : State) (id : string) (p : LatLng N) (i : nat) :
  ws_open s = true -> driverId s = Some id -> id <> ""%string -> currentPosition s = Some p ->
  ws s = Some i ->
  sockets (sendLocationUpdate s) =
    update_nth i (send (location {| snap_driverId := id; snap_position := p; snap_phase := idle;
                                    snap_pickup := None; snap_drop := None;
                                    snap_pickupAddress := None; snap_dropAddress := None |}))
               (sockets s).
Proof.
  intros Ho Hd Hn Hp Hw. unfold sendLocationUpdate. rewrite Ho, Hd, Hp. cbn [negb].
  apply String.eqb_neq in Hn. rewrite Hn. unfold ws_send. rewrite Hw. reflexivity.
Qed.

Lemma quiet_refl (s : State) : quiet s s.
Proof. split; reflexivity. Qed.

Lemma quiet_trans (s1 s2 s3 : State) : quiet s1 s2 -> quiet s2 s3 -> quiet s1 s3.
Proof. intros [H1 H2] [H3 H4]. split; congruence. Qed.

Lemma quiet_ws_send (m : Message N) (s : State) :
  is_location m = false -> quiet s (ws_send m s).
Proof.
  intro H. unfold ws_send. destruct (ws s) as [i|]; [|apply quiet_refl].
  split; [reflexivity|]. cbn [with_sockets sockets].
  apply count_locations_update. intro w. apply send_other, H.
Qed.

Lemma quiet_startHeartbeat (s : State) : quiet s (startHeartbeat s).
Proof. split; reflexivity. Qed.

Lemma quiet_stopHeartbeat (s : State) : quiet s (stopHeartbeat s).
Proof. unfold stopHeartbeat. destruct (heartbeat s); split; reflexivity. Qed.

Lemma quiet_set_readyState (i : nat) (state : ReadyState) (s : State) :
  quiet s (with_sockets (update_nth i (set_readyState state)) s).
Proof.
  split; [reflexivity|]. cbn [with_sockets sockets].
  apply count_locations_update. reflexivity.
Qed.

Lemma quiet_close (i : nat) (code : option Z) (s : State) :
  quiet s (with_sockets (update_nth i (close code)) s).
Proof.
  split; [reflexivity|]. cbn [with_sockets sockets].
  apply count_locations_update. intro w. rewrite close_outbox. reflexivity.
Qed.

Lemma quiet_sendLocationUpdate (s : State) :
  truthy (driverId s) = false -> quiet s (sendLocationUpdate s).
Proof.
  intro H. rewrite service_sendLocationUpdate_guard by auto. apply quiet_refl.
Qed.

Lemma quiet_onopen (s : State) : truthy (driverId s) = false -> quiet s (onopen s).
Proof.
  intro H. unfold onopen.
  match goal with |- quiet _ (sendLocationUpdate (ws_send ?m (startHeartbeat ?s1))) =>
    assert (H1 : quiet s (ws_send m (startHeartbeat s1)))
  end.
  { eapply quiet_trans; [|apply quiet_ws_send; reflexivity]. split; reflexivity. }
  eapply quiet_trans; [exact H1|]. apply quiet_sendLocationUpdate.
  rewrite (proj1 H1). exact H.
Qed.

Lemma quiet_onclose (s : State) : quiet s (onclose s).
Proof.
  unfold onclose. destruct (quiet_stopHeartbeat s) as [H1 H2].
  split; cbn [driverId sockets]; assumption.
Qed.

Lemma quiet_connectSocket (s : State) : quiet s (connectSocket s).
Proof.
  unfold connectSocket. destruct (negb (truthy (driverId s))); [apply quiet_refl|].
  destruct (current s) as [[[] ? ? ?]|]; try apply quiet_refl;
    (split; [reflexivity|]; cbn [sockets]; apply count_locations_new).
Qed.

Lemma quiet_sendPing (s : State) : quiet s (sendPing s).
Proof.
  unfold sendPing. destruct (ws_open s); [|apply quiet_refl].
  apply quiet_ws_send. reflexivity.
Qed.

Lemma quiet_stopAutoTracking (s : State) : quiet s (stopAutoTracking s).
Proof.
  unfold stopAutoTracking. cbv zeta.
  match goal with |- quiet _ (match reconnectTimer (stopHeartbeat ?a) with _ => _ end) =>
    set (s1 := a)
  end.
  assert (H1 : quiet s s1).
  { subst s1. destruct (ws s) as [i|]; [|split; reflexivity].
    match goal with |- quiet _ {| ws := None; heartbeat := heartbeat ?x |} =>
      assert (H : quiet s x) end.
    { eapply quiet_trans; [|apply quiet_close].
      destruct (ws_open s); [apply quiet_ws_send; reflexivity|apply quiet_refl]. }
    destruct H as [Ha Hb]. split; cbn [driverId sockets]; assumption. }
  pose proof (quiet_trans _ _ _ H1 (quiet_stopHeartbeat s1)) as H3.
  destruct (reconnectTimer (stopHeartbeat s1)); [|exact H3].
  destruct H3 as [Ha Hb]. split; cbn [driverId sockets]; assumption.
Qed.

(** Without a driver id, no event makes the service send a location. *)
Lemma service_step_quiet (s : State) (e : Event) :
  truthy (driverId s) = false -> quiet s (step s e).
Proof.
  intro H. destruct e as [i|i|i|p|]; cbn [step].
  - destruct (nth_error (sockets s) i) as [[[] ? ? ?]|]; try apply quiet_refl.
    eapply quiet_trans; [apply (quiet_set_readyState i OPEN)|].
    apply quiet_onopen. exact H.
  - destruct (nth_error (sockets s) i) as [[[] ? ? ?]|]; try apply quiet_refl;
      (eapply quiet_trans; [apply (quiet_set_readyState i CLOSED)|apply quiet_onclose]).
  - destruct (findTimer i (timers s)) as [[? ? []]|]; try apply quiet_refl.
    + apply quiet_sendPing.
    + eapply quiet_trans; [|apply quiet_connectSocket]. split; reflexivity.
  - unfold onPosition.
    match goal with |- quiet _ (sendLocationUpdate ?x) =>
      apply (quiet_trans s x); [split; reflexivity|apply quiet_sendLocationUpdate; exact H]
    end.
  - apply quiet_stopAutoTracking.
Qed.

Lemma service_run_quiet (events : list Event) (s : State) :
  truthy (driverId s) = false -> quiet s (run s events).
Proof.
  revert s. induction events as [|e events IH]; intros s H; [apply quiet_refl|].
  cbn [run fold_left]. pose proof (service_step_quiet s e H) as H1.
  eapply quiet_trans; [exact H1|]. apply IH. rewrite (proj1 H1). exact H.
Qed.

Lemma service_ticks_guard (n : nat) (s : State) :
  ws_open s = false \/ truthy (driverId s) = false \/ currentPosition s = None ->
  ticks n s = s.
Proof.
  intro H. unfold ticks. induction n as [|n IH]; [reflexivity|].
  change (sendLocationUpdate (Nat.iter n sendLocationUpdate s) = s).
  rewrite IH. apply service_sendLocationUpdate_guard, H.
Qed.
End ServiceSnapshots.

Section ScreenSnapshots.
Context {N : JsNumber} {M : JsMath N}.
Import LocationScreen.

Lemma screen_sendLocationUpdate_guard (r : Render) (st : Store) :
  socket_open st = false \/ driverId r = ""%string \/ currentPosition r = None ->
  sendLocationUpdate r st = st.
Proof.
  unfold sendLocationUpdate. intros [H|[H|H]].
  - rewrite H. reflexivity.
  - rewrite H. destruct (socket_open st); reflexivity.
  - rewrite H. destruct (socket_open st), (driverId r =? "")%string; reflexivity.
Qed.

Lemma screen_sendLocationUpdate_sends (r : Render) (st : Store) (p : LatLng N) (i : nat) :
  socket_open st = true -> driverId r <> ""%string -> currentPosition r = Some p ->
  webSocketRef st = Some i ->
  sendLocationUpdate r st = with_sockets (update_nth i (send (payload r p))) st.
Proof.
  intros Ho Hn Hp Hw. unfold sendLocationUpdate. rewrite Ho, Hp. cbn [negb].
  apply String.eqb_neq in Hn. rewrite Hn. unfold ref_send. rewrite Hw. reflexivity.
Qed.

Lemma screen_ticks_guard (closures : list Render) (st : Store) :
  Forall (fun r => driverId r = ""%string \/ currentPosition r = None) closures ->
  ticks closures st = st.
Proof.
  intro H. unfold ticks. induction H as [|r l Hr Hl IH]; [reflexivity|].
  cbn [fold_left]. rewrite screen_sendLocationUpdate_guard by auto. exact IH.
Qed.

Lemma calm_closed (st : Store) : calm st -> socket_open st = false.
Proof.
  intros [H _]. unfold socket_open, current. rewrite H.
  destruct (webSocketRef st) as [[|i]|]; reflexivity.
Qed.

Lemma calm_sendLocationUpdate (r : Render) (st : Store) :
  calm st -> sendLocationUpdate r st = st.
Proof. intro H. apply screen_sendLocationUpdate_guard. left. apply calm_closed, H. Qed.

Lemma calm_clearTimer (id : nat) (st : Store) : calm st -> calm (with_timers (clearTimer id) st).
Proof.
  intros [H1 H2]. split; [exact H1|]. cbn [with_timers timers]. intros t r Ht.
  apply clearTimer_In in Ht. apply H2, Ht.
Qed.

Lemma calm_stopBroadcasting (st : Store) : calm st -> calm (stopBroadcasting st).
Proof.
  intro H. unfold stopBroadcasting. destruct (broadcastIntervalRef st) as [id|]; [|exact H].
  apply (calm_clearTimer id) in H. exact H.
Qed.

Lemma calm_clearHeartbeat (st : Store) : calm st -> calm (clearHeartbeat st).
Proof.
  intro H. unfold clearHeartbeat. destruct (heartbeatRef st) as [id|]; [|exact H].
  apply (calm_clearTimer id) in H. exact H.
Qed.

Lemma calm_startBroadcasting (r : Render) (st : Store) : calm st -> calm (startBroadcasting r st).
Proof.
  intro H. unfold startBroadcasting. destruct (broadcastIntervalRef st); [exact H|].
  destruct (isTracking r); [|exact H]. cbn [negb]. rewrite calm_sendLocationUpdate by exact H.
  destruct H as [H1 H2]. split; [exact H1|]. cbn. intros t r' Ht.
  apply in_app_or in Ht. destruct Ht as [Ht|[<-|[]]]; [apply H2, Ht|discriminate].
Qed.

Lemma update_nth_nil {X : Type} (i : nat) (f : X -> X) : update_nth i f [] = [].
Proof. destruct i; reflexivity. Qed.

Lemma calm_closeWebSocket (r : Render) (c : Component) :
  calm (store c) -> calm (store (closeWebSocket r c)).
Proof.
  intro H. unfold closeWebSocket. cbv zeta. cbn [store].
  match goal with |- calm (match reconnectTimeoutRef (stopBroadcasting (clearHeartbeat ?a)) with _ => _ end) =>
    set (st1 := a)
  end.
  assert (H1 : calm st1).
  { subst st1. destruct (webSocketRef (store c)) as [id|]; [|exact H].
    rewrite (calm_closed _ H). destruct H as [Ha Hb]. split; [|exact Hb].
    cbn. rewrite Ha. apply update_nth_nil. }
  apply calm_clearHeartbeat, calm_stopBroadcasting in H1.
  destruct (reconnectTimeoutRef _) as [id|]; [|exact H1].
  apply (calm_clearTimer id) in H1. exact H1.
Qed.

Lemma findTimer_In {A : Type} (id : nat) (l : list (Timer A)) (t : Timer A) :
  findTimer id l = Some t -> In t l.
Proof. unfold findTimer. intro H. apply find_some in H. apply H. Qed.

Lemma anonymous_step (c : Component) (e : Event) :
  keeps_identity e = true -> anonymous c -> anonymous (step c e).
Proof.
  intros He [Hd Hc]. destruct e; try discriminate He; cbn [step].
  - split; assumption.
  - unfold submitted. split; [exact Hd|]. apply calm_startBroadcasting, Hc.
  - rewrite (calm_closed _ Hc). split; assumption.
  - unfold connectEffect. rewrite Hd. split; assumption.
  - unfold pickupArrivalEffect. cbv zeta.
    repeat match goal with
           | |- anonymous (match ?x with _ => _ end) => destruct x
           end; split; assumption.
  - unfold dropArrivalEffect. cbv zeta.
    repeat match goal with
           | |- anonymous (match ?x with _ => _ end) => destruct x
           end; try (split; assumption).
    split; [exact Hd|]. cbn [store]. rewrite calm_sendLocationUpdate by exact Hc.
    apply calm_stopBroadcasting, Hc.
  - unfold phaseBroadcastEffect. cbv zeta.
    destruct (TripPhase_eqb _ _); [split; assumption|].
    split; [exact Hd|]. cbn [store]. rewrite calm_sendLocationUpdate by exact Hc. exact Hc.
  - split; assumption.
  - destruct (last _ _); [|split; assumption].
    split; [exact Hd|]. cbn [pressStartDropNavigation store].
    rewrite calm_sendLocationUpdate by exact Hc. exact Hc.
  - rewrite (proj1 Hc). destruct id; split; assumption.
  - rewrite (proj1 Hc). destruct id; split; assumption.
  - destruct (findTimer id (timers (store c))) as [[i d a]|] eqn:Hf; [|split; assumption].
    apply findTimer_In in Hf. destruct a as [|r|r].
    + split; [exact Hd|]. cbn [store]. unfold heartbeat.
      rewrite (calm_closed _ Hc). exact Hc.
    + split; [exact Hd|]. cbn [store]. rewrite calm_sendLocationUpdate by exact Hc. exact Hc.
    + exfalso. exact (proj2 Hc _ r Hf eq_refl).
  - split; [exact Hd|]. apply calm_closeWebSocket, Hc.
Qed.

Lemma anonymous_run (events : list Event) (c : Component) :
  forallb keeps_identity events = true -> anonymous c -> anonymous (run c events).
Proof.
  revert c. induction events as [|e l IH]; intros c He Hc; [exact Hc|].
  cbn [forallb] in He. apply andb_true_iff in He. destruct He as [He Hl].
  cbn [run fold_left]. apply IH; [exact Hl|]. apply anonymous_step; assumption.
Qed.

Lemma anonymous_mount : anonymous mount.
Proof. split; [reflexivity|]. split; [reflexivity|]. intros t r []. Qed.
End ScreenSnapshots.

Section SnapshotClaim.
Context {N : JsNumber} {M : JsMath N}.

(** Claim C3. A location snapshot is sent only when the socket is open and
    both the driver id and a position are known. In the tracking service and
    on the location screen alike, [sendLocationUpdate] leaves everything as
    it is when the socket is not open, the driver id is unknown or no
    position is known, and otherwise hands exactly one location message, built
    from the id and the position, to the socket of the reference. Hence any
    number of broadcast ticks with the driver id unknown sends nothing; and
    whatever happens to the service while it has no driver id, or to the
    screen before the identity is loaded, the number of location messages
    sent stays the same (zero from the start). *)
Theorem snapshots_need_identity_and_position :
  (forall s : AutoDriverTracking.State,
     AutoDriverTracking.ws_open s = false \/
     truthy (AutoDriverTracking.driverId s) = false \/
     AutoDriverTracking.currentPosition s = None ->
     AutoDriverTracking.sendLocationUpdate s = s) /\
  (forall (s : AutoDriverTracking.State) id p i,
     AutoDriverTracking.ws_open s = true ->
     AutoDriverTracking.driverId s = Some id -> id <> ""%string ->
     AutoDriverTracking.currentPosition s = Some p ->
     AutoDriverTracking.ws s = Some i ->
     AutoDriverTracking.sockets (AutoDriverTracking.sendLocationUpdate s) =
       update_nth i
         (send (location {| snap_driverId := id; snap_position := p; snap_phase := idle;
                            snap_pickup := None; snap_drop := None;
                            snap_pickupAddress := None; snap_dropAddress := None |}))
         (AutoDriverTracking.sockets s)) /\
  (forall n (s : AutoDriverTracking.State),
     truthy (AutoDriverTracking.driverId s) = false ->
     AutoDriverTracking.ticks n s = s) /\
  (forall events (s : AutoDriverTracking.State),
     truthy (AutoDriverTracking.driverId s) = false ->
     count_locations (AutoDriverTracking.sockets (AutoDriverTracking.run s events)) =
     count_locations (AutoDriverTracking.sockets s)) /\
  (forall (r : LocationScreen.Render) st,
     LocationScreen.socket_open st = false \/
     LocationScreen.driverId r = ""%string \/
     LocationScreen.currentPosition r = None ->
     LocationScreen.sendLocationUpdate r st = st) /\
  (forall (r : LocationScreen.Render) st p i,
     LocationScreen.socket_open st = true ->
     LocationScreen.driverId r <> ""%string ->
     LocationScreen.currentPosition r = Some p ->
     LocationScreen.webSocketRef st = Some i ->
     LocationScreen.sendLocationUpdate r st =
       LocationScreen.with_sockets (update_nth i (send (LocationScreen.payload r p))) st) /\
  (forall closures st,
     Forall (fun r => LocationScreen.driverId r = ""%string) closures ->
     LocationScreen.ticks closures st = st) /\
  (forall events,
     forallb LocationScreen.keeps_identity events = true ->
     LocationScreen.locationsSent (LocationScreen.run LocationScreen.mount events) = 0%nat).
Proof.
  repeat apply conj.
  - exact service_sendLocationUpdate_guard.
  - exact service_sendLocationUpdate_sends.
  - intros n s H. apply service_ticks_guard. auto.
  - intros events s H. apply (service_run_quiet events s H).
  - exact screen_sendLocationUpdate_guard.
  - exact screen_sendLocationUpdate_sends.
  - intros closures st H. apply screen_ticks_guard.
    eapply Forall_impl; [|exact H]. cbv beta. auto.
  - intros events H.
    destruct (anonymous_run events _ H anonymous_mount) as [_ [Hs _]].
    unfold LocationScreen.locationsSent. rewrite Hs. reflexivity.
Qed.
End SnapshotClaim.

Lemma snapshots_need_identity_and_position_witness :
  let first := LocationScreen.render (LocationScreen.mount (N := Binary64.number)) in
  let position := Binary64.coordinate 12.9716%float 77.5946%float in
  LocationScreen.ticks [first; first; first]
    (LocationScreen.store (LocationScreen.sharing (M := Binary64.reference))) =
    LocationScreen.store (LocationScreen.sharing (M := Binary64.reference)) /\
  AutoDriverTracking.ticks 3 (AutoDriverTracking.onPosition position AutoDriverTracking.initial) =
    AutoDriverTracking.onPosition position AutoDriverTracking.initial.
Proof.
  cbv zeta. split.
  - destruct (snapshots_need_identity_and_position (M := Binary64.reference))
      as (_ & _ & _ & _ & _ & _ & H & _).
    apply H. repeat constructor.
  - destruct (snapshots_need_identity_and_position (M := Binary64.reference))
      as (_ & _ & H & _).
    apply H. reflexivity.
Defined.

(** ** Teardown *)

Section SocketFacts.
Context {N : JsNumber} {C : Type}.

Lemma send_outbox (m : Message N) (w : WebSocket N C) :
  outbox (send m w) = if is_open w then outbox w ++ [m] else outbox w.
Proof. unfold send. destruct (is_open w); reflexivity. Qed.

Lemma send_closed (m : Message N) (w : WebSocket N C) : is_open w = false -> send m w = w.
Proof. unfold send. intros ->. reflexivity. Qed.

Lemma all_sent_update (i : nat) (f : WebSocket N C -> WebSocket N C) (l : list (WebSocket N C)) :
  (forall w, outbox (f w) = outbox w) -> all_sent (update_nth i f l) = all_sent l.
Proof.
  intro H. unfold all_sent. revert i.
  induction l as [|w l IH]; intros [|i]; simpl; try reflexivity.
  - rewrite H. reflexivity.
  - rewrite IH. reflexivity.
Qed.

Lemma nth_error_update_same (i : nat) (f : WebSocket N C -> WebSocket N C)
    (l : list (WebSocket N C)) (w : WebSocket N C) :
  nth_error l i = Some w -> nth_error (update_nth i f l) i = Some (f w).
Proof. intro H. rewrite nth_error_update_nth, Nat.eqb_refl, H. reflexivity. Qed.

Lemma nth_error_update_other (i j : nat) (f : WebSocket N C -> WebSocket N C)
    (l : list (WebSocket N C)) :
  j <> i -> nth_error (update_nth i f l) j = nth_error l j.
Proof.
  intro H. rewrite nth_error_update_nth.
  destruct (Nat.eqb_spec i j); [congruence|reflexivity].
Qed.

Lemma update_nth_fixed (i : nat) (f : WebSocket N C -> WebSocket N C) (l : list (WebSocket N C)) :
  (forall w, nth_error l i = Some w -> f w = w) -> update_nth i f l = l.
Proof.
  revert i. induction l as [|x l IH]; intros [|i] H; simpl; try reflexivity.
  - rewrite (H x eq_refl). reflexivity.
  - rewrite IH; [reflexivity|]. intros w Hw. apply H. exact Hw.
Qed.

(** Sending on the socket [i] when it is open is sending on it: [send]
    transmits nothing on a socket that is not open. *)
Lemma send_if_open (i : nat) (m : Message N) (l : list (WebSocket N C)) :
  (if match nth_error l i with Some w => is_open w | None => false end
   then update_nth i (send m) l else l) = update_nth i (send m) l.
Proof.
  destruct (nth_error l i) as [w|] eqn:Hw.
  - destruct (is_open w) eqn:Ho; [reflexivity|].
    symmetry. apply update_nth_fixed. intros w' Hw'.
    rewrite Hw in Hw'. injection Hw' as <-. apply send_closed, Ho.
  - symmetry. apply update_nth_fixed. intros w' Hw'. rewrite Hw in Hw'. discriminate.
Qed.
End SocketFacts.

Section ServiceTeardown.
Context {N : JsNumber}.
Import AutoDriverTracking.

Lemma service_ws_open (s : State) (i : nat) (w : WebSocket N unit) :
  ws s = Some i -> nth_error (sockets s) i = Some w -> ws_open s = is_open w.
Proof. intros H1 H2. unfold ws_open, current. rewrite H1, H2. reflexivity. Qed.

Lemma service_stop_socket (s : State) :
  sockets (stopAutoTracking s) =
  match ws s with
  | Some i => update_nth i (close None)
                (update_nth i (send (DRIVER_DISCONNECT (driverId s) (cabNumber s))) (sockets s))
  | None => sockets s
  end.
Proof.
  unfold stopAutoTracking. cbv zeta.
  assert (Hsend : forall i, ws s = Some i ->
            sockets (if ws_open s then ws_send (DRIVER_DISCONNECT (driverId s) (cabNumber s)) s else s)
            = update_nth i (send (DRIVER_DISCONNECT (driverId s) (cabNumber s))) (sockets s)).
  { intros i Hi. rewrite <- (send_if_open i). unfold ws_open, current, ws_send. rewrite Hi.
    destruct (match nth_error (sockets s) i with Some w => is_open w | None => false end);
      reflexivity. }
  destruct (ws s) as [i|] eqn:Hi.
  - specialize (Hsend i eq_refl).
    unfold stopHeartbeat. cbn [heartbeat reconnectTimer sockets with_sockets].
    match goal with |- context [heartbeat ?x] => destruct (heartbeat x) end;
      cbn [reconnectTimer];
      match goal with |- context [reconnectTimer ?x] => destruct (reconnectTimer x) end;
      cbn [sockets]; rewrite Hsend; reflexivity.
  - unfold stopHeartbeat. cbn [heartbeat reconnectTimer sockets].
    destruct (heartbeat s); cbn [reconnectTimer]; destruct (reconnectTimer s); reflexivity.
Qed.

Lemma service_stop_refs (s : State) :
  let s' := stopAutoTracking s in
  ws s' = None /\ heartbeat s' = None /\ reconnectTimer s' = None /\ watchId s' = None /\
  driverId s' = driverId s /\
  forall t, In t (timers s') ->
    In t (timers s) /\ heartbeat s <> Some (timer_id t) /\ reconnectTimer s <> Some (timer_id t).
Proof.
  unfold stopAutoTracking, stopHeartbeat. cbv zeta.
  destruct (ws s) as [i|]; cbn [heartbeat reconnectTimer with_sockets];
    (destruct (ws_open s); unfold ws_send; try destruct (ws s); cbn [heartbeat reconnectTimer with_sockets];
     destruct (heartbeat s) as [h|]; cbn [reconnectTimer];
     destruct (reconnectTimer s) as [r|];
     cbn [ws heartbeat reconnectTimer watchId driverId timers with_sockets];
     repeat split; try reflexivity; try discriminate;
     repeat match goal with
            | H : In _ (clearTimer _ _) |- _ => apply clearTimer_In in H; destruct H
            end; try assumption; congruence).
Qed.
End ServiceTeardown.

Section ScreenTeardown.
Context {N : JsNumber} {M : JsMath N}.
Import LocationScreen.

Lemma screen_close_socket (r : Render) (c : Component) :
  sockets (store (closeWebSocket r c)) =
  match webSocketRef (store c) with
  | Some i => update_nth i (close None)
                (update_nth i (send (DRIVER_DISCONNECT (Some (driverId r)) (Some (cabNumber r))))
                   (sockets (store c)))
  | None => sockets (store c)
  end.
Proof.
  unfold closeWebSocket. cbv zeta. cbn [store].
  assert (Hsend : forall i, webSocketRef (store c) = Some i ->
            sockets (if socket_open (store c)
                     then ref_send (DRIVER_DISCONNECT (Some (driverId r)) (Some (cabNumber r))) (store c)
                     else store c)
            = update_nth i (send (DRIVER_DISCONNECT (Some (driverId r)) (Some (cabNumber r))))
                (sockets (store c))).
  { intros i Hi. rewrite <- (send_if_open i). unfold socket_open, current, ref_send. rewrite Hi.
    destruct (match nth_error (sockets (store c)) i with Some w => is_open w | None => false end);
      reflexivity. }
  match goal with |- context [stopBroadcasting (clearHeartbeat ?a)] => set (st1 := a) end.
  assert (H1 : sockets st1 = match webSocketRef (store c) with
                             | Some i => update_nth i (close None)
                                 (update_nth i (send (DRIVER_DISCONNECT (Some (driverId r)) (Some (cabNumber r))))
                                    (sockets (store c)))
                             | None => sockets (store c)
                             end).
  { subst st1. destruct (webSocketRef (store c)) as [i|]; [|reflexivity].
    cbn [set_webSocketRef with_sockets sockets]. rewrite (Hsend i eq_refl). reflexivity. }
  rewrite <- H1. clearbody st1. clear.
  unfold stopBroadcasting, clearHeartbeat.
  destruct (heartbeatRef st1); cbn; destruct (broadcastIntervalRef st1); cbn;
    destruct (reconnectTimeoutRef st1); reflexivity.
Qed.

Lemma screen_close_refs (r : Render) (c : Component) :
  let c' := closeWebSocket r c in
  webSocketRef (store c') = None /\ heartbeatRef (store c') = None /\
  broadcastIntervalRef (store c') = None /\ reconnectTimeoutRef (store c') = None /\
  isConnected (render c') = false /\
  forall t, In t (timers (store c')) ->
    In t (timers (store c)) /\ heartbeatRef (store c) <> Some (timer_id t) /\
    broadcastIntervalRef (store c) <> Some (timer_id t) /\
    reconnectTimeoutRef (store c) <> Some (timer_id t).
Proof.
  unfold closeWebSocket, stopBroadcasting, clearHeartbeat. cbv zeta. cbn [store render].
  destruct (webSocketRef (store c)) as [i|] eqn:Hi;
    [destruct (socket_open (store c)); unfold ref_send; rewrite ?Hi|];
    cbn [heartbeatRef set_webSocketRef with_sockets];
    destruct (heartbeatRef (store c)) as [h|] eqn:Hh;
    cbn [broadcastIntervalRef set_heartbeatRef with_timers set_webSocketRef with_sockets];
    destruct (broadcastIntervalRef (store c)) as [b|] eqn:Hb;
    cbn [reconnectTimeoutRef set_broadcastIntervalRef with_timers set_heartbeatRef set_webSocketRef with_sockets];
    destruct (reconnectTimeoutRef (store c)) as [t0|] eqn:Ht;
    cbn [webSocketRef heartbeatRef broadcastIntervalRef reconnectTimeoutRef timers
         set_reconnectTimeoutRef set_broadcastIntervalRef with_timers set_heartbeatRef
         set_webSocketRef with_sockets setIsConnected isConnected];
    repeat split; try reflexivity; try discriminate; try assumption;
    repeat match goal with
           | H : In _ (clearTimer _ _) |- _ => apply clearTimer_In in H; destruct H
           end; try assumption; try congruence.
Qed.
End ScreenTeardown.

Section ViewerTeardown.
Context {N : JsNumber}.
Import CustomerDetailScreen.

Lemma close_handlers {C : Type} (code : option Z) (w : WebSocket N C) :
  handlers (close code w) = handlers w.
Proof. unfold close. destruct (readyState w); reflexivity. Qed.

Lemma Forall_update_nth {X : Type} (P : X -> Prop) (i : nat) (f : X -> X) (l : list X) :
  (forall x, P x -> P (f x)) -> Forall P l -> Forall P (update_nth i f l).
Proof.
  intros Hf H. revert i. induction H as [|x l Hx Hl IH]; intros [|i]; simpl;
    constructor; auto.
Qed.

Lemma viewer_cleanup_sends_nothing (v : Viewer) :
  all_sent (sockets (store (cleanupSocket v))) = all_sent (sockets (store v)).
Proof.
  unfold cleanupSocket. cbn [store sockets].
  destruct (websocketRef (store v)); [|reflexivity].
  apply all_sent_update. intro w. rewrite close_outbox. reflexivity.
Qed.

Lemma viewer_cleanup_refs (v : Viewer) :
  let v' := cleanupSocket v in
  websocketRef (store v') = None /\ reconnect_timeout (store v') = None /\
  heartbeatRef (store v') = None /\ isSocketConnected (identity v') = false.
Proof. repeat split. Qed.

Lemma viewer_cleanup_silent (v : Viewer) : tidy v -> silent (cleanupSocket v).
Proof.
  intros [Ht Hs]. split.
  - unfold cleanupSocket. cbn [store timers].
    match goal with |- ?l = [] => destruct l as [|t l'] eqn:Hl; [reflexivity|] end.
    exfalso. assert (Hin : In t (t :: l')) by (left; reflexivity). rewrite <- Hl in Hin.
    destruct (reconnect_timeout (store v)) as [a|] eqn:Ha;
      destruct (heartbeatRef (store v)) as [b|] eqn:Hb;
      repeat match goal with
             | H : In _ (clearTimer _ _) |- _ => apply clearTimer_In in H; destruct H
             end;
      destruct (Ht t) as [Hq|Hq]; try assumption; congruence.
  - unfold cleanupSocket. cbn [store sockets]. apply Forall_forall. intros w' Hw'.
    apply In_nth_error in Hw'. destruct Hw' as [j Hj].
    destruct (websocketRef (store v)) as [i|] eqn:Hi.
    + rewrite nth_error_update_nth in Hj. destruct (Nat.eqb_spec i j) as [->|Hne].
      * destruct (nth_error (sockets (store v)) j); [|discriminate].
        injection Hj as <-. rewrite close_handlers. reflexivity.
      * apply (Hs j w' Hj). congruence.
    + apply (Hs j w' Hj). discriminate.
Qed.

Lemma viewer_silent_step (v : Viewer) (e : Event) :
  silent v -> no_connect e = true ->
  silent (step v e) /\
  List.length (sockets (store (step v e))) = List.length (sockets (store v)).
Proof.
  intros [Ht Hs] He. destruct e as [|i|i code|i|]; try discriminate He; cbn [step].
  - destruct (nth_error (sockets (store v)) i) as [w|] eqn:Hw; [|split; [split|]; auto].
    assert (Hh : handlers w = None).
    { rewrite Forall_forall in Hs. apply Hs. eapply nth_error_In, Hw. }
    destruct w as [[] o c h]; cbn [handlers] in Hh; subst h; try (split; [split|]; auto).
    + cbn [with_sockets store sockets]. apply Forall_update_nth; [|exact Hs]. auto.
    + cbn [with_sockets store sockets]. apply update_nth_length.
  - destruct (nth_error (sockets (store v)) i) as [w|] eqn:Hw; [|split; [split|]; auto].
    assert (Hh : handlers w = None).
    { rewrite Forall_forall in Hs. apply Hs. eapply nth_error_In, Hw. }
    destruct w as [[] o c h]; cbn [handlers] in Hh; subst h; try (split; [split|]; auto);
      cbn [with_sockets store sockets];
      solve [apply Forall_update_nth; [auto|exact Hs] | apply update_nth_length].
  - rewrite Ht. split; [split|]; auto.
  - split; [split|].
    + unfold cleanupSocket. cbn [store timers]. rewrite Ht.
      destruct (reconnect_timeout (store v)), (heartbeatRef (store v)); reflexivity.
    + unfold cleanupSocket. cbn [store sockets].
      destruct (websocketRef (store v)); [|exact Hs].
      apply Forall_update_nth; [|exact Hs]. intros w _. rewrite close_handlers. reflexivity.
    + unfold cleanupSocket. cbn [store sockets].
      destruct (websocketRef (store v)); [|reflexivity]. apply update_nth_length.
Qed.

Lemma viewer_silent_run (events : list Event) (v : Viewer) :
  silent v -> forallb no_connect events = true ->
  silent (run v events) /\
  List.length (sockets (store (run v events))) = List.length (sockets (store v)).
Proof.
  revert v. induction events as [|e l IH]; intros v Hv He; [split; auto|].
  cbn [forallb] in He. apply andb_true_iff in He. destruct He as [He Hl].
  destruct (viewer_silent_step v e Hv He) as [H1 H2].
  cbn [run fold_left]. destruct (IH _ H1 Hl) as [H3 H4].
  split; [exact H3|]. unfold run in H4. rewrite H4. exact H2.
Qed.

Lemma viewer_silent_pending (v : Viewer) : silent v -> pendingReconnect v = None.
Proof. intros [Ht _]. unfold pendingReconnect. rewrite Ht. reflexivity. Qed.

Lemma viewer_onclose_normal (r : Identity) (v : Viewer) (t : Timer Action) :
  In t (timers (store (onclose r 1000 v))) -> In t (timers (store v)).
Proof.
  unfold onclose. cbv zeta. rewrite Z.eqb_refl, !orb_true_r. cbn [store timers].
  destruct (heartbeatRef (store v)); [|auto]. intro H. apply clearTimer_In in H. apply H.
Qed.

Lemma watching_tidy : tidy watching.
Proof.
  split.
  - intros t [<-|[]]. right. reflexivity.
  - intros [|[|j]] w; cbn; intros H1 H2; try discriminate; congruence.
Qed.
End ViewerTeardown.

Section TeardownClaim.
Context {N : JsNumber} {M : JsMath N}.

(** Claim C7, as the code has it. On the driver's side [stopAutoTracking]
    and [closeWebSocket] hand a DRIVER_DISCONNECT notice to the socket of the
    reference, which transmits it only if it is open, then close that socket
    without naming a close code, drop the reference and cancel the heartbeat,
    the broadcast interval and any pending reconnection timeout. On the
    viewer's side [cleanupSocket] sends nothing: it removes the handlers of
    the socket, closes it with code 1000, drops the reference and cancels the
    timers; from a tidy viewer nothing that happens afterwards, short of the
    effect that connects, schedules a reconnection or creates a socket. The
    viewer's close handler schedules nothing for a close with code 1000. *)
Theorem intentional_disconnect :
  (forall (s : AutoDriverTracking.State) i w,
     AutoDriverTracking.ws s = Some i ->
     nth_error (AutoDriverTracking.sockets s) i = Some w ->
     let s' := AutoDriverTracking.stopAutoTracking s in
     nth_error (AutoDriverTracking.sockets s') i =
       Some (close None (send (DRIVER_DISCONNECT (AutoDriverTracking.driverId s)
                                                 (AutoDriverTracking.cabNumber s)) w)) /\
     AutoDriverTracking.ws s' = None /\
     AutoDriverTracking.heartbeat s' = None /\
     AutoDriverTracking.reconnectTimer s' = None /\
     forall t, In t (AutoDriverTracking.timers s') ->
       In t (AutoDriverTracking.timers s) /\
       AutoDriverTracking.heartbeat s <> Some (timer_id t) /\
       AutoDriverTracking.reconnectTimer s <> Some (timer_id t)) /\
  (forall (r : LocationScreen.Render) c i w,
     LocationScreen.webSocketRef (LocationScreen.store c) = Some i ->
     nth_error (LocationScreen.sockets (LocationScreen.store c)) i = Some w ->
     let c' := LocationScreen.closeWebSocket r c in
     nth_error (LocationScreen.sockets (LocationScreen.store c')) i =
       Some (close None (send (DRIVER_DISCONNECT (Some (LocationScreen.driverId r))
                                                 (Some (LocationScreen.cabNumber r))) w)) /\
     LocationScreen.webSocketRef (LocationScreen.store c') = None /\
     LocationScreen.heartbeatRef (LocationScreen.store c') = None /\
     LocationScreen.broadcastIntervalRef (LocationScreen.store c') = None /\
     LocationScreen.reconnectTimeoutRef (LocationScreen.store c') = None /\
     forall t, In t (LocationScreen.timers (LocationScreen.store c')) ->
       In t (LocationScreen.timers (LocationScreen.store c)) /\
       LocationScreen.heartbeatRef (LocationScreen.store c) <> Some (timer_id t) /\
       LocationScreen.broadcastIntervalRef (LocationScreen.store c) <> Some (timer_id t) /\
       LocationScreen.reconnectTimeoutRef (LocationScreen.store c) <> Some (timer_id t)) /\
  (forall (m : Message N) (w : WebSocket N unit),
     outbox (send m w) = if is_open w then outbox w ++ [m] else outbox w) /\
  (forall (v : CustomerDetailScreen.Viewer) i w,
     CustomerDetailScreen.websocketRef (CustomerDetailScreen.store v) = Some i ->
     nth_error (CustomerDetailScreen.sockets (CustomerDetailScreen.store v)) i = Some w ->
     let v' := CustomerDetailScreen.cleanupSocket v in
     nth_error (CustomerDetailScreen.sockets (CustomerDetailScreen.store v')) i =
       Some (close (Some 1000%Z) (remove_handlers w)) /\
     all_sent (CustomerDetailScreen.sockets (CustomerDetailScreen.store v')) =
       all_sent (CustomerDetailScreen.sockets (CustomerDetailScreen.store v)) /\
     CustomerDetailScreen.websocketRef (CustomerDetailScreen.store v') = None /\
     CustomerDetailScreen.reconnect_timeout (CustomerDetailScreen.store v') = None /\
     CustomerDetailScreen.heartbeatRef (CustomerDetailScreen.store v') = None) /\
  (forall (v : CustomerDetailScreen.Viewer) events,
     CustomerDetailScreen.tidy v ->
     forallb CustomerDetailScreen.no_connect events = true ->
     let v' := CustomerDetailScreen.run (CustomerDetailScreen.cleanupSocket v) events in
     CustomerDetailScreen.pendingReconnect v' = None /\
     CustomerDetailScreen.timers (CustomerDetailScreen.store v') = [] /\
     List.length (CustomerDetailScreen.sockets (CustomerDetailScreen.store v')) =
       List.length (CustomerDetailScreen.sockets (CustomerDetailScreen.store v))) /\
  (forall (r : CustomerDetailScreen.Identity) (v : CustomerDetailScreen.Viewer) t,
     In t (CustomerDetailScreen.timers (CustomerDetailScreen.store (CustomerDetailScreen.onclose r 1000 v))) ->
     In t (CustomerDetailScreen.timers (CustomerDetailScreen.store v))).
Proof.
  repeat apply conj.
  - intros s i w Hi Hw. cbv zeta.
    destruct (service_stop_refs s) as (H1 & H2 & H3 & _ & _ & H4).
    repeat split; try assumption; try (apply H4; assumption).
    rewrite service_stop_socket, Hi.
    erewrite nth_error_update_same; [reflexivity|].
    apply nth_error_update_same, Hw.
  - intros r c i w Hi Hw. cbv zeta.
    destruct (screen_close_refs r c) as (H1 & H2 & H3 & H4 & _ & H5).
    repeat split; try assumption; try (apply H5; assumption).
    rewrite screen_close_socket, Hi.
    erewrite nth_error_update_same; [reflexivity|].
    apply nth_error_update_same, Hw.
  - intros m w. apply send_outbox.
  - intros v i w Hi Hw. cbv zeta. repeat split.
    + unfold CustomerDetailScreen.cleanupSocket.
      cbn [CustomerDetailScreen.store CustomerDetailScreen.sockets]. rewrite Hi.
      rewrite (nth_error_update_same _ _ _ w Hw). reflexivity.
    + apply viewer_cleanup_sends_nothing.
  - intros v events Hv He. cbv zeta.
    destruct (viewer_silent_run events _ (viewer_cleanup_silent v Hv) He) as [H1 H2].
    repeat split.
    + apply viewer_silent_pending, H1.
    + apply H1.
    + rewrite H2. unfold CustomerDetailScreen.cleanupSocket.
      cbn [CustomerDetailScreen.store CustomerDetailScreen.sockets].
      destruct (CustomerDetailScreen.websocketRef _); [apply update_nth_length|reflexivity].
  - intros r v t. apply viewer_onclose_normal.
Qed.
End TeardownClaim.

Lemma intentional_disconnect_witness :
  let v := CustomerDetailScreen.watching (N := Binary64.number) in
  CustomerDetailScreen.tidy v /\
  CustomerDetailScreen.pendingReconnect
    (CustomerDetailScreen.run (CustomerDetailScreen.cleanupSocket v)
       [CustomerDetailScreen.socket_closed 0 1000; CustomerDetailScreen.timer_fired 1]) = None.
Proof.
  cbv zeta. split; [exact watching_tidy|].
  destruct (intentional_disconnect (N := Binary64.number)) as (_ & _ & _ & _ & H & _).
  apply (H _ [CustomerDetailScreen.socket_closed 0 1000; CustomerDetailScreen.timer_fired 1]
           watching_tidy eq_refl).
Defined.

(** Claim C7 as stated fails on the driver's side: the close handler stays
    on the socket, so the close that follows [stopAutoTracking] (or the
    screen's [closeWebSocket]) schedules a reconnection, and the timeout then
    opens a new socket; on the viewer's side [cleanupSocket] closes an open
    socket without any notice. *)
Lemma intentional_disconnect_counterexample :
  let stopped := AutoDriverTracking.run (N := Binary64.number) AutoDriverTracking.tracking
                   [AutoDriverTracking.stop; AutoDriverTracking.socket_closed 0] in
  let left := LocationScreen.run (M := Binary64.reference)
                   (LocationScreen.sharing (M := Binary64.reference))
                   [LocationScreen.unmount; LocationScreen.socket_closed 0] in
  let viewer := CustomerDetailScreen.watching (N := Binary64.number) in
  AutoDriverTracking.pendingReconnect stopped = Some 4000%Z /\
  option_map readyState
    (AutoDriverTracking.current (AutoDriverTracking.step stopped (AutoDriverTracking.timer_fired 2)))
    = Some CONNECTING /\
  LocationScreen.pendingReconnect left = Some 5000%Z /\
  option_map readyState
    (LocationScreen.current
       (LocationScreen.store
          (LocationScreen.step (M := Binary64.reference) left (LocationScreen.timer_fired 2))))
    = Some CONNECTING /\
  option_map readyState (CustomerDetailScreen.current (CustomerDetailScreen.store viewer)) = Some OPEN /\
  all_sent (CustomerDetailScreen.sockets
              (CustomerDetailScreen.store (CustomerDetailScreen.cleanupSocket viewer)))
    = [register_viewer "viewer-3" "driver-7"].
Proof. cbv zeta. repeat split; vm_compute; reflexivity. Qed.

(** ** Arrival at the pickup and at the drop *)

Section ScreenStore.
Context {N : JsNumber} {M : JsMath N}.
Import LocationScreen.

(** The socket and timer code never touches the dialogs. *)
Lemma prompts_sendLocationUpdate (r : Render) (st : Store) :
  prompts (sendLocationUpdate r st) = prompts st.
Proof.
  unfold sendLocationUpdate, ref_send.
  destruct (negb (socket_open st)); [reflexivity|].
  destruct (driverId r =? "")%string; [reflexivity|].
  destruct (currentPosition r); [|reflexivity].
  destruct (webSocketRef st); reflexivity.
Qed.

Lemma prompts_stopBroadcasting (st : Store) : prompts (stopBroadcasting st) = prompts st.
Proof. unfold stopBroadcasting. destruct (broadcastIntervalRef st); reflexivity. Qed.

Lemma prompts_clearHeartbeat (st : Store) : prompts (clearHeartbeat st) = prompts st.
Proof. unfold clearHeartbeat. destruct (heartbeatRef st); reflexivity. Qed.

Lemma prompts_startBroadcasting (r : Render) (st : Store) :
  prompts (startBroadcasting r st) = prompts st.
Proof.
  unfold startBroadcasting. destruct (broadcastIntervalRef st); [reflexivity|].
  destruct (negb (isTracking r)); [reflexivity|].
  cbn. apply prompts_sendLocationUpdate.
Qed.

Lemma prompts_heartbeat (st : Store) : prompts (heartbeat st) = prompts st.
Proof.
  unfold heartbeat, ref_send. destruct (socket_open st); [|reflexivity].
  destruct (webSocketRef st); reflexivity.
Qed.

Lemma closeWebSocket_keeps (r : Render) (c : Component) :
  prompts (store (closeWebSocket r c)) = prompts (store c) /\
  render (closeWebSocket r c) = setIsConnected false (render c).
Proof.
  split; [|reflexivity]. unfold closeWebSocket. cbv zeta. cbn [store].
  match goal with |- context [stopBroadcasting (clearHeartbeat ?a)] => set (st1 := a) end.
  assert (H1 : prompts st1 = prompts (store c)).
  { subst st1. destruct (webSocketRef (store c)); [|reflexivity].
    unfold ref_send. destruct (socket_open (store c)); [destruct (webSocketRef (store c))|];
      reflexivity. }
  rewrite <- H1.
  destruct (reconnectTimeoutRef _); cbn [prompts set_reconnectTimeoutRef with_timers];
    rewrite prompts_stopBroadcasting, prompts_clearHeartbeat; reflexivity.
Qed.

Lemma connectWebSocket_keeps (r : Render) (c : Component) :
  prompts (store (connectWebSocket r c)) = prompts (store c) /\
  render (connectWebSocket r c) = render c.
Proof.
  unfold connectWebSocket. destruct (driverId r =? "")%string; [split; reflexivity|].
  cbv zeta. destruct (current (store c)) as [[[] ? ? ?]|]; split; reflexivity.
Qed.

Lemma onopen_keeps (r : Render) (id : nat) (c : Component) :
  prompts (store (onopen r id c)) = prompts (store c) /\
  render (onopen r id c) = setIsConnected true (render c).
Proof.
  split; [|reflexivity]. unfold onopen. cbv zeta. cbn [setTimer store].
  match goal with |- prompts (if _ then startBroadcasting _ ?a else _) = _ =>
    assert (H : prompts a = prompts (store c)) end.
  { destruct (currentPosition r), (pickupCoordinate r), (dropCoordinate r);
      rewrite ?prompts_sendLocationUpdate; cbn; destruct (heartbeatRef (store c)); reflexivity. }
  destruct (isTracking r); [rewrite prompts_startBroadcasting|]; exact H.
Qed.

Lemma onclose_keeps (r : Render) (c : Component) :
  prompts (store (onclose r c)) = prompts (store c) /\
  render (onclose r c) = setIsConnected false (render c).
Proof.
  split; [|reflexivity]. unfold onclose. cbv zeta. cbn [setTimer store prompts set_reconnectTimeoutRef].
  destruct (reconnectTimeoutRef _); cbn [prompts with_timers];
    rewrite prompts_stopBroadcasting, prompts_clearHeartbeat; reflexivity.
Qed.
End ScreenStore.

Section PickupPrompt.
Context {N : JsNumber} {M : JsMath N}.
Import LocationScreen.

Lemma pickupArrivalEffect_fires (c : Component) (position pickup : LatLng N) :
  currentPosition (render c) = Some position ->
  pickupCoordinate (render c) = Some pickup ->
  tripPhase (render c) = to_pickup ->
  hasPromptedPickup (render c) = false ->
  arrived position pickup = true ->
  pickupArrivalEffect c =
    {| render := setHasPromptedPickup true (render c); store := showPrompt (render c) (store c) |}.
Proof.
  intros Hp Hk Ht Hf Ha. unfold pickupArrivalEffect. cbv zeta.
  rewrite Hp, Hk, Ht, Hf. cbn [TripPhase_eqb negb orb].
  unfold arrived in Ha. rewrite Ha. reflexivity.
Qed.

Lemma pickupArrivalEffect_idle (c : Component) :
  currentPosition (render c) = None \/
  pickupCoordinate (render c) = None \/
  tripPhase (render c) <> to_pickup \/
  hasPromptedPickup (render c) = true \/
  (exists position pickup, currentPosition (render c) = Some position /\
     pickupCoordinate (render c) = Some pickup /\ arrived position pickup = false) ->
  pickupArrivalEffect c = c.
Proof.
  unfold pickupArrivalEffect. cbv zeta. intros [H|[H|[H|[H|(p & k & Hp & Hk & Ha)]]]].
  - rewrite H. reflexivity.
  - rewrite H. destruct (currentPosition (render c)); reflexivity.
  - destruct (currentPosition (render c)), (pickupCoordinate (render c)); try reflexivity.
    destruct (tripPhase (render c)); try reflexivity. congruence.
  - rewrite H, orb_true_r.
    destruct (currentPosition (render c)), (pickupCoordinate (render c)); reflexivity.
  - rewrite Hp, Hk. unfold arrived in Ha. rewrite Ha.
    destruct (negb _ || _); reflexivity.
Qed.

(** Once the dialog is pending, only "Not yet" makes it not pending, and no
    event shows another one. *)
Lemma prompted_step (c : Component) (e : Event) :
  no_reset e = true -> hasPromptedPickup (render c) = true ->
  hasPromptedPickup (render (step c e)) = true /\
  prompts (store (step c e)) = prompts (store c).
Proof.
  intros He Hf. destruct e; try discriminate He; cbn [step].
  - split; [exact Hf|reflexivity].
  - split; [exact Hf|reflexivity].
  - split; [exact Hf|]. apply prompts_startBroadcasting.
  - split; [exact Hf|]. cbn [store].
    destruct (socket_open (store c)); [apply prompts_sendLocationUpdate|reflexivity].
  - unfold connectEffect. destruct (driverId (render c) =? "")%string; [auto|].
    destruct (connectWebSocket_keeps (render c) c) as [H1 H2]. rewrite H1, H2. auto.
  - rewrite pickupArrivalEffect_idle by auto. auto.
  - unfold dropArrivalEffect. cbv zeta.
    destruct (currentPosition (render c)), (dropCoordinate (render c)); auto.
    destruct (negb _); auto. destruct (_ <=? _)%js; auto.
    split; [exact Hf|]. cbn [store].
    rewrite prompts_stopBroadcasting. apply prompts_sendLocationUpdate.
  - unfold phaseBroadcastEffect. cbv zeta. destruct (TripPhase_eqb _ _); auto.
    split; [exact Hf|]. apply prompts_sendLocationUpdate.
  - destruct (last _ _); auto. split; [reflexivity|]. apply prompts_sendLocationUpdate.
  - destruct (nth_error (sockets (store c)) id) as [[[] o k [r|]]|]; auto.
    match goal with |- context [onopen r id ?x] =>
      destruct (onopen_keeps r id x) as [H1 H2]; rewrite H1, H2 end.
    auto.
  - destruct (nth_error (sockets (store c)) id) as [[[] o k [r|]]|]; auto;
      match goal with
      | |- context [onclose r ?x] =>
          destruct (onclose_keeps r x) as [H1 H2]; rewrite H1, H2; auto
      end.
  - destruct (findTimer id (timers (store c))) as [[i d [|r|r]]|]; auto.
    + split; [exact Hf|]. apply prompts_heartbeat.
    + split; [exact Hf|]. apply prompts_sendLocationUpdate.
    + match goal with |- context [connectWebSocket r ?x] =>
        destruct (connectWebSocket_keeps r x) as [H1 H2]; rewrite H1, H2 end.
      auto.
  - destruct (closeWebSocket_keeps (render c) c) as [H1 H2]. rewrite H1, H2. auto.
Qed.

Lemma prompted_run (events : list Event) (c : Component) :
  forallb no_reset events = true -> hasPromptedPickup (render c) = true ->
  hasPromptedPickup (render (run c events)) = true /\
  prompts (store (run c events)) = prompts (store c).
Proof.
  revert c. induction events as [|e l IH]; intros c He Hf; [auto|].
  cbn [forallb] in He. apply andb_true_iff in He. destruct He as [He Hl].
  destruct (prompted_step c e He Hf) as [H1 H2].
  cbn [run fold_left]. destruct (IH _ Hl H1) as [H3 H4].
  split; [exact H3|]. unfold run in H4. rewrite H4. exact H2.
Qed.

Lemma run_app (c : Component) (l1 l2 : list Event) : run c (l1 ++ l2) = run (run c l1) l2.
Proof. apply fold_left_app. Qed.

(** What the effects find after a position report: the render with the new
    position, and the dialogs as they were. *)
Lemma position_reported (c : Component) (p : LatLng N) :
  let c1 := run c [position p; effect_connect] in
  render c1 = setCurrentPosition (Some p) (render c) /\
  prompts (store c1) = prompts (store c) /\
  broadcastIntervalRef (store c1) = broadcastIntervalRef (store c).
Proof.
  cbv zeta. cbn [run fold_left step]. unfold connectEffect. cbn [render].
  destruct (driverId _ =? "")%string.
  - cbn [render store]. repeat split.
    + destruct (socket_open (store c)); [apply prompts_sendLocationUpdate|reflexivity].
    + destruct (socket_open (store c)); [|reflexivity].
      unfold sendLocationUpdate, ref_send.
      repeat match goal with |- context [if ?b then _ else _] => destruct b end;
        try reflexivity; destruct (webSocketRef (store c)); reflexivity.
  - match goal with |- context [connectWebSocket ?r ?x] =>
      destruct (connectWebSocket_keeps r x) as [H1 H2]; rewrite H1, H2;
      assert (H3 : broadcastIntervalRef (store (connectWebSocket r x)) =
                   broadcastIntervalRef (store x))
    end.
    { unfold connectWebSocket. destruct (driverId _ =? "")%string; [reflexivity|].
      cbv zeta. destruct (current _) as [[[] ? ? ?]|]; reflexivity. }
    rewrite H3. cbn [render store]. repeat split.
    + destruct (socket_open (store c)); [apply prompts_sendLocationUpdate|reflexivity].
    + destruct (socket_open (store c)); [|reflexivity].
      unfold sendLocationUpdate, ref_send.
      repeat match goal with |- context [if ?b then _ else _] => destruct b end;
        try reflexivity; destruct (webSocketRef (store c)); reflexivity.
Qed.

Lemma positionUpdate_no_reset (ps : list (LatLng N)) :
  forallb no_reset (flat_map positionUpdate ps) = true.
Proof. induction ps as [|p l IH]; [reflexivity|exact IH]. Qed.

Lemma pickup_prompt_shown (c : Component) (p pickup : LatLng N) (events : list Event) :
  tripPhase (render c) = to_pickup ->
  pickupCoordinate (render c) = Some pickup ->
  hasPromptedPickup (render c) = false ->
  arrived p pickup = true ->
  forallb no_reset events = true ->
  let c' := run c (positionUpdate p ++ events) in
  hasPromptedPickup (render c') = true /\
  prompts (store c') = prompts (store c) ++ [setCurrentPosition (Some p) (render c)].
Proof.
  intros Ht Hk Hf Ha He. cbv zeta.
  change (positionUpdate p ++ events)
    with ([position p; effect_connect] ++ [effect_pickup] ++ ([effect_drop; effect_phase] ++ events)).
  set (rest := [effect_drop; effect_phase] ++ events).
  assert (Hrest : forallb no_reset rest = true) by exact He.
  clearbody rest. rewrite !run_app.
  destruct (position_reported c p) as (Hr & Hs & _).
  set (c1 := run c [position p; effect_connect]) in *.
  change (run c1 [effect_pickup]) with (pickupArrivalEffect c1).
  assert (Hfire := pickupArrivalEffect_fires c1 p pickup).
  rewrite Hr in Hfire. specialize (Hfire eq_refl Hk Ht Hf Ha). rewrite <- Hr in Hfire.
  rewrite Hfire.
  match goal with |- context [run ?x rest] =>
    destruct (prompted_run rest x) as [H1 H2]; [exact Hrest|reflexivity|]
  end.
  split; [exact H1|]. rewrite H2. cbn [store showPrompt prompts]. rewrite Hs, Hr. reflexivity.
Qed.
End PickupPrompt.

Section DropArrival.
Context {N : JsNumber} {M : JsMath N}.
Import LocationScreen.

Lemma count_locations_send {C : Type} (i : nat) (m : Message N) (l : list (WebSocket N C))
    (w : WebSocket N C) :
  nth_error l i = Some w -> is_open w = true -> is_location m = true ->
  count_locations (update_nth i (send m) l) = S (count_locations l).
Proof.
  intros Hw Ho Hm. revert i Hw. induction l as [|x l IH]; intros [|i] Hw; simpl in Hw;
    try discriminate.
  - injection Hw as ->. simpl. rewrite !count_locations_cons.
    unfold send. rewrite Ho. cbn [outbox]. rewrite filter_app, length_app. simpl.
    rewrite Hm. simpl. lia.
  - simpl. rewrite !count_locations_cons, (IH i Hw). lia.
Qed.



Lemma sendLocationUpdate_count (r : Render) (st : Store) (p : LatLng N) :
  currentPosition r = Some p ->
  count_locations (sockets (sendLocationUpdate r st)) =
  (count_locations (sockets st) +
   (if socket_open st && negb (driverId r =? "")%string then 1 else 0))%nat.
Proof.
  intro Hp. unfold sendLocationUpdate. rewrite Hp.
  destruct (socket_open st) eqn:Ho; cbn [negb andb]; [|lia].
  destruct (driverId r =? "")%string; cbn [negb]; [lia|].
  unfold socket_open, current in Ho. unfold ref_send.
  destruct (webSocketRef st) as [i|]; [|discriminate].
  destruct (nth_error (sockets st) i) as [w|] eqn:Hw; [|discriminate].
  cbn [with_sockets sockets].
  rewrite (count_locations_send i (payload r p) _ w Hw Ho eq_refl). lia.
Qed.

End DropArrival.

Section RenderFacts.
Context {N : JsNumber} {M : JsMath N}.
Import LocationScreen.
Local Open Scope js_scope.














Lemma locationsSent_send (r : Render) (c : Component) (p : LatLng N) (b : bool) :
  currentPosition r = Some p ->
  (socket_open (store c) && negb (driverId r =? "")%string)%bool = b ->
  count_locations (sockets (sendLocationUpdate r (store c))) =
  (locationsSent c + (if b then 1 else 0))%nat.
Proof. intros Hp <-. apply (sendLocationUpdate_count r (store c) p Hp). Qed.












End RenderFacts.

Section ArrivalClaims.
Context {N : JsNumber} {M : JsMath N}.
Import LocationScreen.

(** Claim C1. While the trip phase is to_pickup and the pickup coordinate
    and the current position are known, a position within the 120-metre
    arrival threshold of the pickup makes the pickup-arrival effect mark the
    dialog as pending and show it; in every other case the effect does
    nothing. After a position report that arrives, exactly one dialog has
    been added, whatever position reports and other events follow, as long
    as the driver does not answer "Not yet"; that answer alone makes the
    dialog not pending again. *)
Theorem pickup_prompt_once :
  ARRIVAL_THRESHOLD_METERS = lit 120 /\
  (forall c position pickup,
     currentPosition (render c) = Some position ->
     pickupCoordinate (render c) = Some pickup ->
     tripPhase (render c) = to_pickup ->
     hasPromptedPickup (render c) = false ->
     arrived position pickup = true ->
     pickupArrivalEffect c =
       {| render := setHasPromptedPickup true (render c);
          store := showPrompt (render c) (store c) |}) /\
  (forall c,
     currentPosition (render c) = None \/
     pickupCoordinate (render c) = None \/
     tripPhase (render c) <> to_pickup \/
     hasPromptedPickup (render c) = true \/
     (exists position pickup, currentPosition (render c) = Some position /\
        pickupCoordinate (render c) = Some pickup /\ arrived position pickup = false) ->
     pickupArrivalEffect c = c) /\
  (forall c p pickup events,
     tripPhase (render c) = to_pickup ->
     pickupCoordinate (render c) = Some pickup ->
     hasPromptedPickup (render c) = false ->
     arrived p pickup = true ->
     forallb no_reset events = true ->
     let c' := run c (positionUpdate p ++ events) in
     hasPromptedPickup (render c') = true /\
     prompts (store c') = prompts (store c) ++ [setCurrentPosition (Some p) (render c)]) /\
  (forall c p pickup later,
     tripPhase (render c) = to_pickup ->
     pickupCoordinate (render c) = Some pickup ->
     hasPromptedPickup (render c) = false ->
     arrived p pickup = true ->
     let c' := run c (flat_map positionUpdate (p :: later)) in
     hasPromptedPickup (render c') = true /\
     List.length (prompts (store c')) = S (List.length (prompts (store c)))) /\
  (forall c,
     render (step c press_not_yet) = setHasPromptedPickup false (render c) /\
     store (step c press_not_yet) = store c).
Proof.
  repeat apply conj.
  - reflexivity.
  - exact pickupArrivalEffect_fires.
  - exact pickupArrivalEffect_idle.
  - exact pickup_prompt_shown.
  - intros c p pickup later Ht Hk Hf Ha. cbv zeta.
    destruct (pickup_prompt_shown c p pickup (flat_map positionUpdate later) Ht Hk Hf Ha
                (positionUpdate_no_reset later)) as [H1 H2].
    cbn [flat_map]. split; [exact H1|]. rewrite H2, length_app. cbn [List.length]. lia.
  - intro c. split; reflexivity.
Qed.

End ArrivalClaims.

Lemma pickup_prompt_once_witness :
  LocationScreen.tripPhase (LocationScreen.render Trip.toPickup) = to_pickup /\
  LocationScreen.arrived (M := Binary64.reference) Trip.nearPickup Trip.pickupPoint = true /\
  List.length
    (LocationScreen.prompts
       (LocationScreen.store
          (Trip.run Trip.toPickup
             (flat_map LocationScreen.positionUpdate
                [Trip.nearPickup; Trip.nearPickup; Trip.nearPickup])))) = 1%nat.
Proof.
  split; [reflexivity|]. split; [vm_compute; reflexivity|].
  destruct (pickup_prompt_once (M := Binary64.reference)) as (_ & _ & _ & _ & H & _).
  apply (H Trip.toPickup Trip.nearPickup Trip.pickupPoint [Trip.nearPickup; Trip.nearPickup]);
    vm_compute; reflexivity.
Defined.



(** ** Directions *)

Section DirectionsClaim.
Context {N : JsNumber} {F : JsFormat N}.
Import CustomerDetailScreen.

Lemma try_catch_total {A : Type} (body : Completion A) (a : A) :
  exists value, try_catch body (Normal a) = Normal value.
Proof. destruct body as [value|]; [exists value|exists a]; reflexivity. Qed.

Lemma tryOsrm_no_steps (reply : Reply OsrmData) (route : RouteResult) :
  tryOsrm reply = Normal (Some route) -> steps route = [].
Proof.
  destruct reply as [|[[[|[[value]|] rest]|]|]]; cbn; try discriminate.
  destruct (geometry_truthy value); [|discriminate].
  destruct (decodePolyline_any value); cbn; [|discriminate].
  intro H. injection H as <-. reflexivity.
Qed.

(** Claim C5. Whatever the two providers answer, [getDirections] completes
    with a route and never throws. When the primary provider answers with a
    route, that route is the result. When the request to the primary
    provider fails, reading its reply throws, or the reply has no routes,
    the secondary provider is asked: its route, a decoded polyline with no
    steps, is the result; and when the secondary provider fails too or has
    no route, the result is the straight line from the origin to the
    destination with no steps. A geometry that is missing, the empty
    string (both fail the test before the decoder) or a non-empty array
    (on which the decoder throws) counts as no route. *)
Theorem getDirections_never_throws :
  (forall origin destination google osrm,
     exists route, getDirections origin destination google osrm = Normal route) /\
  (forall origin destination google osrm route,
     tryGoogle google = Normal (Some route) ->
     getDirections origin destination google osrm = Normal route) /\
  (forall origin destination google osrm route,
     tryGoogle google = Throw \/ tryGoogle google = Normal None ->
     tryOsrm osrm = Normal (Some route) ->
     getDirections origin destination google osrm = Normal route /\ steps route = []) /\
  (forall origin destination google osrm,
     tryGoogle google = Throw \/ tryGoogle google = Normal None ->
     tryOsrm osrm = Throw \/ tryOsrm osrm = Normal None ->
     getDirections origin destination google osrm =
       Normal {| coordinates := [origin; destination]; steps := [] |}) /\
  tryGoogle request_failed = Throw /\
  tryGoogle (replied (Some None)) = Normal None /\
  tryGoogle (replied (Some (Some []))) = Normal None /\
  tryOsrm request_failed = Throw /\
  (forall poly rest,
     poly <> ""%string ->
     tryOsrm (replied (Some (Some (Some {| geometry := encoded poly |} :: rest)))) =
     Normal (Some {| coordinates := decodePolyline poly; steps := [] |})) /\
  (forall value rest origin destination google,
     tryGoogle google = Throw \/ tryGoogle google = Normal None ->
     value = no_geometry \/ value = encoded "" \/ value = sized_geometry ->
     getDirections origin destination google
       (replied (Some (Some (Some {| geometry := value |} :: rest)))) =
     Normal {| coordinates := [origin; destination]; steps := [] |}).
Proof.
  repeat apply conj; try reflexivity.
  - intros origin destination google osrm. unfold getDirections.
    destruct (try_catch_total (tryGoogle google) None) as [[first|] ->]; cbn [bind].
    + eexists. reflexivity.
    + destruct (try_catch_total (tryOsrm osrm) None) as [[second|] ->]; cbn [bind];
        eexists; reflexivity.
  - intros origin destination google osrm route H. unfold getDirections. rewrite H. reflexivity.
  - intros origin destination google osrm route Hg Ho.
    split; [|exact (tryOsrm_no_steps osrm route Ho)].
    unfold getDirections. destruct Hg as [-> | ->]; cbn [try_catch bind]; rewrite Ho; reflexivity.
  - intros origin destination google osrm Hg Ho. unfold getDirections.
    destruct Hg as [-> | ->], Ho as [-> | ->]; reflexivity.
  - intros poly rest Hpoly. destruct poly as [|c poly]; [congruence|reflexivity].
  - intros value rest origin destination google Hg Hv. unfold getDirections.
    destruct Hg as [-> | ->], Hv as [-> | [-> | ->]]; reflexivity.
Qed.
End DirectionsClaim.

Lemma getDirections_never_throws_witness :
  let origin := Binary64.coordinate 12.9716%float 77.5946%float in
  let destination := Binary64.coordinate 12.9352%float 77.6245%float in
  CustomerDetailScreen.getDirections (F := Binary64.format) origin destination
    CustomerDetailScreen.request_failed (CustomerDetailScreen.replied None) =
    Normal {| CustomerDetailScreen.coordinates := [origin; destination];
              CustomerDetailScreen.steps := [] |}.
Proof.
  cbv zeta.
  destruct (getDirections_never_throws (F := Binary64.format)) as (_ & _ & _ & H & _).
  apply H; [left|right]; reflexivity.
Defined.

(** ** Guidance progress *)

Section GuidanceFacts.
Context {N : JsNumber} {M : JsMath N} {F : JsFormat N}.
Import CustomerDetailScreen.
Local Open Scope js_scope.

Lemma speakGuidanceStep_frame (r : Guidance) (step : RouteStepInfo) (pre : bool) (g : Guidance) :
  activeStepIndex (speakGuidanceStep r step pre g) = activeStepIndex g /\
  guidanceSteps (speakGuidanceStep r step pre g) = guidanceSteps g.
Proof.
  unfold speakGuidanceStep. destruct (negb (ttsEnabled r) || negb (ttsInitialized r)); [auto|].
  cbv zeta. destruct (existsb _ (spokenSteps r)); auto.
Qed.

(** The loop stops at the first step from [idx] on that is not passed, or
    at the last step; the budget of as many iterations as there are steps
    is never used up. *)
Lemma advance_spec (driverPoint : LatLng N) (steps : list RouteStepInfo) (budget idx : nat)
    (remaining : num) :
  (idx < List.length steps)%nat ->
  distanceTo driverPoint steps idx = Some remaining ->
  (List.length steps - 1 - idx <= budget)%nat ->
  exists idx' remaining',
    advance driverPoint steps budget idx remaining = Some (idx', remaining') /\
    (idx <= idx' < List.length steps)%nat /\
    distanceTo driverPoint steps idx' = Some remaining' /\
    (forall j, (idx <= j < idx')%nat -> passed driverPoint steps j) /\
    (idx' = (List.length steps - 1)%nat \/
     (remaining' <=? STEP_COMPLETION_THRESHOLD_METERS) = false).
Proof.
  revert idx remaining. induction budget as [|budget IH]; intros idx remaining Hi Hd Hb.
  - exists idx, remaining. cbn [advance].
    assert (Hlast : (idx <? List.length steps - 1)%nat = false) by (apply Nat.ltb_ge; lia).
    rewrite Hlast, andb_false_r. repeat split; try lia; try assumption.
  - cbn [advance].
    destruct (remaining <=? STEP_COMPLETION_THRESHOLD_METERS) eqn:Hr; cbn [andb].
    + destruct (idx <? List.length steps - 1)%nat eqn:Hlast.
      * apply Nat.ltb_lt in Hlast.
        destruct (nth_error steps (idx + 1)) as [step|] eqn:Hs.
        2:{ apply nth_error_None in Hs. lia. }
        destruct (IH (idx + 1)%nat (calculateDistance driverPoint (endLocation step)))
          as (idx' & remaining' & H1 & H2 & H3 & H4 & H5).
        { lia. }
        { unfold distanceTo. rewrite Hs. reflexivity. }
        { lia. }
        exists idx', remaining'. repeat split; try lia; try assumption.
        intros j Hj. destruct (Nat.eq_dec j idx) as [->|Hne].
        -- exists remaining. split; assumption.
        -- apply H4. lia.
      * apply Nat.ltb_ge in Hlast. exists idx, remaining.
        repeat split; try lia; try assumption.
    + exists idx, remaining. repeat split; try lia; try assumption. right. exact Hr.
Qed.

Lemma updateGuidanceProgress_spec (r g : Guidance) (driverPoint : LatLng N) :
  fresh r g ->
  (activeStepIndex g < List.length (guidanceSteps g))%nat ->
  exists g',
    updateGuidanceProgress r driverPoint None g = Some g' /\
    guidanceSteps g' = guidanceSteps g /\
    (activeStepIndex g <= activeStepIndex g' < List.length (guidanceSteps g))%nat /\
    (forall j, (activeStepIndex g <= j < activeStepIndex g')%nat ->
       passed driverPoint (guidanceSteps g) j) /\
    (activeStepIndex g' = (List.length (guidanceSteps g) - 1)%nat \/
     ~ passed driverPoint (guidanceSteps g) (activeStepIndex g')) /\
    activeStepMeters g' = distanceTo driverPoint (guidanceSteps g) (activeStepIndex g').
Proof.
  intros [Hs Hi] Hlt. unfold updateGuidanceProgress. cbv zeta. rewrite Hs, Hi.
  destruct (guidanceSteps g) as [|s0 rest] eqn:Hsteps; [cbn in Hlt; lia|].
  rewrite <- Hsteps in *. clear s0 rest Hsteps.
  rewrite (Nat.min_l (activeStepIndex g)) by lia.
  destruct (nth_error (guidanceSteps g) (activeStepIndex g)) as [step0|] eqn:H0.
  2:{ apply nth_error_None in H0. lia. }
  destruct (advance_spec driverPoint (guidanceSteps g) (List.length (guidanceSteps g))
              (activeStepIndex g) (calculateDistance driverPoint (endLocation step0)))
    as (idx & remaining & H1 & H2 & H3 & H4 & H5).
  { exact Hlt. }
  { unfold distanceTo. rewrite H0. reflexivity. }
  { lia. }
  rewrite H1.
  match goal with |- context [setActiveStep (activeStepIndex ?x) _ _ ?x] => set (g2 := x) end.
  assert (Hg2 : activeStepIndex g2 = idx /\ guidanceSteps g2 = guidanceSteps g).
  { subst g2.
    match goal with |- context [if (_ && _ && _)%bool then _ else ?x] => set (g1 := x) end.
    assert (Hg1 : activeStepIndex g1 = idx /\ guidanceSteps g1 = guidanceSteps g).
    { subst g1. destruct (Nat.eqb_spec idx (activeStepIndex g)) as [->|Hne]; [auto|].
      cbv zeta. destruct (nth_error (guidanceSteps g) idx); [|auto].
      destruct (ttsEnabled r && ttsInitialized r); [|auto].
      destruct (speakGuidanceStep_frame r r0 false
                  (setActiveStep idx (activeStepDistance g) (activeStepMeters g) g)) as [Ha Hb].
      rewrite Ha, Hb. auto. }
    clearbody g1.
    destruct (_ && _ && _)%bool; [|exact Hg1].
    destruct (nth_error (guidanceSteps g) (idx + 1)); [|exact Hg1].
    destruct (existsb _ _); [exact Hg1|].
    destruct (speakGuidanceStep_frame r r0 true g1) as [Ha Hb]. rewrite Ha, Hb. exact Hg1. }
  clearbody g2. destruct Hg2 as [Hidx Hst].
  eexists. split; [reflexivity|].
  cbn [setActiveStep guidanceSteps activeStepIndex activeStepMeters]. rewrite Hidx.
  repeat split; try lia; try assumption.
  - destruct H5 as [H5|H5]; [left; exact H5|]. right. intros (d & Hd & Hle).
    rewrite H3 in Hd. injection Hd as <-. congruence.
  - symmetry. exact H3.
Qed.

End GuidanceFacts.

Section GuidanceClaim.
Context {N : JsNumber} {M : JsMath N} {F : JsFormat N}.
Import CustomerDetailScreen.
Local Open Scope js_scope.


Lemma fresh_refl (g : Guidance) : fresh g g.
Proof. split; reflexivity. Qed.


End GuidanceClaim.



(** ** The two distance functions *)

Section DistanceClaim.
Local Open Scope js_scope.

(** Claim C10, as the code has it. The driver's
    [haversineDistanceInMeters] and the viewer's [calculateDistance] compute
    the same central angle, operation for operation, whatever the numbers
    and the [Math] functions are; the first multiplies it by 6371000, the
    second by 6371 and then by 1000. In exact real arithmetic the two
    distances are equal for every pair of coordinates. *)
Theorem distance_functions_agree :
  (forall (N : JsNumber) (M : JsMath N) (a b : LatLng N),
     haversineDistanceInMeters a b = lit 6371000 * centralAngle a b /\
     calculateDistance a b = lit 6371 * centralAngle a b * lit 1000) /\
  (forall a b : LatLng Real.number,
     haversineDistanceInMeters (M := Real.math) a b = calculateDistance (M := Real.math) a b).
Proof.
  split.
  - intros N M a b. split; reflexivity.
  - intros a b.
    change (haversineDistanceInMeters a b)
      with (IZR 6371000 * centralAngle (M := Real.math) a b)%R.
    change (calculateDistance a b)
      with (IZR 6371 * centralAngle (M := Real.math) a b * IZR 1000)%R.
    generalize (centralAngle (M := Real.math) a b). intro c.
    change (@eq R (IZR 6371000 * c)%R (IZR 6371 * c * IZR 1000)%R). ring.
Qed.
End DistanceClaim.

(** Claim C10 as stated fails on the doubles the program runs on: from
    Bengaluru to Chennai the two functions differ in the last place. *)
Lemma distance_functions_agree_counterexample :
  Binary64.to_string (haversineDistanceInMeters (M := Binary64.reference) Trip.bengaluru Trip.chennai)
    = "290172.0249530612"%string /\
  Binary64.to_string (calculateDistance (M := Binary64.reference) Trip.bengaluru Trip.chennai)
    = "290172.02495306125"%string /\
  PrimFloat.eqb (haversineDistanceInMeters (M := Binary64.reference) Trip.bengaluru Trip.chennai)
                (calculateDistance (M := Binary64.reference) Trip.bengaluru Trip.chennai) = false.
Proof. repeat split; vm_compute; reflexivity. Qed.

(** ** The address search *)

Section TextFacts.
Import LocationSearch.
Local Open Scope string_scope.

Lemma is_space_lower (c : ascii) : is_space (lower c) = is_space c.
Proof. destruct c as [[] [] [] [] [] [] [] []]; reflexivity. Qed.

Lemma lower_lower (c : ascii) : lower (lower c) = lower c.
Proof. destruct c as [[] [] [] [] [] [] [] []]; reflexivity. Qed.

Lemma toLowerCase_idempotent (s : string) : toLowerCase (toLowerCase s) = toLowerCase s.
Proof. induction s as [|c s IH]; simpl; [reflexivity|]. rewrite lower_lower, IH. reflexivity. Qed.

Lemma toLowerCase_empty (s : string) : toLowerCase s = "" -> s = "".
Proof. destruct s; [reflexivity|discriminate]. Qed.

Lemma trimStart_toLowerCase (s : string) : trimStart (toLowerCase s) = toLowerCase (trimStart s).
Proof.
  induction s as [|c s IH]; simpl; [reflexivity|].
  rewrite is_space_lower. destruct (is_space c); [exact IH|reflexivity].
Qed.

Lemma trimEnd_toLowerCase (s : string) : trimEnd (toLowerCase s) = toLowerCase (trimEnd s).
Proof.
  induction s as [|c s IH]; simpl; [reflexivity|].
  rewrite IH, is_space_lower. destruct (trimEnd s); simpl; [|reflexivity].
  destruct (is_space c); reflexivity.
Qed.

Lemma trim_toLowerCase (s : string) : trim (toLowerCase s) = toLowerCase (trim s).
Proof. unfold trim. rewrite trimStart_toLowerCase. apply trimEnd_toLowerCase. Qed.

Lemma trimStart_clean (s : string) : starts_clean (trimStart s).
Proof.
  induction s as [|c s IH]; simpl; [exact I|].
  destruct (is_space c) eqn:E; [exact IH|exact E].
Qed.

Lemma trimStart_fixed (s : string) : starts_clean s -> trimStart s = s.
Proof. destruct s as [|c s]; simpl; [reflexivity|]. intros ->. reflexivity. Qed.

Lemma trimEnd_clean (s : string) : starts_clean s -> starts_clean (trimEnd s).
Proof.
  destruct s as [|c s]; simpl; [auto|]. intro H.
  destruct (trimEnd s); rewrite ?H; exact H.
Qed.

Lemma trimEnd_idempotent (s : string) : trimEnd (trimEnd s) = trimEnd s.
Proof.
  induction s as [|c s IH]; simpl; [reflexivity|].
  destruct (trimEnd s) as [|d kept] eqn:E.
  - destruct (is_space c) eqn:Ec; simpl; [reflexivity|]. rewrite Ec. reflexivity.
  - simpl in *. rewrite IH. reflexivity.
Qed.

Lemma trim_idempotent (s : string) : trim (trim s) = trim s.
Proof.
  unfold trim. rewrite (trimStart_fixed (trimEnd (trimStart s))).
  - apply trimEnd_idempotent.
  - apply trimEnd_clean, trimStart_clean.
Qed.

Lemma append_cancel (p a b : string) : p ++ a = p ++ b -> a = b.
Proof. induction p as [|c p IH]; simpl; [auto|]. intros [= H]. auto. Qed.
End TextFacts.

Section CacheFacts.
Import LocationSearch.
Local Open Scope string_scope.

Lemma getCacheKey_same (q1 q2 : string) : getCacheKey q1 = getCacheKey q2 <-> sameQuery q1 q2.
Proof.
  unfold getCacheKey, sameQuery. split.
  - intro H. apply append_cancel in H. apply (append_cancel "_") in H. exact H.
  - intros ->. reflexivity.
Qed.

Lemma getItem_removeItem (key : string) (storage : Storage) :
  getItem key (removeItem key storage) = None.
Proof.
  unfold getItem, removeItem. induction storage as [|[k e] l IH]; [reflexivity|].
  simpl. destruct (String.eqb k key) eqn:E; simpl; [exact IH|]. rewrite E. exact IH.
Qed.

Lemma getItem_removeItem_other (key key' : string) (storage : Storage) :
  key' <> key -> getItem key' (removeItem key storage) = getItem key' storage.
Proof.
  intro H. unfold getItem, removeItem. induction storage as [|[k e] l IH]; [reflexivity|].
  simpl. destruct (String.eqb k key) eqn:E; simpl.
  - apply String.eqb_eq in E. subst k.
    destruct (String.eqb_spec key key'); [congruence|exact IH].
  - destruct (String.eqb k key'); [reflexivity|exact IH].
Qed.

Lemma getItem_setItem (key : string) (entry : CacheEntry) (storage : Storage) :
  getItem key (setItem key entry storage) = Some entry.
Proof. unfold getItem, setItem. simpl. rewrite String.eqb_refl. reflexivity. Qed.

Lemma getItem_setItem_other (key key' : string) (entry : CacheEntry) (storage : Storage) :
  key' <> key -> getItem key' (setItem key entry storage) = getItem key' storage.
Proof.
  intro H. unfold setItem. change (getItem key' ((key, entry) :: removeItem key storage))
    with (option_map snd (if String.eqb key key' then Some (key, entry)
                          else find (fun b => String.eqb (fst b) key') (removeItem key storage))).
  destruct (String.eqb_spec key key'); [congruence|].
  apply getItem_removeItem_other, H.
Qed.

(** The suggestion cache. What [cacheSuggestions] stored for a query is
    what [readCachedSuggestions] returns, for every query that agrees with
    it up to letter case and surrounding white space, as long as no more than
    24 hours have passed; after that the read returns nothing and removes the
    entry, so that later reads return nothing either. Reads of other queries
    are not affected, and a write that fails stores nothing. *)
Theorem suggestion_cache_round_trip :
  forall (query : string) (suggestions : list LocationSuggestion) (written : Z) (storage : Storage),
    let storage1 := cacheSuggestions query suggestions written true storage in
    (forall query' now, sameQuery query' query -> (now - written <= CACHE_EXPIRY_MS)%Z ->
       readCachedSuggestions query' now storage1 = (Some suggestions, storage1)) /\
    (forall query' now, sameQuery query' query -> (now - written > CACHE_EXPIRY_MS)%Z ->
       exists storage2,
         readCachedSuggestions query' now storage1 = (None, storage2) /\
         forall query'' later, sameQuery query'' query ->
           readCachedSuggestions query'' later storage2 = (None, storage2)) /\
    (forall query' now, ~ sameQuery query' query ->
       fst (readCachedSuggestions query' now storage1) =
       fst (readCachedSuggestions query' now storage)) /\
    cacheSuggestions query suggestions written false storage = storage.
Proof.
  intros query suggestions written storage storage1. subst storage1.
  unfold cacheSuggestions. repeat split.
  - intros q' now Hq Ht. apply getCacheKey_same in Hq.
    unfold readCachedSuggestions. rewrite Hq, getItem_setItem. cbn [timestamp data].
    destruct (Z.gtb_spec (now - written) CACHE_EXPIRY_MS); [lia|reflexivity].
  - intros q' now Hq Ht. apply getCacheKey_same in Hq.
    eexists. split.
    + unfold readCachedSuggestions. rewrite Hq, getItem_setItem. cbn [timestamp data].
      destruct (Z.gtb_spec (now - written) CACHE_EXPIRY_MS); [reflexivity|lia].
    + intros q'' later Hq'. apply getCacheKey_same in Hq'.
      unfold readCachedSuggestions. rewrite Hq', getItem_removeItem. reflexivity.
  - intros q' now Hq.
    assert (Hk : getCacheKey q' <> getCacheKey query).
    { intro E. apply Hq, getCacheKey_same, E. }
    unfold readCachedSuggestions. rewrite (getItem_setItem_other _ _ _ _ Hk).
    destruct (getItem (getCacheKey q') storage) as [cache|]; [|reflexivity].
    destruct (_ >? _)%Z; reflexivity.
Qed.
End CacheFacts.

Lemma suggestion_cache_round_trip_witness :
  LocationSearch.sameQuery "  PUNE " "pune" /\
  LocationSearch.readCachedSuggestions "  PUNE " 86400000
    (LocationSearch.cacheSuggestions "pune" LocationSearch.POPULAR_CITIES 0 true []) =
  (Some LocationSearch.POPULAR_CITIES,
   LocationSearch.cacheSuggestions "pune" LocationSearch.POPULAR_CITIES 0 true []).
Proof.
  split; [reflexivity|].
  apply (proj1 (suggestion_cache_round_trip "pune" LocationSearch.POPULAR_CITIES 0 [])).
  - reflexivity.
  - unfold LocationSearch.CACHE_EXPIRY_MS. lia.
Defined.

Section SuggestionFacts.
Import LocationSearch.
Local Open Scope string_scope.
Local Open Scope list_scope.

Lemma NoDup_map_filter {Item Key : Type} (key : Item -> Key) (keep : Item -> bool)
    (items : list Item) (distinct : NoDup (map key items)) :
  NoDup (map key (filter keep items)).
Proof.
  induction items as [|item rest IH]; [exact distinct|].
  cbn in distinct. inversion distinct as [|k ks Hk Hks]; subst. cbn [filter].
  destruct (keep item); [|exact (IH Hks)].
  cbn [map]. constructor; [|exact (IH Hks)].
  intro Hin. apply Hk. apply in_map_iff in Hin. destruct Hin as (y & Hy & Hf).
  apply in_map_iff. exists y. split; [exact Hy|]. apply filter_In in Hf. apply Hf.
Qed.

Lemma NoDup_firstn {A : Type} (n : nat) (l : list A) : NoDup l -> NoDup (firstn n l).
Proof. intro H. rewrite <- (firstn_skipn n l) in H. exact (NoDup_app_remove_r _ _ H). Qed.

Lemma cities_distinct : NoDup (map name POPULAR_CITIES).
Proof.
  repeat (constructor; [simpl; intuition discriminate|]). constructor.
Qed.

(** What the loop over the filtered results adds and keeps. *)
Lemma pushUnlessExists_fold (filtered combined : list LocationSuggestion) :
  NoDup (map name combined) ->
  exists extra,
    fold_left pushUnlessExists filtered combined = combined ++ extra /\
    (forall item, In item extra -> In item filtered) /\
    NoDup (map name (combined ++ extra)).
Proof.
  revert combined. induction filtered as [|result l IH]; intros combined Hc.
  - exists []. rewrite app_nil_r. repeat split; [intros item []|exact Hc].
  - cbn [fold_left]. unfold pushUnlessExists at 2.
    destruct (existsb _ combined) eqn:E.
    + destruct (IH combined Hc) as (extra & H1 & H2 & H3).
      exists extra. repeat split; try assumption. intros item Hi. right. auto.
    + destruct (IH (combined ++ [result])) as (extra & H1 & H2 & H3).
      { rewrite map_app. apply NoDup_app; [exact Hc|repeat constructor; intros []|].
        intros a Ha [<-|[]]. apply in_map_iff in Ha. destruct Ha as (x & Hx & Hin).
        assert (existsb (fun existing => name existing =? name result) combined = true) as Hex.
        { apply existsb_exists. exists x. split; [exact Hin|]. apply String.eqb_eq, Hx. }
        unfold name in Hex. congruence. }
      exists (result :: extra). rewrite <- app_assoc in H1, H3. repeat split; try assumption.
      intros item [<-|Hi]; [left; reflexivity|right; auto].
Qed.

Lemma getInstantSuggestions_cities (query : string) :
  exists p, getInstantSuggestions query = filter p POPULAR_CITIES.
Proof.
  unfold getInstantSuggestions. cbv zeta. destruct (_ <? 1)%nat.
  - exists (fun _ => false). reflexivity.
  - eexists. reflexivity.
Qed.

(** [getInstantSuggestions]. A blank query has no suggestions. Otherwise
    the suggestions are exactly the popular cities whose name contains the
    query, letter case and surrounding white space aside, in the order of the
    list: they are the list of popular cities with the other cities left
    out, so each city appears once and before the cities that follow it in
    the list. Queries that agree up to case and surrounding white space have
    the same suggestions. *)
Theorem instant_suggestions :
  (forall query, trim query = "" -> getInstantSuggestions query = []) /\
  (forall query city,
     In city (getInstantSuggestions query) <->
     trim query <> "" /\ In city POPULAR_CITIES /\
     occurs (toLowerCase (trim query)) (toLowerCase (display_name city))) /\
  (forall query1 query2, sameQuery query1 query2 ->
     getInstantSuggestions query1 = getInstantSuggestions query2) /\
  (forall query, trim query <> "" ->
     getInstantSuggestions query =
     filter (fun city => includes (toLowerCase (trim query)) (toLowerCase (display_name city)))
            POPULAR_CITIES) /\
  (forall query, NoDup (map name (getInstantSuggestions query))).
Proof.
  split; [|split; [|split; [|split]]].
  - intros query H. unfold getInstantSuggestions. rewrite trim_toLowerCase, H. reflexivity.
  - intros query city. split.
    + intro H. unfold getInstantSuggestions in H. cbv zeta in H.
      rewrite trim_toLowerCase in H. split; [|split].
      * intro E. rewrite E in H. exact H.
      * destruct (_ <? 1)%nat; [destruct H|]. apply filter_In in H. apply H.
      * destruct (_ <? 1)%nat; [destruct H|]. apply filter_In in H.
        apply includes_spec, H.
    + intros (Hq & Hc & Ho). unfold getInstantSuggestions. cbv zeta.
      rewrite trim_toLowerCase.
      destruct (toLowerCase (trim query)) as [|c s] eqn:E.
      * apply toLowerCase_empty in E. contradiction.
      * cbn [String.length Nat.ltb Nat.leb]. apply filter_In. split; [exact Hc|].
        apply includes_spec. exact Ho.
  - intros q1 q2 H. unfold getInstantSuggestions, sameQuery in *. rewrite H. reflexivity.
  - intros query Hq. unfold getInstantSuggestions. cbv zeta. rewrite trim_toLowerCase.
    destruct (toLowerCase (trim query)) as [|c s] eqn:E.
    + apply toLowerCase_empty in E. contradiction.
    + reflexivity.
  - intros query. destruct (getInstantSuggestions_cities query) as [keep ->].
    apply NoDup_map_filter, cities_distinct.
Qed.

(** The results [fetchSearchSuggestions] shows and caches. There are at
    most eight; the instant suggestions come first, all of them, followed by
    results of the search service whose name contains the query; and no two
    results have the same name, letter case aside. *)
Theorem merged_suggestions :
  forall (trimmedQuery : string) (reply : list LocationSuggestion),
    let results := finalResults trimmedQuery reply in
    (List.length results <= 8)%nat /\
    (exists extra,
       results = getInstantSuggestions trimmedQuery ++ extra /\
       forall item, In item extra ->
         In item reply /\
         occurs (toLowerCase trimmedQuery) (toLowerCase (display_name item))) /\
    NoDup (map (fun result => toLowerCase (display_name result)) results).
Proof.
  intros q reply results. subst results. unfold finalResults. cbv zeta.
  set (instant := getInstantSuggestions q).
  set (filtered := firstn 6 (filter _ reply)).
  assert (Hi : NoDup (map name instant)).
  { subst instant. destruct (getInstantSuggestions_cities q) as [p ->].
    apply NoDup_map_filter, cities_distinct. }
  assert (Hlen : (List.length instant <= 8)%nat).
  { subst instant. destruct (getInstantSuggestions_cities q) as [p ->].
    apply (filter_length_le p POPULAR_CITIES). }
  destruct (pushUnlessExists_fold filtered instant Hi) as (extra & H1 & H2 & H3).
  rewrite H1. repeat split.
  - apply firstn_le_length.
  - exists (firstn (8 - List.length instant) extra). split.
    + rewrite firstn_app, (firstn_all2 instant) by exact Hlen. reflexivity.
    + intros item Hin.
      assert (Hf : In item filtered).
      { apply H2. rewrite <- (firstn_skipn (8 - List.length instant) extra).
        apply in_or_app. left. exact Hin. }
      subst filtered.
      assert (Hf' : In item (filter (fun item => includes (toLowerCase q)
                                       (toLowerCase (display_name item))) reply)).
      { rewrite <- (firstn_skipn 6 (filter _ reply)). apply in_or_app. left. exact Hf. }
      apply filter_In in Hf'. split; [apply Hf'|apply includes_spec, Hf'].
  - change (fun result => toLowerCase (display_name result)) with name.
    rewrite <- firstn_map. apply NoDup_firstn, H3.
Qed.
End SuggestionFacts.

Lemma instant_suggestions_witness :
  In {| LocationSearch.display_name := "Pune, Maharashtra, India"; LocationSearch.lat := "18.5204";
        LocationSearch.lon := "73.8567"; LocationSearch.place_id := "pune" |}%string
     (LocationSearch.getInstantSuggestions " PUNE  "%string).
Proof.
  apply (proj1 (proj2 instant_suggestions)). split; [|split].
  - vm_compute. discriminate.
  - simpl. tauto.
  - exists ""%string, ", maharashtra, india"%string. reflexivity.
Defined.

Section SplitFacts.
Import LocationSearch.
Local Open Scope string_scope.

Lemma string_app_assoc (a b c : string) : (a ++ b) ++ c = a ++ (b ++ c).
Proof. induction a as [|x a IH]; simpl; [reflexivity|]. rewrite IH. reflexivity. Qed.

Lemma string_app_nil_r (a : string) : a ++ "" = a.
Proof. induction a as [|x a IH]; simpl; [reflexivity|]. rewrite IH. reflexivity. Qed.

Lemma split_nonempty (separator : string) (skip : nat) (text : string) :
  split separator skip text <> [].
Proof.
  revert skip. induction text as [|c text IH]; intro skip; cbn [split]; [discriminate|].
  destruct skip as [|k]; [|apply IH].
  destruct (String.prefix separator (String c text)); [discriminate|].
  destruct (split separator 0 text); discriminate.
Qed.

Lemma concat_cons_char (separator : string) (c : ascii) (part : string) (parts : list string) :
  String.concat separator (String c part :: parts) = String c (String.concat separator (part :: parts)).
Proof. destruct parts; reflexivity. Qed.

Lemma concat_empty_first (separator : string) (parts : list string) :
  parts <> [] -> String.concat separator ("" :: parts) = separator ++ String.concat separator parts.
Proof. destruct parts; [congruence|reflexivity]. Qed.

Lemma substring_all (s : string) : substring 0 (String.length s) s = s.
Proof. induction s as [|c s IH]; cbn; [reflexivity|]. rewrite IH. reflexivity. Qed.

Lemma substring_drop (p a : string) :
  substring (String.length p) (String.length (p ++ a) - String.length p) (p ++ a) = a.
Proof.
  induction p as [|c p IH]; cbn [String.length append substring].
  - rewrite Nat.sub_0_r. apply substring_all.
  - exact IH.
Qed.

(** Joining the parts of a split gives the text back, from where the
    split started. *)
Lemma join_split_from (separator : string) (text : string) (skip : nat) :
  separator <> "" ->
  join separator (split separator skip text) =
  substring skip (String.length text - skip) text.
Proof.
  intro Hsep. unfold join. revert skip. induction text as [|c text IH]; intro skip.
  - destruct skip; reflexivity.
  - cbn [split]. destruct skip as [|k].
    + destruct (String.prefix separator (String c text)) eqn:E.
      * apply prefix_spec in E. destruct E as [after E].
        destruct separator as [|d sep']; [congruence|]. cbn [append] in E.
        injection E as <- ->.
        rewrite concat_empty_first by apply split_nonempty.
        replace (String.length (String c sep') - 1)%nat with (String.length sep')
          by (cbn [String.length]; lia).
        rewrite IH, substring_drop. cbn [String.length]. rewrite !Nat.sub_0_r.
        change (String c (sep' ++ after)) with (String c sep' ++ after).
        rewrite <- (substring_all (String c sep' ++ after)) at 1.
        cbn [String.length append]. reflexivity.
      * specialize (IH 0%nat). destruct (split separator 0 text) as [|part parts] eqn:S.
        -- exfalso. exact (split_nonempty _ _ _ S).
        -- rewrite concat_cons_char, IH. rewrite !Nat.sub_0_r.
           cbn [String.length substring]. reflexivity.
    + rewrite IH. reflexivity.
Qed.

Lemma join_split (separator text : string) :
  separator <> "" -> join separator (split separator 0 text) = text.
Proof.
  intro H. rewrite join_split_from by exact H. rewrite Nat.sub_0_r. apply substring_all.
Qed.

(** Joining the first parts gives a prefix of joining them all. *)
Lemma join_firstn (separator : string) (n : nat) (parts : list string) :
  exists after, join separator parts = join separator (firstn n parts) ++ after.
Proof.
  unfold join. revert n. induction parts as [|x xs IH]; intro n.
  - exists "". destruct n; reflexivity.
  - destruct n as [|m]; [eexists; reflexivity|].
    cbn [firstn]. destruct xs as [|y ys].
    + exists "". destruct m; cbn; rewrite string_app_nil_r; reflexivity.
    + destruct (IH m) as [after Ha]. destruct m as [|m'].
      * cbn [firstn String.concat]. eexists. reflexivity.
      * cbn [firstn] in *.
        change (String.concat separator (x :: y :: ys))
          with (x ++ separator ++ String.concat separator (y :: ys)).
        change (String.concat separator (x :: y :: firstn m' ys))
          with (x ++ separator ++ String.concat separator (y :: firstn m' ys)).
        rewrite Ha. exists after. rewrite !string_app_assoc. reflexivity.
Qed.

(** [formatSuggestion] keeps the beginning of a name: its result is always
    a prefix of the name, and a name of at most four parts separated by a
    comma and a blank is returned as it is. *)
Theorem formatSuggestion_prefix :
  (forall displayName, exists after, displayName = formatSuggestion displayName ++ after) /\
  (forall displayName,
     (List.length (split ", " 0 displayName) <= 4)%nat ->
     formatSuggestion displayName = displayName) /\
  formatSuggestion "Koramangala, Bengaluru, Bangalore Urban, Karnataka, 560034, India" =
    "Koramangala, Bengaluru, Bangalore Urban, Karnataka".
Proof.
  repeat split.
  - intro displayName. unfold formatSuggestion.
    destruct (join_firstn ", " 4 (split ", " 0 displayName)) as [after H].
    exists after. rewrite <- H. symmetry. apply join_split. discriminate.
  - intros displayName H. unfold formatSuggestion.
    rewrite firstn_all2 by exact H. apply join_split. discriminate.
Qed.
End SplitFacts.

Lemma formatSuggestion_prefix_witness :
  LocationSearch.formatSuggestion "Pune, Maharashtra, India" = "Pune, Maharashtra, India"%string.
Proof. apply (proj1 (proj2 formatSuggestion_prefix)). vm_compute. lia. Defined.

(** ** The trip form *)

Section FormFacts.
Import LocationSearch LocationForm.
Context {N : JsNumber}.
Variable parseFloat : string -> num.
Variable geocode : string -> option (LatLng N).
Local Open Scope string_scope.

(** Editing an address drops the coordinate that belonged to it, and
    selecting a suggestion ends the same way: [handleSelectSuggestion] sets
    the coordinate it parsed and then calls [handleLocationChange], whose
    update comes later and clears it. After a selection the field holds the
    name up to its first ", India", its coordinate is unknown, the other
    field is untouched, and [ensureCoordinates] has to geocode the address. *)
Theorem selection_discards_coordinate :
  (forall field value (f : Form),
     let f' := handleLocationChange field value f in
     match field with
     | field_from => pickupCoordinate f' = None /\ location_from f' = value /\
                     dropCoordinate f' = dropCoordinate f /\ location_to f' = location_to f
     | field_to => dropCoordinate f' = None /\ location_to f' = value /\
                   pickupCoordinate f' = pickupCoordinate f /\ location_from f' = location_from f
     end) /\
  (forall item field (f : Form),
     typingField f = typing field -> place_id item <> "loading" ->
     let f' := handleSelectSuggestion parseFloat item f in
     let address := hd "" (split ", India" 0 (display_name item)) in
     typingField f' = not_typing /\ searchResults f' = [] /\
     (exists after, display_name item = address ++ after) /\
     match field with
     | field_from => pickupCoordinate f' = None /\ location_from f' = address /\
                     dropCoordinate f' = dropCoordinate f /\ location_to f' = location_to f /\
                     fst (ensureCoordinates geocode f') =
                       match resolveAddressCoordinate geocode address, dropCoordinate f with
                       | Some p, Some d => Some (p, d)
                       | Some p, None =>
                           option_map (pair p) (resolveAddressCoordinate geocode (location_to f))
                       | None, _ => None
                       end
     | field_to => dropCoordinate f' = None /\ location_to f' = address /\
                   pickupCoordinate f' = pickupCoordinate f /\ location_from f' = location_from f
     end) /\
  (forall item (f : Form),
     typingField f = not_typing \/ place_id item = "loading" ->
     handleSelectSuggestion parseFloat item f = f).
Proof.
  split; [|split].
  - intros [] value f; cbv zeta; repeat split.
  - intros item field f Ht Hp. cbv zeta. unfold handleSelectSuggestion. rewrite Ht.
    apply String.eqb_neq in Hp. rewrite Hp. cbv zeta.
    split; [reflexivity|]. split; [reflexivity|]. split.
    + destruct (join_firstn ", India" 1 (split ", India" 0 (display_name item))) as [after H].
      rewrite join_split in H by discriminate. exists after.
      destruct (split ", India" 0 (display_name item)) as [|part parts] eqn:E.
      * exfalso. exact (split_nonempty _ _ _ E).
      * exact H.
    + destruct field; cbn; repeat split.
      unfold ensureCoordinates. cbn.
      destruct (resolveAddressCoordinate geocode _) as [p|]; [|reflexivity].
      destruct (dropCoordinate f) as [d|]; [reflexivity|].
      destruct (resolveAddressCoordinate geocode (location_to f)); reflexivity.
  - intros item f [H|H]; unfold handleSelectSuggestion.
    + rewrite H. reflexivity.
    + rewrite H. cbn. destruct (typingField f); reflexivity.
Qed.

(** [validateInputs] accepts the form exactly when both addresses hold
    something other than white space, and sets an error message for each one
    that does not. *)
Lemma validateInputs_requires_both :
  forall f : Form,
    (fst (validateInputs f) = true <-> trim (location_from f) <> "" /\ trim (location_to f) <> "") /\
    (error_from (snd (validateInputs f)) = "" <-> trim (location_from f) <> "") /\
    (error_to (snd (validateInputs f)) = "" <-> trim (location_to f) <> "").
Proof.
  intro f. unfold validateInputs. cbn.
  destruct (trim (location_from f)), (trim (location_to f)); cbn;
    repeat split; intros; try discriminate; try congruence; intuition congruence.
Qed.
End FormFacts.

Lemma selection_discards_coordinate_witness :
  let pune := {| LocationSearch.display_name := "Pune, Maharashtra, India";
                 LocationSearch.lat := "18.5204"; LocationSearch.lon := "73.8567";
                 LocationSearch.place_id := "pune" |}%string in
  let form := LocationForm.handleSelectSuggestion (@Number Binary64.number Binary64.format) pune
                LocationForm.typingPickup in
  LocationForm.pickupCoordinate form = None /\
  LocationForm.location_from form = "Pune, Maharashtra"%string.
Proof.
  cbv zeta.
  match goal with |- context [LocationForm.handleSelectSuggestion ?pf ?item ?f] =>
    destruct (proj1 (proj2 (selection_discards_coordinate pf (fun _ => None)))
                item LocationForm.field_from f eq_refl) as (_ & _ & _ & H1 & H2 & _)
  end.
  - vm_compute. discriminate.
  - split; [exact H1|exact H2].
Defined.

(** ** The map region and the car's rotation *)

Section RegionFacts.
Import Exact CustomerMap.
Local Open Scope Q_scope.

Lemma Qle_bool_false_lt (a b : Q) : Qle_bool a b = false -> b < a.
Proof.
  intro H. apply Qnot_le_lt. intro L. apply Qle_bool_iff in L. congruence.
Qed.

(** The midpoint of two values is within half of any span that is at
    least [factor] times their distance, for a factor of at least 1. *)
Lemma midpoint_within (a b factor least : Q) :
  1 <= factor ->
  let span := if Qle_bool (Qabs (a - b) * factor) least then least else Qabs (a - b) * factor in
  Qabs (a - (a + b) / inject_Z 2) <= span / 2 /\
  Qabs (b - (a + b) / inject_Z 2) <= span / 2 /\
  least <= span.
Proof.
  intros Hf span.
  assert (Ht : Qabs (a - b) <= Qabs (a - b)) by apply Qle_refl.
  apply Qabs_Qle_condition in Ht.
  pose proof (Qabs_nonneg (a - b)) as H0.
  set (t := Qabs (a - b)) in *. clearbody t.
  assert (Hs : t <= span /\ least <= span).
  { subst span. destruct (Qle_bool (t * factor) least) eqn:E.
    - apply Qle_bool_iff in E. split; [|apply Qle_refl].
      assert (t <= t * factor) by Lqa.nra. Lqa.lra.
    - apply Qle_bool_false_lt in E. split; [Lqa.nra|Lqa.lra]. }
  clearbody span. destruct Hs as [Hs Hl]. destruct Ht as [Ht1 Ht2].
  change (inject_Z 2) with 2. unfold Qdiv. change (/ 2) with (1 # 2).
  repeat split; try exact Hl; apply Qabs_Qle_condition; split; Lqa.lra.
Qed.

Local Abbreviation V q := (Val q : @num Exact.number) (only parsing).

Lemma max_exact (x y : Q) :
  Math_max (V x) (V y) = Val (if Qle_bool x y then y else x).
Proof. cbn. destruct (Qle_bool x y); reflexivity. Qed.

(** The region between two points, as both branches of [getMapRegion]
    compute it. *)
Lemma between_exact (a1 a2 b1 b2 factor least : Q) :
  {| region_latitude := (V a1 + V b1) / lit 2;
     region_longitude := (V a2 + V b2) / lit 2;
     latitudeDelta := Math_max (Math_abs (V a1 - V b1) * V factor) (V least);
     longitudeDelta := Math_max (Math_abs (V a2 - V b2) * V factor) (V least) |}%js =
  {| region_latitude := V ((a1 + b1) / inject_Z 2);
     region_longitude := V ((a2 + b2) / inject_Z 2);
     latitudeDelta := V (if Qle_bool (Qabs (a1 - b1) * factor) least then least
                          else Qabs (a1 - b1) * factor);
     longitudeDelta := V (if Qle_bool (Qabs (a2 - b2) * factor) least then least
                           else Qabs (a2 - b2) * factor) |}.
Proof.
  change (Math_abs (V a1 - V b1) * V factor)%js with (V (Qabs (a1 - b1) * factor)).
  change (Math_abs (V a2 - V b2) * V factor)%js with (V (Qabs (a2 - b2) * factor)).
  rewrite !max_exact. reflexivity.
Qed.

(** [getMapRegion] in exact arithmetic. When the region is computed from
    two points, the current location and the pickup on the way to the pickup
    or else the pickup and the drop, both points are on the map: each is
    within half the latitude span and half the longitude span of the centre.
    The spans are at least 0.01 degrees in the first case and 0.05 in the
    second. *)
Theorem map_region_shows_both_points :
  (forall a1 a2 b1 b2 drop,
     exists cLat cLng dLat dLng,
       getMapRegion toPickup (Some (exactPoint a1 a2)) (Some (exactPoint b1 b2)) drop =
         {| region_latitude := Val cLat; region_longitude := Val cLng;
            latitudeDelta := Val dLat; longitudeDelta := Val dLng |} /\
       shows a1 a2 dLat dLng cLat cLng /\ shows b1 b2 dLat dLng cLat cLng /\
       1 # 100 <= dLat /\ 1 # 100 <= dLng) /\
  (forall mapMode current a1 a2 b1 b2,
     mapMode <> toPickup \/ current = None ->
     exists cLat cLng dLat dLng,
       getMapRegion mapMode current (Some (exactPoint a1 a2)) (Some (exactPoint b1 b2)) =
         {| region_latitude := Val cLat; region_longitude := Val cLng;
            latitudeDelta := Val dLat; longitudeDelta := Val dLng |} /\
       shows a1 a2 dLat dLng cLat cLng /\ shows b1 b2 dLat dLng cLat cLng /\
       5 # 100 <= dLat /\ 5 # 100 <= dLng).
Proof.
  split.
  - intros a1 a2 b1 b2 drop.
    destruct (midpoint_within a1 b1 (15 # 10) (1 # 100)) as (H1 & H2 & H3); [Lqa.lra|].
    destruct (midpoint_within a2 b2 (15 # 10) (1 # 100)) as (H4 & H5 & H6); [Lqa.lra|].
    cbv zeta in *.
    do 4 eexists. split; [apply (between_exact a1 a2 b1 b2 (15 # 10) (1 # 100))|].
    repeat split; assumption.
  - intros mapMode current a1 a2 b1 b2 Hm.
    destruct (midpoint_within a1 b1 (13 # 10) (5 # 100)) as (H1 & H2 & H3); [Lqa.lra|].
    destruct (midpoint_within a2 b2 (13 # 10) (5 # 100)) as (H4 & H5 & H6); [Lqa.lra|].
    cbv zeta in *.
    do 4 eexists. split; [|repeat split; eassumption].
    rewrite <- (between_exact a1 a2 b1 b2 (13 # 10) (5 # 100)).
    destruct mapMode, current as [c|]; try (destruct Hm; congruence); reflexivity.
Qed.
End RegionFacts.

Lemma map_region_shows_both_points_witness :
  exists cLat cLng dLat dLng,
    CustomerMap.getMapRegion (F := Exact.format) (A := Exact_abs) CustomerMap.pickupToDrop None
      (Some (CustomerMap.exactPoint (129716 # 10000) (775946 # 10000)))
      (Some (CustomerMap.exactPoint (129352 # 10000) (776245 # 10000))) =
      @CustomerMap.Build_Region Exact.number
        (Exact.Val cLat) (Exact.Val cLng) (Exact.Val dLat) (Exact.Val dLng) /\
    CustomerMap.shows (129716 # 10000) (775946 # 10000) dLat dLng cLat cLng /\
    CustomerMap.shows (129352 # 10000) (776245 # 10000) dLat dLng cLat cLng /\
    (5 # 100 <= dLat)%Q /\ (5 # 100 <= dLng)%Q.
Proof.
  apply (proj2 map_region_shows_both_points). right. reflexivity.
Defined.

Section RealFacts.
Import Real CustomerMap.
Local Open Scope R_scope.

Lemma atan_nonneg (x : R) : 0 <= x -> 0 <= atan x.
Proof.
  intros [H | <-]; [|rewrite atan_0; apply Rle_refl].
  left. rewrite <- atan_0. apply atan_increasing, H.
Qed.

Lemma atan_nonpos (x : R) : x <= 0 -> atan x <= 0.
Proof.
  intros [H | ->]; [|rewrite atan_0; apply Rle_refl].
  left. rewrite <- atan_0. apply atan_increasing, H.
Qed.

(** The angle of a point is in the half-open interval from -pi to pi. *)
Lemma atan2_range (y x : R) : - PI < atan2 y x <= PI.
Proof.
  pose proof PI_RGT_0 as Hpi. unfold atan2.
  destruct (Rlt_dec 0 x) as [Hx|Hx].
  - pose proof (atan_bound (y / x)). Lra.lra.
  - destruct (Rlt_dec x 0) as [Hx'|Hx'].
    + destruct (Rle_dec 0 y) as [Hy|Hy].
      * assert (y / x <= 0).
        { unfold Rdiv. pose proof (Rinv_lt_0_compat x Hx'). Lra.nra. }
        pose proof (atan_bound (y / x)). pose proof (atan_nonpos _ H). Lra.lra.
      * assert (Hy' : y < 0) by Lra.lra.
        assert (0 < y / x).
        { unfold Rdiv. pose proof (Rinv_lt_0_compat x Hx') as Hk.
          set (k := / x) in *. clearbody k. clear - Hy' Hk. Lra.nra. }
        pose proof (atan_bound (y / x)). pose proof (atan_increasing _ _ H) as Hi.
        rewrite atan_0 in Hi. Lra.lra.
    + destruct (Rlt_dec 0 y); [Lra.lra|]. destruct (Rlt_dec y 0); Lra.lra.
Qed.

(** On two sides that are not negative the angle is between 0 and pi/2. *)
Lemma atan2_quadrant (y x : R) : 0 <= y -> 0 <= x -> 0 <= atan2 y x <= PI / 2.
Proof.
  intros Hy Hx. pose proof PI_RGT_0 as Hpi. unfold atan2.
  destruct (Rlt_dec 0 x) as [Hx'|Hx'].
  - assert (0 <= y / x).
    { unfold Rdiv. pose proof (Rinv_0_lt_compat x Hx'). Lra.nra. }
    pose proof (atan_bound (y / x)). pose proof (atan_nonneg _ H). Lra.lra.
  - destruct (Rlt_dec x 0); [Lra.lra|].
    destruct (Rlt_dec 0 y); [Lra.lra|]. destruct (Rlt_dec y 0); Lra.lra.
Qed.

Lemma centralAngle_real (a b : LatLng number) :
  centralAngle a b =
  2 * atan2
        (sqrt (sin ((latitude b - latitude a) * PI / 180 / 2) *
               sin ((latitude b - latitude a) * PI / 180 / 2) +
               cos (latitude a * PI / 180) * cos (latitude b * PI / 180) *
               sin ((longitude b - longitude a) * PI / 180 / 2) *
               sin ((longitude b - longitude a) * PI / 180 / 2)))
        (sqrt (1 - (sin ((latitude b - latitude a) * PI / 180 / 2) *
                    sin ((latitude b - latitude a) * PI / 180 / 2) +
                    cos (latitude a * PI / 180) * cos (latitude b * PI / 180) *
                    sin ((longitude b - longitude a) * PI / 180 / 2) *
                    sin ((longitude b - longitude a) * PI / 180 / 2)))).
Proof. reflexivity. Qed.

Lemma centralAngle_symmetric (a b : LatLng number) : centralAngle a b = centralAngle b a.
Proof.
  rewrite !centralAngle_real.
  replace ((latitude a - latitude b) * PI / 180 / 2)
    with (- ((latitude b - latitude a) * PI / 180 / 2)) by (unfold Rdiv; ring).
  replace ((longitude a - longitude b) * PI / 180 / 2)
    with (- ((longitude b - longitude a) * PI / 180 / 2)) by (unfold Rdiv; ring).
  rewrite !sin_neg.
  set (s1 := sin _). set (s2 := sin _). set (c1 := cos _). set (c2 := cos _).
  replace (- s1 * - s1 + c2 * c1 * - s2 * - s2) with (s1 * s1 + c1 * c2 * s2 * s2) by ring.
  reflexivity.
Qed.

Lemma centralAngle_same (a : LatLng number) : centralAngle a a = 0.
Proof.
  rewrite centralAngle_real.
  replace ((latitude a - latitude a) * PI / 180 / 2) with 0 by (unfold Rdiv; ring).
  replace ((longitude a - longitude a) * PI / 180 / 2) with 0 by (unfold Rdiv; ring).
  rewrite sin_0.
  replace (0 * 0 + cos (latitude a * PI / 180) * cos (latitude a * PI / 180) * 0 * 0)
    with 0 by ring.
  rewrite Rminus_0_r, sqrt_0, sqrt_1. unfold atan2.
  destruct (Rlt_dec 0 1); [|Lra.lra].
  replace (0 / 1) with 0 by (unfold Rdiv; ring). rewrite atan_0. exact (Rmult_0_r 2).
Qed.

Lemma centralAngle_range (a b : LatLng number) : 0 <= centralAngle a b <= PI.
Proof.
  rewrite centralAngle_real.
  match goal with |- _ <= 2 * atan2 ?y ?x <= _ =>
    pose proof (atan2_quadrant y x (sqrt_pos _) (sqrt_pos _)) end.
  Lra.lra.
Qed.

(** The great-circle distance in exact arithmetic. For both
    [haversineDistanceInMeters] and [calculateDistance], over the real
    numbers: the distance from a point to itself is 0, the distance does not
    depend on the order of the two points, and it lies between 0 and half
    the circumference of the Earth, 6371000 pi metres. *)
Theorem distance_is_symmetric_and_bounded :
  (forall a : LatLng number,
     haversineDistanceInMeters a a = 0 /\ calculateDistance a a = 0) /\
  (forall a b : LatLng number,
     haversineDistanceInMeters a b = haversineDistanceInMeters b a /\
     calculateDistance a b = calculateDistance b a) /\
  (forall a b : LatLng number,
     0 <= haversineDistanceInMeters a b <= 6371000 * PI /\
     0 <= calculateDistance a b <= 6371000 * PI).
Proof.
  assert (Hh : forall a b : LatLng number,
             haversineDistanceInMeters a b = 6371000 * centralAngle a b) by reflexivity.
  assert (Hc : forall a b : LatLng number,
             calculateDistance a b = 6371 * centralAngle a b * 1000) by reflexivity.
  split; [|split].
  - intro a. rewrite Hh, Hc, centralAngle_same. split.
    + exact (Rmult_0_r 6371000).
    + change (@eq R (6371 * 0 * 1000) 0). ring.
  - intros a b. rewrite !Hh, !Hc, (centralAngle_symmetric a b). split; reflexivity.
  - intros a b. rewrite Hh, Hc. pose proof (centralAngle_range a b) as H.
    pose proof PI_RGT_0. set (c := centralAngle a b) in *. clearbody c.
    split; split; Lra.lra.
Qed.

Ltac as_real := match goal with |- @eq _ ?x ?y => change (@eq R x y) end.

(** [calculateCarRotation] in exact arithmetic: the rotation is a bearing
    in degrees, more than -180 and at most 180; it is 0 for a move due north,
    90 due east, 180 due south and -90 due west, and 0 when the car has not
    moved. *)
Theorem car_rotation_is_a_bearing :
  (forall p q : LatLng number, -180 < calculateCarRotation p q <= 180) /\
  (forall p q : LatLng number,
     longitude q = longitude p ->
     (latitude p < latitude q -> calculateCarRotation p q = 0) /\
     (latitude q < latitude p -> calculateCarRotation p q = 180) /\
     (latitude q = latitude p -> calculateCarRotation p q = 0)) /\
  (forall p q : LatLng number,
     latitude q = latitude p ->
     (longitude p < longitude q -> calculateCarRotation p q = 90) /\
     (longitude q < longitude p -> calculateCarRotation p q = -90)).
Proof.
  pose proof PI_RGT_0 as Hpi.
  assert (Hr : forall p q : LatLng number,
             calculateCarRotation p q =
             atan2 (longitude q - longitude p) (latitude q - latitude p) * (180 / PI))
    by reflexivity.
  assert (Hk : 0 < / PI) by (apply Rinv_0_lt_compat, Hpi).
  assert (Hk1 : PI * / PI = 1) by (apply Rinv_r; Lra.lra).
  split; [|split].
  - intros p q. rewrite Hr.
    pose proof (atan2_range (longitude q - longitude p) (latitude q - latitude p)) as [H1 H2].
    set (t := atan2 _ _) in *. clearbody t. unfold Rdiv.
    set (k := / PI) in *. clearbody k.
    assert (t * k <= 1) by Lra.nra. assert (-1 < t * k) by Lra.nra. Lra.lra.
  - intros p q E. rewrite !Hr, E. replace (longitude p - longitude p) with 0 by ring.
    unfold atan2. repeat split; intro H.
    + destruct (Rlt_dec 0 (latitude q - latitude p)); [|Lra.lra].
      replace (0 / (latitude q - latitude p)) with 0 by (unfold Rdiv; ring).
      rewrite atan_0. as_real. ring.
    + destruct (Rlt_dec 0 (latitude q - latitude p)); [Lra.lra|].
      destruct (Rlt_dec (latitude q - latitude p) 0); [|Lra.lra].
      destruct (Rle_dec 0 0); [|Lra.lra].
      replace (0 / (latitude q - latitude p)) with 0 by (unfold Rdiv; ring).
      rewrite atan_0. unfold Rdiv. set (k := / PI) in *. clearbody k. as_real. Lra.nra.
    + rewrite H. replace (latitude p - latitude p) with 0 by ring.
      destruct (Rlt_dec 0 0); [Lra.lra|]. as_real. ring.
  - intros p q E. rewrite !Hr, E. replace (latitude p - latitude p) with 0 by ring.
    unfold atan2. destruct (Rlt_dec 0 0); [Lra.lra|]. split; intro H.
    + destruct (Rlt_dec 0 (longitude q - longitude p)); [|Lra.lra].
      unfold Rdiv. set (k := / PI) in *. clearbody k. as_real. Lra.nra.
    + destruct (Rlt_dec 0 (longitude q - longitude p)); [Lra.lra|].
      destruct (Rlt_dec (longitude q - longitude p) 0); [|Lra.lra].
      unfold Rdiv. set (k := / PI) in *. clearbody k. as_real. Lra.nra.
Qed.
End RealFacts.

Lemma car_rotation_is_a_bearing_witness :
  CustomerMap.calculateCarRotation (M := Real.math)
    (@Build_LatLng Real.number 1%R 2%R) (@Build_LatLng Real.number 1%R 3%R) = 90%R.
Proof.
  apply (proj2 (proj2 car_rotation_is_a_bearing)); [reflexivity|cbn; Lra.lra].
Defined.

(** ** A session of the tracking service *)

Section SessionFacts.
Context {N : JsNumber}.
Import AutoDriverTracking TrackingSession.

Lemma NoDup_clearTimer {A : Type} (id : nat) (l : list (Timer A)) :
  NoDup (map timer_id l) -> NoDup (map timer_id (clearTimer id l)).
Proof. apply NoDup_map_filter. Qed.

Lemma NoDup_new_timer {A : Type} (l : list (Timer A)) (t : Timer A) (next : nat) :
  NoDup (map timer_id l) -> (forall u, In u l -> (timer_id u < next)%nat) -> timer_id t = next ->
  NoDup (map timer_id (l ++ [t])).
Proof.
  intros Hn Hb Ht. rewrite map_app. apply NoDup_app; [exact Hn|repeat constructor; intros []|].
  intros a Ha [<-|[]]. apply in_map_iff in Ha. destruct Ha as (u & Hu & Hin).
  specialize (Hb u Hin). lia.
Qed.

Lemma orderly_initial : orderly (N := N) initial.
Proof.
  split; [|split; [|split; [|split]]].
  - intros [|i] w H; discriminate H.
  - intros t [].
  - constructor.
  - intros t [].
  - intros t [].
Qed.

(** The invariant reads six of the variables only. *)
Lemma orderly_ext (s s' : State) :
  ws s' = ws s -> sockets s' = sockets s -> timers s' = timers s ->
  nextTimer s' = nextTimer s -> heartbeat s' = heartbeat s ->
  reconnectTimer s' = reconnectTimer s ->
  orderly s -> orderly s'.
Proof.
  unfold orderly. intros -> -> -> -> -> ->. auto.
Qed.

Lemma is_live_send {C : Type} (m : Message N) (w : WebSocket N C) :
  is_live (send m w) = is_live w.
Proof. unfold send. destruct (is_open w); reflexivity. Qed.

Lemma is_live_close {C : Type} (code : option Z) (w : WebSocket N C) :
  is_live (close code w) = false.
Proof. unfold close, is_live. destruct (readyState w) eqn:E; cbn; rewrite ?E; reflexivity. Qed.

(** A change of the sockets that turns no socket live, except possibly
    the one [ws] refers to, keeps them orderly. *)
Lemma orderly_sockets (s : State) (i : nat) (f : WebSocket N unit -> WebSocket N unit) :
  (ws s = Some i \/ forall w, is_live (f w) = true -> is_live w = true) ->
  orderly s -> orderly (with_sockets (update_nth i f) s).
Proof.
  intros Hf (H1 & H2). split; [|exact H2].
  cbn [with_sockets ws sockets]. intros j w Hj Hl.
  rewrite nth_error_update_nth in Hj. destruct (Nat.eqb_spec i j) as [->|Hne].
  - destruct (nth_error (sockets s) j) as [w0|] eqn:E; [|discriminate]. injection Hj as <-.
    destruct Hf as [Hf|Hf]; [exact Hf|]. apply (H1 j w0 E). apply Hf, Hl.
  - exact (H1 j w Hj Hl).
Qed.

Lemma orderly_ws_send (m : Message N) (s : State) : orderly s -> orderly (ws_send m s).
Proof.
  intro H. unfold ws_send. destruct (ws s) as [i|] eqn:E; [|exact H].
  apply orderly_sockets; [|exact H]. left. exact E.
Qed.

Lemma orderly_sendLocationUpdate (s : State) : orderly s -> orderly (sendLocationUpdate s).
Proof.
  intro H. unfold sendLocationUpdate. destruct (negb (ws_open s)); [exact H|].
  destruct (driverId s); [|exact H]. destruct (currentPosition s); [|exact H].
  destruct (_ =? _)%string; [exact H|]. apply orderly_ws_send, H.
Qed.

Lemma orderly_sendPing (s : State) : orderly s -> orderly (sendPing s).
Proof.
  intro H. unfold sendPing. destruct (ws_open s); [|exact H]. apply orderly_ws_send, H.
Qed.

Lemma no_ping_without_heartbeat (s : State) (t : Timer Action) :
  orderly s -> In t (timers s) -> is_ping t = true -> heartbeat s <> Some (timer_id t) -> False.
Proof. intros (_ & _ & _ & H & _) Hin Hp Hn. exact (Hn (H t Hin Hp)). Qed.

Lemma orderly_stopHeartbeat (s : State) :
  orderly s -> orderly (stopHeartbeat s) /\ heartbeat (stopHeartbeat s) = None.
Proof.
  intros H. unfold stopHeartbeat. destruct (heartbeat s) as [h|] eqn:E; [|split; assumption].
  split; [|reflexivity]. pose proof H as (H1 & H2 & H3 & H4 & H5).
  split; [exact H1|]. cbn [timers nextTimer heartbeat reconnectTimer].
  split; [|split; [|split]].
  - intros t Ht. apply clearTimer_In in Ht. apply H2, Ht.
  - apply NoDup_clearTimer, H3.
  - intros t Ht Hp. apply clearTimer_In in Ht. destruct Ht as [Ht Hne].
    exfalso. specialize (H4 t Ht Hp). congruence.
  - intros t Ht Hp. apply clearTimer_In in Ht. apply H5; [apply Ht|exact Hp].
Qed.

Lemma orderly_startHeartbeat (s : State) : orderly s -> orderly (startHeartbeat s).
Proof.
  intros H. pose proof H as (H1 & H2 & H3 & H4 & H5).
  unfold startHeartbeat. cbv zeta.
  set (cleared := match heartbeat s with Some h => clearTimer h (timers s) | None => timers s end).
  assert (Hsub : forall t, In t cleared -> In t (timers s) /\ heartbeat s <> Some (timer_id t)).
  { intros t Ht. subst cleared. destruct (heartbeat s) as [h|] eqn:E.
    - apply clearTimer_In in Ht. split; [apply Ht|]. intros [= ->]. apply (proj2 Ht). reflexivity.
    - split; [exact Ht|discriminate]. }
  assert (Hnd : NoDup (map timer_id cleared)).
  { subst cleared. destruct (heartbeat s); [apply NoDup_clearTimer|]; exact H3. }
  clearbody cleared.
  split; [exact H1|]. cbn [timers nextTimer heartbeat reconnectTimer].
  split; [|split; [|split]].
  - intros t Ht. apply in_app_or in Ht. destruct Ht as [Ht|[<-|[]]].
    + specialize (H2 t (proj1 (Hsub t Ht))). lia.
    + cbn. lia.
  - apply (NoDup_new_timer _ _ (nextTimer s)); [exact Hnd| |reflexivity].
    intros u Hu. apply H2, Hsub, Hu.
  - intros t Ht Hp. apply in_app_or in Ht. destruct Ht as [Ht|[<-|[]]]; [|reflexivity].
    exfalso. destruct (Hsub t Ht) as [Hin Hne]. exact (Hne (H4 t Hin Hp)).
  - intros t Ht Hp. apply in_app_or in Ht. destruct Ht as [Ht|[<-|[]]]; [|discriminate Hp].
    apply H5; [apply Hsub, Ht|exact Hp].
Qed.
Lemma orderly_onopen (s : State) : orderly s -> orderly (onopen s).
Proof.
  intro H. unfold onopen. cbv zeta.
  apply orderly_sendLocationUpdate, orderly_ws_send, orderly_startHeartbeat.
  revert H. apply orderly_ext; reflexivity.
Qed.

Lemma orderly_onclose (s : State) : orderly s -> orderly (onclose s).
Proof.
  intro H. destruct (orderly_stopHeartbeat s H) as [H' Hh].
  unfold onclose. cbv zeta. set (s1 := stopHeartbeat s) in *. clearbody s1.
  pose proof H' as (H1 & H2 & H3 & H4 & H5).
  set (cleared := match reconnectTimer s1 with Some t => clearTimer t (timers s1) | None => timers s1 end).
  assert (Hsub : forall t, In t cleared -> In t (timers s1) /\ reconnectTimer s1 <> Some (timer_id t)).
  { intros t Ht. subst cleared. destruct (reconnectTimer s1) as [r|] eqn:E.
    - apply clearTimer_In in Ht. split; [apply Ht|]. intros [= ->]. apply (proj2 Ht). reflexivity.
    - split; [exact Ht|discriminate]. }
  assert (Hnd : NoDup (map timer_id cleared)).
  { subst cleared. destruct (reconnectTimer s1); [apply NoDup_clearTimer|]; exact H3. }
  clearbody cleared.
  split; [exact H1|]. cbn [timers nextTimer heartbeat reconnectTimer].
  split; [|split; [|split]].
  - intros t Ht. apply in_app_or in Ht. destruct Ht as [Ht|[<-|[]]].
    + specialize (H2 t (proj1 (Hsub t Ht))). lia.
    + cbn. lia.
  - apply (NoDup_new_timer _ _ (nextTimer s1)); [exact Hnd| |reflexivity].
    intros u Hu. apply H2, Hsub, Hu.
  - intros t Ht Hp. apply in_app_or in Ht. destruct Ht as [Ht|[<-|[]]]; [|discriminate Hp].
    apply H4; [apply Hsub, Ht|exact Hp].
  - intros t Ht Hp. apply in_app_or in Ht. destruct Ht as [Ht|[<-|[]]]; [|reflexivity].
    exfalso. destruct (Hsub t Ht) as [Hin Hne]. exact (Hne (H5 t Hin Hp)).
Qed.

Lemma orderly_connectSocket (s : State) : orderly s -> orderly (connectSocket s).
Proof.
  intro H. unfold connectSocket. destruct (negb (truthy (driverId s))); [exact H|].
  assert (Hnew : (forall w, current s = Some w -> is_live w = false) ->
                 orderly {| ws := Some (List.length (sockets s)); heartbeat := heartbeat s;
                            watchId := watchId s; currentPosition := currentPosition s;
                            driverId := driverId s; cabNumber := cabNumber s;
                            reconnectTimer := reconnectTimer s;
                            reconnectAttempts := reconnectAttempts s;
                            sockets := sockets s ++ [new_socket tt]; timers := timers s;
                            nextTimer := nextTimer s |}).
  { intro Hc. destruct H as (H1 & H2). split; [|exact H2].
    cbn [ws sockets]. intros j w Hj Hl.
    destruct (Nat.lt_ge_cases j (List.length (sockets s))) as [Hlt|Hge].
    - rewrite nth_error_app1 in Hj by exact Hlt.
      pose proof (H1 j w Hj Hl) as Hw. exfalso.
      assert (current s = Some w) as Hcur by (unfold current; rewrite Hw; exact Hj).
      rewrite (Hc w Hcur) in Hl. discriminate.
    - rewrite nth_error_app2 in Hj by exact Hge.
      destruct (j - List.length (sockets s))%nat as [|k] eqn:E.
      + f_equal. lia.
      + destruct k; discriminate Hj. }
  destruct (current s) as [[[] o c h]|] eqn:E; try exact H; apply Hnew;
    intros w [= <-]; reflexivity || discriminate.
Qed.

Lemma orderly_clear (s : State) (id : nat) : orderly s -> orderly (with_timers (clearTimer id) s).
Proof.
  intros (H1 & H2 & H3 & H4 & H5). split; [exact H1|].
  cbn [with_timers timers nextTimer heartbeat reconnectTimer].
  split; [|split; [|split]].
  - intros t Ht. apply clearTimer_In in Ht. apply H2, Ht.
  - apply NoDup_clearTimer, H3.
  - intros t Ht. apply clearTimer_In in Ht. apply H4, Ht.
  - intros t Ht. apply clearTimer_In in Ht. apply H5, Ht.
Qed.

Lemma orderly_stopAutoTracking (s : State) : orderly s -> orderly (stopAutoTracking s).
Proof.
  intro H. unfold stopAutoTracking. cbv zeta.
  match goal with |- orderly (match reconnectTimer (stopHeartbeat ?a) with _ => _ end) =>
    set (s1 := a) end.
  assert (H1 : orderly s1).
  { subst s1. destruct (ws s) as [i|] eqn:E.
    - assert (Hs : orderly (if ws_open s
                            then ws_send (DRIVER_DISCONNECT (driverId s) (cabNumber s)) s else s)).
      { destruct (ws_open s); [apply orderly_ws_send|]; exact H. }
      assert (Hw : ws (if ws_open s
                       then ws_send (DRIVER_DISCONNECT (driverId s) (cabNumber s)) s else s) = Some i).
      { destruct (ws_open s); [|exact E]. unfold ws_send. rewrite E. exact E. }
      set (s' := if ws_open s then _ else s) in *. clearbody s'.
      destruct Hs as (Ha & Hb). split; [|exact Hb].
      cbn [ws sockets with_sockets]. intros j w Hj Hl. exfalso.
      rewrite nth_error_update_nth in Hj. destruct (Nat.eqb_spec i j) as [->|Hne].
      + destruct (nth_error (sockets s') j); [|discriminate]. injection Hj as <-.
        rewrite is_live_close in Hl. discriminate.
      + pose proof (Ha j w Hj Hl). congruence.
    - destruct H as (Ha & Hb). split; [|exact Hb]. cbn [ws sockets].
      intros j w Hj Hl. pose proof (Ha j w Hj Hl). congruence. }
  clearbody s1. destruct (orderly_stopHeartbeat s1 H1) as [H2 Hh].
  set (s2 := stopHeartbeat s1) in *. clearbody s2.
  destruct (reconnectTimer s2) as [r|] eqn:E; [|exact H2].
  destruct H2 as (Ha & Hb & Hc & Hd & He). split; [exact Ha|].
  cbn [timers nextTimer heartbeat reconnectTimer].
  split; [|split; [|split]].
  - intros t Ht. apply clearTimer_In in Ht. apply Hb, Ht.
  - apply NoDup_clearTimer, Hc.
  - intros t Ht. apply clearTimer_In in Ht. apply Hd, Ht.
  - intros t Ht Hp. apply clearTimer_In in Ht. destruct Ht as [Ht Hne]. exfalso.
    specialize (He t Ht Hp). congruence.
Qed.

Lemma orderly_step (s : State) (e : Event) : orderly s -> orderly (step s e).
Proof.
  intro H. destruct e as [i|i|i|p|]; cbn [step].
  - destruct (nth_error (sockets s) i) as [[[] o c h]|] eqn:E; try exact H.
    apply orderly_onopen, orderly_sockets; [|exact H].
    left. apply (proj1 H i _ E). reflexivity.
  - destruct (nth_error (sockets s) i) as [[[] o c h]|] eqn:E; try exact H;
      (apply orderly_onclose, orderly_sockets; [|exact H]; right; intros w Hw; discriminate Hw).
  - destruct (findTimer i (timers s)) as [[j d []]|]; try exact H.
    + apply orderly_sendPing, H.
    + apply orderly_connectSocket, orderly_clear, H.
  - unfold onPosition. apply orderly_sendLocationUpdate. revert H. apply orderly_ext; reflexivity.
  - apply orderly_stopAutoTracking, H.
Qed.

Lemma orderly_exec (s : State) (c : Command) : orderly s -> orderly (exec s c).
Proof.
  intro H. destruct c as [e|uid cab permission]; [apply orderly_step, H|].
  cbn [exec]. unfold startAutoTracking. cbv zeta.
  match goal with |- orderly (if _ then _ else connectSocket ?a) =>
    assert (H1 : orderly (connectSocket a))
      by (apply orderly_connectSocket; revert H; apply orderly_ext; reflexivity)
  end.
  destruct permission; [|exact H1]. revert H1. apply orderly_ext; reflexivity.
Qed.

Lemma orderly_session (commands : list Command) : orderly (session commands).
Proof.
  unfold session. generalize (orderly_initial). generalize (initial (N := N)).
  induction commands as [|c l IH]; intros s H; [exact H|].
  cbn [fold_left]. apply IH, orderly_exec, H.
Qed.

(** Whatever the application and the platform do, in any order, the
    tracking service never has two live connections, two heartbeat intervals
    or two pending reconnection timeouts: of the sockets it created only the
    one [ws] refers to can be open or connecting, and every heartbeat or
    reconnection timer is the one its variable holds. *)
Theorem service_keeps_one_of_each :
  forall commands : list Command,
    let s := session commands in
    (forall i j wi wj,
       nth_error (sockets s) i = Some wi -> nth_error (sockets s) j = Some wj ->
       is_live wi = true -> is_live wj = true -> i = j /\ ws s = Some i) /\
    (forall t u, In t (timers s) -> In u (timers s) ->
       is_ping t = true -> is_ping u = true -> t = u /\ heartbeat s = Some (timer_id t)) /\
    (forall t u, In t (timers s) -> In u (timers s) ->
       is_reconnect t = true -> is_reconnect u = true ->
       t = u /\ reconnectTimer s = Some (timer_id t)).
Proof.
  intros commands s. destruct (orderly_session commands) as (H1 & H2 & H3 & H4 & H5).
  fold s in H1, H2, H3, H4, H5.
  assert (Hid : forall t u, In t (timers s) -> In u (timers s) -> timer_id t = timer_id u -> t = u).
  { clear - H3. induction (timers s) as [|x l IH]; intros t u Ht Hu E; [destruct Ht|].
    cbn in H3. inversion H3 as [|y ys Hy Hys]; subst.
    destruct Ht as [<-|Ht], Hu as [<-|Hu]; try reflexivity.
    - exfalso. apply Hy. rewrite E. apply in_map, Hu.
    - exfalso. apply Hy. rewrite <- E. apply in_map, Ht.
    - apply IH; assumption. }
  split; [|split].
  - intros i j wi wj Hi Hj Li Lj. pose proof (H1 i wi Hi Li). pose proof (H1 j wj Hj Lj).
    split; [congruence|assumption].
  - intros t u Ht Hu Pt Pu. pose proof (H4 t Ht Pt). pose proof (H4 u Hu Pu).
    split; [apply Hid; congruence|assumption].
  - intros t u Ht Hu Pt Pu. pose proof (H5 t Ht Pt). pose proof (H5 u Hu Pu).
    split; [apply Hid; congruence|assumption].
Qed.
End SessionFacts.

Lemma service_keeps_one_of_each_witness :
  let commands :=
    [TrackingSession.start (N := Binary64.number) (Some "driver-7"%string) (Some "MH12AB1234"%string) true;
     TrackingSession.event (AutoDriverTracking.socket_opened 0);
     TrackingSession.event AutoDriverTracking.stop;
     TrackingSession.event (AutoDriverTracking.socket_closed 0);
     TrackingSession.event (AutoDriverTracking.timer_fired 2);
     TrackingSession.start (Some "driver-7"%string) (Some "MH12AB1234"%string) true] in
  option_map (TrackingSession.is_live (C := unit))
    (nth_error (AutoDriverTracking.sockets (TrackingSession.session commands)) 1) = Some true /\
  AutoDriverTracking.ws (TrackingSession.session commands) = Some 1%nat.
Proof.
  cbv zeta. split; [reflexivity|].
  match goal with |- AutoDriverTracking.ws (TrackingSession.session ?c) = _ =>
    destruct (service_keeps_one_of_each c) as (H & _)
  end.
  eapply (H 1%nat 1%nat); reflexivity.
Defined.

(** ** The viewer gives up *)

Section ViewerGivesUp.
Context {N : JsNumber}.
Import CustomerDetailScreen.
Local Open Scope Z_scope.

End ViewerGivesUp.


(** ** Following the driver *)

Section UpdateFacts.
Context {N : JsNumber} {M : JsMath N} {F : JsFormat N}.
Import CustomerDetailScreen CustomerMap DriverUpdates.
Local Open Scope js_scope.

(** [updateGuidanceProgress] reads no step outside the list it works on,
    whatever render its closure is from. *)
Lemma updateGuidanceProgress_completes (r g : Guidance) (point : LatLng N)
    (stepsOverride : option (list RouteStepInfo)) :
  exists g',
    updateGuidanceProgress r point stepsOverride g = Some g' /\
    guidanceSteps g' = guidanceSteps g /\
    (activeStepIndex g' = activeStepIndex g \/
     (activeStepIndex g' <=
      List.length (match stepsOverride with Some l => l | None => guidanceSteps r end) - 1)%nat).
Proof.
  unfold updateGuidanceProgress. cbv zeta.
  set (steps := match stepsOverride with Some l => l | None => guidanceSteps r end).
  destruct steps as [|s0 rest] eqn:Hsteps.
  - eexists. split; [reflexivity|]. cbn [setActiveStep guidanceSteps activeStepIndex].
    split; [reflexivity|]. destruct (Nat.eqb _ _); [left; reflexivity|right; cbn; lia].
  - rewrite <- Hsteps.
    assert (Hlen : (0 < List.length steps)%nat) by (rewrite Hsteps; cbn; lia).
    clear s0 rest Hsteps.
    set (idx0 := Nat.min (activeStepIndex r) (List.length steps - 1)).
    assert (H0 : (idx0 < List.length steps)%nat) by (subst idx0; lia).
    destruct (nth_error steps idx0) as [step0|] eqn:Hs0.
    2:{ apply nth_error_None in Hs0. lia. }
    destruct (advance_spec point steps (List.length steps) idx0
                (calculateDistance point (endLocation step0)))
      as (idx & remaining & H1 & H2 & _).
    { exact H0. }
    { unfold distanceTo. rewrite Hs0. reflexivity. }
    { lia. }
    rewrite H1.
    match goal with |- context [setActiveStep (activeStepIndex ?x) _ _ ?x] => set (g2 := x) end.
    assert (Hg2 : (activeStepIndex g2 = activeStepIndex g \/ activeStepIndex g2 = idx) /\
                  guidanceSteps g2 = guidanceSteps g).
    { subst g2.
      match goal with |- context [if (_ && _ && _)%bool then _ else ?x] => set (g1 := x) end.
      assert (Hg1 : (activeStepIndex g1 = activeStepIndex g \/ activeStepIndex g1 = idx) /\
                    guidanceSteps g1 = guidanceSteps g).
      { subst g1. destruct (Nat.eqb idx (activeStepIndex r)); [auto|].
        cbv zeta. destruct (nth_error steps idx) as [step|]; [|auto].
        destruct (ttsEnabled r && ttsInitialized r); [|auto].
        destruct (speakGuidanceStep_frame r step false
                    (setActiveStep idx (activeStepDistance g) (activeStepMeters g) g)) as [Ha Hb].
        rewrite Ha, Hb. auto. }
      clearbody g1.
      destruct (_ && _ && _)%bool; [|exact Hg1].
      destruct (nth_error steps (idx + 1)) as [nextStep|]; [|exact Hg1].
      destruct (existsb _ _); [exact Hg1|].
      destruct (speakGuidanceStep_frame r nextStep true g1) as [Ha Hb]. rewrite Ha, Hb. exact Hg1. }
    clearbody g2. destruct Hg2 as [Hidx Hst].
    eexists. split; [reflexivity|].
    cbn [setActiveStep guidanceSteps activeStepIndex]. split; [exact Hst|].
    destruct Hidx as [Hi | Hi]; [left; exact Hi|right; lia].
Qed.

Lemma noteDriver_completes (r v : Tracking) (live : LiveLocation) :
  snd (noteDriver r live v) = true.
Proof.
  unfold noteDriver. cbv zeta.
  destruct (updateGuidanceProgress_completes (guidance r) (guidance v) (driverPoint live) None)
    as (g' & Hg & _).
  rewrite Hg. reflexivity.
Qed.

Lemma applyRouteResult_completes (r v : Tracking) (route : RouteResult) :
  snd (applyRouteResult r route v) = true.
Proof.
  unfold applyRouteResult. cbv zeta.
  destruct (steps route) as [|first rest] eqn:Hsteps; [reflexivity|].
  rewrite <- Hsteps.
  destruct (match currentLocation r with Some p => Some p | None => hd_error (coordinates route) end)
    as [p|]; [|reflexivity].
  match goal with |- context [updateGuidanceProgress ?a ?b ?c ?d] =>
    destruct (updateGuidanceProgress_completes a d b c) as (g' & Hg & _) end.
  rewrite Hg. reflexivity.
Qed.

Lemma applyRouteResult_pending (r v : Tracking) (route : RouteResult) :
  pendingRoute (fst (applyRouteResult r route v)) = pendingRoute v.
Proof.
  unfold applyRouteResult. cbv zeta.
  destruct (steps route) as [|first rest]; [reflexivity|].
  destruct (match currentLocation r with Some p => Some p | None => hd_error (coordinates route) end)
    as [p|]; [|reflexivity].
  destruct (updateGuidanceProgress _ _ _ _); reflexivity.
Qed.

Lemma noteDriver_pending (r v : Tracking) (live : LiveLocation) :
  pendingRoute (fst (noteDriver r live v)) = pendingRoute v.
Proof.
  unfold noteDriver. cbv zeta. destruct (updateGuidanceProgress _ _ _ _); reflexivity.
Qed.

Lemma updateRouteFromLive_pending (r v : Tracking) (live : LiveLocation) :
  pendingRoute (fst (updateRouteFromLive r live v)) = pendingRoute v.
Proof.
  unfold updateRouteFromLive. cbv zeta. cbn [fst].
  destruct (live_phase live) as [[ | | | | ]|];
    try reflexivity; destruct (_ || _); reflexivity.
Qed.

Lemma handleDriverUpdate_pending (r v : Tracking) (live : LiveLocation) :
  pendingRoute (fst (handleDriverUpdate r live v)) = nextRoute live (pendingRoute v) /\
  snd (handleDriverUpdate r live v) = nextRoute live (pendingRoute v).
Proof.
  unfold handleDriverUpdate.
  pose proof (noteDriver_completes r v live) as Hc.
  pose proof (noteDriver_pending r v live) as Hp.
  destruct (noteDriver r live v) as [v1 ok]. cbn [fst snd] in *. subst ok.
  cbv zeta. cbn [fst snd with_pendingRoute pendingRoute]. rewrite Hp. split; reflexivity.
Qed.

Lemma nextRoute_destination (live : LiveLocation) (pending : option (LatLng N * LatLng N))
    (d : LatLng N) :
  option_map snd pending = Some d ->
  nextRoute live pending = Some (driverPoint live, d).
Proof.
  destruct pending as [[o d']|]; cbn; [|discriminate]. intros [= ->]. reflexivity.
Qed.

Lemma happen_destination (v : Tracking) (h : Happening) (d : LatLng N) :
  pendingDestination v = Some d -> pendingDestination (happen v h) = Some d.
Proof.
  unfold pendingDestination. intros Hd.
  destruct h as [r live | r live origin destination google osrm | live destination google osrm];
    cbn [happen].
  - unfold onLocationUpdate. rewrite updateRouteFromLive_pending.
    destruct (handleDriverUpdate_pending r v live) as [Hp _]. rewrite Hp.
    rewrite (nextRoute_destination live _ d Hd). reflexivity.
  - unfold handleDriverUpdate_resumed.
    destruct (getDirections origin destination google osrm) as [routeResult|]; [|exact Hd].
    pose proof (applyRouteResult_pending r v routeResult) as Hp.
    destruct (applyRouteResult r routeResult v) as [v1 ok]. cbn [fst] in Hp.
    destruct ok; [|rewrite Hp; exact Hd].
    destruct (updateGuidanceProgress _ _ _ _) as [g|]; [|rewrite Hp; exact Hd].
    cbv zeta. cbn [with_guidance pendingRoute]. rewrite Hp.
    destruct (pendingRoute v) as [[o d']|]; [|discriminate].
    cbn in Hd. cbn. exact Hd.
  - unfold updateRouteFromLive_resumed.
    destruct (getDirections _ _ _ _) as [route|]; [|exact Hd].
    destruct (coordinates route); exact Hd.
Qed.

(** Once a route is pending, location messages and the directions that
    answer them move its origin only: whatever phase, pickup or drop the
    driver reports, and in whatever order messages and answers arrive, the
    route still ends at the same destination; and right after a message is
    received the route starts at the driver's position. *)
Theorem location_updates_keep_destination (happenings : list Happening) (v : Tracking)
    (d : LatLng N) :
  pendingDestination v = Some d ->
  pendingDestination (follow happenings v) = Some d /\
  (forall r live,
     pendingRoute (follow (happenings ++ [received r live]) v) = Some (driverPoint live, d)).
Proof.
  intros Hd.
  assert (Hall : forall hs v0, pendingDestination v0 = Some d ->
                   pendingDestination (follow hs v0) = Some d).
  { induction hs as [|h hs IH]; intros v0 H0; [exact H0|].
    cbn [follow fold_left]. apply IH, happen_destination, H0. }
  split; [apply Hall, Hd|].
  intros r live. unfold follow. rewrite fold_left_app. cbn [fold_left happen].
  unfold onLocationUpdate. rewrite updateRouteFromLive_pending.
  destruct (handleDriverUpdate_pending r (fold_left happen happenings v) live) as [Hp _].
  rewrite Hp. apply nextRoute_destination. apply (Hall happenings v Hd).
Qed.

(** While the viewer knows a pickup (or the message names one), the
    phase after a location message is [to_drop] when the driver says so and
    [to_pickup] otherwise: an arrival that the driver reports
    ([pickup_reached], [completed]) or that [handleDriverUpdate] detects by
    distance does not last, because [updateRouteFromLive] sets the phase
    after it.  The start button that the arrival at the pickup shows stays
    shown, unless the driver says [to_drop]. *)
Theorem location_update_phase (r v : Tracking) (live : LiveLocation) :
  pickupKnown r live ->
  let v' := onLocationUpdate r live v in
  currentLocation v' = Some (driverPoint live) /\
  (live_phase live = Some to_drop ->
     tripPhase v' = to_drop /\ mapMode v' = pickupToDrop /\ showStartTripButton v' = false) /\
  (live_phase live <> Some to_drop ->
     tripPhase v' = to_pickup /\ mapMode v' = toPickup /\
     (reachesPickup r live -> showStartTripButton v' = true)).
Proof.
  intros Hk. cbv zeta. unfold onLocationUpdate.
  assert (Hhas : hasCoordinates (live_pickup live) || isSome (pickupCoords r) = true).
  { destruct Hk as [Hk | Hk]; [rewrite Hk; reflexivity|].
    destruct (pickupCoords r); [apply orb_true_r|congruence]. }
  unfold handleDriverUpdate.
  pose proof (noteDriver_completes r v live) as Hc.
  assert (Hloc : currentLocation (fst (noteDriver r live v)) = Some (driverPoint live)).
  { unfold noteDriver. cbv zeta. destruct (updateGuidanceProgress _ _ _ _); reflexivity. }
  assert (Hstart : reachesPickup r live ->
                   showStartTripButton (fst (noteDriver r live v)) = true).
  { intros (pickup & Hp & Hph & Hb & Hnear). unfold noteDriver. cbv zeta.
    destruct (updateGuidanceProgress_completes (guidance r) (guidance v) (driverPoint live) None)
      as (g' & Hg & _).
    rewrite Hg. cbn [fst showStartTripButton]. rewrite Hp, Hph, Hb, Hnear. reflexivity. }
  destruct (noteDriver r live v) as [v1 ok]. cbn [fst snd] in *. subst ok.
  cbv zeta. cbn [fst].
  unfold updateRouteFromLive. cbv zeta. cbn [fst]. rewrite Hhas.
  split; [|split].
  - destruct (live_phase live) as [[ | | | | ]|]; cbn; exact Hloc.
  - intros ->. cbn. auto.
  - intros Hne.
    destruct (live_phase live) as [[ | | | | ]|]; try congruence; cbn; auto.
Qed.

(** None of the guidance calls made while following the driver throws,
    whatever render the callbacks are from and whatever route arrives:
    [updateGuidanceProgress] completes, keeps the list of steps and leaves
    the index as it was or within the steps it worked on, so neither
    [handleDriverUpdate] nor [applyRouteResult] is cut short by it. *)
Theorem following_never_throws (r v : Tracking) (live : LiveLocation) (route : RouteResult)
    (stepsOverride : option (list RouteStepInfo)) (point : LatLng N) :
  (exists g',
     updateGuidanceProgress (guidance r) point stepsOverride (guidance v) = Some g' /\
     guidanceSteps g' = guidanceSteps (guidance v) /\
     (activeStepIndex g' = activeStepIndex (guidance v) \/
      (activeStepIndex g' <=
       List.length (match stepsOverride with
                    | Some l => l
                    | None => guidanceSteps (guidance r)
                    end) - 1)%nat)) /\
  snd (noteDriver r live v) = true /\
  snd (applyRouteResult r route v) = true.
Proof.
  split; [apply updateGuidanceProgress_completes|].
  split; [apply noteDriver_completes|apply applyRouteResult_completes].
Qed.
End UpdateFacts.

Lemma location_updates_keep_destination_witness :
  DriverUpdates.pendingDestination
    (Viewer.follow [DriverUpdates.received Viewer.waiting Viewer.approaching;
                    DriverUpdates.directionsForGuidance Viewer.waiting Viewer.approaching
                      Trip.bengaluru Trip.pickupPoint
                      CustomerDetailScreen.request_failed CustomerDetailScreen.request_failed]
                   Viewer.routed) = Some Trip.dropPoint /\
  DriverUpdates.pendingRoute
    (Viewer.follow [DriverUpdates.received Viewer.waiting Viewer.approaching;
                    DriverUpdates.received Viewer.waiting Viewer.arriving]
                   Viewer.routed) = Some (Trip.nearPickup, Trip.dropPoint).
Proof.
  split.
  - apply (location_updates_keep_destination (M := Binary64.reference) (F := Binary64.format)).
    reflexivity.
  - apply (location_updates_keep_destination (M := Binary64.reference) (F := Binary64.format)
             [DriverUpdates.received Viewer.waiting Viewer.approaching] Viewer.routed
             Trip.dropPoint).
    reflexivity.
Defined.

Lemma location_update_phase_witness :
  DriverUpdates.tripPhase (Viewer.onLocationUpdate Viewer.waiting Viewer.arriving Viewer.waiting)
    = to_pickup /\
  DriverUpdates.showStartTripButton
    (Viewer.onLocationUpdate Viewer.waiting Viewer.arriving Viewer.waiting) = true.
Proof.
  destruct (location_update_phase (M := Binary64.reference) (F := Binary64.format)
              Viewer.waiting Viewer.waiting Viewer.arriving) as (_ & _ & H).
  { left. vm_compute. reflexivity. }
  destruct H as (Hphase & _ & Hstart).
  { intros H. discriminate H. }
  split; [exact Hphase|]. apply Hstart.
  exists Trip.pickupPoint.
  split; [reflexivity|]. split; [reflexivity|]. split; [reflexivity|].
  vm_compute. reflexivity.
Defined.

(** ** The guidance banner *)

Section BannerFacts.
Context {N : JsNumber} {M : JsMath N} {F : JsFormat N}.
Import CustomerDetailScreen GuidanceBanner.
Local Open Scope js_scope.

(** After a position update on a route, the banner's step is the step
    the index points to, and the banner is shown exactly when the driver is
    within 100 m of the end of that step; whatever the index, a route with
    steps always has a step to show and a title for it. *)
Theorem banner_within_100_m (g : Guidance) (point : LatLng N) :
  (activeStepIndex g < List.length (guidanceSteps g))%nat ->
  (exists g' step,
     positionUpdate g point = Some g' /\
     nth_error (guidanceSteps g) (activeStepIndex g') = Some step /\
     activeGuidanceStep g' = Some step /\
     shouldShowGuidance g' = (calculateDistance point (endLocation step) <=? lit 100)) /\
  (forall index : nat,
     exists step,
       activeGuidanceStep (setActiveStep index (activeStepDistance g) (activeStepMeters g) g)
         = Some step /\
       In step (guidanceSteps g) /\
       guidanceTitle (setActiveStep index (activeStepDistance g) (activeStepMeters g) g)
         <> ""%string).
Proof.
  intros Hlt. split.
  - destruct (updateGuidanceProgress_spec g g point) as (g' & Hg & Hst & Hidx & _ & _ & Hm).
    { apply fresh_refl. }
    { exact Hlt. }
    destruct (nth_error (guidanceSteps g) (activeStepIndex g')) as [step|] eqn:Hs.
    2:{ apply nth_error_None in Hs. lia. }
    exists g', step. split; [exact Hg|]. split; [exact Hs|].
    assert (Ha : activeGuidanceStep g' = Some step).
    { unfold activeGuidanceStep. rewrite Hst.
      destruct (guidanceSteps g) as [|s0 rest] eqn:Hsteps; [cbn in Hlt; lia|].
      rewrite <- Hsteps in *. rewrite Nat.min_l by lia. exact Hs. }
    split; [exact Ha|].
    unfold shouldShowGuidance. rewrite Ha, Hm. unfold distanceTo. rewrite Hs. reflexivity.
  - intros index.
    set (g' := setActiveStep index (activeStepDistance g) (activeStepMeters g) g).
    assert (Hsome : exists step, activeGuidanceStep g' = Some step /\ In step (guidanceSteps g)).
    { unfold activeGuidanceStep. subst g'. cbn [setActiveStep guidanceSteps activeStepIndex].
      destruct (guidanceSteps g) as [|s0 rest] eqn:Hsteps; [cbn in Hlt; lia|].
      rewrite <- Hsteps in *.
      destruct (nth_error (guidanceSteps g)
                  (Nat.min index (List.length (guidanceSteps g) - 1))) as [step|] eqn:Hs.
      - exists step. split; [reflexivity|]. eapply nth_error_In, Hs.
      - apply nth_error_None in Hs. lia. }
    destruct Hsome as (step & Ha & Hin). exists step. split; [exact Ha|]. split; [exact Hin|].
    unfold guidanceTitle. rewrite Ha. destruct (turnType step); discriminate.
Qed.
End BannerFacts.

Lemma banner_within_100_m_witness :
  (exists g' step,
     CustomerDetailScreen.positionUpdate (M := Binary64.reference) (F := Binary64.format)
       Trip.guidance Trip.pickupPoint = Some g' /\
     nth_error (CustomerDetailScreen.guidanceSteps Trip.guidance)
       (CustomerDetailScreen.activeStepIndex g') = Some step /\
     GuidanceBanner.activeGuidanceStep g' = Some step /\
     GuidanceBanner.shouldShowGuidance g' =
       leb (calculateDistance (M := Binary64.reference) Trip.pickupPoint
              (CustomerDetailScreen.endLocation step)) (lit 100)) /\
  option_map GuidanceBanner.shouldShowGuidance
    (CustomerDetailScreen.positionUpdate (M := Binary64.reference) (F := Binary64.format)
       Trip.guidance Trip.pickupPoint) = Some true /\
  option_map GuidanceBanner.guidanceTitle
    (CustomerDetailScreen.positionUpdate (M := Binary64.reference) (F := Binary64.format)
       Trip.guidance Trip.pickupPoint) = Some "Turn left"%string.
Proof.
  split.
  - apply (banner_within_100_m (M := Binary64.reference) (F := Binary64.format)
             Trip.guidance Trip.pickupPoint).
    cbn. lia.
  - split; vm_compute; reflexivity.
Defined.

(** ** Submitting the trip *)

Section SubmitFacts.
Context {N : JsNumber}.
Variable parseFloat : string -> num.
Variable geocode : string -> option (LatLng N).
Import LocationSearch LocationForm TripSubmission.
Local Open Scope string_scope.

Lemma pick_fields (field : Field) (item : LocationSuggestion) (f : Form) :
  place_id item <> "loading" ->
  let f' := pick parseFloat field item f in
  match field with
  | field_from =>
      location_from f' = addressOf item /\ pickupCoordinate f' = None /\
      location_to f' = location_to f /\ dropCoordinate f' = dropCoordinate f
  | field_to =>
      location_to f' = addressOf item /\ dropCoordinate f' = None /\
      location_from f' = location_from f /\ pickupCoordinate f' = pickupCoordinate f
  end.
Proof.
  intros Hid. cbv zeta. unfold pick, handleSelectSuggestion.
  cbn [handleInputFocus typingField].
  destruct (String.eqb_spec (place_id item) "loading") as [He | _]; [contradiction|].
  destruct field; cbn; repeat split; reflexivity.
Qed.

(** The coordinates sent with a trip are those of geocoding the two
    addresses again, never those of the suggestions the driver picked:
    after picking a pickup and a drop from the suggestions and pressing
    submit, the request carries the addresses up to ", India" with the
    geocoder's answers for them, and sharing starts exactly when the server
    accepts it; when the geocoder finds one of the addresses not, nothing
    is sent and the alert asks to pick from the suggestions. *)
Theorem picked_suggestions_are_geocoded (fromItem toItem : LocationSuggestion)
    (cabNumber token : string) (accepted : bool) (f : Form) :
  place_id fromItem <> "loading" -> place_id toItem <> "loading" ->
  trim (addressOf fromItem) <> "" -> trim (addressOf toItem) <> "" ->
  cabNumber <> "" -> token <> "" ->
  let s := handleSubmit geocode cabNumber (stored token) accepted
             (pick parseFloat field_to toItem (pick parseFloat field_from fromItem f)) in
  match geocode (addressOf fromItem), geocode (addressOf toItem) with
  | Some pickupPoint, Some dropPoint =>
      request s = Some {| pickupLocation := addressOf fromItem;
                          dropLocation := addressOf toItem;
                          pickup := pickupPoint; drop := dropPoint |} /\
      sharing s = accepted /\
      alerts s = [if accepted then sharing_started else submit_failed]
  | _, _ =>
      request s = None /\ sharing s = false /\ alerts s = [coordinates_unknown]
  end.
Proof.
  intros Hf Ht Haf Hat Hcab Htok. cbv zeta.
  set (f1 := pick parseFloat field_from fromItem f).
  set (f2 := pick parseFloat field_to toItem f1).
  pose proof (pick_fields field_from fromItem f Hf) as H1. cbv zeta in H1. fold f1 in H1.
  pose proof (pick_fields field_to toItem f1 Ht) as H2. cbv zeta in H2. fold f2 in H2.
  destruct H1 as (H1a & H1b & _ & _). destruct H2 as (H2a & H2b & H2c & H2d).
  rewrite H1a in H2c. rewrite H1b in H2d.
  unfold handleSubmit, validateInputs, ensureCoordinates, resolveAddressCoordinate.
  cbn [location_from location_to pickupCoordinate dropCoordinate].
  rewrite H2a, H2b, H2c, H2d.
  destruct (trim (addressOf fromItem)) as [|c1 r1] eqn:E1; [congruence|].
  destruct (trim (addressOf toItem)) as [|c2 r2] eqn:E2; [congruence|].
  cbn [negb andb].
  destruct cabNumber as [|cc cr]; [congruence|].
  destruct token as [|tc tr]; [congruence|].
  destruct (geocode (addressOf fromItem)) as [p|], (geocode (addressOf toItem)) as [d|];
    try (cbn; auto; fail).
  destruct accepted; cbn; auto.
Qed.

(** Sharing is started by a press on submit only when both addresses are
    filled in, a cab is assigned, both coordinates are known, a token is
    stored and the server accepts the request. *)
Lemma handleSubmit_sharing (cabNumber : string) (token : Stored) (accepted : bool) (f : Form) :
  sharing (handleSubmit geocode cabNumber token accepted f) = true ->
  fst (validateInputs f) = true /\ cabNumber <> "" /\
  fst (ensureCoordinates geocode f) <> None /\
  (exists value, token = stored value /\ value <> "") /\ accepted = true.
Proof.
  unfold handleSubmit, validateInputs, ensureCoordinates. cbn [fst].
  destruct (negb _ && negb _)%bool; cbn [negb]; [|discriminate].
  destruct cabNumber as [|cc cr]; [discriminate|].
  cbn [pickupCoordinate dropCoordinate location_from location_to].
  destruct (match pickupCoordinate f with Some p => Some p | None => _ end) as [p|];
    destruct (match dropCoordinate f with Some d => Some d | None => _ end) as [d|];
    try discriminate.
  destruct token as [[|tc tr] | | ]; try discriminate.
  destruct accepted; [|discriminate].
  intros _. repeat split; try discriminate. exists (String tc tr). split; [reflexivity|discriminate].
Qed.
End SubmitFacts.

Lemma picked_suggestions_are_geocoded_witness :
  let s := TripSubmission.handleSubmit TripSubmission.geocoder "KA01AB1234" (TripSubmission.stored "token") true
             (TripSubmission.pick TripSubmission.unparsed LocationForm.field_to TripSubmission.koramangala
                (TripSubmission.pick TripSubmission.unparsed LocationForm.field_from TripSubmission.mgRoad
                   LocationForm.typingPickup)) in
  TripSubmission.request s =
    Some (@TripSubmission.Build_TripUpdate Binary64.number
            "MG Road, Bengaluru, Karnataka" "Koramangala, Bengaluru, Karnataka"
            Trip.pickupPoint Trip.dropPoint) /\
  TripSubmission.sharing s = true.
Proof.
  cbv zeta.
  pose proof (picked_suggestions_are_geocoded TripSubmission.unparsed TripSubmission.geocoder
                TripSubmission.mgRoad TripSubmission.koramangala "KA01AB1234" "token" true
                LocationForm.typingPickup) as H.
  cbv zeta in H.
  assert (Hfrom : TripSubmission.geocoder (TripSubmission.addressOf TripSubmission.mgRoad)
                  = Some Trip.pickupPoint) by reflexivity.
  assert (Hto : TripSubmission.geocoder (TripSubmission.addressOf TripSubmission.koramangala)
                = Some Trip.dropPoint) by reflexivity.
  rewrite Hfrom, Hto in H.
  destruct H as (Hr & Hs & _).
  - intro E. discriminate E.
  - intro E. discriminate E.
  - intro E. discriminate E.
  - intro E. discriminate E.
  - intro E. discriminate E.
  - intro E. discriminate E.
  - split; [|exact Hs]. rewrite Hr. reflexivity.
Defined.

(** ** The steps of a route *)

Section StepFacts.
Context {N : JsNumber} {F : JsFormat N}.
Import CustomerDetailScreen RouteSteps.
Local Open Scope string_scope.

Lemma hasChar_append (c : ascii) (a b : string) :
  hasChar c (a ++ b) = hasChar c a || hasChar c b.
Proof.
  induction a as [|d a IH]; [reflexivity|]. cbn. rewrite IH. apply orb_assoc.
Qed.

Lemma strip_tags_free (inTag : bool) (s : string) : hasChar "<" (strip_tags inTag s) = false.
Proof.
  revert inTag. induction s as [|c s IH]; intro inTag; [reflexivity|].
  cbn [strip_tags]. destruct inTag; [apply IH|].
  destruct (Ascii.eqb c "<") eqn:Hc; [apply IH|].
  cbn [hasChar]. rewrite Hc, IH. reflexivity.
Qed.

Lemma replace_all_free (c : ascii) (pattern replacement : string) (skip : nat) (s : string) :
  hasChar c replacement = false -> hasChar c s = false ->
  hasChar c (replace_all pattern replacement skip s) = false.
Proof.
  intros Hr. revert skip. induction s as [|d s IH]; intros skip Hs; [reflexivity|].
  cbn [hasChar] in Hs. apply orb_false_iff in Hs. destruct Hs as [Hd Hs].
  cbn [replace_all]. destruct skip as [|k]; [|apply IH, Hs].
  destruct (String.prefix pattern (String d s)).
  - rewrite hasChar_append, Hr, (IH _ Hs). reflexivity.
  - cbn [hasChar]. rewrite Hd, (IH _ Hs). reflexivity.
Qed.

Lemma collapse_spaces_free (inRun : bool) (s : string) :
  hasChar "<" s = false -> hasChar "<" (collapse_spaces inRun s) = false.
Proof.
  revert inRun. induction s as [|d s IH]; intros inRun Hs; [reflexivity|].
  cbn [hasChar] in Hs. apply orb_false_iff in Hs. destruct Hs as [Hd Hs].
  cbn [collapse_spaces]. destruct (is_space d).
  - destruct inRun; [apply IH, Hs|]. cbn [hasChar]. rewrite (IH _ Hs). reflexivity.
  - cbn [hasChar]. rewrite Hd, (IH _ Hs). reflexivity.
Qed.

Lemma trimStart_free (c : ascii) (s : string) :
  hasChar c s = false -> hasChar c (trimStart s) = false.
Proof.
  induction s as [|d s IH]; intros Hs; [reflexivity|].
  cbn [trimStart]. destruct (is_space d); [|exact Hs].
  cbn [hasChar] in Hs. apply orb_false_iff in Hs. apply IH, Hs.
Qed.

Lemma trimEnd_free (c : ascii) (s : string) :
  hasChar c s = false -> hasChar c (trimEnd s) = false.
Proof.
  induction s as [|d s IH]; intros Hs; [reflexivity|].
  cbn [hasChar] in Hs. apply orb_false_iff in Hs. destruct Hs as [Hd Hs].
  cbn [trimEnd]. specialize (IH Hs). destruct (trimEnd s) as [|e kept].
  - destruct (is_space d); [reflexivity|]. cbn [hasChar]. rewrite Hd. reflexivity.
  - cbn [hasChar] in *. rewrite Hd. exact IH.
Qed.

Lemma trim_free (c : ascii) (s : string) : hasChar c s = false -> hasChar c (trim s) = false.
Proof. intros Hs. apply trimEnd_free, trimStart_free, Hs. Qed.

Lemma substring_free (c : ascii) (n m : nat) (s : string) :
  hasChar c s = false -> hasChar c (substring n m s) = false.
Proof.
  revert n m. induction s as [|d s IH]; intros n m Hs.
  - destruct n, m; reflexivity.
  - cbn [hasChar] in Hs. apply orb_false_iff in Hs. destruct Hs as [Hd Hs].
    destruct n as [|n]; cbn [substring].
    + destruct m as [|m]; [reflexivity|]. cbn [hasChar]. rewrite Hd, (IH 0%nat m Hs). reflexivity.
    + apply IH, Hs.
Qed.

Lemma span_free (c : ascii) (p : ascii -> bool) (s : string) :
  hasChar c s = false ->
  hasChar c (fst (span p s)) = false /\ hasChar c (snd (span p s)) = false.
Proof.
  induction s as [|d s IH]; intros Hs; [split; reflexivity|].
  cbn [span]. destruct (p d).
  - cbn [hasChar] in Hs. apply orb_false_iff in Hs. destruct Hs as [Hd Hs].
    destruct (IH Hs) as [H1 H2]. destruct (span p s) as [taken after]. cbn [fst snd] in *.
    split; [|exact H2]. cbn [hasChar]. rewrite Hd, H1. reflexivity.
  - split; [reflexivity|exact Hs].
Qed.

Lemma headMatch_free (cleaned group1 group2 : string) :
  hasChar "<" cleaned = false -> headMatch cleaned = Some (group1, group2) ->
  hasChar "<" group2 = false.
Proof.
  intros Hc. unfold headMatch. destruct (String.prefix "Head" cleaned); [|discriminate].
  pose proof (span_free "<" is_space _ (substring_free "<" 4 (String.length cleaned - 4) _ Hc))
    as [_ H1].
  destruct (span is_space _) as [spaces after_spaces]. cbn [snd] in H1.
  pose proof (span_free "<" is_letter _ H1) as [_ H2].
  destruct (span is_letter after_spaces) as [letters remainder]. cbn [snd] in H2.
  destruct spaces; [discriminate|]. destruct letters; [discriminate|].
  intros [= _ <-]. exact H2.
Qed.

Lemma replace_leading_on_free (remainder : string) :
  hasChar "<" remainder = false -> hasChar "<" (replace_leading_on remainder) = false.
Proof.
  intros Hr. unfold replace_leading_on.
  destruct (String.prefix "on" _); [|exact Hr].
  pose proof (span_free "<" is_space _
                (substring_free "<" 2 (String.length remainder - 2) _ Hr)) as [_ H].
  destruct (span is_space _) as [spaces after]. cbn [snd] in H.
  destruct spaces; [exact Hr|]. rewrite hasChar_append, H. reflexivity.
Qed.

Lemma normalizeInstruction_free (value : string) :
  hasChar "<" (normalizeInstruction value) = false.
Proof.
  unfold normalizeInstruction. cbv zeta.
  set (cleaned := trim (collapse_spaces false (stripHtmlTags value))).
  assert (Hc : hasChar "<" cleaned = false).
  { apply trim_free, collapse_spaces_free. unfold stripHtmlTags.
    apply replace_all_free; [reflexivity|apply strip_tags_free]. }
  destruct (headMatch cleaned) as [[group1 group2]|] eqn:Hm; [|exact Hc].
  destruct (existsb _ straightWords); [|exact Hc].
  apply trim_free. rewrite hasChar_append. cbn [orb hasChar Ascii.eqb].
  pose proof (trim_free "<" group2 (headMatch_free cleaned group1 group2 Hc Hm)) as Hg.
  destruct (trim group2) as [|c rest] eqn:Hrem; [reflexivity|].
  rewrite hasChar_append. cbn [hasChar orb Ascii.eqb].
  apply replace_leading_on_free, Hg.
Qed.

Lemma normalizeInstruction_trimmed (value : string) :
  trim (normalizeInstruction value) = normalizeInstruction value.
Proof.
  unfold normalizeInstruction. cbv zeta.
  destruct (headMatch _) as [[group1 group2]|]; [|apply trim_idempotent].
  destruct (existsb _ straightWords); apply trim_idempotent.
Qed.

Lemma readStep_presentable (step : option GoogleStep) (pushed : list RouteStepInfo) :
  readStep step = Normal pushed -> Forall presentable pushed.
Proof.
  unfold readStep. destruct step as [st|]; cbn [deref bind]; [|discriminate].
  cbv zeta.
  set (raw := match html_instructions st with Some html => html | None => "" end).
  destruct raw as [|c rest] eqn:Hraw; [intros [= <-]; constructor|].
  rewrite <- Hraw. clear c rest Hraw.
  destruct (normalizeInstruction raw) as [|c rest] eqn:Hn; [intros [= <-]; constructor|].
  rewrite <- Hn.
  destruct (end_location st) as [[[lat|] [lng|]]|]; try (intros [= <-]; constructor).
  destruct (Number_isFinite lat) eqn:Hlat; cbn [andb]; [|intros [= <-]; constructor].
  destruct (Number_isFinite lng) eqn:Hlng; [|intros [= <-]; constructor].
  intros [= <-]. constructor; [|constructor].
  unfold presentable. cbn [instruction turnType endLocation latitude longitude].
  repeat split; try assumption.
  - rewrite Hn. discriminate.
  - apply normalizeInstruction_free.
  - apply normalizeInstruction_trimmed.
Qed.

Lemma forEach_Forall {A B : Type} (P : B -> Prop) (f : A -> Completion (list B)) (l : list A)
    (result : list B) :
  (forall a pushed, f a = Normal pushed -> Forall P pushed) ->
  forEach f l = Normal result -> Forall P result.
Proof.
  intros Hf. revert result. induction l as [|a l IH]; intros result; cbn [forEach].
  - intros [= <-]. constructor.
  - destruct (f a) as [pushed|] eqn:Ha; cbn [bind]; [|discriminate].
    destruct (forEach f l) as [more|]; cbn [bind]; [|discriminate].
    intros [= <-]. apply Forall_app. split; [apply (Hf a), Ha|apply IH; reflexivity].
Qed.

Lemma readLeg_presentable (leg : option GoogleLeg) (pushed : list RouteStepInfo) :
  readLeg leg = Normal pushed -> Forall presentable pushed.
Proof.
  unfold readLeg. destruct leg as [l|]; cbn [deref bind]; [|discriminate].
  apply forEach_Forall. apply readStep_presentable.
Qed.

Lemma tryGoogle_presentable (reply : Reply GoogleData) (route : RouteResult) :
  tryGoogle reply = Normal (Some route) -> Forall presentable (steps route).
Proof.
  unfold tryGoogle. destruct reply as [|data]; [discriminate|].
  destruct data as [d|]; cbn [deref bind]; [|discriminate].
  destruct d as [[|first rest]|]; try discriminate.
  destruct first as [r|]; cbn [deref bind]; [|discriminate].
  destruct (overview_polyline r) as [polyline|]; cbn [deref bind]; [|discriminate].
  destruct (decodePolyline_any polyline) as [points|]; cbn [bind]; [|discriminate].
  destruct (forEach readLeg _) as [found|] eqn:Hf; cbn [bind]; [|discriminate].
  intros [= <-]. cbn [steps]. eapply forEach_Forall; [|exact Hf]. apply readLeg_presentable.
Qed.

(** Every step of every route that [getDirections] returns is fit for
    guidance: its instruction is not empty, holds no ["<"] (no tag, whole
    or cut short, survives), has no white space at either end, its turn
    type is the one read off that instruction, and its end has two finite
    coordinates.  Steps of the reply that lack an instruction or a finite
    end are left out. *)
Theorem route_steps_are_presentable (origin destination : LatLng N)
    (google : Reply GoogleData) (osrm : Reply OsrmData) :
  exists route,
    getDirections origin destination google osrm = Normal route /\
    Forall presentable (steps route) /\
    (forall value, includes "<" (normalizeInstruction value) = false).
Proof.
  assert (Hinc : forall value, includes "<" (normalizeInstruction value) = false).
  { intros value. pose proof (normalizeInstruction_free value) as H.
    induction (normalizeInstruction value) as [|c s IH]; [reflexivity|].
    cbn [hasChar] in H. apply orb_false_iff in H. destruct H as [Hc Hs].
    cbn [includes String.prefix]. rewrite (IH Hs), orb_false_r.
    destruct (ascii_dec "<" c) as [<-|_]; [discriminate Hc|reflexivity]. }
  unfold getDirections.
  destruct (tryGoogle google) as [[first|]|] eqn:Hg; cbn [try_catch bind].
  - exists first. split; [reflexivity|]. split; [exact (tryGoogle_presentable _ _ Hg)|exact Hinc].
  - destruct (tryOsrm osrm) as [[second|]|] eqn:Ho; cbn [try_catch bind];
      eexists; (split; [reflexivity|]); (split; [|exact Hinc]).
    + rewrite (tryOsrm_no_steps osrm second Ho). constructor.
    + constructor.
    + constructor.
  - destruct (tryOsrm osrm) as [[second|]|] eqn:Ho; cbn [try_catch bind];
      eexists; (split; [reflexivity|]); (split; [|exact Hinc]).
    + rewrite (tryOsrm_no_steps osrm second Ho). constructor.
    + constructor.
    + constructor.
Qed.
End StepFacts.

Lemma route_steps_are_presentable_witness :
  (exists route,
     CustomerDetailScreen.getDirections (F := Binary64.format) Trip.pickupPoint Trip.dropPoint
       RouteSteps.tagged CustomerDetailScreen.request_failed = Normal route /\
     Forall (RouteSteps.presentable (F := Binary64.format)) (CustomerDetailScreen.steps route) /\
     (forall value, includes "<" (normalizeInstruction value) = false)) /\
  match CustomerDetailScreen.getDirections (F := Binary64.format) Trip.pickupPoint Trip.dropPoint
          RouteSteps.tagged CustomerDetailScreen.request_failed with
  | Normal route => map CustomerDetailScreen.instruction (CustomerDetailScreen.steps route)
  | Throw => []
  end = ["Turn left onto Brigade Road"%string].
Proof.
  split.
  - apply (route_steps_are_presentable (F := Binary64.format)).
  - vm_compute. reflexivity.
Defined.

(** ** The life of the driver's screen *)

Section ScreenFacts.
Context {N : JsNumber} {M : JsMath N}.
Import LocationScreen ScreenSession.

Lemma screen_orderly_mount : orderly (store (mount (N := N))).
Proof.
  split; [|split; [|split]].
  - intros [|i] w H; discriminate H.
  - intros t [].
  - constructor.
  - intros t [].
Qed.

(** The invariant reads seven of the store's fields only. *)
Lemma screen_orderly_ext (st st' : Store) :
  webSocketRef st' = webSocketRef st -> sockets st' = sockets st ->
  timers st' = timers st -> nextTimer st' = nextTimer st ->
  (forall kind, refOf kind st' = refOf kind st) ->
  orderly st -> orderly st'.
Proof.
  unfold orderly. intros -> -> -> -> Hr (H1 & H2 & H3 & H4).
  split; [exact H1|]. split; [exact H2|]. split; [exact H3|].
  intros t Ht. rewrite Hr. apply H4, Ht.
Qed.

(** A change of the sockets that turns no socket live, except possibly the
    one [webSocketRef] refers to, keeps the store orderly. *)
Lemma screen_orderly_sockets (st : Store) (i : nat)
    (f : WebSocket N Render -> WebSocket N Render) :
  (webSocketRef st = Some i \/
   forall w, TrackingSession.is_live (f w) = true -> TrackingSession.is_live w = true) ->
  orderly st -> orderly (with_sockets (update_nth i f) st).
Proof.
  intros Hf (H1 & H2). split; [|exact H2].
  cbn [with_sockets webSocketRef sockets]. intros j w Hj Hl.
  rewrite nth_error_update_nth in Hj. destruct (Nat.eqb_spec i j) as [->|Hne].
  - destruct (nth_error (sockets st) j) as [w0|] eqn:E; [|discriminate]. injection Hj as <-.
    destruct Hf as [Hf|Hf]; [exact Hf|]. apply (H1 j w0 E). apply Hf, Hl.
  - exact (H1 j w Hj Hl).
Qed.

Lemma screen_orderly_ref_send (m : Message N) (st : Store) : orderly st -> orderly (ref_send m st).
Proof.
  intro H. unfold ref_send. destruct (webSocketRef st) as [i|] eqn:E; [|exact H].
  apply screen_orderly_sockets; [|exact H]. left. exact E.
Qed.

Lemma ref_send_fields (m : Message N) (st : Store) :
  webSocketRef (ref_send m st) = webSocketRef st /\
  timers (ref_send m st) = timers st /\ nextTimer (ref_send m st) = nextTimer st /\
  forall kind, refOf kind (ref_send m st) = refOf kind st.
Proof.
  unfold ref_send. destruct (webSocketRef st) eqn:E; cbn; rewrite ?E;
    repeat split; intros []; reflexivity.
Qed.

Lemma sendLocationUpdate_fields (r : Render) (st : Store) :
  webSocketRef (sendLocationUpdate r st) = webSocketRef st /\
  timers (sendLocationUpdate r st) = timers st /\
  nextTimer (sendLocationUpdate r st) = nextTimer st /\
  forall kind, refOf kind (sendLocationUpdate r st) = refOf kind st.
Proof.
  unfold sendLocationUpdate. destruct (negb (socket_open st)); [auto|].
  destruct (String.eqb _ _); [auto|]. destruct (currentPosition r); [|auto].
  apply ref_send_fields.
Qed.

Lemma screen_orderly_sendLocationUpdate (r : Render) (st : Store) :
  orderly st -> orderly (sendLocationUpdate r st).
Proof.
  intro H. unfold sendLocationUpdate. destruct (negb (socket_open st)); [exact H|].
  destruct (String.eqb _ _); [exact H|]. destruct (currentPosition r); [|exact H].
  apply screen_orderly_ref_send, H.
Qed.

Lemma screen_orderly_heartbeat (st : Store) : orderly st -> orderly (heartbeat st).
Proof.
  intro H. unfold heartbeat. destruct (socket_open st); [|exact H].
  apply screen_orderly_ref_send, H.
Qed.

(** Clearing the timer that the ref of a kind holds, whatever that ref is
    set to afterwards. *)
Lemma screen_orderly_cleared (kind : TimerKind) (id : nat) (st st' : Store) :
  webSocketRef st' = webSocketRef st -> sockets st' = sockets st ->
  nextTimer st' = nextTimer st -> timers st' = clearTimer id (timers st) ->
  refOf kind st = Some id ->
  (forall other, other <> kind -> refOf other st' = refOf other st) ->
  orderly st -> orderly st'.
Proof.
  intros Hw Hs Hn Ht Hk Ho (H1 & H2 & H3 & H4).
  unfold orderly. rewrite Hw, Hs, Hn, Ht.
  split; [exact H1|]. split; [|split].
  - intros t Hin. apply clearTimer_In in Hin. apply H2, Hin.
  - apply NoDup_clearTimer, H3.
  - intros t Hin. apply clearTimer_In in Hin. destruct Hin as [Hin Hne].
    specialize (H4 t Hin).
    assert (Hd : kindOf t <> kind) by (intros E; rewrite E in H4; congruence).
    rewrite (Ho _ Hd). exact H4.
Qed.

(** Replacing the timer that the ref of a kind holds, if any, by a new one
    of that kind. *)
Lemma screen_orderly_replaced (kind : TimerKind) (delay : Z) (action : Action) (st st' : Store) :
  webSocketRef st' = webSocketRef st -> sockets st' = sockets st ->
  nextTimer st' = S (nextTimer st) ->
  timers st' =
    (match refOf kind st with Some h => clearTimer h (timers st) | None => timers st end)
    ++ [{| timer_id := nextTimer st; timer_delay := delay; timer_action := action |}] ->
  kindOf {| timer_id := nextTimer st; timer_delay := delay; timer_action := action |} = kind ->
  refOf kind st' = Some (nextTimer st) ->
  (forall other, other <> kind -> refOf other st' = refOf other st) ->
  orderly st -> orderly st'.
Proof.
  intros Hw Hs Hn Ht Hnew Hk Ho (H1 & H2 & H3 & H4).
  set (cleared := match refOf kind st with
                  | Some h => clearTimer h (timers st)
                  | None => timers st
                  end) in *.
  assert (Hsub : forall t, In t cleared -> In t (timers st) /\ kindOf t <> kind).
  { intros t Hin. subst cleared. destruct (refOf kind st) as [h|] eqn:E.
    - apply clearTimer_In in Hin. destruct Hin as [Hin Hne]. split; [exact Hin|].
      intros Ek. specialize (H4 t Hin). rewrite Ek in H4. congruence.
    - split; [exact Hin|]. intros Ek. specialize (H4 t Hin). rewrite Ek in H4. congruence. }
  assert (Hnd : NoDup (map timer_id cleared)).
  { subst cleared. destruct (refOf kind st); [apply NoDup_clearTimer|]; exact H3. }
  clearbody cleared.
  unfold orderly. rewrite Hw, Hs, Hn, Ht.
  split; [exact H1|]. split; [|split].
  - intros t Hin. apply in_app_or in Hin. destruct Hin as [Hin|[<-|[]]].
    + specialize (H2 t (proj1 (Hsub t Hin))). lia.
    + cbn. lia.
  - apply (NoDup_new_timer _ _ (nextTimer st)); [exact Hnd| |reflexivity].
    intros u Hu. apply H2, Hsub, Hu.
  - intros t Hin. apply in_app_or in Hin. destruct Hin as [Hin|[<-|[]]].
    + destruct (Hsub t Hin) as [Hin' Hd]. rewrite (Ho _ Hd). apply H4, Hin'.
    + rewrite Hnew. exact Hk.
Qed.

Lemma screen_orderly_stopBroadcasting (st : Store) :
  orderly st -> orderly (stopBroadcasting st).
Proof.
  intro H. unfold stopBroadcasting. destruct (broadcastIntervalRef st) as [id|] eqn:E; [|exact H].
  apply (screen_orderly_cleared broadcast_interval id st); try reflexivity; [exact E| |exact H].
  intros [] Hne; try reflexivity. congruence.
Qed.

Lemma screen_orderly_clearHeartbeat (st : Store) : orderly st -> orderly (clearHeartbeat st).
Proof.
  intro H. unfold clearHeartbeat. destruct (heartbeatRef st) as [id|] eqn:E; [|exact H].
  apply (screen_orderly_cleared heartbeat_interval id st); try reflexivity; [exact E| |exact H].
  intros [] Hne; try reflexivity. congruence.
Qed.

Lemma screen_orderly_startBroadcasting (r : Render) (st : Store) :
  orderly st -> orderly (startBroadcasting r st).
Proof.
  intro H. unfold startBroadcasting.
  destruct (broadcastIntervalRef st) as [id|] eqn:E; [exact H|].
  destruct (negb (isTracking r)); [exact H|]. cbv zeta.
  pose proof (screen_orderly_sendLocationUpdate r st H) as H1.
  destruct (sendLocationUpdate_fields r st) as (_ & _ & _ & Hr).
  pose proof (Hr broadcast_interval) as Hb. cbn [refOf] in Hb. rewrite E in Hb.
  set (st1 := sendLocationUpdate r st) in *. clearbody st1.
  cbn [setTimer].
  apply (screen_orderly_replaced broadcast_interval BROADCAST_INTERVAL_MS
           (run_sendLocationUpdate r) st1); try reflexivity; [| |exact H1].
  - cbn [refOf]. rewrite Hb. reflexivity.
  - intros [] Hne; try reflexivity. congruence.
Qed.

Lemma screen_orderly_onopen (r : Render) (id : nat) (c : Component) :
  orderly (with_sockets (update_nth id (set_readyState OPEN)) (store c)) ->
  webSocketRef (store c) = Some id ->
  orderly (store (onopen r id {| render := render c;
                                 store := with_sockets (update_nth id (set_readyState OPEN))
                                            (store c) |})).
Proof.
  intros H Hw. unfold onopen. cbv zeta. cbn [store].
  set (st := with_sockets (update_nth id (set_readyState OPEN)) (store c)) in *.
  assert (Hw' : webSocketRef st = Some id) by exact Hw.
  clearbody st.
  set (st1 := match heartbeatRef st with Some h => with_timers (clearTimer h) st | None => st end).
  cbn [setTimer].
  match goal with |- orderly (store {| render := _; store := if _ then startBroadcasting r ?a else ?a |}) =>
    assert (H5 : orderly a) end.
  { match goal with |- orderly (match _ with Some _ => _ | None => match _ with Some _ => _ | None => match _ with Some _ => _ | None => ?b end end end) =>
      assert (H4 : orderly b) end.
    { apply screen_orderly_sockets.
      - left. subst st1. destruct (heartbeatRef st); exact Hw'.
      - apply (screen_orderly_replaced heartbeat_interval 25000 run_heartbeat st).
        + subst st1. destruct (heartbeatRef st); reflexivity.
        + subst st1. destruct (heartbeatRef st); reflexivity.
        + subst st1. destruct (heartbeatRef st); reflexivity.
        + subst st1. cbn [refOf]. destruct (heartbeatRef st); reflexivity.
        + reflexivity.
        + subst st1. destruct (heartbeatRef st); reflexivity.
        + intros [] Hne; try congruence; subst st1; destruct (heartbeatRef st); reflexivity.
        + exact H. }
    destruct (currentPosition r), (pickupCoordinate r), (dropCoordinate r);
      try exact H4; apply screen_orderly_sendLocationUpdate, H4. }
  cbn [store]. destruct (isTracking r); [apply screen_orderly_startBroadcasting|]; exact H5.
Qed.

Lemma screen_orderly_onclose (r : Render) (c : Component) :
  orderly (store c) -> orderly (store (onclose r c)).
Proof.
  intro H. unfold onclose. cbv zeta.
  pose proof (screen_orderly_stopBroadcasting _ (screen_orderly_clearHeartbeat _ H)) as H1.
  set (st1 := stopBroadcasting (clearHeartbeat (store c))) in *. clearbody st1.
  cbn [setTimer store].
  apply (screen_orderly_replaced reconnect_timeout WS_RECONNECT_DELAY_MS (run_reconnect r) st1);
    [ cbn [refOf]; destruct (reconnectTimeoutRef st1); reflexivity ..
    | intros [] Hne; try congruence; destruct (reconnectTimeoutRef st1); reflexivity
    | exact H1 ].
Qed.

Lemma screen_orderly_connectWebSocket (r : Render) (c : Component) :
  orderly (store c) -> orderly (store (connectWebSocket r c)).
Proof.
  intro H. unfold connectWebSocket. destruct (String.eqb _ _); [exact H|]. cbv zeta.
  assert (Hnew : (forall w, current (store c) = Some w -> TrackingSession.is_live w = false) ->
                 orderly (set_webSocketRef (Some (List.length (sockets (store c))))
                            (with_sockets (fun l => l ++ [new_socket r]) (store c)))).
  { intro Hc. destruct H as (H1 & H2). split; [|exact H2].
    cbn [set_webSocketRef with_sockets webSocketRef sockets]. intros j w Hj Hl.
    destruct (Nat.lt_ge_cases j (List.length (sockets (store c)))) as [Hlt|Hge].
    - rewrite nth_error_app1 in Hj by exact Hlt.
      pose proof (H1 j w Hj Hl) as Hw. exfalso.
      assert (current (store c) = Some w) as Hcur by (unfold current; rewrite Hw; exact Hj).
      rewrite (Hc w Hcur) in Hl. discriminate.
    - rewrite nth_error_app2 in Hj by exact Hge.
      destruct (j - List.length (sockets (store c)))%nat as [|k] eqn:E.
      + f_equal. lia.
      + destruct k; discriminate Hj. }
  destruct (current (store c)) as [[[] o code h]|] eqn:E; try exact H; cbn [store]; apply Hnew;
    intros w [= <-]; reflexivity || discriminate.
Qed.

Lemma screen_orderly_closeWebSocket (r : Render) (c : Component) :
  orderly (store c) -> orderly (store (closeWebSocket r c)).
Proof.
  intro H. unfold closeWebSocket. cbv zeta. cbn [store].
  match goal with |- orderly (match reconnectTimeoutRef (stopBroadcasting (clearHeartbeat ?a)) with _ => _ end) =>
    set (st1 := a) end.
  assert (H1 : orderly st1).
  { subst st1. destruct (webSocketRef (store c)) as [i|] eqn:E; [|exact H].
    set (st' := if socket_open (store c) then ref_send _ (store c) else store c).
    assert (Hs : orderly st') by (subst st'; destruct (socket_open (store c));
                                  [apply screen_orderly_ref_send|]; exact H).
    assert (Hw : webSocketRef st' = Some i).
    { subst st'. destruct (socket_open (store c)); [|exact E].
      rewrite (proj1 (ref_send_fields _ _)). exact E. }
    clearbody st'. destruct Hs as (Ha & Hb). split; [|exact Hb].
    cbn [set_webSocketRef with_sockets webSocketRef sockets]. intros j w Hj Hl. exfalso.
    rewrite nth_error_update_nth in Hj. destruct (Nat.eqb_spec i j) as [->|Hne].
    - destruct (nth_error (sockets st') j); [|discriminate]. injection Hj as <-.
      rewrite is_live_close in Hl. discriminate.
    - pose proof (Ha j w Hj Hl). congruence. }
  clearbody st1.
  pose proof (screen_orderly_stopBroadcasting _ (screen_orderly_clearHeartbeat _ H1)) as H2.
  set (st2 := stopBroadcasting (clearHeartbeat st1)) in *. clearbody st2.
  destruct (reconnectTimeoutRef st2) as [id|] eqn:E; [|exact H2].
  apply (screen_orderly_cleared reconnect_timeout id st2); try reflexivity; [exact E| |exact H2].
  intros [] Hne; try reflexivity. congruence.
Qed.

Lemma findTimer_id {A : Type} (id : nat) (l : list (Timer A)) (t : Timer A) :
  findTimer id l = Some t -> timer_id t = id.
Proof.
  unfold findTimer. intro H. apply find_some in H. destruct H as [_ H].
  apply Nat.eqb_eq, H.
Qed.

Lemma screen_orderly_step (c : Component) (e : Event) :
  orderly (store c) -> orderly (store (step c e)).
Proof.
  intro H. destruct e; cbn [step store]; try exact H.
  - apply screen_orderly_startBroadcasting, H.
  - destruct (socket_open (store c)); [apply screen_orderly_sendLocationUpdate|]; exact H.
  - unfold connectEffect. destruct (String.eqb _ _); [exact H|].
    apply screen_orderly_connectWebSocket, H.
  - unfold pickupArrivalEffect. cbv zeta.
    destruct (currentPosition (render c)), (pickupCoordinate (render c)); try exact H.
    destruct (_ || _)%bool; [exact H|]. destruct (_ <=? _)%js; [|exact H].
    cbn [store]. revert H. apply screen_orderly_ext; reflexivity.
  - unfold dropArrivalEffect. cbv zeta.
    destruct (currentPosition (render c)), (dropCoordinate (render c)); try exact H.
    destruct (negb _); [exact H|]. destruct (_ <=? _)%js; [|exact H].
    cbn [store]. apply screen_orderly_stopBroadcasting, screen_orderly_sendLocationUpdate, H.
  - unfold phaseBroadcastEffect. cbv zeta. destruct (TripPhase_eqb _ _); [exact H|].
    cbn [store]. apply screen_orderly_sendLocationUpdate, H.
  - destruct (last _ None) as [r|]; [|exact H].
    cbn [pressStartDropNavigation store]. apply screen_orderly_sendLocationUpdate, H.
  - destruct (nth_error (sockets (store c)) id) as [[[] o code [r|]]|] eqn:E; try exact H.
    assert (Hw : webSocketRef (store c) = Some id) by (apply (proj1 H id _ E); reflexivity).
    apply screen_orderly_onopen; [|exact Hw].
    apply screen_orderly_sockets; [left; exact Hw|exact H].
  - destruct (nth_error (sockets (store c)) id) as [[[] o code [r|]]|] eqn:E; try exact H;
      try (apply screen_orderly_onclose; cbn [store]);
      cbn [store]; (apply screen_orderly_sockets; [|exact H]; right; intros w Hw; discriminate Hw).
  - destruct (findTimer id (timers (store c))) as [[j d [ |r|r]]|] eqn:E; try exact H; cbn [store].
    + apply screen_orderly_heartbeat, H.
    + apply screen_orderly_sendLocationUpdate, H.
    + apply screen_orderly_connectWebSocket. cbn [store].
      pose proof (findTimer_In _ _ _ E) as Hin. pose proof (findTimer_id _ _ _ E) as Hid.
      cbn [timer_id] in Hid. subst j.
      apply (screen_orderly_cleared reconnect_timeout id (store c)); try reflexivity; [| |exact H].
      * exact (proj2 (proj2 (proj2 H)) _ Hin).
      * intros [] Hne; try reflexivity. congruence.
  - apply screen_orderly_closeWebSocket, H.
Qed.

Lemma screen_orderly_run (events : list Event) : orderly (store (screen events)).
Proof.
  unfold screen, run. generalize screen_orderly_mount. generalize (mount (N := N)).
  induction events as [|e l IH]; intros c H; [exact H|].
  cbn [fold_left]. apply IH, screen_orderly_step, H.
Qed.

(** Whatever happens to the driver's screen, in any order (identity
    loaded, trip submitted, positions, effects, dialog buttons, sockets
    opening and closing, timers firing, unmounting), it never has two
    connections that are open or connecting, nor two timers of a kind: of
    the sockets it created only the one [webSocketRef] refers to can be
    live, and every heartbeat interval, broadcast interval or reconnection
    timeout is the one the ref of its kind holds. *)
Theorem screen_keeps_one_of_each :
  forall events : list Event,
    let st := store (screen events) in
    (forall i j wi wj,
       nth_error (sockets st) i = Some wi -> nth_error (sockets st) j = Some wj ->
       TrackingSession.is_live wi = true -> TrackingSession.is_live wj = true ->
       i = j /\ webSocketRef st = Some i) /\
    (forall t u, In t (timers st) -> In u (timers st) -> kindOf t = kindOf u ->
       t = u /\ refOf (kindOf t) st = Some (timer_id t)).
Proof.
  intros events st. destruct (screen_orderly_run events) as (H1 & H2 & H3 & H4).
  fold st in H1, H2, H3, H4.
  assert (Hid : forall t u, In t (timers st) -> In u (timers st) -> timer_id t = timer_id u -> t = u).
  { clear - H3. induction (timers st) as [|x l IH]; intros t u Ht Hu E; [destruct Ht|].
    cbn in H3. inversion H3 as [|y ys Hy Hys]; subst.
    destruct Ht as [<-|Ht], Hu as [<-|Hu]; try reflexivity.
    - exfalso. apply Hy. rewrite E. apply in_map, Hu.
    - exfalso. apply Hy. rewrite <- E. apply in_map, Ht.
    - apply IH; assumption. }
  split.
  - intros i j wi wj Hi Hj Li Lj. pose proof (H1 i wi Hi Li). pose proof (H1 j wj Hj Lj).
    split; [congruence|assumption].
  - intros t u Ht Hu E. pose proof (H4 t Ht) as Pt. pose proof (H4 u Hu) as Pu.
    split; [|exact Pt]. apply Hid; [exact Ht|exact Hu|]. rewrite E in Pt. congruence.
Qed.
End ScreenFacts.

Lemma screen_keeps_one_of_each_witness :
  let events :=
    [LocationScreen.metadata_loaded (N := Binary64.number) "driver-7" "MH12AB1234";
     LocationScreen.effect_connect;
     LocationScreen.socket_opened 0;
     LocationScreen.unmount;
     LocationScreen.socket_closed 0;
     LocationScreen.timer_fired 2] in
  let st := LocationScreen.store (ScreenSession.screen (M := Binary64.reference) events) in
  option_map (TrackingSession.is_live (C := LocationScreen.Render))
    (nth_error (LocationScreen.sockets st) 1) = Some true /\
  LocationScreen.webSocketRef st = Some 1%nat.
Proof.
  cbv zeta. split; [reflexivity|].
  match goal with |- LocationScreen.webSocketRef (LocationScreen.store (ScreenSession.screen ?e)) = _ =>
    destruct (screen_keeps_one_of_each (M := Binary64.reference) e) as (H & _)
  end.
  eapply (H 1%nat 1%nat); reflexivity.
Defined.

(** ** Geocoding with a cache *)

Section GeocodeFacts.
Context {N : JsNumber} {F : JsFormat N}.
Variable parseFloat : string -> num.
Import Geocoding.
Local Open Scope string_scope.

Lemma get_set_same (key : string) (value : LatLng N) (cache : Cache) :
  get key cache = None -> get key (set key value cache) = Some value.
Proof.
  unfold get, set. intro Hg.
  assert (Hf : find (fun entry : string * LatLng N => String.eqb (fst entry) key) cache = None).
  { destruct (find _ cache); [discriminate|reflexivity]. }
  assert (He : existsb (fun entry : string * LatLng N => String.eqb (fst entry) key) cache = false).
  { clear Hg. induction cache as [|e l IH]; [reflexivity|]. cbn in *.
    destruct (String.eqb (fst e) key); [discriminate|]. apply IH, Hf. }
  rewrite He. clear Hg He. induction cache as [|e l IH].
  - cbn. rewrite String.eqb_refl. reflexivity.
  - cbn in *. destruct (String.eqb (fst e) key); [discriminate|]. apply IH, Hf.
Qed.

Lemma get_set_other (key other : string) (value : LatLng N) (cache : Cache) :
  other <> key -> get other (set key value cache) = get other cache.
Proof.
  intro Hne. unfold get, set. f_equal.
  assert (Hk : String.eqb key other = false) by (apply String.eqb_neq; congruence).
  destruct (existsb _ cache).
  - induction cache as [|e l IH]; [reflexivity|]. cbn.
    destruct (String.eqb (fst e) key) eqn:E.
    + cbn. rewrite Hk. apply String.eqb_eq in E. rewrite E, Hk. exact IH.
    + destruct (String.eqb (fst e) other); [reflexivity|exact IH].
  - induction cache as [|e l IH]; cbn.
    + rewrite Hk. reflexivity.
    + destruct (String.eqb (fst e) other); [reflexivity|exact IH].
Qed.

Lemma get_set (key : string) (value : LatLng N) (cache : Cache) :
  get key (set key value cache) = Some value.
Proof.
  unfold get, set.
  destruct (existsb _ cache) eqn:He.
  - induction cache as [|e l IH]; [discriminate|]. cbn in *.
    destruct (String.eqb (fst e) key) eqn:E.
    + cbn. rewrite String.eqb_refl. reflexivity.
    + cbn. rewrite E. apply IH. exact He.
  - induction cache as [|e l IH].
    + cbn. rewrite String.eqb_refl. reflexivity.
    + cbn in *. destruct (String.eqb (fst e) key); [discriminate|]. apply IH, He.
Qed.

Lemma afterGoogle_keeps (cacheKey key : string) (reply : GoogleGeocode) (cache : Cache)
    (p : LatLng N) :
  cacheKey <> key -> get key cache = Some p ->
  get key (snd (afterGoogle cacheKey reply cache)) = Some p.
Proof.
  intros Hne Hk. unfold afterGoogle. destruct reply as [|[|first rest]]; try exact Hk.
  cbn [snd]. rewrite get_set_other by congruence. exact Hk.
Qed.

Lemma afterOsm_keeps (cacheKey key : string) (reply : OsmGeocode) (cache : Cache)
    (p : LatLng N) :
  cacheKey <> key -> get key cache = Some p ->
  get key (snd (afterOsm parseFloat cacheKey reply cache)) = Some p.
Proof.
  intros Hne Hk. unfold afterOsm. destruct reply as [|[|[lat lon] rest]]; try exact Hk.
  cbv zeta. destruct (_ && _)%bool; [|exact Hk].
  cbn [snd]. rewrite get_set_other by congruence. exact Hk.
Qed.

Lemma afterGoogle_stage (cacheKey : string) (reply : GoogleGeocode) (cache : Cache)
    (stage : Stage) (other : string) :
  fst (afterGoogle cacheKey reply cache) = awaiting stage other -> other = cacheKey.
Proof.
  unfold afterGoogle. destruct reply as [|[|first rest]]; cbn [fst]; congruence.
Qed.

Lemma afterOsm_stage (cacheKey : string) (reply : OsmGeocode) (cache : Cache)
    (stage : Stage) (other : string) :
  fst (afterOsm parseFloat cacheKey reply cache) = awaiting stage other -> other = cacheKey.
Proof.
  unfold afterOsm. destruct reply as [|[|[lat lon] rest]]; cbn [fst]; try congruence.
  cbv zeta. destruct (_ && _)%bool; cbn [fst]; congruence.
Qed.

Lemma settled_resume (key cacheKey : string) (call : nat) (outcome : Progress * Cache)
    (s : Session) :
  settled key s -> cacheKey <> key ->
  (forall stage other, fst outcome = awaiting stage other -> other = cacheKey) ->
  settled key (resume call outcome s).
Proof.
  intros Hs Hne Ho id stage other. unfold resume. cbn [calls].
  rewrite nth_error_update_nth. destruct (Nat.eqb call id).
  - destruct (nth_error (calls s) id); cbn [option_map]; [|discriminate].
    intros [= E]. rewrite (Ho _ _ E). exact Hne.
  - apply Hs.
Qed.

Lemma step_keeps (key : string) (p : LatLng N) (s : Session) (e : Event) :
  get key (cache s) = Some p -> settled key s ->
  get key (cache (step parseFloat s e)) = Some p /\ settled key (step parseFloat s e).
Proof.
  intros Hk Hs. destruct e as [address|call reply|call reply]; cbn [step].
  - split; [exact Hk|]. intros id stage other. cbn [calls].
    destruct (Nat.lt_ge_cases id (List.length (calls s))) as [L|L].
    + rewrite nth_error_app1 by exact L. apply Hs.
    + rewrite nth_error_app2 by exact L.
      destruct (id - List.length (calls s))%nat as [|n]; [|destruct n; discriminate].
      cbn [nth_error]. unfold geocodeAddress. cbv zeta.
      destruct (get ("geocode_" ++ toLowerCase address) (cache s)) eqn:G; [discriminate|].
      intros [= _ <-]. intro Heq. assert (G' : get key (cache s) = None) by (rewrite <- Heq; exact G). rewrite G' in Hk. discriminate Hk.
  - destruct (nth_error (calls s) call) as [[|[] cacheKey]|] eqn:E; try (split; assumption).
    pose proof (Hs _ _ _ E) as Hne. split.
    + apply afterGoogle_keeps; assumption.
    + apply (settled_resume key cacheKey); [exact Hs|exact Hne|]. apply afterGoogle_stage.
  - destruct (nth_error (calls s) call) as [[|[] cacheKey]|] eqn:E; try (split; assumption).
    pose proof (Hs _ _ _ E) as Hne. split.
    + apply afterOsm_keeps; assumption.
    + apply (settled_resume key cacheKey); [exact Hs|exact Hne|]. apply afterOsm_stage.
Qed.

Lemma run_keeps (events : list Event) (key : string) (p : LatLng N) (s : Session) :
  get key (cache s) = Some p -> settled key s ->
  get key (cache (run parseFloat s events)) = Some p /\ settled key (run parseFloat s events).
Proof.
  revert s. induction events as [|e l IH]; intros s Hk Hs; [split; assumption|].
  cbn [run fold_left]. destruct (step_keeps key p s e Hk Hs) as [Hk' Hs'].
  apply IH; assumption.
Qed.

Lemma step_google_answered (s : Session) (call : nat) (key : string) (first : LatLng N)
    (rest : list (LatLng N)) :
  nth_error (calls s) call = Some (awaiting awaits_google key) ->
  step parseFloat s (google_answered call (google_results (first :: rest))) =
    {| cache := set key first (cache s);
       calls := update_nth call (fun _ => returned (Some first)) (calls s) |}.
Proof. intro H. cbn [step]. rewrite H. reflexivity. Qed.

Lemma overlapping_calls (s : Session) (address : string) (first second : LatLng N)
    (rest rest' : list (LatLng N)) :
  let key := "geocode_" ++ toLowerCase address in
  let n := List.length (calls s) in
  get key (cache s) = None ->
  let s' := run parseFloat s
              [called address; called address;
               google_answered n (google_results (first :: rest));
               google_answered (S n) (google_results (second :: rest'))] in
  nth_error (calls s') n = Some (returned (Some first)) /\
  nth_error (calls s') (S n) = Some (returned (Some second)) /\
  get key (cache s') = Some second.
Proof.
  cbv zeta. intro Hg. cbn [run fold_left].
  set (key := "geocode_" ++ toLowerCase address) in *.
  set (w := awaiting awaits_google key).
  set (s2 := {| cache := cache s; calls := ((calls s ++ [w]) ++ [w])%list |}).
  assert (E2 : step parseFloat (step parseFloat s (called address)) (called address) = s2).
  { cbn [step cache calls]. unfold geocodeAddress. cbv zeta. fold key. rewrite Hg. reflexivity. }
  rewrite E2.
  assert (H0 : nth_error (calls s2) (List.length (calls s)) = Some w).
  { cbn [calls s2]. rewrite nth_error_app1 by (rewrite length_app; cbn; lia).
    rewrite nth_error_app2 by lia. rewrite Nat.sub_diag. reflexivity. }
  assert (H1 : nth_error (calls s2) (S (List.length (calls s))) = Some w).
  { cbn [calls s2]. rewrite nth_error_app2 by (rewrite length_app; cbn; lia).
    rewrite length_app. cbn [List.length].
    replace (S (List.length (calls s)) - (List.length (calls s) + 1))%nat with 0%nat by lia.
    reflexivity. }
  rewrite (step_google_answered s2 _ key first rest H0).
  set (s3 := {| cache := set key first (cache s2);
                calls := update_nth (List.length (calls s)) (fun _ => returned (Some first))
                           (calls s2) |}).
  assert (H3 : nth_error (calls s3) (S (List.length (calls s))) = Some w).
  { cbn [calls s3]. rewrite nth_error_update_nth.
    replace (Nat.eqb (List.length (calls s)) (S (List.length (calls s)))) with false
      by (symmetry; apply Nat.eqb_neq; lia).
    exact H1. }
  rewrite (step_google_answered s3 _ key second rest' H3). cbn [cache calls].
  split; [|split].
  - rewrite nth_error_update_nth.
    replace (Nat.eqb (S (List.length (calls s))) (List.length (calls s))) with false
      by (symmetry; apply Nat.eqb_neq; lia).
    cbn [calls s3]. rewrite nth_error_update_nth, Nat.eqb_refl, H0. reflexivity.
  - rewrite nth_error_update_nth, Nat.eqb_refl, H3. reflexivity.
  - apply get_set.
Qed.

(** An address that [geocodeAddress] has resolved, with no call for it
    still awaiting a geocoder, keeps its coordinates for as long as the
    cache lives: whatever calls are made and whatever answers arrive
    afterwards, the entry stays, no call for it is left under way, and a
    call for the same address, in any letter case, returns the cached
    coordinates at once. An answer that resolves an address writes it to the
    cache; an answer of the first geocoder without results passes the call
    on to the second, and a call that finds nothing leaves the cache as it
    is. When two calls for one address overlap, both miss the cache, each
    returns what its own geocoder answered, and the later answer replaces
    the entry of the earlier. *)
Theorem geocoded_address_is_remembered :
  (forall (s : Session) (key : string) (p : LatLng N) (events : list Event),
     get key (cache s) = Some p -> settled key s ->
     let s' := run parseFloat s events in
     get key (cache s') = Some p /\ settled key s' /\
     forall address, "geocode_" ++ toLowerCase address = key ->
       geocodeAddress address (cache s') = returned (Some p)) /\
  (forall cacheKey reply (cache : Cache) (p : LatLng N),
     fst (afterGoogle cacheKey reply cache) = returned (Some p) ->
     get cacheKey (snd (afterGoogle cacheKey reply cache)) = Some p) /\
  (forall cacheKey reply (cache : Cache) (p : LatLng N),
     fst (afterOsm parseFloat cacheKey reply cache) = returned (Some p) ->
     get cacheKey (snd (afterOsm parseFloat cacheKey reply cache)) = Some p) /\
  (forall cacheKey reply (cache : Cache) stage other,
     fst (afterGoogle cacheKey reply cache) = awaiting stage other ->
     stage = awaits_osm /\ other = cacheKey /\ snd (afterGoogle cacheKey reply cache) = cache) /\
  (forall cacheKey reply (cache : Cache),
     fst (afterOsm parseFloat cacheKey reply cache) = returned None ->
     snd (afterOsm parseFloat cacheKey reply cache) = cache) /\
  (forall (s : Session) (address : string) (first second : LatLng N) rest rest',
     let key := "geocode_" ++ toLowerCase address in
     let n := List.length (calls s) in
     get key (cache s) = None ->
     let s' := run parseFloat s
                 [called address; called address;
                  google_answered n (google_results (first :: rest));
                  google_answered (S n) (google_results (second :: rest'))] in
     nth_error (calls s') n = Some (returned (Some first)) /\
     nth_error (calls s') (S n) = Some (returned (Some second)) /\
     get key (cache s') = Some second).
Proof.
  split; [|split; [|split; [|split; [|split]]]].
  - intros s key p events Hk Hs. cbv zeta.
    destruct (run_keeps events key p s Hk Hs) as [Hk' Hs'].
    split; [exact Hk'|]. split; [exact Hs'|].
    intros address <-. unfold geocodeAddress. cbv zeta. rewrite Hk'. reflexivity.
  - intros cacheKey reply c p. unfold afterGoogle.
    destruct reply as [|[|first rest]]; cbn [fst snd]; try discriminate.
    intros [= <-]. apply get_set.
  - intros cacheKey reply c p. unfold afterOsm.
    destruct reply as [|[|[lat lon] rest]]; cbn [fst snd]; try discriminate.
    cbv zeta. destruct (_ && _)%bool; cbn [fst snd]; [|discriminate].
    intros [= <-]. apply get_set.
  - intros cacheKey reply c stage other. unfold afterGoogle.
    destruct reply as [|[|first rest]]; cbn [fst snd]; try discriminate;
      intros [= <- <-]; repeat split.
  - intros cacheKey reply c. unfold afterOsm.
    destruct reply as [|[|[lat lon] rest]]; cbn [fst snd]; try reflexivity.
    cbv zeta. destruct (_ && _)%bool; cbn [fst snd]; [discriminate|reflexivity].
  - exact overlapping_calls.
Qed.
End GeocodeFacts.

Lemma geocoded_address_is_remembered_witness :
  let resolved :=
    Geocoding.run (F := Binary64.format) TripSubmission.unparsed
      {| Geocoding.cache := []; Geocoding.calls := [] |}
      [Geocoding.called "MG Road"%string;
       Geocoding.google_answered 0 (Geocoding.google_results [Trip.pickupPoint])] in
  let later :=
    Geocoding.run (F := Binary64.format) TripSubmission.unparsed resolved
      [Geocoding.called "Koramangala"%string;
       Geocoding.called "mg road"%string;
       Geocoding.google_answered 1 (Geocoding.google_results [Trip.dropPoint])] in
  Geocoding.geocodeAddress "mg ROAD"%string (Geocoding.cache later)
    = Geocoding.returned (Some Trip.pickupPoint).
Proof.
  cbv zeta.
  match goal with |- Geocoding.geocodeAddress _ (Geocoding.cache (Geocoding.run _ ?s ?events)) = _ =>
    destruct (proj1 (geocoded_address_is_remembered (F := Binary64.format) TripSubmission.unparsed)
                s "geocode_mg road"%string Trip.pickupPoint events) as (_ & _ & H)
  end.
  - reflexivity.
  - intros [|[|call]] stage cacheKey E; discriminate E.
  - apply H. reflexivity.
Defined.
